(** * Kaleidoscope front end: lexer, parser, AST and IR lowering

    A shallow embedding of [kaleidoscope/lexer_parser_ast_cgen.cpp].  The
    C++ program keeps all of its state in globals and function-local
    statics ([LastChar], [IdentifierStr], [NumVal], [CurTok],
    [BinopPrecedence], [NamedValues], [TheModule], [Builder]); here they are
    the fields of one record, [Globals], threaded through a state monad.
    A null pointer is [None].  Loops that the C++ writes as [while (1)]
    and the mutual recursion of the parser take a [fuel] argument; running
    out of fuel is the outer [None] of the monad and is never a result of
    the program. *)

From Stdlib Require Import ZArith String Ascii List Lia Bool.
From stdpp Require Import gmap strings list fin_maps.

Set Warnings "-register-all".

Local Open Scope Z_scope.

(** ** Characters

    [getchar] returns an [int]: the code of an [unsigned char], or [EOF].
    The predicates of <cctype> are those of the "C" locale. *)

Definition ch (c : ascii) : Z := Z.of_N (N_of_ascii c).
Definition chr (c : Z) : ascii := ascii_of_N (Z.to_N c).

Definition EOF : Z := -1.

Definition isspace (c : Z) : bool := (c =? 32) || ((9 <=? c) && (c <=? 13)).
Definition isupper (c : Z) : bool := (65 <=? c) && (c <=? 90).
Definition islower (c : Z) : bool := (97 <=? c) && (c <=? 122).
Definition isalpha (c : Z) : bool := isupper c || islower c.
Definition isdigit (c : Z) : bool := (48 <=? c) && (c <=? 57).
Definition isalnum (c : Z) : bool := isalpha c || isdigit c.
Definition isascii (c : Z) : bool := Z.land c (Z.lnot 127) =? 0.

Definition nl : string := String (ascii_of_nat 10) EmptyString.

(** ** Lexer *)

Definition tok_eof : Z := -1.
Definition tok_def : Z := -2.
Definition tok_extern : Z := -3.
Definition tok_identifier : Z := -4.
Definition tok_number : Z := -5.

(** [NumVal] is a C [double] obtained from [strtod].  Nothing in the front
    end computes with it, so a [double] is kept as the text handed to
    [strtod]: [strtod s] stands for the value the C library returns on [s]. *)
Inductive double : Type := strtod (NumStr : string).

Record Lexer : Type := mkLexer {
  LastChar : Z;            (* static int LastChar, inside gettok *)
  stdin : string;          (* what getchar() has not read yet *)
  IdentifierStr : string;
  NumVal : double
}.

(** [getchar()]: the next character of the input, [EOF] once it is used up. *)
Definition getchar (input : string) : Z * string :=
  match input with
  | EmptyString => (EOF, EmptyString)
  | String c rest => (ch c, rest)
  end.

(** [while (isspace(LastChar)) LastChar = getchar();]
    At the end of the input [getchar] gives [EOF], which is no space. *)
Fixpoint while_isspace (LastChar : Z) (input : string) {struct input} : Z * string :=
  if isspace LastChar then
    match input with
    | EmptyString => getchar EmptyString
    | String c rest => while_isspace (ch c) rest
    end
  else (LastChar, input).

(** [while (p (LastChar = getchar())) Str += LastChar;] with the buffer,
    the last character read and the rest of the input as result.  It is the
    identifier loop for [p = isalnum], and the tail of the number loop. *)
Fixpoint while_append (p : Z -> bool) (Str : string) (input : string)
  {struct input} : string * (Z * string) :=
  match input with
  | EmptyString => (Str, getchar EmptyString)
  | String c rest =>
      if p (ch c) then while_append p (Str +:+ String c EmptyString) rest
      else (Str, (ch c, rest))
  end.

Definition isnumeric (c : Z) : bool := isdigit c || (c =? ch ".").

(** [do LastChar = getchar(); while (LastChar != EOF && LastChar != '\n' && LastChar != '\r');] *)
Fixpoint skip_comment (input : string) {struct input} : Z * string :=
  match input with
  | EmptyString => getchar EmptyString
  | String c rest =>
      if negb (ch c =? EOF) && negb (ch c =? 10) && negb (ch c =? 13)
      then skip_comment rest
      else (ch c, rest)
  end.

(** [gettok].  The only recursion is the call after a comment; [fuel]
    bounds the number of consecutive comments. *)
Fixpoint gettok_rec (fuel : nat) (lx : Lexer) : option (Z * Lexer) :=
  match fuel with
  | O => None
  | S fuel =>
      let '(c, input) := while_isspace (LastChar lx) (stdin lx) in
      if isalpha c then
        let '(Id, (c', input')) :=
          while_append isalnum (String (chr c) EmptyString) input in
        let lx' := mkLexer c' input' Id (NumVal lx) in
        if String.eqb Id "def" then Some (tok_def, lx')
        else if String.eqb Id "extern" then Some (tok_extern, lx')
        else Some (tok_identifier, lx')
      else if isnumeric c then
        let '(NumStr, (c', input')) :=
          while_append isnumeric (String (chr c) EmptyString) input in
        Some (tok_number, mkLexer c' input' (IdentifierStr lx) (strtod NumStr))
      else if c =? ch "#" then
        let '(c', input') := skip_comment input in
        let lx' := mkLexer c' input' (IdentifierStr lx) (NumVal lx) in
        if negb (c' =? EOF) then gettok_rec fuel lx'
        else Some (tok_eof, lx')
      else if c =? EOF then
        Some (tok_eof, mkLexer c input (IdentifierStr lx) (NumVal lx))
      else
        let '(c', input') := getchar input in
        Some (c, mkLexer c' input' (IdentifierStr lx) (NumVal lx))
  end.

(** Every recursive call has read at least one more character, so one
    unit of fuel per remaining character (and one for the call itself) is
    enough: see [gettok_total]. *)
Definition gettok (lx : Lexer) : option (Z * Lexer) :=
  gettok_rec (S (String.length (stdin lx))) lx.

(** ** AST *)

Inductive ExprAST : Type :=
| NumberExprAST (Val : double)
| VariableExprAST (Name : string)
| BinaryExprAST (Op : Z) (LHS RHS : ExprAST)
| CallExprAST (Callee : string) (Args : list ExprAST).

Record PrototypeAST : Type := mkPrototypeAST {
  Proto_Name : string;
  Proto_Args : list string
}.

Record FunctionAST : Type := mkFunctionAST {
  Proto : PrototypeAST;
  Body : ExprAST
}.

(** ** The backend, as far as the front end uses it

    LLVM is an external library; this is a model of the part of its
    interface that the lowering code calls.  A [Function *] is the identity
    of a function of the module (a key of [functions]), a [Value *] is the term that
    denotes the value, and the builder appends the instruction it creates
    to the block it points at.  The name hints passed to the builder
    ("addtmp", ...) only affect printing and are left out, and so is the
    builder's folding of constant operands.

    LLVM requires that a value has no use left when it is destroyed.  The
    front end can destroy a function that the instructions of another
    function call; what the C++ program does from there on is not defined
    (a build of LLVM with assertions stops).  The model goes on with the
    function deleted and records the fact in [undefined]: what it says of a
    state in which [undefined] is set is not about the program. *)

Inductive Value : Type :=
| ConstantFP (Val : double)
| Argument (F : nat) (ArgNo : nat)
| FAdd (L R : Value)
| FSub (L R : Value)
| FMul (L R : Value)
| FCmpULT (L R : Value)
| UIToFP (V : Value)
| CallInst (Callee : nat) (Args : list Value).

Inductive Instruction : Type :=
| Inst (V : Value)
| Ret (V : Value).

Record Function : Type := mkFunction {
  F_name : string;                      (* "" for an unnamed function *)
  F_args : list string;                 (* one name per parameter, "" for none *)
  F_blocks : list (list Instruction);   (* no block: a declaration *)
  F_verified : bool;                    (* verifyFunction has been run on it *)
  F_LastUnique : Z                      (* counter of the function's symbol table *)
}.

(** The functions of a module, each under its identity (its address in the
    C++ program). *)
Record IRModule : Type := mkModule {
  functions : gmap nat Function
}.

(** What the program writes to [stderr]. *)
Inductive Output : Type :=
| Print (s : string)
| Dump (F : option Function)
| DumpModule (M : IRModule).

Record Globals : Type := mkGlobals {
  lexer : Lexer;
  CurTok : Z;
  BinopPrecedence : gmap Z Z;
  stderr : list Output;
  TheModule : IRModule;
  Builder : option (nat * nat);         (* insertion point: function, block *)
  NamedValues : gmap string (option Value);
  undefined : bool                      (* a function was destroyed while in use *)
}.

Definition set_lexer (lx : Lexer) (g : Globals) : Globals :=
  mkGlobals lx (CurTok g) (BinopPrecedence g) (stderr g) (TheModule g)
            (Builder g) (NamedValues g) (undefined g).
Definition set_CurTok (t : Z) (g : Globals) : Globals :=
  mkGlobals (lexer g) t (BinopPrecedence g) (stderr g) (TheModule g)
            (Builder g) (NamedValues g) (undefined g).
Definition set_BinopPrecedence (m : gmap Z Z) (g : Globals) : Globals :=
  mkGlobals (lexer g) (CurTok g) m (stderr g) (TheModule g)
            (Builder g) (NamedValues g) (undefined g).
Definition set_stderr (o : list Output) (g : Globals) : Globals :=
  mkGlobals (lexer g) (CurTok g) (BinopPrecedence g) o (TheModule g)
            (Builder g) (NamedValues g) (undefined g).
Definition set_TheModule (m : IRModule) (g : Globals) : Globals :=
  mkGlobals (lexer g) (CurTok g) (BinopPrecedence g) (stderr g) m
            (Builder g) (NamedValues g) (undefined g).
Definition set_Builder (b : option (nat * nat)) (g : Globals) : Globals :=
  mkGlobals (lexer g) (CurTok g) (BinopPrecedence g) (stderr g) (TheModule g)
            b (NamedValues g) (undefined g).
Definition set_NamedValues (m : gmap string (option Value)) (g : Globals) : Globals :=
  mkGlobals (lexer g) (CurTok g) (BinopPrecedence g) (stderr g) (TheModule g)
            (Builder g) m (undefined g).
Definition set_undefined (b : bool) (g : Globals) : Globals :=
  mkGlobals (lexer g) (CurTok g) (BinopPrecedence g) (stderr g) (TheModule g)
            (Builder g) (NamedValues g) b.

(** ** The monad of the program: global state, and fuel that may run out *)

Definition M (A : Type) : Type := Globals -> option (A * Globals).

Definition ret {A} (a : A) : M A := fun g => Some (a, g).
Definition bind {A B} (m : M A) (k : A -> M B) : M B :=
  fun g => match m g with
           | Some (a, g') => k a g'
           | None => None
           end.
Definition out_of_fuel {A} : M A := fun _ => None.
Definition get {A} (f : Globals -> A) : M A := fun g => Some (f g, g).
Definition modify (f : Globals -> Globals) : M unit := fun g => Some (tt, f g).

Notation "'do' x <- m ; k" := (bind m (fun x => k))
  (at level 10, x name, m at level 100, k at level 200).
Notation "m ;; k" := (bind m (fun _ => k))
  (at level 100, k at level 200, right associativity).

Definition fprintf_stderr (s : string) : M unit :=
  modify (fun g => set_stderr (stderr g ++ [Print s]) g).

(** ** Parser *)

(** [static int getNextToken() { return CurTok = gettok(); }] *)
Definition getNextToken : M Z :=
  fun g => match gettok (lexer g) with
           | Some (t, lx) => Some (t, set_CurTok t (set_lexer lx g))
           | None => None
           end.

(** [m[k]] on a [std::map<char, int>]: a key that is absent is first
    inserted with the value 0. *)
Definition subscript (m : gmap Z Z) (k : Z) : Z * gmap Z Z :=
  match m !! k with
  | Some v => (v, m)
  | None => (0, <[k := 0]> m)
  end.

(** [CurTok] is converted to [char] for the lookup; it is ASCII there, so
    the conversion keeps its value. *)
Definition GetTokPrecedence : M Z :=
  do tok <- get CurTok;
  if negb (isascii tok) then ret (-1)
  else
    do tbl <- get BinopPrecedence;
    let '(TokPrec, tbl') := subscript tbl tok in
    modify (set_BinopPrecedence tbl') ;;
    if TokPrec <=? 0 then ret (-1) else ret TokPrec.

(** [Error], [ErrorP], [ErrorF] and [ErrorV] differ in the type of the null
    pointer they return only. *)
Definition Error {A} (Str : string) : M (option A) :=
  fprintf_stderr ("Error: " +:+ Str +:+ nl) ;; ret None.

Definition ParseNumberExpr : M (option ExprAST) :=
  do Val <- get (fun g => NumVal (lexer g));
  let Result := NumberExprAST Val in
  getNextToken ;;
  ret (Some Result).

Fixpoint ParseExpression (fuel : nat) : M (option ExprAST) :=
  match fuel with
  | O => out_of_fuel
  | S fuel =>
      do LHS <- ParsePrimary fuel;
      match LHS with
      | None => ret None
      | Some LHS => ParseBinOpRHS fuel 0 LHS
      end
  end

with ParsePrimary (fuel : nat) : M (option ExprAST) :=
  match fuel with
  | O => out_of_fuel
  | S fuel =>
      do tok <- get CurTok;
      if tok =? tok_identifier then ParseIdentifierExpr fuel
      else if tok =? tok_number then ParseNumberExpr
      else if tok =? ch "(" then ParseParenExpr fuel
      else Error "unknown token when expecting an expression"
  end

with ParseParenExpr (fuel : nat) : M (option ExprAST) :=
  match fuel with
  | O => out_of_fuel
  | S fuel =>
      getNextToken ;;
      do V <- ParseExpression fuel;
      match V with
      | None => ret None
      | Some V =>
          do tok <- get CurTok;
          if negb (tok =? ch ")") then Error "expected ')'"
          else getNextToken ;; ret (Some V)
      end
  end

with ParseIdentifierExpr (fuel : nat) : M (option ExprAST) :=
  match fuel with
  | O => out_of_fuel
  | S fuel =>
      do IdName <- get (fun g => IdentifierStr (lexer g));
      getNextToken ;;
      do tok <- get CurTok;
      if negb (tok =? ch "(") then ret (Some (VariableExprAST IdName))
      else
        getNextToken ;;
        do tok <- get CurTok;
        do Args <- (if negb (tok =? ch ")") then ParseArgs fuel []
                    else ret (Some []));
        match Args with
        | None => ret None
        | Some Args => getNextToken ;; ret (Some (CallExprAST IdName Args))
        end
  end

(** The [while (1)] of [ParseIdentifierExpr]: [None] when the function
    returns from inside the loop, the arguments when the loop is left by
    [break]. *)
with ParseArgs (fuel : nat) (Args : list ExprAST) : M (option (list ExprAST)) :=
  match fuel with
  | O => out_of_fuel
  | S fuel =>
      do Arg <- ParseExpression fuel;
      match Arg with
      | None => ret None
      | Some Arg =>
          let Args := Args ++ [Arg] in
          do tok <- get CurTok;
          if tok =? ch ")" then ret (Some Args)
          else if negb (tok =? ch ",")
          then Error "Expected ')' or ',' in argument list"
          else getNextToken ;; ParseArgs fuel Args
      end
  end

(** One unit of fuel per turn of the [while (1)] and per recursive call. *)
with ParseBinOpRHS (fuel : nat) (ExprPrec : Z) (LHS : ExprAST) : M (option ExprAST) :=
  match fuel with
  | O => out_of_fuel
  | S fuel =>
      do TokPrec <- GetTokPrecedence;
      if TokPrec <? ExprPrec then ret (Some LHS)
      else
        do BinOp <- get CurTok;
        getNextToken ;;
        do RHS <- ParsePrimary fuel;
        match RHS with
        | None => ret None
        | Some RHS =>
            do NextPrec <- GetTokPrecedence;
            do RHS <- (if TokPrec <? NextPrec
                       then ParseBinOpRHS fuel (TokPrec + 1) RHS
                       else ret (Some RHS));
            match RHS with
            | None => ret None
            | Some RHS => ParseBinOpRHS fuel ExprPrec (BinaryExprAST BinOp LHS RHS)
            end
        end
  end.

(** [while (getNextToken() == tok_identifier) ArgNames.push_back(IdentifierStr);] *)
Fixpoint ParsePrototype_args (fuel : nat) (ArgNames : list string) : M (list string) :=
  match fuel with
  | O => out_of_fuel
  | S fuel =>
      do tok <- getNextToken;
      if tok =? tok_identifier then
        do Id <- get (fun g => IdentifierStr (lexer g));
        ParsePrototype_args fuel (ArgNames ++ [Id])
      else ret ArgNames
  end.

Definition ParsePrototype (fuel : nat) : M (option PrototypeAST) :=
  do tok <- get CurTok;
  if negb (tok =? tok_identifier)
  then Error "Expected function name in prototype"
  else
    do FnName <- get (fun g => IdentifierStr (lexer g));
    getNextToken ;;
    do tok <- get CurTok;
    if negb (tok =? ch "(") then Error "Expected '(' in prototype"
    else
      do ArgNames <- ParsePrototype_args fuel [];
      do tok <- get CurTok;
      if negb (tok =? ch ")") then Error "Expected ')' in prototype"
      else getNextToken ;; ret (Some (mkPrototypeAST FnName ArgNames)).

Definition ParseDefinition (fuel : nat) : M (option FunctionAST) :=
  getNextToken ;;
  do P <- ParsePrototype fuel;
  match P with
  | None => ret None
  | Some P =>
      do E <- ParseExpression fuel;
      match E with
      | Some E => ret (Some (mkFunctionAST P E))
      | None => ret None
      end
  end.

Definition ParseTopLevelExpr (fuel : nat) : M (option FunctionAST) :=
  do E <- ParseExpression fuel;
  match E with
  | Some E => ret (Some (mkFunctionAST (mkPrototypeAST "" []) E))
  | None => ret None
  end.

Definition ParseExtern (fuel : nat) : M (option PrototypeAST) :=
  getNextToken ;;
  ParsePrototype fuel.

(** ** Backend operations *)

(** [M->getFunction(Name)]: the symbol table holds named functions only. *)
Definition getFunction (Mod : IRModule) (Name : string) : option (nat * Function) :=
  if String.eqb Name "" then None
  else List.find (fun '(_, F) => String.eqb (F_name F) Name)
                 (map_to_list (functions Mod)).

(** Decimal digits of [n], most significant first, in front of [acc]. *)
Fixpoint decimal_go (fuel n : nat) (acc : string) : string :=
  let acc' := String (ascii_of_nat (48 + n mod 10)) acc in
  match fuel with
  | O => acc'
  | S fuel => if (n / 10 =? 0)%nat then acc' else decimal_go fuel (n / 10)%nat acc'
  end.
Definition decimal (n : nat) : string := decimal_go n n "".

(** A name that is taken is made unique by a numeric suffix. *)
Fixpoint makeUniqueName (tries : nat) (Mod : IRModule) (Name : string) (n : nat) : string :=
  let UniqueName := Name +:+ decimal n in
  match tries with
  | O => UniqueName
  | S tries =>
      match getFunction Mod UniqueName with
      | Some _ => makeUniqueName tries Mod Name (S n)
      | None => UniqueName
      end
  end.

Definition set_functions (fs : gmap nat Function) : M unit :=
  modify (set_TheModule (mkModule fs)).

(** The function that an instruction uses: the callee of a call.  The
    operands of an instruction are other instructions, arguments and
    constants. *)
Definition callee (I : Instruction) : option nat :=
  match I with
  | Inst (CallInst CalleeF _) => Some CalleeF
  | _ => None
  end.

(** The functions that the instructions of [Fn] use, and those that the
    instructions of the module use. *)
Definition callees (Fn : Function) : list nat :=
  flat_map (omap callee) (F_blocks Fn).
Definition referenced (Mod : IRModule) : gset nat :=
  list_to_set (flat_map (fun '(_, Fn) => callees Fn) (map_to_list (functions Mod))).

(** [F] has a use in another function of the module. *)
Definition used (F : nat) (Mod : IRModule) : bool :=
  existsb (fun '(F', Fn) => negb (Nat.eqb F' F) && existsb (Nat.eqb F) (callees Fn))
          (map_to_list (functions Mod)).

(** The identity of a new function: distinct from every function of the
    module, and from every function that an instruction of the module
    uses. *)
Definition new_Function (Mod : IRModule) : nat :=
  fresh (dom (functions Mod) ∪ referenced Mod).

(** [Function::Create(FT, Function::ExternalLinkage, Name, TheModule)] for a
    type of [nargs] doubles to double.  When [Name] is taken the new
    function is renamed. *)
Definition Function_Create (nargs : nat) (Name : string) : M nat :=
  do Mod <- get TheModule;
  let F := new_Function Mod in
  let name :=
    if String.eqb Name "" then ""
    else match getFunction Mod Name with
         | Some _ => makeUniqueName (size (functions Mod)) Mod Name 1
         | None => Name
         end in
  set_functions (<[F := mkFunction name (replicate nargs "") [] false 0]> (functions Mod)) ;;
  ret F.

(** [F->eraseFromParent()]: the function is destroyed, with its blocks and
    instructions.  A use of it that is left in another function is recorded
    in [undefined]. *)
Definition eraseFromParent (F : nat) : M unit :=
  do Mod <- get TheModule;
  (if used F Mod then modify (set_undefined true) else ret tt) ;;
  set_functions (delete F (functions Mod)).

Definition update_function (F : nat) (f : Function -> Function) : M unit :=
  do Mod <- get TheModule;
  set_functions (alter f F (functions Mod)).

Definition getName (F : nat) : M string :=
  do Mod <- get TheModule;
  ret (from_option F_name "" (functions Mod !! F)).

Definition Function_empty (F : Function) : bool :=
  match F_blocks F with [] => true | _ => false end.
Definition arg_size (F : Function) : nat := length (F_args F).

(** The symbol table of a function holds the names of its values, every
    name once.  [PrototypeAST::Codegen] names the arguments of functions
    that have no block, whose table holds the names of the arguments and
    nothing else; an argument without a name is not in the table. *)
Definition taken (Name : string) (table : list string) : bool :=
  existsb (String.eqb Name) table.

(** [ValueSymbolTable::createValueName] for a name that is taken: the
    counter of the table, an [unsigned] of 32 bits, is incremented and
    written behind the name until the result is free.  One try more than
    the table has names is enough: see [makeUniqueValueName_free]. *)
Fixpoint makeUniqueValueName (tries : nat) (table : list string) (Name : string)
    (LastUnique : Z) : string * Z :=
  let LastUnique := (LastUnique + 1) mod 4294967296 in
  let UniqueName := Name +:+ decimal (Z.to_nat LastUnique) in
  match tries with
  | O => (UniqueName, LastUnique)
  | S tries =>
      if taken UniqueName table
      then makeUniqueValueName tries table Name LastUnique
      else (UniqueName, LastUnique)
  end.

(** [Value::setName] on the argument [Idx] of the function: nothing
    happens when the argument has the name already; otherwise its old name
    leaves the table, and the new name, when it is not empty, enters it,
    made unique when another argument has it. *)
Definition setName (Idx : nat) (NewName : string) (Fn : Function) : Function :=
  match F_args Fn !! Idx with
  | None => Fn
  | Some Name =>
      if String.eqb Name NewName then Fn
      else
        let table := <[Idx := ""]> (F_args Fn) in
        let Entry :=
          if String.eqb NewName "" || negb (taken NewName table)
          then (NewName, F_LastUnique Fn)
          else makeUniqueValueName (length table) table NewName (F_LastUnique Fn) in
        mkFunction (F_name Fn) (<[Idx := fst Entry]> (F_args Fn)) (F_blocks Fn)
                   (F_verified Fn) (snd Entry)
  end.

(** [AI->setName(Name)] for the argument [Idx] of [F]. *)
Definition Argument_setName (F Idx : nat) (Name : string) : M unit :=
  update_function F (setName Idx Name).

(** [BasicBlock::Create(getGlobalContext(), "entry", F)]: a new block at the
    end of [F]. *)
Definition BasicBlock_Create (F : nat) : M (nat * nat) :=
  do Mod <- get TheModule;
  let BB := from_option (fun Fn => length (F_blocks Fn)) O (functions Mod !! F) in
  update_function F (fun Fn =>
    mkFunction (F_name Fn) (F_args Fn) (F_blocks Fn ++ [[]]) (F_verified Fn)
               (F_LastUnique Fn)) ;;
  ret (F, BB).

Definition SetInsertPoint (BB : nat * nat) : M unit :=
  modify (set_Builder (Some BB)).

(** The builder appends an instruction to the block it points at. *)
Definition Insert (I : Instruction) : M unit :=
  do B <- get Builder;
  match B with
  | Some (F, BB) =>
      update_function F (fun Fn =>
        mkFunction (F_name Fn) (F_args Fn)
                   (alter (fun block => block ++ [I]) BB (F_blocks Fn))
                   (F_verified Fn) (F_LastUnique Fn))
  | None => ret tt
  end.

Definition Create (V : Value) : M (option Value) := Insert (Inst V) ;; ret (Some V).
Definition CreateRet (V : Value) : M unit := Insert (Ret V).

Definition verifyFunction (F : nat) : M unit :=
  update_function F (fun Fn =>
    mkFunction (F_name Fn) (F_args Fn) (F_blocks Fn) true (F_LastUnique Fn)).

Definition dump (F : nat) : M unit :=
  modify (fun g => set_stderr (stderr g ++ [Dump (functions (TheModule g) !! F)]) g).

(** ** Code generation *)

(** [NamedValues[Name]], read: an absent name is first bound to null. *)
Definition NamedValues_subscript (Name : string) : M (option Value) :=
  do tbl <- get NamedValues;
  match tbl !! Name with
  | Some V => ret V
  | None => modify (set_NamedValues (<[Name := None]> tbl)) ;; ret None
  end.

Fixpoint Codegen (e : ExprAST) : M (option Value) :=
  match e with
  | NumberExprAST Val => ret (Some (ConstantFP Val))
  | VariableExprAST Name =>
      do V <- NamedValues_subscript Name;
      match V with
      | None => Error "Unkown variable name"
      | Some V => ret (Some V)
      end
  | BinaryExprAST Op LHS RHS =>
      do L <- Codegen LHS;
      do R <- Codegen RHS;
      match L, R with
      | Some L, Some R =>
          if Op =? ch "+" then Create (FAdd L R)
          else if Op =? ch "-" then Create (FSub L R)
          else if Op =? ch "*" then Create (FMul L R)
          else if Op =? ch "<" then
            do L <- Create (FCmpULT L R);
            match L with
            | Some L => Create (UIToFP L)
            | None => ret None
            end
          else Error "invalid binary operator"
      | _, _ => ret None
      end
  | CallExprAST Callee Args =>
      do Mod <- get TheModule;
      match getFunction Mod Callee with
      | None => Error "unkown function referenced"
      | Some (CalleeF, Fn) =>
          if negb (arg_size Fn =? length Args)%nat
          then Error "Incorrect # argmuments passed"
          else
            do ArgsV <-
              (fix loop (Args : list ExprAST) (ArgsV : list Value)
                 : M (option (list Value)) :=
                 match Args with
                 | [] => ret (Some ArgsV)
                 | Arg :: Args =>
                     do V <- Codegen Arg;
                     match V with
                     | None => ret None
                     | Some V => loop Args (ArgsV ++ [V])
                     end
                 end) Args [];
            match ArgsV with
            | None => ret None
            | Some ArgsV => Create (CallInst CalleeF ArgsV)
            end
      end
  end.

(** The [for] loop of [PrototypeAST::Codegen], from index [Idx] on. *)
Fixpoint name_arguments (F Idx : nat) (Args : list string) : M unit :=
  match Args with
  | [] => ret tt
  | Arg :: Args =>
      Argument_setName F Idx Arg ;;
      do tbl <- get NamedValues;
      modify (set_NamedValues (<[Arg := Some (Argument F Idx)]> tbl)) ;;
      name_arguments F (S Idx) Args
  end.

Definition PrototypeAST_Codegen (P : PrototypeAST) : M (option nat) :=
  let Name := Proto_Name P in
  let Args := Proto_Args P in
  do F <- Function_Create (length Args) Name;
  do FName <- getName F;
  do F <- (if negb (String.eqb FName Name) then
             eraseFromParent F ;;
             do Mod <- get TheModule;
             match getFunction Mod Name with
             | None => ret None   (* a rename means that Name is taken *)
             | Some (F, Fn) =>
                 if negb (Function_empty Fn) then Error "redefinition of function"
                 else if negb (arg_size Fn =? length Args)%nat
                 then Error "redefinition of function with different # args"
                 else ret (Some F)
             end
           else ret (Some F));
  match F with
  | None => ret None
  | Some F => name_arguments F 0 Args ;; ret (Some F)
  end.

Definition FunctionAST_Codegen (Fn : FunctionAST) : M (option nat) :=
  modify (set_NamedValues ∅) ;;
  do TheFunction <- PrototypeAST_Codegen (Proto Fn);
  match TheFunction with
  | None => ret None
  | Some TheFunction =>
      do BB <- BasicBlock_Create TheFunction;
      SetInsertPoint BB ;;
      do RetVal <- Codegen (Body Fn);
      match RetVal with
      | Some RetVal =>
          CreateRet RetVal ;;
          verifyFunction TheFunction ;;
          ret (Some TheFunction)
      | None =>
          eraseFromParent TheFunction ;;
          ret None
      end
  end.

(** ** Top-level parsing and driver *)

Definition HandleDefinition (fuel : nat) : M unit :=
  do FnAST <- ParseDefinition fuel;
  match FnAST with
  | Some FnAST =>
      do FnIR <- FunctionAST_Codegen FnAST;
      match FnIR with
      | Some FnIR => fprintf_stderr ("Parsed a function definition." +:+ nl) ;; dump FnIR
      | None => ret tt
      end
  | None => getNextToken ;; ret tt
  end.

Definition HandleExtern (fuel : nat) : M unit :=
  do ProtoAST <- ParseExtern fuel;
  match ProtoAST with
  | Some ProtoAST =>
      do FnIR <- PrototypeAST_Codegen ProtoAST;
      match FnIR with
      | Some FnIR => fprintf_stderr "Read extern: " ;; dump FnIR
      | None => ret tt
      end
  | None => getNextToken ;; ret tt
  end.

Definition HandleTopLevelExpression (fuel : nat) : M unit :=
  do FnAST <- ParseTopLevelExpr fuel;
  match FnAST with
  | Some FnAST =>
      do FnIR <- FunctionAST_Codegen FnAST;
      match FnIR with
      | Some FnIR => fprintf_stderr "Read a top-level expr: " ;; dump FnIR
      | None => ret tt
      end
  | None => getNextToken ;; ret tt
  end.

Fixpoint MainLoop (fuel : nat) : M unit :=
  match fuel with
  | O => out_of_fuel
  | S fuel =>
      fprintf_stderr "ready>" ;;
      do tok <- get CurTok;
      if tok =? tok_eof then ret tt
      else if tok =? ch ";" then getNextToken ;; MainLoop fuel
      else if tok =? tok_def then HandleDefinition fuel ;; MainLoop fuel
      else if tok =? tok_extern then HandleExtern fuel ;; MainLoop fuel
      else HandleTopLevelExpression fuel ;; MainLoop fuel
  end.

(** The globals when [main] starts, with [input] on the standard input.
    Statics are zero-initialised; [LastChar] starts as a space. *)
Definition startup (input : string) : Globals :=
  {| lexer := mkLexer (ch " ") input "" (strtod "0");
     CurTok := 0;
     BinopPrecedence := ∅;
     stderr := [];
     TheModule := mkModule ∅;
     Builder := None;
     NamedValues := ∅;
     undefined := false |}.

Definition install_precedences : M unit :=
  modify (fun g => set_BinopPrecedence (<[ch "<" := 10]> (BinopPrecedence g)) g) ;;
  modify (fun g => set_BinopPrecedence (<[ch "+" := 20]> (BinopPrecedence g)) g) ;;
  modify (fun g => set_BinopPrecedence (<[ch "-" := 20]> (BinopPrecedence g)) g) ;;
  modify (fun g => set_BinopPrecedence (<[ch "*" := 40]> (BinopPrecedence g)) g).

Definition main (fuel : nat) : M unit :=
  install_precedences ;;
  fprintf_stderr "ready>" ;;
  getNextToken ;;
  set_functions ∅ ;;
  MainLoop fuel ;;
  modify (fun g => set_stderr (stderr g ++ [DumpModule (TheModule g)]) g).

(** ** Names for the JIT

    [GenerateUniqueName] and [MakeLegalFunctionName].  Nothing in the file
    calls them; they work on strings and on the counter [i], a static
    [int] of [GenerateUniqueName].  A call returns, throws
    [std::out_of_range], or has no defined behaviour (a signed overflow, a
    write behind the end of a buffer); [NoFuel] is for the model only.  The
    statement that ends the loop of [MakeLegalFunctionName] has no semicolon
    in the source; it is read here as the statement that it is meant to
    be. *)

Inductive outcome (A : Type) : Type :=
| Returns (a : A)
| Throws
| Undefined
| NoFuel.
Arguments Returns {A} a.
Arguments Throws {A}.
Arguments Undefined {A}.
Arguments NoFuel {A}.

Definition INT_MAX : Z := 2147483647.

(** What [sprintf] writes for the conversion [%d]. *)
Definition sprintf_d (n : Z) : string :=
  if n <? 0 then String "-" (decimal (Z.to_nat (- n))) else decimal (Z.to_nat n).

(** [char s[16]; sprintf(s, "%s%d", root, i++);]: the buffer has room for 15
    characters and the terminating zero. *)
Definition GenerateUniqueName (root : string) (i : Z) : outcome (string * Z) :=
  if INT_MAX <=? i then Undefined
  else
    let s := root +:+ sprintf_d i in
    if (16 <=? String.length s)%nat then Undefined
    else Returns (s, i + 1).

Definition legal_elements : string :=
  "_abcdefghijklmnopqrstuvwxyzABCDEFGHIJKLMNOPQRSTUVWXYZ0123456789".

(** [c] is one of the characters of [chars]. *)
Fixpoint contains (chars : string) (c : ascii) : bool :=
  match chars with
  | EmptyString => false
  | String k chars => Ascii.eqb k c || contains chars c
  end.

(** [s.find_first_of(chars)] and [s.find_first_not_of(chars)]; [None] is
    [std::string::npos]. *)
Fixpoint find_first_of (s chars : string) : option nat :=
  match s with
  | EmptyString => None
  | String c s => if contains chars c then Some O else option_map S (find_first_of s chars)
  end.

Fixpoint find_first_not_of (s chars : string) : option nat :=
  match s with
  | EmptyString => None
  | String c s => if contains chars c then option_map S (find_first_not_of s chars) else Some O
  end.

(** [s.at(pos)]: [None] when it throws. *)
Definition at_ (s : string) (pos : nat) : option ascii := String.get pos s.

(** [s.replace(pos, 1, str)]: [None] when it throws, which is for [pos]
    behind the end of [s]. *)
Fixpoint replace (s : string) (pos : nat) (str : string) : option string :=
  match pos, s with
  | O, EmptyString => Some str
  | O, String _ s => Some (str +:+ s)
  | S pos, EmptyString => None
  | S pos, String c s => option_map (String c) (replace s pos str)
  end.

(** [(int)old_c]: whether [char] is signed is up to the implementation. *)
Definition char_to_int (signed_char : bool) (c : ascii) : Z :=
  if signed_char && (128 <=? ch c) then ch c - 256 else ch c.

(** The [while] loop of [MakeLegalFunctionName].  [new_str] has room for
    whatever [%d] writes for a [char]. *)
Fixpoint legalize (fuel : nat) (signed_char : bool) (NewName : string) : outcome string :=
  match fuel with
  | O => NoFuel
  | S fuel =>
      match find_first_not_of NewName legal_elements with
      | None => Returns NewName
      | Some pos =>
          match at_ NewName pos with
          | None => Throws
          | Some old_c =>
              let new_str := sprintf_d (char_to_int signed_char old_c) in
              match replace NewName pos new_str with
              | None => Throws
              | Some NewName => legalize fuel signed_char NewName
              end
          end
      end
  end.

(** Every turn of the loop replaces a character that is not legal; two
    turns for each character of the name are enough: see
    [legalize_encodes]. *)
Definition MakeLegalFunctionName (signed_char : bool) (Name : string) (i : Z)
    : outcome (string * Z) :=
  if (String.length Name =? 0)%nat then GenerateUniqueName "auto_func_" i
  else
    let NewName :=
      match find_first_of Name "0123456789" with
      | Some O => String "n" Name
      | _ => Name
      end in
    match legalize (2 * String.length NewName + 1) signed_char NewName with
    | Returns NewName => Returns (NewName, i)
    | Throws => Throws
    | Undefined => Undefined
    | NoFuel => NoFuel
    end.

(** * Specification

    Definitions that the properties below are stated with.  None of them is
    part of the program. *)

(** ** Token streams

    What the parser sees of the input is the sequence of tokens that
    successive calls of [gettok] return, each with the [IdentifierStr] or
    [NumVal] it sets. *)

(** A token as the parser reads it: the code that [gettok] returns, with
    the text or the value that it leaves in [IdentifierStr] or [NumVal]. *)
Inductive token : Type :=
| T_eof
| T_def
| T_extern
| T_identifier (Id : string)
| T_number (Val : double)
| T_char (c : Z).

(** [gettok] has returned [tok] and left the lexer [lx]: the token reads [t]. *)
Definition token_read (t : token) (tok : Z) (lx : Lexer) : Prop :=
  match t with
  | T_eof => tok = tok_eof
  | T_def => tok = tok_def
  | T_extern => tok = tok_extern
  | T_identifier Id => tok = tok_identifier /\ IdentifierStr lx = Id
  | T_number Val => tok = tok_number /\ NumVal lx = Val
  | T_char c => tok = c /\ 0 <= c
  end.

(** The next tokens that [gettok] returns from [lx] are [ts]. *)
Fixpoint lexes (ts : list token) (lx : Lexer) : Prop :=
  match ts with
  | [] => True
  | t :: ts => exists tok lx',
      gettok lx = Some (tok, lx') /\ token_read t tok lx' /\ lexes ts lx'
  end.

(** The current token of the parser is the first of [ts], and the lexer
    will deliver the others. *)
Definition presents (ts : list token) (g : Globals) : Prop :=
  match ts with
  | [] => True
  | t :: ts => token_read t (CurTok g) (lexer g) /\ lexes ts (lexer g)
  end.

Definition is_identifier (t : token) : bool :=
  match t with T_identifier _ => true | _ => false end.

(** The lookahead is a character or [EOF] ... *)
Definition char_or_EOF (c : Z) : Prop := -1 <= c < 256.

(** ... and a token is one of the five codes of [Token] or a character. *)
Definition token_code (tok : Z) : Prop :=
  tok = tok_eof \/ tok = tok_def \/ tok = tok_extern \/
  tok = tok_identifier \/ tok = tok_number \/ 0 <= tok < 256.

(** [m] returns [r] from [g] for every sufficient amount of fuel. *)
Definition returns {A} (m : nat -> M A) (g : Globals) (r : A * Globals) : Prop :=
  exists n, forall fuel, (n <= fuel)%nat -> m fuel g = Some r.

(** ** The program on a given input *)

(** Runs a parsing function the way [main] reaches it: the precedences are
    installed and the first token has been read. *)
Definition parse_input {A} (parser : M A) (input : string) : option (A * Globals) :=
  (install_precedences ;; getNextToken ;; parser) (startup input).

(** The globals of [main] once the precedences are installed. *)
Definition installed (input : string) : Globals :=
  {| lexer := mkLexer (ch " ") input "" (strtod "0");
     CurTok := 0;
     BinopPrecedence :=
       <[ch "*" := 40]> (<[ch "-" := 20]> (<[ch "+" := 20]> (<[ch "<" := 10]> ∅)));
     stderr := [];
     TheModule := mkModule ∅;
     Builder := None;
     NamedValues := ∅;
     undefined := false |}.

(** The globals when [main] enters [MainLoop], apart from the module. *)
Definition ready (input : string) : Globals :=
  match parse_input (ret tt) input with
  | Some (_, g) => g
  | None => startup input
  end.

(** The globals after [main] has run on [input], if [fuel] is enough. *)
Definition session (fuel : nat) (input : string) : Globals :=
  match main fuel (startup input) with
  | Some (_, g) => g
  | None => startup input
  end.

(** Checks [token_read], [lexes] and [presents] on a given input by running
    the lexer. *)
Ltac token_read_now :=
  first [ exact I
        | reflexivity
        | split; [vm_compute; reflexivity | vm_compute; first [reflexivity | discriminate]] ].
Ltac lexes_now :=
  repeat (eexists _, _; split; [vm_compute; reflexivity | split; [token_read_now|]]);
  try exact I.
Ltac presents_now := split; [token_read_now | lexes_now].

(** ** Written expressions and their conventional grouping

    Expressions made of number literals, the four operators and
    parentheses.  An [sexp] is an expression as it is written, with its
    grouping; [yield] is the sequence of its tokens, [render] its text and
    [ast] the tree that the grouping denotes.  The grouping is the
    conventional one when every operand on the left binds at least as
    tightly as its operator and every operand on the right binds strictly
    tighter (so that operators of equal precedence group to the left);
    anything else has to be parenthesised. *)

(** The four operators that [main] installs. *)
Inductive binop : Type := op_lt | op_add | op_sub | op_mul.

(** The operators as characters of the input. *)
Definition op_ascii (o : binop) : ascii :=
  match o with
  | op_lt => "<"
  | op_add => "+"
  | op_sub => "-"
  | op_mul => "*"
  end%char.

Definition op_char (o : binop) : Z :=
  match o with
  | op_lt => ch "<"
  | op_add => ch "+"
  | op_sub => ch "-"
  | op_mul => ch "*"
  end.

Definition op_prec (o : binop) : Z :=
  match o with
  | op_lt => 10
  | op_add => 20
  | op_sub => 20
  | op_mul => 40
  end.

(** An expression as written: the grouping is the shape of the term,
    parentheses are kept. *)
Inductive sexp : Type :=
| SNum (Val : double)
| SParen (e : sexp)
| SBin (l : sexp) (o : binop) (r : sexp).

(** The tokens of a written expression, from left to right. *)
Fixpoint yield (e : sexp) : list token :=
  match e with
  | SNum Val => [T_number Val]
  | SParen e => T_char (ch "(") :: yield e ++ [T_char (ch ")")]
  | SBin l o r => yield l ++ T_char (op_char o) :: yield r
  end.

(** The tree that a written expression denotes. *)
Fixpoint ast (e : sexp) : ExprAST :=
  match e with
  | SNum Val => NumberExprAST Val
  | SParen e => ast e
  | SBin l o r => BinaryExprAST (op_char o) (ast l) (ast r)
  end.

(** A number literal as a tree. *)
Definition num (NumStr : string) : ExprAST := NumberExprAST (strtod NumStr).

(** How tightly the top of an expression binds: a literal or a
    parenthesised expression binds tighter than any operator. *)
Definition level (e : sexp) : Z :=
  match e with
  | SBin _ o _ => op_prec o
  | _ => 41
  end.

(** The grouping is the conventional one: an operand on the left binds at
    least as tightly as its operator, an operand on the right strictly
    tighter. *)
Fixpoint conventional (e : sexp) : Prop :=
  match e with
  | SNum _ => True
  | SParen e => conventional e
  | SBin l o r =>
      op_prec o <= level l /\ op_prec o < level r /\
      conventional l /\ conventional r
  end.

(** The first primary expression of [e], and the tokens after it. *)
Fixpoint leftmost (e : sexp) : sexp :=
  match e with
  | SBin l _ _ => leftmost l
  | _ => e
  end.

Fixpoint after_leftmost (e : sexp) : list token :=
  match e with
  | SBin l o r => after_leftmost l ++ T_char (op_char o) :: yield r
  | _ => []
  end.

(** The conventional grouping of [t o a] for a primary expression [a]
    behind a conventionally grouped [t]: [a] goes to the operators on the
    right edge of [t] that bind less tightly than [o]. *)
Fixpoint attach (t : sexp) (o : binop) (a : sexp) : sexp :=
  match t with
  | SBin l o' r =>
      if op_prec o' <? op_prec o then SBin l o' (attach r o a) else SBin t o a
  | _ => SBin t o a
  end.

(** The same for any [r] behind [t], one primary expression at a time. *)
Fixpoint graft (t : sexp) (o : binop) (r : sexp) : sexp :=
  match r with
  | SBin rl ro rr => graft (graft t o rl) ro rr
  | _ => attach t o r
  end.

(** The conventional grouping of the tokens of [e], whatever grouping [e]
    has outside its parentheses. *)
Fixpoint regroup (e : sexp) : sexp :=
  match e with
  | SNum Val => SNum Val
  | SParen e => SParen (regroup e)
  | SBin l o r => graft (regroup l) o (regroup r)
  end.

(** A literal or a parenthesised expression. *)
Definition primary (e : sexp) : Prop :=
  match e with SBin _ _ _ => False | _ => True end.

(** The table that [main] installs, as a function; a key that is absent
    reads as 0, and reading it inserts that 0. *)
Definition default_precedence (c : Z) : Z :=
  if c =? ch "<" then 10
  else if c =? ch "+" then 20
  else if c =? ch "-" then 20
  else if c =? ch "*" then 40
  else 0.

(** [BinopPrecedence] reads as the table of [main]. *)
Definition precedences_installed (g : Globals) : Prop :=
  forall c, default 0 (BinopPrecedence g !! c) = default_precedence c.

(** The precedence that [GetTokPrecedence] finds for a token. *)
Definition token_precedence (t : token) : Z :=
  match t with
  | T_char c =>
      if isascii c
      then (if default_precedence c <=? 0 then -1 else default_precedence c)
      else -1
  | _ => -1
  end.

(** [ParsePrimary] on the tokens of [e]: it reads the first primary
    expression and stops behind it. *)
Definition primary_spec (e : sexp) : Prop :=
  forall t rest g,
    presents (yield e ++ t :: rest) g -> precedences_installed g ->
    exists g1,
      returns ParsePrimary g (Some (ast (leftmost e)), g1) /\
      presents (after_leftmost e ++ t :: rest) g1 /\
      precedences_installed g1 /\ stderr g1 = stderr g.

(** [ParseBinOpRHS] behind the first primary expression of [e]: whatever it
    returns once it has [e] as left-hand side and stands behind [e], it
    returns from here with that primary expression as left-hand side. *)
Definition binoprhs_spec (e : sexp) : Prop :=
  forall t rest g,
    presents (after_leftmost e ++ t :: rest) g -> precedences_installed g ->
    token_precedence t <= level e ->
    exists g1,
      presents (t :: rest) g1 /\ precedences_installed g1 /\ stderr g1 = stderr g /\
      forall q r, q <= level e ->
        returns (fun fuel => ParseBinOpRHS fuel q (ast e)) g1 r ->
        returns (fun fuel => ParseBinOpRHS fuel q (ast (leftmost e))) g r.

(** The text of an expression, without blanks. *)
Fixpoint render (e : sexp) : string :=
  match e with
  | SNum (strtod NumStr) => NumStr
  | SParen e => String "(" (render e +:+ ")")
  | SBin l o r => render l +:+ String (op_ascii o) (render r)
  end.

(** Every character of [s] satisfies [p]. *)
Fixpoint all_chars (p : Z -> bool) (s : string) : Prop :=
  match s with
  | EmptyString => True
  | String c s => p (ch c) = true /\ all_chars p s
  end.

(** Every literal is a non-empty run of digits and points. *)
Fixpoint literals_ok (e : sexp) : Prop :=
  match e with
  | SNum (strtod NumStr) => NumStr <> "" /\ all_chars isnumeric NumStr
  | SParen e => literals_ok e
  | SBin l _ r => literals_ok l /\ literals_ok r
  end.

(** The unread input, lookahead included, is [s]. *)
Definition at_chars (s : string) (lx : Lexer) : Prop :=
  match s with
  | EmptyString => LastChar lx = EOF /\ stdin lx = ""
  | String c rest => LastChar lx = ch c /\ stdin lx = rest
  end.

(** The loop with condition [p] stops at the head of [s]. *)
Definition stops (p : Z -> bool) (s : string) : Prop :=
  match s with
  | EmptyString => True
  | String c _ => p (ch c) = false
  end.

(** ** Lowering *)

(** The argument loop of [CallExprAST::Codegen]. *)
Fixpoint Codegen_args (Args : list ExprAST) (ArgsV : list Value) : M (option (list Value)) :=
  match Args with
  | [] => ret (Some ArgsV)
  | Arg :: Args =>
      do V <- Codegen Arg;
      match V with
      | None => ret None
      | Some V => Codegen_args Args (ArgsV ++ [V])
      end
  end.

(** What lowering an expression leaves alone: the lexer and the current
    token, the insertion point, which functions the module has, and which
    names [NamedValues] binds to a value. *)
Record lowered (g g' : Globals) : Prop := {
  lowered_lexer : lexer g' = lexer g;
  lowered_CurTok : CurTok g' = CurTok g;
  lowered_Builder : Builder g' = Builder g;
  lowered_dom : dom (functions (TheModule g')) = dom (functions (TheModule g));
  lowered_bound : forall x V, NamedValues g' !! x = Some (Some V) <->
                              NamedValues g !! x = Some (Some V)
}.

(** The names that the loop of [PrototypeAST::Codegen] leaves in
    [NamedValues] and on the arguments of the function. *)
Fixpoint bind_arguments (F Idx : nat) (Args : list string)
    (tbl : gmap string (option Value)) : gmap string (option Value) :=
  match Args with
  | [] => tbl
  | Arg :: Args => bind_arguments F (S Idx) Args (<[Arg := Some (Argument F Idx)]> tbl)
  end.

(** The function [Fn] with the parameters named by the loop. *)
Fixpoint with_arguments (Idx : nat) (Args : list string) (Fn : Function) : Function :=
  match Args with
  | [] => Fn
  | Arg :: Args => with_arguments (S Idx) Args (setName Idx Arg Fn)
  end.

(** [FunctionAST::Codegen] up to the point where the body is lowered ... *)
Definition enter_function (Fn : FunctionAST) : M (option nat) :=
  modify (set_NamedValues ∅) ;;
  do TheFunction <- PrototypeAST_Codegen (Proto Fn);
  match TheFunction with
  | None => ret None
  | Some TheFunction =>
      do BB <- BasicBlock_Create TheFunction;
      SetInsertPoint BB ;;
      ret (Some TheFunction)
  end.

(** ... and from the point where the body has been lowered to [RetVal]. *)
Definition finish_function (TheFunction : nat) (RetVal : option Value) : M (option nat) :=
  match RetVal with
  | Some RetVal =>
      CreateRet RetVal ;;
      verifyFunction TheFunction ;;
      ret (Some TheFunction)
  | None =>
      eraseFromParent TheFunction ;;
      ret None
  end.

(** [x] occurs as a variable in [e]. *)
Fixpoint mentions (x : string) (e : ExprAST) : Prop :=
  match e with
  | NumberExprAST _ => False
  | VariableExprAST Name => Name = x
  | BinaryExprAST _ LHS RHS => mentions x LHS \/ mentions x RHS
  | CallExprAST _ Args =>
      (fix any (Args : list ExprAST) : Prop :=
         match Args with
         | [] => False
         | Arg :: Args => mentions x Arg \/ any Args
         end) Args
  end.

(** [NamedValues] binds [x] to no value: [x] is absent or null. *)
Definition unbound (x : string) (g : Globals) : Prop :=
  forall V, NamedValues g !! x <> Some (Some V).

(** ** The input that is left *)

(** What is left of the input: nothing once the lookahead is [EOF]. *)
Definition lexer_size (lx : Lexer) : nat :=
  if LastChar lx =? EOF then O else S (String.length (stdin lx)).

(** The measure that every token read decreases: twice the size of the
    lexer input, and one more while the current token is not [tok_eof]. *)
Definition remaining (g : Globals) : nat :=
  (2 * lexer_size (lexer g) + (if Z.eqb (CurTok g) tok_eof then 0 else 1))%nat.

(** Reading a token changes the lexer and the current token only. *)
Record parsed (g g' : Globals) : Prop := {
  parsed_TheModule : TheModule g' = TheModule g;
  parsed_Builder : Builder g' = Builder g;
  parsed_NamedValues : NamedValues g' = NamedValues g;
  parsed_remaining : (remaining g' <= remaining g)%nat
}.

(** The parsing functions return on every state whose remaining input has
    size at most [n], given fuel linear in [n]; they change nothing but the
    lexer, the current token, the precedence table (by reading it) and
    [stderr], and they do not put input back. *)
Record parser_total (n : nat) : Prop := {
  total_BinOpRHS : forall g ExprPrec LHS fuel,
    (remaining g <= n)%nat -> (4 * n + 4 <= fuel)%nat ->
    exists r g', ParseBinOpRHS fuel ExprPrec LHS g = Some (r, g') /\ parsed g g';
  total_ParenExpr : forall g fuel,
    (remaining g <= n)%nat -> (4 * n + 4 <= fuel)%nat ->
    exists r g', ParseParenExpr fuel g = Some (r, g') /\ parsed g g' /\
                 (CurTok g <> tok_eof -> (remaining g' < remaining g)%nat);
  total_IdentifierExpr : forall g fuel,
    (remaining g <= n)%nat -> (4 * n + 4 <= fuel)%nat ->
    exists r g', ParseIdentifierExpr fuel g = Some (r, g') /\ parsed g g' /\
                 (CurTok g <> tok_eof -> (remaining g' < remaining g)%nat);
  total_Primary : forall g fuel,
    (remaining g <= n)%nat -> (4 * n + 5 <= fuel)%nat ->
    exists r g', ParsePrimary fuel g = Some (r, g') /\ parsed g g' /\
                 (is_Some r -> (remaining g' < remaining g)%nat);
  total_Expression : forall g fuel,
    (remaining g <= n)%nat -> (4 * n + 6 <= fuel)%nat ->
    exists r g', ParseExpression fuel g = Some (r, g') /\ parsed g g' /\
                 (is_Some r -> (remaining g' < remaining g)%nat);
  total_Args : forall g Args fuel,
    (remaining g <= n)%nat -> (4 * n + 7 <= fuel)%nat ->
    exists r g', ParseArgs fuel Args g = Some (r, g') /\ parsed g g'
}.

Arguments getNextToken : simpl never.
Arguments GetTokPrecedence : simpl never.
Arguments presents : simpl never.
Arguments at_chars : simpl never.
Arguments new_Function : simpl never.
Arguments used : simpl never.

(** ** Words, comments and blanks of the input *)

(** The token that [gettok] returns for the word [Id]. *)
Definition word_token (Id : string) : Z :=
  if String.eqb Id "def" then tok_def
  else if String.eqb Id "extern" then tok_extern
  else tok_identifier.

(** A character that does not end a comment. *)
Definition in_comment (c : Z) : bool := negb (c =? 10) && negb (c =? 13).

(** The lexer that has [s] left to read, lookahead included. *)
Definition lexer_at (s : string) (Id : string) (Val : double) : Lexer :=
  mkLexer (fst (getchar s)) (snd (getchar s)) Id Val.

(** The text of a token, and the tokens that have one: a word that is no
    keyword, a non-empty run of digits and points, a character that is a
    token by itself. *)
Definition token_text (t : token) : string :=
  match t with
  | T_eof => ""
  | T_def => "def"
  | T_extern => "extern"
  | T_identifier Id => Id
  | T_number (strtod NumStr) => NumStr
  | T_char c => String (chr c) ""
  end.

Definition printable (t : token) : Prop :=
  match t with
  | T_eof => False
  | T_def | T_extern => True
  | T_identifier Id =>
      word_token Id = tok_identifier /\
      match Id with
      | EmptyString => False
      | String c cs => isalpha (ch c) = true /\ all_chars isalnum cs
      end
  | T_number (strtod NumStr) => NumStr <> "" /\ all_chars isnumeric NumStr
  | T_char c =>
      0 <= c < 256 /\ isspace c = false /\ isalpha c = false /\
      isnumeric c = false /\ c <> ch "#"
  end.

(** The tokens [ts] written out, a blank in front of each. *)
Fixpoint print_tokens (ts : list token) : string :=
  match ts with
  | [] => ""
  | t :: ts => String " " (token_text t +:+ print_tokens ts)
  end.

(** ** Written expressions with names and calls

    The whole grammar of [ParsePrimary]: number literals, variables, calls
    with their arguments separated by commas, parentheses and the four
    operators. *)

Inductive wexp : Type :=
| WNum (Val : double)
| WVar (Name : string)
| WCall (Callee : string) (Args : wargs)
| WParen (e : wexp)
| WBin (l : wexp) (o : binop) (r : wexp)
with wargs : Type :=
| WNil
| WCons (e : wexp) (rest : wargs).

Scheme wexp_wargs_ind := Induction for wexp Sort Prop
  with wargs_wexp_ind := Induction for wargs Sort Prop.

(** The tokens of a written expression, and of an argument list without its
    parentheses. *)
Fixpoint wyield (e : wexp) : list token :=
  match e with
  | WNum Val => [T_number Val]
  | WVar Name => [T_identifier Name]
  | WCall Callee Args =>
      T_identifier Callee :: T_char (ch "(") :: wyield_args Args ++ [T_char (ch ")")]
  | WParen e => T_char (ch "(") :: wyield e ++ [T_char (ch ")")]
  | WBin l o r => wyield l ++ T_char (op_char o) :: wyield r
  end
with wyield_args (Args : wargs) : list token :=
  match Args with
  | WNil => []
  | WCons e WNil => wyield e
  | WCons e rest => wyield e ++ T_char (ch ",") :: wyield_args rest
  end.

Fixpoint wast (e : wexp) : ExprAST :=
  match e with
  | WNum Val => NumberExprAST Val
  | WVar Name => VariableExprAST Name
  | WCall Callee Args => CallExprAST Callee (wast_args Args)
  | WParen e => wast e
  | WBin l o r => BinaryExprAST (op_char o) (wast l) (wast r)
  end
with wast_args (Args : wargs) : list ExprAST :=
  match Args with
  | WNil => []
  | WCons e rest => wast e :: wast_args rest
  end.

Definition wlevel (e : wexp) : Z :=
  match e with
  | WBin _ o _ => op_prec o
  | _ => 41
  end.

(** The conventional grouping, as for [sexp]; an argument of a call is an
    expression of its own. *)
Fixpoint wconventional (e : wexp) : Prop :=
  match e with
  | WNum _ | WVar _ => True
  | WCall _ Args => wconventional_args Args
  | WParen e => wconventional e
  | WBin l o r =>
      op_prec o <= wlevel l /\ op_prec o < wlevel r /\
      wconventional l /\ wconventional r
  end
with wconventional_args (Args : wargs) : Prop :=
  match Args with
  | WNil => True
  | WCons e rest => wconventional e /\ wconventional_args rest
  end.

Fixpoint wleftmost (e : wexp) : wexp :=
  match e with
  | WBin l _ _ => wleftmost l
  | _ => e
  end.

Fixpoint wafter_leftmost (e : wexp) : list token :=
  match e with
  | WBin l o r => wafter_leftmost l ++ T_char (op_char o) :: wyield r
  | _ => []
  end.

(** A token that can follow an expression: no operator of the table, and no
    opening parenthesis, which would turn a variable into a call. *)
Definition closes (t : token) : Prop :=
  token_precedence t = -1 /\ t <> T_char (ch "(").

(** A token that can follow an operand. *)
Definition follows (t : token) : Prop := t <> T_char (ch "(").

Definition wprimary_spec (e : wexp) : Prop :=
  forall t rest g,
    presents (wyield e ++ t :: rest) g -> precedences_installed g -> follows t ->
    exists g1,
      returns ParsePrimary g (Some (wast (wleftmost e)), g1) /\
      presents (wafter_leftmost e ++ t :: rest) g1 /\
      precedences_installed g1 /\ stderr g1 = stderr g.

Definition wbinoprhs_spec (e : wexp) : Prop :=
  forall t rest g,
    presents (wafter_leftmost e ++ t :: rest) g -> precedences_installed g ->
    follows t -> token_precedence t <= wlevel e ->
    exists g1,
      presents (t :: rest) g1 /\ precedences_installed g1 /\ stderr g1 = stderr g /\
      forall q r, q <= wlevel e ->
        returns (fun fuel => ParseBinOpRHS fuel q (wast e)) g1 r ->
        returns (fun fuel => ParseBinOpRHS fuel q (wast (wleftmost e))) g r.

(** The loop of [ParseIdentifierExpr] on a non-empty argument list. *)
Definition wargs_spec (Args : wargs) : Prop :=
  forall acc rest g,
    Args <> WNil ->
    presents (wyield_args Args ++ T_char (ch ")") :: rest) g ->
    precedences_installed g ->
    exists g1,
      returns (fun fuel => ParseArgs fuel acc) g (Some (acc ++ wast_args Args), g1) /\
      presents (T_char (ch ")") :: rest) g1 /\
      precedences_installed g1 /\ stderr g1 = stderr g.

(** ** Assertions about the program

    [hoare P m Q]: whenever [m] returns from a state that satisfies [P], the
    result and the state that it leaves satisfy [Q]. *)
Definition hoare {A} (P : Globals -> Prop) (m : M A) (Q : A -> Globals -> Prop) : Prop :=
  forall g r g', P g -> m g = Some (r, g') -> Q r g'.

(** What [GetTokPrecedence] finds for the token [tok] in the table [tbl]. *)
Definition precedence_of (tbl : gmap Z Z) (tok : Z) : Z :=
  if isascii tok
  then (if default 0 (tbl !! tok) <=? 0 then -1 else default 0 (tbl !! tok))
  else -1.

(** Every operator of the tree is one of the four that [main] installs. *)
Fixpoint operators_installed (e : ExprAST) : Prop :=
  match e with
  | NumberExprAST _ | VariableExprAST _ => True
  | BinaryExprAST Op LHS RHS =>
      0 < default_precedence Op /\ operators_installed LHS /\ operators_installed RHS
  | CallExprAST _ Args =>
      (fix all (Args : list ExprAST) : Prop :=
         match Args with
         | [] => True
         | Arg :: Args => operators_installed Arg /\ all Args
         end) Args
  end.

Definition all_operators_installed (Args : list ExprAST) : Prop :=
  Forall operators_installed Args.

(** What the parser returns is made of installed operators, and the table
    is as [main] leaves it. *)
Definition parsed_operators (r : option ExprAST) (g : Globals) : Prop :=
  precedences_installed g /\
  match r with Some e => operators_installed e | None => True end.

Definition parsed_arguments (r : option (list ExprAST)) (g : Globals) : Prop :=
  precedences_installed g /\
  match r with Some Args => all_operators_installed Args | None => True end.

(** ** What lowering adds to the module and to [stderr] *)

(** The function [Fn] with [new] appended to its block [BB]. *)
Definition append_block (new : list Instruction) (BB : nat) (Fn : Function) : Function :=
  mkFunction (F_name Fn) (F_args Fn)
             (alter (fun block => block ++ new) BB (F_blocks Fn)) (F_verified Fn)
             (F_LastUnique Fn).

(** The functions [fs] after the builder at [B] has inserted [new]. *)
Definition emit (B : option (nat * nat)) (new : list Instruction)
    (fs : gmap nat Function) : gmap nat Function :=
  match B with
  | Some (F, BB) => alter (append_block new BB) F fs
  | None => fs
  end.

Definition is_Inst (I : Instruction) : Prop :=
  match I with Inst _ => True | Ret _ => False end.

(** The line that [Error] prints for [Str]. *)
Definition error_line (Str : string) : Output := Print ("Error: " +:+ Str +:+ nl).

(** From [g] to [g'] the builder has inserted [new], [errs] has been
    printed, and nothing else has changed but null entries of [NamedValues]. *)
Record emitted (g g' : Globals) (new : list Instruction) (errs : list Output) : Prop := {
  emitted_lexer : lexer g' = lexer g;
  emitted_CurTok : CurTok g' = CurTok g;
  emitted_BinopPrecedence : BinopPrecedence g' = BinopPrecedence g;
  emitted_Builder : Builder g' = Builder g;
  emitted_functions :
    functions (TheModule g') = emit (Builder g) new (functions (TheModule g));
  emitted_stderr : stderr g' = stderr g ++ errs;
  emitted_bound : forall x V, NamedValues g' !! x = Some (Some V) <->
                              NamedValues g !! x = Some (Some V);
  emitted_undefined : undefined g' = undefined g
}.

(** An error that lowering [e] can report: the operator error needs an
    operator that is not installed. *)
Definition reported_by (e : ExprAST) (o : Output) : Prop :=
  o = error_line "Unkown variable name" \/
  o = error_line "unkown function referenced" \/
  o = error_line "Incorrect # argmuments passed" \/
  (o = error_line "invalid binary operator" /\ ~ operators_installed e).

(** What [Codegen] returns, inserts and prints. *)
Definition Codegen_result (e : ExprAST) (g : Globals) (r : option Value) (g' : Globals)
    (new : list Instruction) (errs : list Output) : Prop :=
  Codegen e g = Some (r, g') /\ emitted g g' new errs /\
  Forall is_Inst new /\ Forall (reported_by e) errs /\
  (is_Some r <-> errs = []).

(** No two functions of the module have the same name, the empty name
    apart. *)
Definition names_unique (Mod : IRModule) : Prop :=
  forall F1 F2 Fn1 Fn2,
    functions Mod !! F1 = Some Fn1 -> functions Mod !! F2 = Some Fn2 ->
    F_name Fn1 = F_name Fn2 -> F_name Fn1 <> "" -> F1 = F2.

(** [Callee] names a function of [n] parameters. *)
Definition declared (Mod : IRModule) (Callee : string) (n : nat) : Prop :=
  exists F Fn, getFunction Mod Callee = Some (F, Fn) /\ arg_size Fn = n.

(** Nothing stands in the way of lowering [e]: its variables are bound, its
    callees are declared with the number of arguments they are called with,
    and its operators are installed. *)
Fixpoint lowers (g : Globals) (e : ExprAST) : Prop :=
  match e with
  | NumberExprAST _ => True
  | VariableExprAST Name => exists V, NamedValues g !! Name = Some (Some V)
  | BinaryExprAST Op LHS RHS =>
      lowers g LHS /\ lowers g RHS /\ 0 < default_precedence Op
  | CallExprAST Callee Args =>
      declared (TheModule g) Callee (length Args) /\
      (fix all (Args : list ExprAST) : Prop :=
         match Args with
         | [] => True
         | Arg :: Args => lowers g Arg /\ all Args
         end) Args
  end.

(** The functions of [fs'] are those of [fs], with the same names and
    parameters. *)
Definition same_signatures (fs fs' : gmap nat Function) : Prop :=
  forall F,
    match fs !! F, fs' !! F with
    | Some Fn, Some Fn' => F_name Fn' = F_name Fn /\ F_args Fn' = F_args Fn
    | None, None => True
    | _, _ => False
    end.

(** A function as lowering leaves it: a declaration, or one block of
    instructions that ends with the only [ret], checked by [verifyFunction]. *)
Definition complete (Fn : Function) : Prop :=
  (F_blocks Fn = [] /\ F_verified Fn = false) \/
  (exists body V, F_blocks Fn = [body ++ [Ret V]] /\ Forall is_Inst body /\
                  F_verified Fn = true).

Definition module_ok (Mod : IRModule) : Prop :=
  names_unique Mod /\
  forall F Fn, functions Mod !! F = Some Fn -> complete Fn.

(** The function that a prototype lowers to: one that has the name already,
    or a new one. *)
Definition prototype_target (P : PrototypeAST) (g : Globals) : nat :=
  match getFunction (TheModule g) (Proto_Name P) with
  | Some (F, _) => F
  | None => new_Function (TheModule g)
  end.


(** Every call in the module is a call of a function of the module. *)
Definition calls_resolve (Mod : IRModule) : Prop :=
  forall F Fn G, functions Mod !! F = Some Fn -> In G (callees Fn) ->
                 is_Some (functions Mod !! G).



(** An assertion that reading tokens, reading the precedence table and
    printing leave true. *)
Definition parser_stable (P : Globals -> Prop) : Prop :=
  (forall g tok lx, P g -> P (set_CurTok tok (set_lexer lx g))) /\
  (forall g tbl, P g -> P (set_BinopPrecedence tbl g)) /\
  (forall g o, P g -> P (set_stderr o g)).

(** [m] leaves [P] true. *)
Definition keeps (P : Globals -> Prop) {A} (m : M A) : Prop := hoare P m (fun _ => P).

(** A prototype of [n] parameters can be lowered under the name [Name]: no
    function has the name, or a declaration of [n] parameters has it. *)
Definition acceptable (Mod : IRModule) (Name : string) (n : nat) : Prop :=
  match getFunction Mod Name with
  | None => True
  | Some (_, Fn) => Function_empty Fn = true /\ arg_size Fn = n
  end.

(** The body [e] of a function [Name] with the parameters [Params] refers
    to parameters, to functions of the module and to the function itself
    only, with the right numbers of arguments, and its operators are
    installed. *)
Fixpoint scoped (Mod : IRModule) (Name : string) (Params : list string)
    (e : ExprAST) : Prop :=
  match e with
  | NumberExprAST _ => True
  | VariableExprAST x => x ∈ Params
  | BinaryExprAST Op LHS RHS =>
      scoped Mod Name Params LHS /\ scoped Mod Name Params RHS /\
      0 < default_precedence Op
  | CallExprAST Callee Args =>
      ((Callee = Name /\ Callee <> "" /\ length Args = length Params) \/
       declared Mod Callee (length Args)) /\
      (fix all (Args : list ExprAST) : Prop :=
         match Args with
         | [] => True
         | Arg :: Args => scoped Mod Name Params Arg /\ all Args
         end) Args
  end.

(** ** Legal names *)

Definition legal (c : ascii) : bool := contains legal_elements c.

(** What the loop of [MakeLegalFunctionName] makes of one character, and of
    a string. *)
Definition encode (signed_char : bool) (c : ascii) : string :=
  if legal c then String c ""
  else if char_to_int signed_char c <? 0
       then "45" +:+ decimal (Z.to_nat (- char_to_int signed_char c))
       else decimal (Z.to_nat (char_to_int signed_char c)).

Fixpoint encode_all (signed_char : bool) (s : string) : string :=
  match s with
  | EmptyString => EmptyString
  | String c s => encode signed_char c +:+ encode_all signed_char s
  end.

(** The name with the letter that is put in front of a digit. *)
Definition guarded (Name : string) : string :=
  match Name with
  | EmptyString => EmptyString
  | String c _ => if isdigit (ch c) then String "n" Name else Name
  end.

(** The turns of the loop that [s] needs: one for a character that is not
    legal, and one more when its code is negative, for the minus sign. *)
Fixpoint turns (signed_char : bool) (s : string) : nat :=
  match s with
  | EmptyString => O
  | String c s =>
      (if legal c then turns signed_char s
       else if char_to_int signed_char c <? 0 then S (S (turns signed_char s))
       else S (turns signed_char s))
  end.

(** The number that a string of digits denotes. *)
Fixpoint read_digits (s : string) (acc : nat) : nat :=
  match s with
  | EmptyString => acc
  | String c s => read_digits s (10 * acc + (nat_of_ascii c - 48))%nat
  end.

(** Every character of [s] is one of [legal_elements]. *)
Fixpoint all_legal (s : string) : Prop :=
  match s with
  | EmptyString => True
  | String c s => legal c = true /\ all_legal s
  end.

(** * Properties *)

(** ** The lexer *)

Lemma ch_range (c : ascii) : 0 <= ch c < 256.
Proof.
  unfold ch. pose proof (N_ascii_bounded c). lia.
Qed.

Lemma chr_ch (c : ascii) : chr (ch c) = c.
Proof.
  unfold chr, ch. rewrite N2Z.id. apply ascii_N_embedding.
Qed.

Lemma while_isspace_length (c : Z) (input : string) :
  (String.length (snd (while_isspace c input)) <= String.length input)%nat.
Proof.
  revert c. induction input as [|a rest IH]; intros c; simpl.
  - destruct (isspace c); simpl; lia.
  - destruct (isspace c); simpl; [|lia]. specialize (IH (ch a)). lia.
Qed.

Lemma while_isspace_id (c : Z) (input : string) :
  isspace c = false -> while_isspace c input = (c, input).
Proof.
  intros E. destruct input; simpl; rewrite E; reflexivity.
Qed.

Lemma skip_comment_length (input : string) :
  fst (skip_comment input) <> EOF ->
  (String.length (snd (skip_comment input)) < String.length input)%nat.
Proof.
  induction input as [|a rest IH]; simpl.
  - intros H. exfalso. apply H. reflexivity.
  - destruct (negb (ch a =? EOF) && negb (ch a =? 10) && negb (ch a =? 13)); simpl.
    + intros H. specialize (IH H). lia.
    + intros _. lia.
Qed.

(** [gettok] returns whenever the fuel exceeds the length of the input. *)
Lemma gettok_rec_total (fuel : nat) :
  forall lx, (String.length (stdin lx) < fuel)%nat ->
             exists r, gettok_rec fuel lx = Some r.
Proof.
  induction fuel as [|fuel IH]; intros lx Hlen; [lia|].
  simpl.
  pose proof (while_isspace_length (LastChar lx) (stdin lx)) as Hsp.
  destruct (while_isspace (LastChar lx) (stdin lx)) as [c input]. simpl in Hsp.
  destruct (isalpha c).
  { destruct (while_append isalnum _ input) as [Id [c' input']].
    destruct (String.eqb Id "def"); [eauto|].
    destruct (String.eqb Id "extern"); eauto. }
  destruct (isnumeric c).
  { destruct (while_append isnumeric _ input) as [NumStr [c' input']]. eauto. }
  destruct (c =? ch "#").
  { pose proof (skip_comment_length input) as Hc.
    destruct (skip_comment input) as [c' input']. simpl in Hc.
    destruct (c' =? EOF) eqn:E; simpl; [eauto|].
    apply IH. simpl. apply Z.eqb_neq in E. specialize (Hc E). lia. }
  destruct (c =? EOF); [eauto|].
  destruct (getchar input) as [c' input']. eauto.
Qed.

Lemma gettok_total (lx : Lexer) : exists tok lx', gettok lx = Some (tok, lx').
Proof.
  destruct (gettok_rec_total (S (String.length (stdin lx))) lx) as [[tok lx'] H];
    [lia|]. exists tok, lx'. exact H.
Qed.

Lemma getNextToken_total (g : Globals) :
  exists tok lx', gettok (lexer g) = Some (tok, lx') /\
    getNextToken g = Some (tok, set_CurTok tok (set_lexer lx' g)).
Proof.
  destruct (gettok_total (lexer g)) as (tok & lx' & H).
  exists tok, lx'. split; [exact H|]. unfold getNextToken. rewrite H. reflexivity.
Qed.

(** [ParsePrimary] on a token that starts no expression. *)
Lemma ParsePrimary_unknown (fuel : nat) (g : Globals) :
  CurTok g <> tok_identifier -> CurTok g <> tok_number -> CurTok g <> ch "(" ->
  ParsePrimary (S fuel) g =
    Some (None, set_stderr (stderr g ++
      [Print ("Error: unknown token when expecting an expression" +:+ nl)]) g).
Proof.
  intros H1 H2 H3. simpl. unfold bind, get.
  apply Z.eqb_neq in H1, H2, H3. rewrite H1, H2, H3. reflexivity.
Qed.

Lemma getchar_range (s : string) : char_or_EOF (fst (getchar s)).
Proof.
  destruct s as [|k r]; simpl; unfold char_or_EOF, EOF; [lia|].
  pose proof (ch_range k). lia.
Qed.

Lemma while_isspace_range (c : Z) (s : string) :
  char_or_EOF c -> char_or_EOF (fst (while_isspace c s)).
Proof.
  revert c. induction s as [|k r IH]; intros c Hc; simpl.
  - destruct (isspace c); [unfold char_or_EOF, EOF; simpl; lia | exact Hc].
  - destruct (isspace c); [|exact Hc]. apply IH.
    pose proof (ch_range k). unfold char_or_EOF. lia.
Qed.

Lemma while_append_range (p : Z -> bool) (s : string) :
  forall Str, char_or_EOF (fst (snd (while_append p Str s))).
Proof.
  induction s as [|k r IH]; intros Str; simpl.
  - unfold char_or_EOF, EOF. lia.
  - destruct (p (ch k)); [apply IH|]. simpl.
    pose proof (ch_range k). unfold char_or_EOF. lia.
Qed.

Lemma skip_comment_range (s : string) : char_or_EOF (fst (skip_comment s)).
Proof.
  induction s as [|k r IH]; simpl.
  - unfold char_or_EOF, EOF. lia.
  - destruct (negb (ch k =? EOF) && negb (ch k =? 10) && negb (ch k =? 13));
      [exact IH|]. simpl. pose proof (ch_range k). unfold char_or_EOF. lia.
Qed.

Lemma gettok_rec_range (fuel : nat) :
  forall lx tok lx',
    char_or_EOF (LastChar lx) -> gettok_rec fuel lx = Some (tok, lx') ->
    char_or_EOF (LastChar lx') /\ token_code tok.
Proof.
  induction fuel as [|fuel IH]; intros lx tok lx' Hl H; [discriminate|].
  simpl in H.
  pose proof (while_isspace_range (LastChar lx) (stdin lx) Hl) as Hsp.
  destruct (while_isspace (LastChar lx) (stdin lx)) as [c input]. simpl in Hsp.
  destruct (isalpha c).
  { pose proof (while_append_range isalnum input (String (chr c) "")) as Hw.
    destruct (while_append isalnum _ input) as [Id [c' input']]. simpl in Hw.
    destruct (String.eqb Id "def"); [injection H as <- <-; unfold token_code; simpl; tauto|].
    destruct (String.eqb Id "extern"); injection H as <- <-; unfold token_code; simpl; tauto. }
  destruct (isnumeric c).
  { pose proof (while_append_range isnumeric input (String (chr c) "")) as Hw.
    destruct (while_append isnumeric _ input) as [NumStr [c' input']]. simpl in Hw.
    injection H as <- <-. unfold token_code. simpl. tauto. }
  destruct (c =? ch "#").
  { pose proof (skip_comment_range input) as Hk.
    destruct (skip_comment input) as [c' input']. simpl in Hk.
    destruct (negb (c' =? EOF)).
    - unfold token_code in IH. apply (IH _ _ _ (Hk : char_or_EOF (LastChar (mkLexer c' input' _ _))) H).
    - injection H as <- <-. unfold token_code. simpl. tauto. }
  destruct (c =? EOF) eqn:Ee.
  { injection H as <- <-. unfold token_code. simpl. tauto. }
  pose proof (getchar_range input) as Hg.
  destruct (getchar input) as [c' input']. simpl in Hg.
  injection H as <- <-. simpl. split; [exact Hg|].
  apply Z.eqb_neq in Ee. unfold token_code, char_or_EOF, EOF in *.
  right. right. right. right. right. lia.
Qed.

(** C9. The lexer has no failing path: [gettok] returns a token on every
    lexer state.  After the blanks, a character that is no letter, no digit
    or point, no [#] and not the end of the input is the token itself, and
    the lookahead moves to the next character; the end of the input gives
    [tok_eof].  With a character or [EOF] as lookahead, which is how the
    program starts and stays, every token is one of the five token codes or
    a character.  A token that starts no expression is rejected by the
    parser, in [ParsePrimary]. *)
Theorem gettok_never_fails :
  (forall lx, exists tok lx', gettok lx = Some (tok, lx')) /\
  (forall lx c input,
     while_isspace (LastChar lx) (stdin lx) = (c, input) ->
     isalpha c = false -> isnumeric c = false -> c <> ch "#" -> c <> EOF ->
     gettok lx = Some (c, mkLexer (fst (getchar input)) (snd (getchar input))
                                  (IdentifierStr lx) (NumVal lx))) /\
  (forall lx input,
     while_isspace (LastChar lx) (stdin lx) = (EOF, input) ->
     gettok lx = Some (tok_eof, mkLexer EOF input (IdentifierStr lx) (NumVal lx))) /\
  (forall lx tok lx',
     char_or_EOF (LastChar lx) -> gettok lx = Some (tok, lx') ->
     char_or_EOF (LastChar lx') /\ token_code tok) /\
  (forall fuel g,
     CurTok g <> tok_identifier -> CurTok g <> tok_number -> CurTok g <> ch "(" ->
     exists g', ParsePrimary (S fuel) g = Some (None, g') /\
                stderr g' = stderr g ++
                  [Print ("Error: unknown token when expecting an expression" +:+ nl)]).
Proof.
  split; [exact gettok_total|]. split; [|split; [|split]].
  - intros lx c input Hsp Ha Hn Hc He.
    unfold gettok. simpl. rewrite Hsp, Ha, Hn.
    apply Z.eqb_neq in Hc, He. rewrite Hc, He.
    destruct (getchar input); reflexivity.
  - intros lx input Hsp. unfold gettok. simpl. rewrite Hsp. reflexivity.
  - intros lx tok lx' Hl H. exact (gettok_rec_range _ _ _ _ Hl H).
  - intros fuel g H1 H2 H3. eexists. split.
    + apply ParsePrimary_unknown; assumption.
    + reflexivity.
Qed.

Lemma gettok_never_fails_witness :
  gettok (mkLexer (ch " ") " @1" "" (strtod "0")) =
    Some (ch "@", mkLexer (ch "1") "" "" (strtod "0")).
Proof.
  destruct gettok_never_fails as (_ & H & _).
  apply (H (mkLexer (ch " ") " @1" "" (strtod "0")) (ch "@") "1");
    [reflexivity | reflexivity | reflexivity | discriminate | discriminate].
Defined.

(** ** Token streams *)

Lemma getNextToken_presents (t t' : token) (ts : list token) (g : Globals) :
  presents (t :: t' :: ts) g ->
  exists tok lx',
    getNextToken g = Some (tok, set_CurTok tok (set_lexer lx' g)) /\
    presents (t' :: ts) (set_CurTok tok (set_lexer lx' g)).
Proof.
  intros [_ (tok & lx' & Hg & Hr & Hl)].
  exists tok, lx'. unfold getNextToken. rewrite Hg. split; [reflexivity|].
  split; assumption.
Qed.

Lemma presents_ext (ts : list token) (g g' : Globals) :
  CurTok g' = CurTok g -> lexer g' = lexer g -> presents ts g -> presents ts g'.
Proof.
  intros Hc Hl. destruct ts as [|t ts]; unfold presents; [trivial|].
  rewrite Hc, Hl. trivial.
Qed.

Lemma token_read_not_identifier (t : token) (tok : Z) (lx : Lexer) :
  is_identifier t = false -> token_read t tok lx -> (tok =? tok_identifier) = false.
Proof.
  intros Hn Hr. apply Z.eqb_neq.
  destruct t; simpl in *; try discriminate; unfold tok_identifier, tok_eof,
    tok_def, tok_extern, tok_number in *; lia.
Qed.

(** ** Prototypes *)

(** The loop of [ParsePrototype] collects identifiers up to the first token
    that is none. *)
Lemma ParsePrototype_args_spec (Args : list string) :
  forall (ArgNames : list string) (t : token) (rest : list token)
         (g : Globals) (fuel : nat),
    lexes (map T_identifier Args ++ t :: rest) (lexer g) ->
    is_identifier t = false ->
    (length Args < fuel)%nat ->
    exists tok lx',
      ParsePrototype_args fuel ArgNames g =
        Some (ArgNames ++ Args, set_CurTok tok (set_lexer lx' g)) /\
      presents (t :: rest) (set_CurTok tok (set_lexer lx' g)).
Proof.
  induction Args as [|Arg Args IH]; intros ArgNames t rest g fuel Hl Ht Hf;
    (destruct fuel as [|fuel]; [simpl in Hf; lia|]);
    destruct Hl as (tok & lx' & Hg & Hr & Hl); simpl;
    unfold bind, getNextToken; rewrite Hg.
  - rewrite (token_read_not_identifier _ _ _ Ht Hr).
    exists tok, lx'. rewrite app_nil_r. split; [reflexivity|].
    split; assumption.
  - destruct Hr as [-> HId]. simpl. unfold get. simpl. rewrite HId.
    destruct (IH (ArgNames ++ [Arg]) t rest (set_CurTok tok_identifier (set_lexer lx' g)) fuel)
      as (tok' & lx'' & Hp & Hpres); [exact Hl | exact Ht | simpl in Hf; lia |].
    exists tok', lx''. rewrite Hp. rewrite <- app_assoc. simpl.
    split; [reflexivity | exact Hpres].
Qed.

Lemma token_read_not_rparen (t : token) (tok : Z) (lx : Lexer) :
  t <> T_char (ch ")") -> token_read t tok lx -> (tok =? ch ")") = false.
Proof.
  intros Hn Hr. apply Z.eqb_neq. intros ->.
  destruct t; simpl in Hr; try discriminate; try (destruct Hr; discriminate).
  destruct Hr as [<- _]. apply Hn. reflexivity.
Qed.

Lemma getNextToken_presents_any (t : token) (ts : list token) (g : Globals) :
  presents (t :: ts) g ->
  exists tok lx',
    getNextToken g = Some (tok, set_CurTok tok (set_lexer lx' g)) /\
    presents ts (set_CurTok tok (set_lexer lx' g)).
Proof.
  intros Hp. destruct ts as [|t' ts].
  - destruct (getNextToken_total g) as (tok & lx' & _ & H).
    exists tok, lx'. split; [exact H | exact I].
  - exact (getNextToken_presents t t' ts g Hp).
Qed.

(** C3, as the code has it.  The parameters of a prototype are the
    identifier tokens that follow the opening parenthesis, with nothing
    between them but what the lexer skips; the first token that is no
    identifier has to be the closing parenthesis, and any other token there,
    a comma included, is the error "Expected ')' in prototype". *)
Theorem ParsePrototype_parameters :
  (forall FnName Args rest g fuel,
     presents (T_identifier FnName :: T_char (ch "(") ::
               map T_identifier Args ++ T_char (ch ")") :: rest) g ->
     (length Args < fuel)%nat ->
     exists g', ParsePrototype fuel g = Some (Some (mkPrototypeAST FnName Args), g') /\
                stderr g' = stderr g /\ presents rest g') /\
  (forall FnName Args t rest g fuel,
     presents (T_identifier FnName :: T_char (ch "(") ::
               map T_identifier Args ++ t :: rest) g ->
     is_identifier t = false -> t <> T_char (ch ")") ->
     (length Args < fuel)%nat ->
     exists g', ParsePrototype fuel g = Some (None, g') /\
                stderr g' = stderr g ++ [Print ("Error: Expected ')' in prototype" +:+ nl)] /\
                presents (t :: rest) g').
Proof.
  split.
  - intros FnName Args rest g fuel Hp Hf.
    pose proof Hp as [[Hc HId] _].
    destruct (getNextToken_presents _ _ _ _ Hp) as (tok1 & lx1 & Hn1 & Hp1).
    pose proof Hp1 as [[Hc1 _] Hl1]. simpl in Hc1. subst tok1.
    destruct (ParsePrototype_args_spec Args [] (T_char (ch ")")) rest _ fuel Hl1 eq_refl Hf)
      as (tok2 & lx2 & Ha & Hp2).
    pose proof Hp2 as [[Hc2 _] _]. simpl in Hc2. subst tok2.
    destruct (getNextToken_presents_any _ _ _ Hp2) as (tok3 & lx3 & Hn3 & Hp3).
    eexists. split; [|split; [|exact Hp3]].
    + unfold ParsePrototype, bind, get. rewrite Hc. simpl.
      rewrite Hn1. simpl. rewrite Ha. simpl. rewrite Hn3. rewrite HId. reflexivity.
    + reflexivity.
  - intros FnName Args t rest g fuel Hp Ht Hr Hf.
    pose proof Hp as [[Hc HId] _].
    destruct (getNextToken_presents _ _ _ _ Hp) as (tok1 & lx1 & Hn1 & Hp1).
    pose proof Hp1 as [[Hc1 _] Hl1]. simpl in Hc1. subst tok1.
    destruct (ParsePrototype_args_spec Args [] t rest _ fuel Hl1 Ht Hf)
      as (tok2 & lx2 & Ha & Hp2).
    pose proof Hp2 as [Hr2 _]. simpl in Hr2.
    pose proof (token_read_not_rparen _ _ _ Hr Hr2) as Hne.
    eexists. split; [|split].
    + unfold ParsePrototype, bind, get. rewrite Hc. simpl.
      rewrite Hn1. simpl. rewrite Ha. simpl. rewrite Hne. simpl. reflexivity.
    + reflexivity.
    + exact Hp2.
Qed.

(** [foo(a b)] is a prototype with two parameters; with a comma between the
    names it is a parse error. *)
Lemma ParsePrototype_rejects_comma :
  option_map fst (parse_input (ParsePrototype 10) "foo(a b)") =
    Some (Some (mkPrototypeAST "foo" ["a"; "b"])) /\
  option_map fst (parse_input (ParsePrototype 10) "foo(a,b)") = Some None.
Proof. split; vm_compute; reflexivity. Qed.

Lemma ParsePrototype_parameters_witness :
  exists g',
    ParsePrototype 3 (ready "foo( a  b )") =
      Some (Some (mkPrototypeAST "foo" ["a"; "b"]), g').
Proof.
  destruct ParsePrototype_parameters as [H _].
  destruct (H "foo" ["a"; "b"] [] (ready "foo( a  b )") 3%nat) as (g' & Hg' & _).
  - presents_now.
  - simpl. lia.
  - exists g'. exact Hg'.
Defined.

(** ** Operator precedence *)

Lemma GetTokPrecedence_spec (t : token) (ts : list token) (g : Globals) :
  presents (t :: ts) g -> precedences_installed g ->
  exists tbl,
    GetTokPrecedence g = Some (token_precedence t, set_BinopPrecedence tbl g) /\
    precedences_installed (set_BinopPrecedence tbl g).
Proof.
  intros [Hr _] Hinst. unfold GetTokPrecedence, bind, get, modify, ret.
  assert (Hsame : precedences_installed (set_BinopPrecedence (BinopPrecedence g) g))
    by exact Hinst.
  destruct t as [| | |Id|Val|c]; simpl in Hr;
    try (rewrite Hr; exists (BinopPrecedence g); destruct g; split;
         [reflexivity | exact Hinst]);
    try (destruct Hr as [Hr _]; rewrite Hr; exists (BinopPrecedence g); destruct g;
         split; [reflexivity | exact Hinst]).
  destruct Hr as [Hr _]. rewrite Hr. simpl.
  destruct (isascii c) eqn:Ha; simpl.
  2:{ exists (BinopPrecedence g). destruct g. split; [reflexivity | exact Hinst]. }
  unfold subscript. pose proof (Hinst c) as Hc.
  destruct (BinopPrecedence g !! c) as [v|] eqn:E; simpl in Hc.
  - subst v. exists (BinopPrecedence g).
    destruct (default_precedence c <=? 0); (split; [reflexivity | exact Hinst]).
  - rewrite <- Hc. simpl. exists (<[c := 0]> (BinopPrecedence g)).
    split; [reflexivity|].
    intros c'. simpl. destruct (decide (c = c')) as [<-|Hne].
    + rewrite lookup_insert_eq. simpl. exact Hc.
    + rewrite lookup_insert_ne by exact Hne. apply Hinst.
Qed.

Lemma ParseBinOpRHS_S (fuel : nat) (ExprPrec : Z) (LHS : ExprAST) :
  ParseBinOpRHS (S fuel) ExprPrec LHS =
    (do TokPrec <- GetTokPrecedence;
     if TokPrec <? ExprPrec then ret (Some LHS)
     else
       do BinOp <- get CurTok;
       getNextToken ;;
       do RHS <- ParsePrimary fuel;
       match RHS with
       | None => ret None
       | Some RHS =>
           do NextPrec <- GetTokPrecedence;
           do RHS <- (if TokPrec <? NextPrec
                      then ParseBinOpRHS fuel (TokPrec + 1) RHS
                      else ret (Some RHS));
           match RHS with
           | None => ret None
           | Some RHS => ParseBinOpRHS fuel ExprPrec (BinaryExprAST BinOp LHS RHS)
           end
       end).
Proof. reflexivity. Qed.

Lemma ParsePrimary_S (fuel : nat) :
  ParsePrimary (S fuel) =
    (do tok <- get CurTok;
     if tok =? tok_identifier then ParseIdentifierExpr fuel
     else if tok =? tok_number then ParseNumberExpr
     else if tok =? ch "(" then ParseParenExpr fuel
     else Error "unknown token when expecting an expression").
Proof. reflexivity. Qed.

Lemma ParseParenExpr_S (fuel : nat) :
  ParseParenExpr (S fuel) =
    (getNextToken ;;
     do V <- ParseExpression fuel;
     match V with
     | None => ret None
     | Some V =>
         do tok <- get CurTok;
         if negb (tok =? ch ")") then Error "expected ')'"
         else getNextToken ;; ret (Some V)
     end).
Proof. reflexivity. Qed.

Lemma ParseExpression_S (fuel : nat) :
  ParseExpression (S fuel) =
    (do LHS <- ParsePrimary fuel;
     match LHS with
     | None => ret None
     | Some LHS => ParseBinOpRHS fuel 0 LHS
     end).
Proof. reflexivity. Qed.

(** [ParseBinOpRHS] hands back its left-hand side at a token that binds
    less tightly than the threshold. *)
Lemma ParseBinOpRHS_stop (t : token) (ts : list token) (g : Globals) (q : Z) :
  presents (t :: ts) g -> precedences_installed g -> token_precedence t < q ->
  exists g',
    (forall fuel LHS, ParseBinOpRHS (S fuel) q LHS g = Some (Some LHS, g')) /\
    presents (t :: ts) g' /\ precedences_installed g' /\ stderr g' = stderr g.
Proof.
  intros Hp Hi Hq.
  destruct (GetTokPrecedence_spec t ts g Hp Hi) as (tbl & Hg & Hi').
  exists (set_BinopPrecedence tbl g). split; [|split; [|split]].
  - intros fuel LHS. rewrite ParseBinOpRHS_S. unfold bind. rewrite Hg.
    apply Z.ltb_lt in Hq. rewrite Hq. reflexivity.
  - exact Hp.
  - exact Hi'.
  - reflexivity.
Qed.

Lemma yield_leftmost (e : sexp) : yield e = yield (leftmost e) ++ after_leftmost e.
Proof.
  induction e as [Val|e IH|l IHl o r IHr]; simpl.
  - reflexivity.
  - rewrite app_nil_r. reflexivity.
  - rewrite IHl at 1. rewrite <- app_assoc. reflexivity.
Qed.

Lemma op_char_precedence (o : binop) : token_precedence (T_char (op_char o)) = op_prec o.
Proof. destruct o; reflexivity. Qed.

Lemma op_char_nonneg (o : binop) : 0 <= op_char o.
Proof. destruct o; vm_compute; discriminate. Qed.

Lemma level_bounds (e : sexp) : 10 <= level e <= 41.
Proof. destruct e as [| |l o r]; simpl; try lia. destruct o; simpl; lia. Qed.

(** What follows the first primary expression of a conventional expression
    is nothing, or starts with an operator that binds at least as tightly as
    the expression. *)
Lemma after_leftmost_head (e : sexp) :
  conventional e ->
  (after_leftmost e = [] /\ leftmost e = e) \/
  (exists o ts, after_leftmost e = T_char (op_char o) :: ts /\ level e <= op_prec o).
Proof.
  induction e as [Val|e IH|l IHl o r IHr]; simpl; intros Hc.
  - left. split; reflexivity.
  - left. split; reflexivity.
  - right. destruct Hc as (Hl & _ & Hcl & _).
    destruct (IHl Hcl) as [[-> _]|(o' & ts & -> & Hle)].
    + exists o, (yield r). split; [reflexivity | lia].
    + exists o', (ts ++ T_char (op_char o) :: yield r). split; [reflexivity | lia].
Qed.

Lemma primary_spec_SNum (Val : double) : primary_spec (SNum Val).
Proof.
  intros t rest g Hp Hi. simpl in Hp.
  destruct (getNextToken_presents _ _ _ _ Hp) as (tok & lx' & Hn & Hp').
  destruct Hp as [[Hc Hv] _].
  exists (set_CurTok tok (set_lexer lx' g)). split; [|split; [|split]].
  - exists 1%nat. intros fuel Hf. destruct fuel as [|fuel]; [lia|].
    rewrite ParsePrimary_S. unfold bind, get. rewrite Hc. simpl.
    unfold ParseNumberExpr, bind, get. rewrite Hn, Hv. reflexivity.
  - exact Hp'.
  - exact Hi.
  - reflexivity.
Qed.

Lemma binoprhs_spec_atom (e : sexp) :
  after_leftmost e = [] -> leftmost e = e -> binoprhs_spec e.
Proof.
  intros Ha Hl t rest g Hp Hi _. rewrite Ha in Hp. simpl in Hp.
  exists g. split; [exact Hp|]. split; [exact Hi|]. split; [reflexivity|].
  intros q r _ H. rewrite Hl. exact H.
Qed.

Lemma primary_spec_SParen (e : sexp) :
  primary_spec e -> binoprhs_spec e -> primary_spec (SParen e).
Proof.
  intros IHp IHb t rest g Hp Hi. simpl in Hp.
  rewrite <- app_assoc in Hp. simpl in Hp.
  destruct (getNextToken_presents_any _ _ _ Hp) as (tok_a & lx_a & Hn_a & Hp_a).
  destruct Hp as [[Hc _] _].
  destruct (IHp _ _ _ Hp_a Hi) as (g_b & [n1 Hr1] & Hp_b & Hi_b & He_b).
  destruct (IHb _ _ _ Hp_b Hi_b) as (g_c & Hp_c & Hi_c & He_c & Hclimb).
  { pose proof (level_bounds e). simpl. lia. }
  destruct (ParseBinOpRHS_stop _ _ _ 0 Hp_c Hi_c) as (g_d & Hstop & Hp_d & Hi_d & He_d).
  { simpl. lia. }
  destruct (Hclimb 0 (Some (ast e), g_d)) as [n2 Hr2].
  { pose proof (level_bounds e). lia. }
  { exists 1%nat. intros fuel Hf. destruct fuel as [|fuel]; [lia|]. apply Hstop. }
  destruct (getNextToken_presents _ _ _ _ Hp_d) as (tok_e & lx_e & Hn_e & Hp_e).
  destruct Hp_d as [[Hc_d _] _].
  exists (set_CurTok tok_e (set_lexer lx_e g_d)). split; [|split; [|split]].
  - exists (S (S (S (n1 + n2)))). intros fuel Hf.
    destruct fuel as [|fuel]; [lia|]. rewrite ParsePrimary_S.
    unfold bind at 1. unfold get at 1. rewrite Hc. simpl.
    destruct fuel as [|fuel]; [lia|]. rewrite ParseParenExpr_S.
    unfold bind at 1. rewrite Hn_a.
    destruct fuel as [|fuel]; [lia|]. rewrite ParseExpression_S.
    unfold bind. rewrite (Hr1 fuel) by lia. rewrite (Hr2 fuel) by lia.
    unfold get. rewrite Hc_d. simpl. rewrite Hn_e. reflexivity.
  - exact Hp_e.
  - exact Hi_d.
  - simpl. rewrite He_d, He_c, He_b. reflexivity.
Qed.

Lemma primary_spec_SBin (l : sexp) (o : binop) (r : sexp) :
  primary_spec l -> primary_spec (SBin l o r).
Proof.
  intros IHp t rest g Hp Hi. simpl in Hp. rewrite <- app_assoc in Hp. simpl in Hp.
  destruct (IHp _ _ _ Hp Hi) as (g1 & Hr1 & Hp1 & Hi1 & He1).
  exists g1. split; [exact Hr1|]. split; [|split; assumption].
  simpl. rewrite <- app_assoc. exact Hp1.
Qed.

Lemma binoprhs_spec_SBin (l : sexp) (o : binop) (r : sexp) :
  conventional (SBin l o r) ->
  binoprhs_spec l -> primary_spec r -> binoprhs_spec r ->
  binoprhs_spec (SBin l o r).
Proof.
  intros (Hll & Hlr & Hcl & Hcr) IHbl IHpr IHbr t rest g Hp Hi Ht.
  simpl in Hp. change (level (SBin l o r)) with (op_prec o) in *.
  rewrite <- app_assoc in Hp. simpl in Hp.
  (* the operands to the left of [o] *)
  destruct (IHbl _ _ _ Hp Hi) as (g1 & Hp1 & Hi1 & He1 & Hclimb_l).
  { rewrite op_char_precedence. exact Hll. }
  (* the operator *)
  destruct (GetTokPrecedence_spec _ _ _ Hp1 Hi1) as (tbl2 & Hg2 & Hi2).
  rewrite op_char_precedence in Hg2.
  set (g2 := set_BinopPrecedence tbl2 g1) in *.
  assert (Hp2 : presents (T_char (op_char o) :: yield r ++ t :: rest) g2) by exact Hp1.
  destruct (getNextToken_presents_any _ _ _ Hp2) as (tok3 & lx3 & Hn3 & Hp3).
  assert (Hc2 : CurTok g2 = op_char o) by (destruct Hp1 as [[Hc _] _]; exact Hc).
  set (g3 := set_CurTok tok3 (set_lexer lx3 g2)) in *.
  (* the first primary expression of the right operand *)
  destruct (IHpr _ _ _ Hp3 Hi2) as (g4 & [n1 Hr1] & Hp4 & Hi4 & He4).
  destruct (after_leftmost_head r Hcr) as [[Hnil Hleft]|(o' & ts' & Hhead & Hlev)].
  - (* the right operand is that primary expression *)
    rewrite Hnil in Hp4. simpl in Hp4. rewrite Hleft in Hr1.
    destruct (GetTokPrecedence_spec _ _ _ Hp4 Hi4) as (tbl5 & Hg5 & Hi5).
    exists (set_BinopPrecedence tbl5 g4).
    split; [exact Hp4|]. split; [exact Hi5|].
    split; [simpl; rewrite He4; exact He1|].
    intros q res Hq [n0 Hr0]. apply Hclimb_l; [lia|].
    exists (S (n0 + n1)). intros fuel Hf. destruct fuel as [|fuel]; [lia|].
    rewrite ParseBinOpRHS_S. unfold bind at 1. rewrite Hg2.
    destruct (Z.ltb_spec (op_prec o) q) as [Hlt|_]; [lia|].
    unfold bind, get. fold g2. rewrite Hn3. fold g3. rewrite (Hr1 fuel) by lia.
    rewrite Hg5.
    destruct (Z.ltb_spec (op_prec o) (token_precedence t)) as [Hlt|_]; [lia|].
    unfold ret. rewrite Hc2. apply Hr0. lia.
  - (* the right operand goes on with an operator that binds tighter *)
    pose proof Hp4 as Hp4'. rewrite Hhead in Hp4'. simpl in Hp4'.
    destruct (GetTokPrecedence_spec _ _ _ Hp4' Hi4) as (tbl5 & Hg5 & Hi5).
    rewrite op_char_precedence in Hg5.
    set (g5 := set_BinopPrecedence tbl5 g4) in *.
    assert (Hp5 : presents (after_leftmost r ++ t :: rest) g5) by exact Hp4.
    destruct (IHbr _ _ _ Hp5 Hi5) as (g6 & Hp6 & Hi6 & He6 & Hclimb_r); [lia|].
    destruct (ParseBinOpRHS_stop _ _ _ (op_prec o + 1) Hp6 Hi6)
      as (g7 & Hstop & Hp7 & Hi7 & He7); [lia|].
    destruct (Hclimb_r (op_prec o + 1) (Some (ast r), g7)) as [n2 Hr2]; [lia| |].
    { exists 1%nat. intros fuel Hf. destruct fuel as [|fuel]; [lia|]. apply Hstop. }
    exists g7. split; [exact Hp7|]. split; [exact Hi7|].
    split; [rewrite He7, He6; simpl; rewrite He4; exact He1|].
    intros q res Hq [n0 Hr0]. apply Hclimb_l; [lia|].
    exists (S (n0 + n1 + n2)). intros fuel Hf. destruct fuel as [|fuel]; [lia|].
    rewrite ParseBinOpRHS_S. unfold bind at 1. rewrite Hg2.
    destruct (Z.ltb_spec (op_prec o) q) as [Hlt|_]; [lia|].
    unfold bind, get. fold g2. rewrite Hn3. fold g3. rewrite (Hr1 fuel) by lia.
    rewrite Hg5. fold g5.
    destruct (Z.ltb_spec (op_prec o) (op_prec o')) as [_|Hge]; [|lia].
    rewrite (Hr2 fuel) by lia.
    rewrite Hc2. apply Hr0. lia.
Qed.

(** Precedence climbing, by induction on the expression as written. *)
Lemma climb (e : sexp) : conventional e -> primary_spec e /\ binoprhs_spec e.
Proof.
  induction e as [Val|e IH|l IHl o r IHr]; intros Hc.
  - split; [apply primary_spec_SNum | apply binoprhs_spec_atom; reflexivity].
  - destruct (IH Hc) as [IHp IHb].
    split; [apply primary_spec_SParen; assumption
           | apply binoprhs_spec_atom; reflexivity].
  - pose proof Hc as (_ & _ & Hcl & Hcr).
    destruct (IHl Hcl) as [IHpl IHbl]. destruct (IHr Hcr) as [IHpr IHbr].
    split; [apply primary_spec_SBin; assumption
           | apply binoprhs_spec_SBin; assumption].
Qed.

(** [ParseExpression] on the tokens of a conventionally grouped expression,
    followed by a token that is no binary operator. *)
Lemma ParseExpression_conventional (e : sexp) (t : token) (rest : list token)
    (g : Globals) :
  conventional e ->
  presents (yield e ++ t :: rest) g ->
  token_precedence t = -1 ->
  precedences_installed g ->
  exists g',
    returns ParseExpression g (Some (ast e), g') /\
    presents (t :: rest) g' /\ stderr g' = stderr g /\ precedences_installed g'.
Proof.
  intros Hc Hp Ht Hi. destruct (climb e Hc) as [Hprim Hrhs].
  destruct (Hprim _ _ _ Hp Hi) as (g1 & [n1 Hr1] & Hp1 & Hi1 & He1).
  destruct (Hrhs _ _ _ Hp1 Hi1) as (g2 & Hp2 & Hi2 & He2 & Hclimb).
  { pose proof (level_bounds e). lia. }
  destruct (ParseBinOpRHS_stop _ _ _ 0 Hp2 Hi2) as (g3 & Hstop & Hp3 & Hi3 & He3); [lia|].
  destruct (Hclimb 0 (Some (ast e), g3)) as [n2 Hr2].
  { pose proof (level_bounds e). lia. }
  { exists 1%nat. intros fuel Hf. destruct fuel as [|fuel]; [lia|]. apply Hstop. }
  exists g3. split; [|split; [exact Hp3|split; [congruence | exact Hi3]]].
  exists (S (n1 + n2)). intros fuel Hf. destruct fuel as [|fuel]; [lia|].
  rewrite ParseExpression_S. unfold bind. rewrite (Hr1 fuel) by lia.
  apply Hr2. lia.
Qed.

(** ** From characters to tokens *)

Lemma append_cons (c : ascii) (s t : string) : String c s +:+ t = String c (s +:+ t).
Proof. reflexivity. Qed.

Lemma append_nil_l (t : string) : "" +:+ t = t.
Proof. reflexivity. Qed.

Lemma append_nil_r (s : string) : s +:+ "" = s.
Proof. induction s as [|c s IH]; [reflexivity|]. rewrite append_cons, IH. reflexivity. Qed.

Lemma append_assoc (s t u : string) : (s +:+ t) +:+ u = s +:+ (t +:+ u).
Proof.
  induction s as [|c s IH]; [reflexivity|]. rewrite !append_cons, IH. reflexivity.
Qed.

Lemma at_chars_getchar (s : string) (Id : string) (Val : double) :
  at_chars s (mkLexer (fst (getchar s)) (snd (getchar s)) Id Val).
Proof. destruct s; split; reflexivity. Qed.

Lemma while_append_run (p : Z -> bool) (cs : string) :
  forall (Str s : string),
    all_chars p cs ->
    stops p s ->
    while_append p Str (cs +:+ s) = (Str +:+ cs, getchar s).
Proof.
  induction cs as [|c cs IH]; intros Str s Hall Hstop.
  - rewrite append_nil_l, append_nil_r. destruct s as [|c s]; simpl; [reflexivity|].
    simpl in Hstop. rewrite Hstop. reflexivity.
  - destruct Hall as [Hc Hall]. rewrite append_cons. simpl. rewrite Hc.
    rewrite (IH _ s Hall Hstop). rewrite append_assoc. reflexivity.
Qed.

Lemma isnumeric_not_space (c : Z) : isnumeric c = true -> isspace c = false.
Proof.
  unfold isnumeric, isdigit, isspace. change (ch ".") with 46. lia.
Qed.

Lemma isnumeric_not_alpha (c : Z) : isnumeric c = true -> isalpha c = false.
Proof.
  unfold isnumeric, isdigit, isalpha, isupper, islower. change (ch ".") with 46. lia.
Qed.

(** A literal followed by something that is no digit and no point. *)
Lemma gettok_number (NumStr s : string) (lx : Lexer) :
  NumStr <> "" -> all_chars isnumeric NumStr -> stops isnumeric s ->
  at_chars (NumStr +:+ s) lx ->
  exists lx', gettok lx = Some (tok_number, lx') /\
              NumVal lx' = strtod NumStr /\ at_chars s lx'.
Proof.
  intros Hne Hall Hstop Hat. destruct NumStr as [|c cs]; [congruence|].
  destruct Hall as [Hc Hall]. destruct Hat as [HL Hin].
  unfold gettok. simpl. rewrite HL, Hin.
  rewrite (while_isspace_id _ _ (isnumeric_not_space _ Hc)).
  rewrite (isnumeric_not_alpha _ Hc), Hc.
  rewrite (while_append_run isnumeric cs _ s Hall Hstop).
  rewrite chr_ch. destruct (getchar s) as [c' input'] eqn:E.
  eexists. split; [reflexivity|]. split; [reflexivity|].
  pose proof (at_chars_getchar s (IdentifierStr lx) (strtod (String c cs))) as H.
  rewrite E in H. exact H.
Qed.

(** A character that is a token by itself. *)
Lemma gettok_char (c : ascii) (s : string) (lx : Lexer) :
  isspace (ch c) = false -> isalpha (ch c) = false -> isnumeric (ch c) = false ->
  ch c <> ch "#" ->
  at_chars (String c s) lx ->
  exists lx', gettok lx = Some (ch c, lx') /\ at_chars s lx'.
Proof.
  intros Hs Ha Hn Hc [HL Hin]. unfold gettok. simpl. rewrite HL, Hin.
  rewrite (while_isspace_id _ _ Hs). rewrite Ha, Hn.
  apply Z.eqb_neq in Hc. rewrite Hc.
  assert (He : (ch c =? EOF) = false).
  { apply Z.eqb_neq. pose proof (ch_range c). unfold EOF. lia. }
  rewrite He. destruct (getchar s) as [c' input'] eqn:E.
  eexists. split; [reflexivity|].
  pose proof (at_chars_getchar s (IdentifierStr lx) (NumVal lx)) as H.
  rewrite E in H. exact H.
Qed.

Lemma gettok_eof (lx : Lexer) :
  at_chars "" lx -> exists lx', gettok lx = Some (tok_eof, lx') /\ at_chars "" lx'.
Proof.
  intros [HL Hin]. unfold gettok. simpl. rewrite HL, Hin. simpl.
  eexists. split; [reflexivity|]. split; reflexivity.
Qed.

Lemma lexes_eof (n : nat) (lx : Lexer) : at_chars "" lx -> lexes (repeat T_eof n) lx.
Proof.
  revert lx. induction n as [|n IH]; intros lx Hat; simpl; [exact I|].
  destruct (gettok_eof lx Hat) as (lx' & Hg & Hat').
  exists tok_eof, lx'. split; [exact Hg|]. split; [reflexivity | apply IH, Hat'].
Qed.

(** The lexer turns the text of an expression into its tokens. *)
Lemma lexes_render (e : sexp) :
  forall (s : string) (ts : list token) (lx : Lexer),
    literals_ok e ->
    at_chars (render e +:+ s) lx ->
    stops isnumeric s ->
    (forall lx', at_chars s lx' -> lexes ts lx') ->
    lexes (yield e ++ ts) lx.
Proof.
  induction e as [[NumStr]|e IH|l IHl o r IHr]; intros s ts lx Hok Hat Hstop Hts.
  - destruct Hok as [Hne Hall].
    destruct (gettok_number NumStr s lx Hne Hall Hstop Hat) as (lx' & Hg & Hv & Hat').
    exists tok_number, lx'. split; [exact Hg|]. split; [split; [reflexivity|exact Hv]|].
    apply Hts, Hat'.
  - simpl in Hat. rewrite append_cons in Hat.
    destruct (gettok_char "(" ((render e +:+ ")") +:+ s) lx) as (lx1 & Hg1 & Hat1);
      [reflexivity.. | discriminate | exact Hat |].
    exists (ch "("), lx1. split; [exact Hg1|]. split; [split; [reflexivity|discriminate]|].
    simpl. rewrite <- app_assoc. rewrite append_assoc in Hat1.
    apply (IH (String ")" s) _ lx1 Hok Hat1); [reflexivity|].
    intros lx2 Hat2.
    destruct (gettok_char ")" s lx2) as (lx3 & Hg3 & Hat3);
      [reflexivity.. | discriminate | exact Hat2 |].
    exists (ch ")"), lx3. split; [exact Hg3|]. split; [split; [reflexivity|discriminate]|].
    apply Hts, Hat3.
  - destruct Hok as [Hokl Hokr]. simpl in Hat. rewrite append_assoc in Hat.
    simpl. rewrite <- app_assoc.
    apply (IHl (String (op_ascii o) (render r) +:+ s) _ lx Hokl Hat);
      [destruct o; reflexivity|].
    intros lx1 Hat1. rewrite append_cons in Hat1.
    destruct (gettok_char (op_ascii o) (render r +:+ s) lx1) as (lx2 & Hg2 & Hat2);
      [destruct o; reflexivity.. | destruct o; discriminate | exact Hat1 |].
    exists (op_char o), lx2. split; [destruct o; exact Hg2|].
    split; [split; [reflexivity | apply op_char_nonneg]|].
    apply (IHr s ts lx2 Hokr Hat2 Hstop Hts).
Qed.

Lemma gettok_rec_mono (n : nat) :
  forall lx r, gettok_rec n lx = Some r ->
  forall m, (n <= m)%nat -> gettok_rec m lx = Some r.
Proof.
  induction n as [|n IH]; intros lx r H m Hm; [discriminate|].
  destruct m as [|m]; [lia|]. simpl in *.
  destruct (while_isspace (LastChar lx) (stdin lx)) as [c input].
  destruct (isalpha c); [exact H|].
  destruct (isnumeric c); [exact H|].
  destruct (c =? ch "#"); [|exact H].
  destruct (skip_comment input) as [c' input'].
  destruct (negb (c' =? EOF)); [|exact H].
  apply (IH _ _ H). lia.
Qed.

(** The blank that [LastChar] holds when the program starts is skipped. *)
Lemma gettok_leading_space (c : ascii) (s Id : string) (Val : double) r :
  gettok (mkLexer (ch c) s Id Val) = Some r ->
  gettok (mkLexer (ch " ") (String c s) Id Val) = Some r.
Proof.
  intros H. unfold gettok in *.
  apply (gettok_rec_mono _ _ _ H (S (String.length (String c s)))). simpl. lia.
Qed.

Lemma ready_spec (input : string) (tok : Z) (lx : Lexer) :
  gettok (mkLexer (ch " ") input "" (strtod "0")) = Some (tok, lx) ->
  ready input = set_CurTok tok (set_lexer lx (installed input)).
Proof.
  intros H. unfold ready, parse_input, bind, install_precedences, modify,
    getNextToken, startup. simpl. rewrite H. reflexivity.
Qed.

Lemma precedences_installed_main (input : string) :
  precedences_installed (installed input).
Proof.
  intros c. unfold installed, default_precedence. simpl.
  change (ch "<") with 60. change (ch "+") with 43.
  change (ch "-") with 45. change (ch "*") with 42.
  destruct (Z.eqb_spec c 60) as [->|H1]; [reflexivity|].
  destruct (Z.eqb_spec c 43) as [->|H2]; [reflexivity|].
  destruct (Z.eqb_spec c 45) as [->|H3]; [reflexivity|].
  destruct (Z.eqb_spec c 42) as [->|H4]; [reflexivity|].
  rewrite !lookup_insert_ne by congruence. reflexivity.
Qed.

Lemma render_nonempty (e : sexp) :
  literals_ok e -> exists c s, render e = String c s.
Proof.
  induction e as [[NumStr]|e IH|l IHl o r IHr]; simpl; intros Hok.
  - destruct Hok as [Hne _]. destruct NumStr as [|c s]; [congruence|]. eauto.
  - eauto.
  - destruct Hok as [Hokl _]. destruct (IHl Hokl) as (c & s & ->).
    rewrite append_cons. eauto.
Qed.

Lemma yield_nonempty (e : sexp) : exists t ts, yield e = t :: ts.
Proof.
  induction e as [Val|e IH|l IHl o r IHr]; simpl; eauto.
  destruct IHl as (t & ts & ->). simpl. eauto.
Qed.

(** When [main] has read the first token of the text of [e], the parser is
    at the tokens of [e], and the end of the input follows. *)
Lemma presents_render (e : sexp) :
  literals_ok e ->
  presents (yield e ++ [T_eof; T_eof]) (ready (render e)) /\
  precedences_installed (ready (render e)) /\
  stderr (ready (render e)) = [].
Proof.
  intros Hok. destruct (render_nonempty e Hok) as (c & s & Hr).
  assert (Hl : lexes (yield e ++ [T_eof; T_eof]) (mkLexer (ch c) s "" (strtod "0"))).
  { apply (lexes_render e "" _ _ Hok).
    - rewrite append_nil_r, Hr. split; reflexivity.
    - exact I.
    - intros lx' Hat. apply (lexes_eof 2 lx' Hat). }
  destruct (yield_nonempty e) as (t & ts & Hy). rewrite Hy in *. simpl in Hl.
  destruct Hl as (tok & lx' & Hg & Hread & Hl).
  apply gettok_leading_space in Hg. rewrite <- Hr in Hg.
  rewrite (ready_spec _ _ _ Hg). split; [|split].
  - split; [exact Hread | exact Hl].
  - apply precedences_installed_main.
  - reflexivity.
Qed.

Lemma op_prec_bounds (o : binop) : 10 <= op_prec o <= 40.
Proof. destruct o; simpl; lia. Qed.

Lemma attach_level (t : sexp) (o : binop) (a : sexp) :
  level (attach t o a) = Z.min (level t) (op_prec o).
Proof.
  pose proof (op_prec_bounds o).
  destruct t as [v|e|l o' r].
  - change (level (attach (SNum v) o a)) with (op_prec o).
    change (level (SNum v)) with 41. lia.
  - change (level (attach (SParen e) o a)) with (op_prec o).
    change (level (SParen e)) with 41. lia.
  - change (attach (SBin l o' r) o a) with
      (if op_prec o' <? op_prec o then SBin l o' (attach r o a) else SBin (SBin l o' r) o a).
    change (level (SBin l o' r)) with (op_prec o').
    destruct (Z.ltb_spec (op_prec o') (op_prec o));
      [change (level (SBin l o' (attach r o a))) with (op_prec o')
      |change (level (SBin (SBin l o' r) o a)) with (op_prec o)]; lia.
Qed.

Lemma attach_conventional (t : sexp) (o : binop) (a : sexp) :
  conventional t -> conventional a -> primary a -> conventional (attach t o a).
Proof.
  intros Ht Ha Hp.
  assert (Hla : level a = 41) by (destruct a; [reflexivity | reflexivity | contradiction]).
  pose proof (op_prec_bounds o) as Ho.
  assert (Hatom : forall t', level t' = 41 -> conventional t' ->
            conventional (SBin t' o a)).
  { intros t' Hlt Hct. split; [lia|]. split; [lia|]. split; assumption. }
  induction t as [v|e _|l _ o' r IHr].
  - apply Hatom; [reflexivity | exact Ht].
  - apply Hatom; [reflexivity | exact Ht].
  - destruct Ht as (Hl & Hr & Hcl & Hcr).
    change (attach (SBin l o' r) o a) with
      (if op_prec o' <? op_prec o then SBin l o' (attach r o a) else SBin (SBin l o' r) o a).
    destruct (Z.ltb_spec (op_prec o') (op_prec o)) as [Hlt|Hge].
    + split; [exact Hl|]. split; [rewrite attach_level; lia|].
      split; [exact Hcl | apply IHr; exact Hcr].
    + split; [exact Hge|]. split; [lia|].
      split; [|exact Ha]. split; [exact Hl|]. split; [exact Hr|]. split; assumption.
Qed.

Lemma attach_yield (t : sexp) (o : binop) (a : sexp) :
  yield (attach t o a) = yield t ++ T_char (op_char o) :: yield a.
Proof.
  induction t as [v|e _|l _ o' r IHr]; try reflexivity.
  change (attach (SBin l o' r) o a) with
    (if op_prec o' <? op_prec o then SBin l o' (attach r o a) else SBin (SBin l o' r) o a).
  destruct (op_prec o' <? op_prec o); [|reflexivity].
  simpl. rewrite IHr. rewrite <- app_assoc. reflexivity.
Qed.

Lemma attach_render (t : sexp) (o : binop) (a : sexp) :
  render (attach t o a) = render t +:+ String (op_ascii o) (render a).
Proof.
  induction t as [v|e _|l _ o' r IHr]; try reflexivity.
  change (attach (SBin l o' r) o a) with
    (if op_prec o' <? op_prec o then SBin l o' (attach r o a) else SBin (SBin l o' r) o a).
  destruct (op_prec o' <? op_prec o); [|reflexivity].
  simpl. rewrite IHr. rewrite append_assoc. reflexivity.
Qed.

Lemma attach_literals (t : sexp) (o : binop) (a : sexp) :
  literals_ok t -> literals_ok a -> literals_ok (attach t o a).
Proof.
  intros Ht Ha. induction t as [v|e _|l _ o' r IHr]; try (split; assumption).
  change (attach (SBin l o' r) o a) with
    (if op_prec o' <? op_prec o then SBin l o' (attach r o a) else SBin (SBin l o' r) o a).
  destruct Ht as [Hl Hr].
  destruct (op_prec o' <? op_prec o); simpl; [|tauto].
  split; [exact Hl | apply IHr; exact Hr].
Qed.

Lemma graft_spec (r : sexp) :
  forall t o,
    conventional t -> conventional r ->
    conventional (graft t o r) /\
    yield (graft t o r) = yield t ++ T_char (op_char o) :: yield r /\
    render (graft t o r) = render t +:+ String (op_ascii o) (render r) /\
    (literals_ok t -> literals_ok r -> literals_ok (graft t o r)).
Proof.
  induction r as [v|e _|rl IHl ro rr IHr]; intros t o Ht Hr.
  - split; [apply attach_conventional; [assumption | assumption | exact I]|].
    split; [apply attach_yield|]. split; [apply attach_render | apply attach_literals].
  - split; [apply attach_conventional; [assumption | assumption | exact I]|].
    split; [apply attach_yield|]. split; [apply attach_render | apply attach_literals].
  - destruct Hr as (_ & _ & Hcl & Hcr). simpl graft.
    destruct (IHl t o Ht Hcl) as (Hc1 & Hy1 & Hr1 & Hl1).
    destruct (IHr (graft t o rl) ro Hc1 Hcr) as (Hc2 & Hy2 & Hr2 & Hl2).
    split; [exact Hc2|]. split; [|split].
    + rewrite Hy2, Hy1. simpl. rewrite <- app_assoc. reflexivity.
    + rewrite Hr2, Hr1. simpl. rewrite append_assoc. reflexivity.
    + intros Hlt [Hll Hlr]. apply Hl2; [apply Hl1; assumption | assumption].
Qed.

(** Every written expression has a conventional grouping with the same
    tokens and the same text. *)
Lemma regroup_spec (e : sexp) :
  conventional (regroup e) /\
  yield (regroup e) = yield e /\
  render (regroup e) = render e /\
  (literals_ok e -> literals_ok (regroup e)).
Proof.
  induction e as [v|e IH|l IHl o r IHr].
  - repeat split. intros H; exact H.
  - destruct IH as (Hc & Hy & Hr & Hl). simpl. rewrite Hy, Hr.
    split; [exact Hc|]. repeat split. exact Hl.
  - destruct IHl as (Hcl & Hyl & Hrl & Hll). destruct IHr as (Hcr & Hyr & Hrr & Hlr).
    destruct (graft_spec (regroup r) (regroup l) o Hcl Hcr) as (Hc & Hy & Hr & Hl).
    simpl. split; [exact Hc|]. split; [|split].
    + rewrite Hy, Hyl, Hyr. reflexivity.
    + rewrite Hr, Hrl, Hrr. reflexivity.
    + intros [H1 H2]. apply Hl; [apply Hll | apply Hlr]; assumption.
Qed.

(** C1. The text of every expression made of number literals, [+ - * <]
    and parentheses whose grouping is the conventional one (tighter
    operators first, equal precedence to the left) is parsed, under the
    precedences that [main] installs, to the tree of that grouping, up to
    the end of the input and without an error message; and so are its
    tokens however they are spaced, up to the first token behind them that
    is no operator.  Every written expression has such a grouping with the
    same text, and that is the tree it is parsed to.  In particular "1+2*3"
    gives the tree of "1+(2*3)", and "1-2-3" the tree (1-2)-3, which is not
    1-(2-3). *)
Theorem ParseExpression_precedence :
  (forall e, conventional e -> literals_ok e ->
     exists g', returns ParseExpression (ready (render e)) (Some (ast e), g') /\
                CurTok g' = tok_eof /\ stderr g' = []) /\
  (forall e t rest g,
     conventional e -> presents (yield e ++ t :: rest) g ->
     token_precedence t = -1 -> precedences_installed g ->
     exists g', returns ParseExpression g (Some (ast e), g') /\
                presents (t :: rest) g' /\ stderr g' = stderr g) /\
  (forall e, literals_ok e ->
     conventional (regroup e) /\ yield (regroup e) = yield e /\
     render (regroup e) = render e /\
     exists g', returns ParseExpression (ready (render e))
                  (Some (ast (regroup e)), g')) /\
  (option_map fst (ParseExpression 10 (ready "1+2*3")) =
     Some (Some (BinaryExprAST (ch "+") (num "1")
                   (BinaryExprAST (ch "*") (num "2") (num "3")))) /\
   option_map fst (ParseExpression 10 (ready "1+(2*3)")) =
     option_map fst (ParseExpression 10 (ready "1+2*3"))) /\
  (option_map fst (ParseExpression 10 (ready "1-2-3")) =
     Some (Some (BinaryExprAST (ch "-")
                   (BinaryExprAST (ch "-") (num "1") (num "2")) (num "3"))) /\
   option_map fst (ParseExpression 10 (ready "1-2-3")) <>
     Some (Some (BinaryExprAST (ch "-") (num "1")
                   (BinaryExprAST (ch "-") (num "2") (num "3"))))).
Proof.
  assert (Htext : forall e, conventional e -> literals_ok e ->
     exists g', returns ParseExpression (ready (render e)) (Some (ast e), g') /\
                CurTok g' = tok_eof /\ stderr g' = []).
  { intros e Hc Hok. destruct (presents_render e Hok) as (Hp & Hi & He).
    destruct (ParseExpression_conventional e T_eof [T_eof] _ Hc Hp eq_refl Hi)
      as (g' & Hr & Hp' & He' & _).
    exists g'. split; [exact Hr|]. split; [|congruence].
    destruct Hp' as [Hc' _]. exact Hc'. }
  split; [exact Htext|]. split; [|split; [|split; [split|split]]].
  - intros e t rest g Hc Hp Ht Hi.
    destruct (ParseExpression_conventional e t rest g Hc Hp Ht Hi)
      as (g' & Hr & Hp' & He' & _).
    exists g'. split; [exact Hr|]. split; [exact Hp' | exact He'].
  - intros e Hok. destruct (regroup_spec e) as (Hc & Hy & Hr & Hl).
    split; [exact Hc|]. split; [exact Hy|]. split; [exact Hr|].
    destruct (Htext (regroup e) Hc (Hl Hok)) as (g' & Hret & _).
    exists g'. rewrite <- Hr. exact Hret.
  - vm_compute. reflexivity.
  - vm_compute. reflexivity.
  - vm_compute. reflexivity.
  - vm_compute. discriminate.
Qed.

Lemma ParseExpression_precedence_witness :
  exists g',
    returns ParseExpression (ready "1+2*3")
      (Some (BinaryExprAST (ch "+") (num "1")
               (BinaryExprAST (ch "*") (num "2") (num "3"))), g').
Proof.
  destruct ParseExpression_precedence as [H _].
  destruct (H (SBin (SNum (strtod "1")) op_add
                 (SBin (SNum (strtod "2")) op_mul (SNum (strtod "3")))))
    as (g' & Hr & _).
  - simpl. lia.
  - simpl. repeat split; discriminate.
  - exists g'. exact Hr.
Defined.

(** ** Lowering *)

Lemma ExprAST_induction (P : ExprAST -> Prop) :
  (forall Val, P (NumberExprAST Val)) ->
  (forall Name, P (VariableExprAST Name)) ->
  (forall Op LHS RHS, P LHS -> P RHS -> P (BinaryExprAST Op LHS RHS)) ->
  (forall Callee Args, Forall P Args -> P (CallExprAST Callee Args)) ->
  forall e, P e.
Proof.
  intros HN HV HB HC. fix IH 1. intros [Val|Name|Op LHS RHS|Callee Args].
  - apply HN.
  - apply HV.
  - apply HB; apply IH.
  - apply HC. induction Args as [|Arg Args IHArgs]; constructor; [apply IH | exact IHArgs].
Qed.

Lemma Codegen_Call (Callee : string) (Args : list ExprAST) :
  Codegen (CallExprAST Callee Args) =
    (do Mod <- get TheModule;
     match getFunction Mod Callee with
     | None => Error "unkown function referenced"
     | Some (CalleeF, Fn) =>
         if negb (arg_size Fn =? length Args)%nat
         then Error "Incorrect # argmuments passed"
         else
           do ArgsV <- Codegen_args Args [];
           match ArgsV with
           | None => ret None
           | Some ArgsV => Create (CallInst CalleeF ArgsV)
           end
     end).
Proof. reflexivity. Qed.

Lemma Codegen_Binary (Op : Z) (LHS RHS : ExprAST) :
  Codegen (BinaryExprAST Op LHS RHS) =
    (do L <- Codegen LHS;
     do R <- Codegen RHS;
     match L, R with
     | Some L, Some R =>
         if Op =? ch "+" then Create (FAdd L R)
         else if Op =? ch "-" then Create (FSub L R)
         else if Op =? ch "*" then Create (FMul L R)
         else if Op =? ch "<" then
           do L <- Create (FCmpULT L R);
           match L with
           | Some L => Create (UIToFP L)
           | None => ret None
           end
         else Error "invalid binary operator"
     | _, _ => ret None
     end).
Proof. reflexivity. Qed.

Lemma lowered_refl (g : Globals) : lowered g g.
Proof. split; reflexivity. Qed.

Lemma lowered_trans (g1 g2 g3 : Globals) :
  lowered g1 g2 -> lowered g2 g3 -> lowered g1 g3.
Proof.
  intros [L1 C1 B1 D1 N1] [L2 C2 B2 D2 N2]. split; try congruence.
  intros x V. rewrite N2. apply N1.
Qed.

Lemma Error_lowered {A} (Str : string) (g : Globals) :
  exists g', @Error A Str g = Some (None, g') /\ lowered g g' /\
             stderr g' = stderr g ++ [Print ("Error: " +:+ Str +:+ nl)].
Proof.
  eexists. split; [reflexivity|]. split; [split; reflexivity | reflexivity].
Qed.

Lemma update_function_lowered (F : nat) (f : Function -> Function) (g : Globals) :
  exists g', update_function F f g = Some (tt, g') /\ lowered g g' /\
             stderr g' = stderr g.
Proof.
  eexists. split; [reflexivity|]. split; [|reflexivity].
  split; try reflexivity. simpl. apply dom_alter_L.
Qed.

Lemma Insert_lowered (I : Instruction) (g : Globals) :
  exists g', Insert I g = Some (tt, g') /\ lowered g g' /\ stderr g' = stderr g.
Proof.
  unfold Insert, bind, get. destruct (Builder g) as [[F BB]|].
  - apply update_function_lowered.
  - exists g. split; [reflexivity|]. split; [apply lowered_refl | reflexivity].
Qed.

Lemma Create_lowered (V : Value) (g : Globals) :
  exists g', Create V g = Some (Some V, g') /\ lowered g g' /\ stderr g' = stderr g.
Proof.
  unfold Create, bind. destruct (Insert_lowered (Inst V) g) as (g' & -> & Hl & He).
  exists g'. split; [reflexivity|]. split; assumption.
Qed.

Lemma NamedValues_subscript_lowered (Name : string) (g : Globals) :
  exists V g', NamedValues_subscript Name g = Some (V, g') /\ lowered g g' /\
               stderr g' = stderr g /\
               V = default None (NamedValues g !! Name).
Proof.
  unfold NamedValues_subscript, bind, get.
  destruct (NamedValues g !! Name) as [V|] eqn:E.
  - exists V, g. split; [reflexivity|]. split; [apply lowered_refl|]. split; reflexivity.
  - eexists None, _. split; [reflexivity|]. split; [|split; reflexivity].
    split; try reflexivity. intros x V. simpl.
    destruct (decide (Name = x)) as [<-|Hne].
    + rewrite lookup_insert_eq, E. split; intros H; discriminate.
    + rewrite lookup_insert_ne by exact Hne. reflexivity.
Qed.

(** Lowering an expression always returns. *)
Lemma Codegen_lowered (e : ExprAST) :
  forall g, exists r g', Codegen e g = Some (r, g') /\ lowered g g'.
Proof.
  induction e as [Val|Name|Op LHS RHS IHL IHR|Callee Args IH] using ExprAST_induction;
    intros g.
  - exists (Some (ConstantFP Val)), g. split; [reflexivity | apply lowered_refl].
  - simpl. unfold bind.
    destruct (NamedValues_subscript_lowered Name g) as (V & g1 & -> & Hl1 & _ & _).
    destruct V as [V|].
    + exists (Some V), g1. split; [reflexivity | exact Hl1].
    + destruct (@Error_lowered Value "Unkown variable name" g1) as (g2 & -> & Hl2 & _).
      exists None, g2. split; [reflexivity | exact (lowered_trans _ _ _ Hl1 Hl2)].
  - rewrite Codegen_Binary. unfold bind.
    destruct (IHL g) as (L & g1 & -> & Hl1). destruct (IHR g1) as (R & g2 & -> & Hl2).
    pose proof (lowered_trans _ _ _ Hl1 Hl2) as Hl.
    destruct L as [L|], R as [R|];
      try (exists None, g2; split; [reflexivity | exact Hl]).
    destruct (Op =? ch "+").
    { destruct (Create_lowered (FAdd L R) g2) as (g3 & -> & Hl3 & _).
      eexists _, g3. split; [reflexivity | exact (lowered_trans _ _ _ Hl Hl3)]. }
    destruct (Op =? ch "-").
    { destruct (Create_lowered (FSub L R) g2) as (g3 & -> & Hl3 & _).
      eexists _, g3. split; [reflexivity | exact (lowered_trans _ _ _ Hl Hl3)]. }
    destruct (Op =? ch "*").
    { destruct (Create_lowered (FMul L R) g2) as (g3 & -> & Hl3 & _).
      eexists _, g3. split; [reflexivity | exact (lowered_trans _ _ _ Hl Hl3)]. }
    destruct (Op =? ch "<").
    { destruct (Create_lowered (FCmpULT L R) g2) as (g3 & -> & Hl3 & _).
      destruct (Create_lowered (UIToFP (FCmpULT L R)) g3) as (g4 & -> & Hl4 & _).
      eexists _, g4. split; [reflexivity|].
      exact (lowered_trans _ _ _ Hl (lowered_trans _ _ _ Hl3 Hl4)). }
    destruct (@Error_lowered Value "invalid binary operator" g2) as (g3 & -> & Hl3 & _).
    exists None, g3. split; [reflexivity | exact (lowered_trans _ _ _ Hl Hl3)].
  - rewrite Codegen_Call. unfold bind, get.
    destruct (getFunction (TheModule g) Callee) as [[CalleeF Fn]|].
    2:{ destruct (@Error_lowered Value "unkown function referenced" g) as (g1 & -> & Hl1 & _).
        exists None, g1. split; [reflexivity | exact Hl1]. }
    destruct (negb (arg_size Fn =? length Args)%nat).
    { destruct (@Error_lowered Value "Incorrect # argmuments passed" g) as (g1 & -> & Hl1 & _).
      exists None, g1. split; [reflexivity | exact Hl1]. }
    assert (Hargs : forall ArgsV g, exists r g',
               Codegen_args Args ArgsV g = Some (r, g') /\ lowered g g').
    { clear g. induction IH as [|Arg Args HArg _ IHArgs]; intros ArgsV g.
      - exists (Some ArgsV), g. split; [reflexivity | apply lowered_refl].
      - simpl. unfold bind. destruct (HArg g) as (V & g1 & -> & Hl1).
        destruct V as [V|].
        + destruct (IHArgs (ArgsV ++ [V])%list g1) as (r & g2 & -> & Hl2).
          exists r, g2. split; [reflexivity | exact (lowered_trans _ _ _ Hl1 Hl2)].
        + exists None, g1. split; [reflexivity | exact Hl1]. }
    destruct (Hargs [] g) as (r & g1 & -> & Hl1). destruct r as [ArgsV|].
    + destruct (Create_lowered (CallInst CalleeF ArgsV) g1) as (g2 & -> & Hl2 & _).
      eexists _, g2. split; [reflexivity | exact (lowered_trans _ _ _ Hl1 Hl2)].
    + exists None, g1. split; [reflexivity | exact Hl1].
Qed.

(** C2, as the code has it.  Both operands of a binary operator are lowered,
    the left one first and the right one in the state that the left one
    leaves, whether or not the left one failed; after that the node fails if
    either of them failed, and creates its instruction otherwise. *)
Theorem BinaryExprAST_Codegen_order :
  forall Op LHS RHS g,
    exists L g1 R g2,
      Codegen LHS g = Some (L, g1) /\
      Codegen RHS g1 = Some (R, g2) /\
      (L = None \/ R = None ->
       Codegen (BinaryExprAST Op LHS RHS) g = Some (None, g2)) /\
      (forall l r, L = Some l -> R = Some r ->
       Codegen (BinaryExprAST Op LHS RHS) g =
         (if Op =? ch "+" then Create (FAdd l r)
          else if Op =? ch "-" then Create (FSub l r)
          else if Op =? ch "*" then Create (FMul l r)
          else if Op =? ch "<" then
            do L <- Create (FCmpULT l r);
            match L with
            | Some L => Create (UIToFP L)
            | None => ret None
            end
          else Error "invalid binary operator") g2).
Proof.
  intros Op LHS RHS g.
  destruct (Codegen_lowered LHS g) as (L & g1 & HL & _).
  destruct (Codegen_lowered RHS g1) as (R & g2 & HR & _).
  exists L, g1, R, g2. split; [exact HL|]. split; [exact HR|].
  rewrite Codegen_Binary. unfold bind. rewrite HL, HR. split.
  - intros [-> | ->]; [reflexivity|]. destruct L; reflexivity.
  - intros l r -> ->. reflexivity.
Qed.

Lemma BinaryExprAST_Codegen_order_witness :
  exists g2,
    Codegen (BinaryExprAST (ch "+") (VariableExprAST "x") (NumberExprAST (strtod "1")))
            (startup "") = Some (None, g2).
Proof.
  destruct (BinaryExprAST_Codegen_order (ch "+") (VariableExprAST "x")
              (NumberExprAST (strtod "1")) (startup ""))
    as (L & g1 & R & g2 & HL & HR & Hfail & _).
  exists g2. apply Hfail. left.
  vm_compute in HL. injection HL as <- _. reflexivity.
Defined.

(** With no variable in scope, lowering [x + y] reports both [x] and [y]:
    the right operand is lowered although the left one has failed. *)
Lemma BinaryExprAST_lowers_right_after_failure :
  exists g1 g2,
    Codegen (VariableExprAST "x") (startup "") = Some (None, g1) /\
    Codegen (BinaryExprAST (ch "+") (VariableExprAST "x") (VariableExprAST "y"))
            (startup "") = Some (None, g2) /\
    stderr g1 = [Print ("Error: Unkown variable name" +:+ nl)] /\
    stderr g2 = [Print ("Error: Unkown variable name" +:+ nl);
                 Print ("Error: Unkown variable name" +:+ nl)] /\
    NamedValues g1 !! "y" = None /\
    NamedValues g2 !! "y" = Some None.
Proof.
  eexists _, _. split; [vm_compute; reflexivity|]. split; [vm_compute; reflexivity|].
  repeat split; vm_compute; reflexivity.
Qed.

(** C6. A call of a name that the module does not know is the error
    "unkown function referenced"; a call of a known function with another
    number of arguments than the function has parameters is the error
    "Incorrect # argmuments passed" (the messages as the source spells
    them); with the same number the arguments are lowered, in order. *)
Theorem CallExprAST_Codegen_checks :
  (forall Callee Args g,
     getFunction (TheModule g) Callee = None ->
     Codegen (CallExprAST Callee Args) g =
       Some (None, set_stderr (stderr g ++
               [Print ("Error: unkown function referenced" +:+ nl)]) g)) /\
  (forall Callee Args g CalleeF Fn,
     getFunction (TheModule g) Callee = Some (CalleeF, Fn) ->
     arg_size Fn <> length Args ->
     Codegen (CallExprAST Callee Args) g =
       Some (None, set_stderr (stderr g ++
               [Print ("Error: Incorrect # argmuments passed" +:+ nl)]) g)) /\
  (forall Callee Args g CalleeF Fn,
     getFunction (TheModule g) Callee = Some (CalleeF, Fn) ->
     arg_size Fn = length Args ->
     Codegen (CallExprAST Callee Args) g =
       (do ArgsV <- Codegen_args Args [];
        match ArgsV with
        | None => ret None
        | Some ArgsV => Create (CallInst CalleeF ArgsV)
        end) g) /\
  "unkown function referenced" <> "Incorrect # argmuments passed".
Proof.
  split; [|split; [|split]].
  - intros Callee Args g H. rewrite Codegen_Call. unfold bind, get. rewrite H.
    reflexivity.
  - intros Callee Args g CalleeF Fn H Hne. rewrite Codegen_Call. unfold bind, get.
    rewrite H. apply Nat.eqb_neq in Hne. rewrite Hne. reflexivity.
  - intros Callee Args g CalleeF Fn H He. rewrite Codegen_Call. unfold bind, get.
    rewrite H. apply Nat.eqb_eq in He. rewrite He. reflexivity.
  - discriminate.
Qed.

Lemma CallExprAST_Codegen_checks_witness :
  Codegen (CallExprAST "cos" []) (session 20 "extern sin(x)") =
    Some (None, set_stderr (stderr (session 20 "extern sin(x)") ++
            [Print ("Error: unkown function referenced" +:+ nl)])
            (session 20 "extern sin(x)")) /\
  Codegen (CallExprAST "sin" []) (session 20 "extern sin(x)") =
    Some (None, set_stderr (stderr (session 20 "extern sin(x)") ++
            [Print ("Error: Incorrect # argmuments passed" +:+ nl)])
            (session 20 "extern sin(x)")) /\
  exists g', Codegen (CallExprAST "sin" [NumberExprAST (strtod "1")])
                     (session 20 "extern sin(x)") =
             Some (Some (CallInst 0 [ConstantFP (strtod "1")]), g').
Proof.
  destruct CallExprAST_Codegen_checks as (H1 & H2 & H3 & _).
  split; [|split].
  - apply H1. vm_compute. reflexivity.
  - apply (H2 "sin" [] _ 0%nat (mkFunction "sin" ["x"] [] false 0)).
    + vm_compute. reflexivity.
    + simpl. discriminate.
  - eexists. rewrite (H3 "sin" _ _ 0%nat (mkFunction "sin" ["x"] [] false 0)).
    + vm_compute. reflexivity.
    + vm_compute. reflexivity.
    + reflexivity.
Defined.

(** ** Prototypes and the module *)

Lemma length_append (s t : string) :
  String.length (s +:+ t) = (String.length s + String.length t)%nat.
Proof.
  induction s as [|c s IH]; [reflexivity|]. rewrite append_cons. simpl. rewrite IH.
  reflexivity.
Qed.

Lemma decimal_go_nonempty (fuel n : nat) (acc : string) :
  (0 < String.length (decimal_go fuel n acc))%nat.
Proof.
  revert n acc. induction fuel as [|fuel IH]; intros n acc.
  - simpl. lia.
  - change (decimal_go (S fuel) n acc) with
      (if (n / 10 =? 0)%nat then String (ascii_of_nat (48 + n mod 10)) acc
       else decimal_go fuel (n / 10)%nat (String (ascii_of_nat (48 + n mod 10)) acc)).
    destruct (n / 10 =? 0)%nat; [simpl String.length; lia | apply IH].
Qed.

(** A function that is renamed does not keep the name that was asked for. *)
Lemma makeUniqueName_fresh (tries : nat) (Mod : IRModule) (Name : string) (n : nat) :
  String.eqb (makeUniqueName tries Mod Name n) Name = false.
Proof.
  revert n. induction tries as [|tries IH]; intros n; simpl.
  - apply String.eqb_neq. intros H. apply (f_equal String.length) in H.
    rewrite length_append in H. pose proof (decimal_go_nonempty n n ""). unfold decimal in H. lia.
  - destruct (getFunction Mod (Name +:+ decimal n)); [apply IH|].
    apply String.eqb_neq. intros H. apply (f_equal String.length) in H.
    rewrite length_append in H. pose proof (decimal_go_nonempty n n ""). unfold decimal in H. lia.
Qed.

Lemma getFunction_lookup (Mod : IRModule) (Name : string) (F : nat) (Fn : Function) :
  getFunction Mod Name = Some (F, Fn) ->
  functions Mod !! F = Some Fn /\ F_name Fn = Name /\ Name <> "".
Proof.
  unfold getFunction. destruct (String.eqb_spec Name "") as [|Hne]; [discriminate|].
  intros H. apply find_some in H as [Hin Hname].
  apply list_elem_of_In in Hin. apply elem_of_map_to_list in Hin.
  apply String.eqb_eq in Hname. auto.
Qed.

Lemma name_arguments_spec (Args : list string) :
  forall F Idx g, exists g',
    name_arguments F Idx Args g = Some (tt, g') /\
    NamedValues g' = bind_arguments F Idx Args (NamedValues g) /\
    functions (TheModule g') = alter (with_arguments Idx Args) F (functions (TheModule g)) /\
    stderr g' = stderr g /\ lexer g' = lexer g /\ CurTok g' = CurTok g /\
    Builder g' = Builder g /\ BinopPrecedence g' = BinopPrecedence g /\
    undefined g' = undefined g.
Proof.
  induction Args as [|Arg Args IH]; intros F Idx g.
  - exists g. split; [reflexivity|]. split; [reflexivity|].
    split; [|repeat split].
    symmetry. apply alter_id. intros ? _. reflexivity.
  - simpl. unfold bind, Argument_setName, update_function, get, modify, set_functions.
    simpl.
    match goal with |- context [name_arguments F (S Idx) Args ?g1] =>
      destruct (IH F (S Idx) g1) as (g' & -> & Hn & Hf & He & Hl & Hc & Hb & Hp & Hd) end.
    exists g'. split; [reflexivity|]. simpl in *.
    rewrite Hn, Hf, He, Hl, Hc, Hb, Hp, Hd. repeat split.
    rewrite alter_alter_eq. reflexivity.
Qed.

Lemma bind_arguments_other (Args : list string) :
  forall F Idx tbl x, x ∉ Args -> bind_arguments F Idx Args tbl !! x = tbl !! x.
Proof.
  induction Args as [|Arg Args IH]; intros F Idx tbl x Hx; simpl; [reflexivity|].
  apply not_elem_of_cons in Hx as [Hne Hx].
  rewrite IH by exact Hx. apply lookup_insert_ne. congruence.
Qed.

Lemma bind_arguments_bound (Args : list string) :
  forall F Idx tbl x, x ∈ Args ->
    exists i, bind_arguments F Idx Args tbl !! x = Some (Some (Argument F i)).
Proof.
  induction Args as [|Arg Args IH]; intros F Idx tbl x Hx; simpl.
  - apply elem_of_nil in Hx. contradiction.
  - destruct (decide (x ∈ Args)) as [Hin|Hnin]; [apply IH, Hin|].
    apply elem_of_cons in Hx as [->|Hx]; [|contradiction].
    rewrite bind_arguments_other by exact Hnin. rewrite lookup_insert_eq. eauto.
Qed.

(** [setName] changes the names of the arguments and the counter of the
    symbol table, and nothing else. *)
Lemma setName_fields (Idx : nat) (Name : string) (Fn : Function) :
  F_name (setName Idx Name Fn) = F_name Fn /\
  F_blocks (setName Idx Name Fn) = F_blocks Fn /\
  F_verified (setName Idx Name Fn) = F_verified Fn /\
  length (F_args (setName Idx Name Fn)) = length (F_args Fn).
Proof.
  unfold setName. destruct (F_args Fn !! Idx) as [Old|]; [|auto].
  destruct (String.eqb Old Name); [auto|]. simpl.
  rewrite length_insert. auto.
Qed.

Lemma with_arguments_fields (Args : list string) :
  forall Idx Fn,
    F_name (with_arguments Idx Args Fn) = F_name Fn /\
    F_blocks (with_arguments Idx Args Fn) = F_blocks Fn /\
    F_verified (with_arguments Idx Args Fn) = F_verified Fn /\
    arg_size (with_arguments Idx Args Fn) = arg_size Fn.
Proof.
  induction Args as [|Arg Args IH]; intros Idx Fn; simpl; [auto|].
  destruct (IH (S Idx) (setName Idx Arg Fn)) as (H1 & H2 & H3 & H4).
  destruct (setName_fields Idx Arg Fn) as (S1 & S2 & S3 & S4).
  unfold arg_size in *. rewrite H1, H2, H3, H4, S1, S2, S3, S4. auto.
Qed.

(** An argument that has the name already keeps it. *)
Lemma setName_same (Idx : nat) (Name : string) (Fn : Function) :
  F_args Fn !! Idx = Some Name -> setName Idx Name Fn = Fn.
Proof.
  intros H. unfold setName. rewrite H, String.eqb_refl. reflexivity.
Qed.

Lemma with_arguments_same (Args : list string) :
  forall pre Fn, F_args Fn = pre ++ Args -> with_arguments (length pre) Args Fn = Fn.
Proof.
  induction Args as [|Arg Args IH]; intros pre Fn H; simpl; [reflexivity|].
  rewrite setName_same.
  - specialize (IH (pre ++ [Arg]) Fn). rewrite length_app in IH. simpl in IH.
    rewrite Nat.add_1_r in IH. apply IH. rewrite <- app_assoc. exact H.
  - rewrite H, lookup_app_r by lia. rewrite Nat.sub_diag. reflexivity.
Qed.

Lemma set_TheModule_same (g : Globals) :
  set_TheModule (mkModule (functions (TheModule g))) g = g.
Proof. destruct g as [? ? ? ? [fs] ? ? ?]. reflexivity. Qed.

Lemma IRModule_eta (Mod : IRModule) : mkModule (functions Mod) = Mod.
Proof. destruct Mod. reflexivity. Qed.

(** The uses of a function in the other functions of the module. *)
Lemma used_spec (F : nat) (Mod : IRModule) :
  used F Mod = true <->
  exists F' Fn, functions Mod !! F' = Some Fn /\ F' <> F /\ In F (callees Fn).
Proof.
  unfold used. rewrite existsb_exists. split.
  - intros ([F' Fn] & Hin & H). apply andb_true_iff in H as [Hne Hc].
    apply list_elem_of_In, elem_of_map_to_list in Hin.
    exists F', Fn. split; [exact Hin|]. split.
    + intros ->. rewrite Nat.eqb_refl in Hne. discriminate.
    + apply existsb_exists in Hc as (G & HG & E). apply Nat.eqb_eq in E.
      subst G. exact HG.
  - intros (F' & Fn & Hl & Hne & Hc). exists (F', Fn). split.
    + apply list_elem_of_In, elem_of_map_to_list. exact Hl.
    + apply andb_true_iff. split.
      * apply negb_true_iff, Nat.eqb_neq. exact Hne.
      * apply existsb_exists. exists F. split; [exact Hc | apply Nat.eqb_refl].
Qed.

Lemma referenced_spec (G : nat) (Mod : IRModule) :
  G ∈ referenced Mod <->
  exists F Fn, functions Mod !! F = Some Fn /\ In G (callees Fn).
Proof.
  unfold referenced. rewrite elem_of_list_to_set, list_elem_of_In, in_flat_map. split.
  - intros ([F Fn] & Hin & H). apply list_elem_of_In, elem_of_map_to_list in Hin. eauto.
  - intros (F & Fn & Hl & H). exists (F, Fn). split; [|exact H].
    apply list_elem_of_In, elem_of_map_to_list. exact Hl.
Qed.

(** A new function is no function of the module, and nothing uses it. *)
Lemma new_Function_fresh (Mod : IRModule) : functions Mod !! new_Function Mod = None.
Proof.
  apply not_elem_of_dom. intros H.
  apply (is_fresh (dom (functions Mod) ∪ referenced Mod)).
  apply elem_of_union_l. exact H.
Qed.

Lemma new_Function_unreferenced (Mod : IRModule) (F : nat) (Fn : Function) :
  functions Mod !! F = Some Fn -> ~ In (new_Function Mod) (callees Fn).
Proof.
  intros Hl H. apply (is_fresh (dom (functions Mod) ∪ referenced Mod)).
  apply elem_of_union_r. apply referenced_spec. eauto.
Qed.

Lemma new_Function_unused (Mod : IRModule) (Fn : Function) :
  used (new_Function Mod) (mkModule (<[new_Function Mod := Fn]> (functions Mod))) = false.
Proof.
  apply not_true_is_false. intros H.
  apply used_spec in H as (F' & Fn' & Hl & Hne & Hc).
  simpl in Hl. rewrite lookup_insert_ne in Hl by congruence.
  exact (new_Function_unreferenced Mod F' Fn' Hl Hc).
Qed.

(** [PrototypeAST::Codegen] when the module has a function of that name:
    the function that [Function::Create] makes is renamed, erased again,
    and the existing function is checked. *)
Lemma PrototypeAST_Codegen_taken (Name : string) (Args : list string)
    (g : Globals) (F : nat) (Fn : Function) :
  getFunction (TheModule g) Name = Some (F, Fn) ->
  PrototypeAST_Codegen (mkPrototypeAST Name Args) g =
    (if negb (Function_empty Fn) then Error "redefinition of function"
     else if negb (arg_size Fn =? length Args)%nat
     then Error "redefinition of function with different # args"
     else name_arguments F 0 Args ;; ret (Some F)) g.
Proof.
  intros H. pose proof (getFunction_lookup _ _ _ _ H) as (_ & _ & Hne).
  apply String.eqb_neq in Hne.
  unfold PrototypeAST_Codegen, bind, Function_Create, get, set_functions, modify,
    getName, eraseFromParent, ret. simpl.
  rewrite Hne, H. rewrite lookup_insert_eq. simpl.
  rewrite makeUniqueName_fresh. simpl.
  unfold bind, get, set_functions, modify. simpl.
  rewrite new_Function_unused. simpl.
  rewrite delete_insert_id by apply new_Function_fresh.
  change (set_TheModule (mkModule (functions (TheModule g))) _)
    with (set_TheModule (mkModule (functions (TheModule g))) g).
  rewrite set_TheModule_same. rewrite IRModule_eta, H.
  destruct (negb (Function_empty Fn)); [reflexivity|].
  destruct (negb (arg_size Fn =? length Args)%nat); [reflexivity|].
  reflexivity.
Qed.

(** [PrototypeAST::Codegen] when the name is free, or empty. *)
Lemma PrototypeAST_Codegen_free (Name : string) (Args : list string) (g : Globals) :
  getFunction (TheModule g) Name = None ->
  PrototypeAST_Codegen (mkPrototypeAST Name Args) g =
    (name_arguments (new_Function (TheModule g)) 0 Args ;;
     ret (Some (new_Function (TheModule g))))
      (set_TheModule
         (mkModule (<[new_Function (TheModule g) :=
                      mkFunction Name (replicate (length Args) "") [] false 0]>
                    (functions (TheModule g)))) g).
Proof.
  intros H.
  unfold PrototypeAST_Codegen, bind, Function_Create, get, set_functions, modify,
    getName, ret. simpl.
  rewrite H. rewrite lookup_insert_eq. simpl.
  assert (Hname : (if String.eqb Name "" then "" else Name) = Name).
  { destruct (String.eqb_spec Name ""); congruence. }
  rewrite Hname. rewrite String.eqb_refl. simpl. reflexivity.
Qed.

(** [PrototypeAST::Codegen] returns; on success the parameters are bound on
    top of what [NamedValues] held, on failure [NamedValues] is as before. *)
Lemma PrototypeAST_Codegen_spec (P : PrototypeAST) (g : Globals) :
  exists r g',
    PrototypeAST_Codegen P g = Some (r, g') /\
    lexer g' = lexer g /\ CurTok g' = CurTok g /\
    match r with
    | Some F =>
        NamedValues g' = bind_arguments F 0 (Proto_Args P) (NamedValues g) /\
        stderr g' = stderr g /\
        exists Fn, functions (TheModule g') !! F = Some Fn /\
                   F_name Fn = Proto_Name P /\ F_blocks Fn = []
    | None => NamedValues g' = NamedValues g /\ TheModule g' = TheModule g
    end.
Proof.
  destruct P as [Name Args]. simpl.
  destruct (getFunction (TheModule g) Name) as [[F Fn]|] eqn:H.
  - rewrite (PrototypeAST_Codegen_taken _ _ _ _ _ H).
    pose proof (getFunction_lookup _ _ _ _ H) as (Hl & Hn & _).
    destruct (negb (Function_empty Fn)) eqn:He.
    { eexists None, _. split; [reflexivity|]. repeat split. }
    destruct (negb (arg_size Fn =? length Args)%nat).
    { eexists None, _. split; [reflexivity|]. repeat split. }
    unfold bind.
    destruct (name_arguments_spec Args F 0%nat g)
      as (g' & -> & HN & HF & HE & HL & HC & _).
    exists (Some F), g'. split; [reflexivity|]. split; [exact HL|]. split; [exact HC|].
    split; [exact HN|]. split; [exact HE|].
    exists (with_arguments 0 Args Fn). rewrite HF, lookup_alter_eq, Hl.
    destruct (with_arguments_fields Args 0%nat Fn) as (W1 & W2 & _).
    split; [reflexivity|]. split; [rewrite W1; exact Hn|].
    rewrite W2. unfold Function_empty in He.
    destruct (F_blocks Fn); [reflexivity | discriminate].
  - rewrite (PrototypeAST_Codegen_free _ _ _ H). unfold bind.
    match goal with |- context [name_arguments ?F 0 Args ?g1] =>
      destruct (name_arguments_spec Args F 0%nat g1)
        as (g' & -> & HN & HF & HE & HL & HC & _) end.
    eexists (Some _), g'. split; [reflexivity|]. split; [exact HL|]. split; [exact HC|].
    split; [exact HN|]. split; [exact HE|].
    eexists. rewrite HF. simpl. rewrite lookup_alter_eq, lookup_insert_eq. simpl.
    match goal with |- context [with_arguments 0 Args ?Fn0] =>
      destruct (with_arguments_fields Args 0%nat Fn0) as (W1 & W2 & _) end.
    split; [reflexivity|]. split; [rewrite W1 | rewrite W2]; reflexivity.
Qed.

(** ** Functions *)

Lemma FunctionAST_Codegen_phases (Fn : FunctionAST) (g : Globals) :
  FunctionAST_Codegen Fn g =
    (do TheFunction <- enter_function Fn;
     match TheFunction with
     | None => ret None
     | Some TheFunction =>
         do RetVal <- Codegen (Body Fn);
         finish_function TheFunction RetVal
     end) g.
Proof.
  unfold FunctionAST_Codegen, enter_function, finish_function, bind, modify.
  destruct (PrototypeAST_Codegen (Proto Fn) _) as [[[F|] g1]|]; reflexivity.
Qed.

(** The state in which the body of a function is lowered. *)
Lemma enter_function_spec (Fn : FunctionAST) (g : Globals) :
  exists r g1,
    enter_function Fn g = Some (r, g1) /\
    match r with
    | Some F =>
        NamedValues g1 = bind_arguments F 0 (Proto_Args (Proto Fn)) ∅ /\
        Builder g1 = Some (F, 0%nat) /\
        stderr g1 = stderr g /\
        exists Fn1, functions (TheModule g1) !! F = Some Fn1 /\
                    F_name Fn1 = Proto_Name (Proto Fn) /\ F_blocks Fn1 = [[]]
    | None => TheModule g1 = TheModule g
    end.
Proof.
  unfold enter_function, bind, modify.
  destruct (PrototypeAST_Codegen_spec (Proto Fn) (set_NamedValues ∅ g))
    as (r & g1 & -> & _ & _ & Hr).
  destruct r as [F|].
  - destruct Hr as (HN & HE & Fn1 & HF & Hname & Hblocks).
    unfold BasicBlock_Create, bind, get, update_function, set_functions, modify,
      SetInsertPoint, ret. simpl. rewrite HF. simpl. rewrite Hblocks. simpl.
    eexists (Some F), _. split; [reflexivity|]. simpl.
    split; [exact HN|]. split; [reflexivity|]. split; [exact HE|].
    eexists. rewrite lookup_alter_eq, HF. simpl. rewrite Hblocks.
    split; [reflexivity|]. split; [exact Hname | reflexivity].
  - exists None, g1. split; [reflexivity|]. apply Hr.
Qed.

Lemma finish_function_failure (F : nat) (g : Globals) :
  exists g',
    finish_function F None g = Some (None, g') /\
    functions (TheModule g') = delete F (functions (TheModule g)) /\
    stderr g' = stderr g /\ NamedValues g' = NamedValues g /\
    undefined g' = undefined g || used F (TheModule g).
Proof.
  unfold finish_function, eraseFromParent, bind, get, set_functions, modify, ret.
  destruct (used F (TheModule g)); eexists; (split; [reflexivity|]); simpl;
    rewrite ?orb_true_r, ?orb_false_r; auto.
Qed.

Lemma finish_function_success (F BB : nat) (V : Value) (g : Globals) :
  Builder g = Some (F, BB) ->
  exists g',
    finish_function F (Some V) g = Some (Some F, g') /\
    functions (TheModule g') =
      alter (fun Fn => mkFunction (F_name Fn) (F_args Fn)
                         (alter (fun block => block ++ [Ret V]) BB (F_blocks Fn)) true
                         (F_LastUnique Fn))
            F (functions (TheModule g)) /\
    stderr g' = stderr g /\ NamedValues g' = NamedValues g /\
    undefined g' = undefined g.
Proof.
  intros HB. unfold finish_function, CreateRet, Insert, verifyFunction,
    update_function, bind, get, set_functions, modify, ret. rewrite HB. simpl.
  eexists. split; [reflexivity|]. simpl. rewrite alter_alter_eq.
  split; [reflexivity|]. repeat split; reflexivity.
Qed.

(** [FunctionAST::Codegen] when the prototype does not lower ... *)
Lemma FunctionAST_Codegen_no_prototype (Fn : FunctionAST) (g g1 : Globals) :
  PrototypeAST_Codegen (Proto Fn) (set_NamedValues ∅ g) = Some (None, g1) ->
  FunctionAST_Codegen Fn g = Some (None, g1).
Proof.
  intros H. unfold FunctionAST_Codegen, bind, modify. rewrite H. reflexivity.
Qed.

(** ... and when it lowers: the entry block is made, the body is lowered
    with the parameters in [NamedValues] and nothing else, and the function
    is finished or erased. *)
Lemma FunctionAST_Codegen_body (Fn : FunctionAST) (g : Globals) (F : nat)
    (g1 : Globals) :
  PrototypeAST_Codegen (Proto Fn) (set_NamedValues ∅ g) = Some (Some F, g1) ->
  exists gB RetVal g2 g',
    (do BB <- BasicBlock_Create F; SetInsertPoint BB) g1 = Some (tt, gB) /\
    NamedValues gB = bind_arguments F 0 (Proto_Args (Proto Fn)) ∅ /\
    Builder gB = Some (F, 0%nat) /\ stderr gB = stderr g /\
    (exists FnB, functions (TheModule gB) !! F = Some FnB /\
                 F_name FnB = Proto_Name (Proto Fn) /\ F_blocks FnB = [[]]) /\
    Codegen (Body Fn) gB = Some (RetVal, g2) /\ lowered gB g2 /\
    FunctionAST_Codegen Fn g = Some (option_map (fun _ => F) RetVal, g') /\
    NamedValues g' = NamedValues g2 /\ stderr g' = stderr g2 /\
    match RetVal with
    | Some V =>
        functions (TheModule g') =
          alter (fun Fn0 => mkFunction (F_name Fn0) (F_args Fn0)
                              (alter (fun block => block ++ [Ret V]) 0%nat (F_blocks Fn0))
                              true (F_LastUnique Fn0))
                F (functions (TheModule g2)) /\
        undefined g' = undefined g2
    | None =>
        functions (TheModule g') = delete F (functions (TheModule g2)) /\
        undefined g' = undefined g2 || used F (TheModule g2)
    end.
Proof.
  intros HP.
  assert (Hent : exists gB,
            (do BB <- BasicBlock_Create F; SetInsertPoint BB) g1 = Some (tt, gB) /\
            enter_function Fn g = Some (Some F, gB)).
  { unfold enter_function, bind, modify. rewrite HP.
    unfold BasicBlock_Create, SetInsertPoint, update_function, set_functions,
      bind, get, modify, ret. eexists. split; reflexivity. }
  destruct Hent as (gB & HB & Hent).
  destruct (enter_function_spec Fn g) as (r & gB' & H' & Hspec).
  rewrite Hent in H'. injection H' as <- <-.
  destruct Hspec as (HN & HBld & HE & HFn).
  destruct (Codegen_lowered (Body Fn) gB) as (RetVal & g2 & HC & Hl).
  rewrite FunctionAST_Codegen_phases. unfold bind. rewrite Hent, HC.
  destruct RetVal as [V|].
  - destruct (finish_function_success F 0%nat V g2) as (g' & -> & HF' & HE' & HN' & HU').
    { rewrite (lowered_Builder _ _ Hl). exact HBld. }
    exists gB, (Some V), g2, g'.
    split; [exact HB|]. split; [exact HN|]. split; [exact HBld|]. split; [exact HE|].
    split; [exact HFn|]. split; [exact HC|]. split; [exact Hl|].
    split; [reflexivity|]. split; [exact HN'|]. split; [exact HE'|].
    split; assumption.
  - destruct (finish_function_failure F g2) as (g' & -> & HF' & HE' & HN' & HU').
    exists gB, None, g2, g'.
    split; [exact HB|]. split; [exact HN|]. split; [exact HBld|]. split; [exact HE|].
    split; [exact HFn|]. split; [exact HC|]. split; [exact Hl|].
    split; [reflexivity|]. split; [exact HN'|]. split; [exact HE'|].
    split; assumption.
Qed.

(** C5. A prototype whose name belongs to a function of the module that has
    a body is the error "redefinition of function"; whose name belongs to a
    declaration with another number of parameters, the error "redefinition
    of function with different # args".  With the same number of parameters
    the declaration is used again: the prototype lowers to that function,
    nothing is reported, and the module is as before when the parameter
    names are the same; and a definition under that name is lowered into
    that function. *)
Theorem PrototypeAST_Codegen_redefinition :
  (forall Name Args g F Fn,
     getFunction (TheModule g) Name = Some (F, Fn) ->
     Function_empty Fn = false ->
     PrototypeAST_Codegen (mkPrototypeAST Name Args) g =
       Some (None, set_stderr (stderr g ++
               [Print ("Error: redefinition of function" +:+ nl)]) g)) /\
  (forall Name Args g F Fn,
     getFunction (TheModule g) Name = Some (F, Fn) ->
     Function_empty Fn = true ->
     arg_size Fn <> length Args ->
     PrototypeAST_Codegen (mkPrototypeAST Name Args) g =
       Some (None, set_stderr (stderr g ++
               [Print ("Error: redefinition of function with different # args" +:+ nl)]) g)) /\
  (forall Name Args g F Fn,
     getFunction (TheModule g) Name = Some (F, Fn) ->
     Function_empty Fn = true ->
     arg_size Fn = length Args ->
     exists g',
       PrototypeAST_Codegen (mkPrototypeAST Name Args) g = Some (Some F, g') /\
       stderr g' = stderr g /\
       functions (TheModule g') =
         <[F := with_arguments 0 Args Fn]> (functions (TheModule g)) /\
       (F_args Fn = Args -> functions (TheModule g') = functions (TheModule g))) /\
  (forall Name Args Body g F Fn,
     getFunction (TheModule g) Name = Some (F, Fn) ->
     Function_empty Fn = true ->
     arg_size Fn = length Args ->
     exists g1,
       enter_function (mkFunctionAST (mkPrototypeAST Name Args) Body) g = Some (Some F, g1) /\
       forall V g2, Codegen Body g1 = Some (Some V, g2) ->
         exists g', FunctionAST_Codegen (mkFunctionAST (mkPrototypeAST Name Args) Body) g =
                      Some (Some F, g')).
Proof.
  split; [|split; [|split]].
  - intros Name Args g F Fn H He. rewrite (PrototypeAST_Codegen_taken _ _ _ _ _ H).
    rewrite He. reflexivity.
  - intros Name Args g F Fn H He Hne. rewrite (PrototypeAST_Codegen_taken _ _ _ _ _ H).
    rewrite He. apply Nat.eqb_neq in Hne. rewrite Hne. reflexivity.
  - intros Name Args g F Fn H He Hs. rewrite (PrototypeAST_Codegen_taken _ _ _ _ _ H).
    rewrite He. pose proof Hs as Hs'. apply Nat.eqb_eq in Hs'. rewrite Hs'. simpl.
    unfold bind. destruct (name_arguments_spec Args F 0%nat g)
      as (g' & -> & _ & HF & HE & _).
    pose proof (getFunction_lookup _ _ _ _ H) as (Hl & _ & _).
    assert (Halter : alter (with_arguments 0 Args) F (functions (TheModule g)) =
                     <[F := with_arguments 0 Args Fn]> (functions (TheModule g))).
    { apply map_eq. intros i. destruct (decide (F = i)) as [<-|Hne].
      - rewrite lookup_alter_eq, lookup_insert_eq, Hl. reflexivity.
      - rewrite lookup_alter_ne, lookup_insert_ne by exact Hne. reflexivity. }
    exists g'. split; [reflexivity|]. split; [exact HE|]. split; [congruence|].
    intros Hargs. rewrite HF, Halter. apply insert_id. rewrite Hl. f_equal.
    symmetry. exact (with_arguments_same Args [] Fn Hargs).
  - intros Name Args Body g F Fn H He Hs.
    assert (Hent : exists g1,
               enter_function (mkFunctionAST (mkPrototypeAST Name Args) Body) g
                 = Some (Some F, g1)).
    { unfold enter_function, bind, modify. simpl.
      rewrite (PrototypeAST_Codegen_taken Name Args (set_NamedValues ∅ g) F Fn H).
      rewrite He. apply Nat.eqb_eq in Hs. rewrite Hs. simpl. unfold bind.
      destruct (name_arguments_spec Args F 0%nat (set_NamedValues ∅ g)) as (g' & -> & _).
      eexists. reflexivity. }
    destruct Hent as [g1 Hent]. exists g1. split; [exact Hent|].
    intros V g2 HB. rewrite FunctionAST_Codegen_phases. unfold bind. rewrite Hent.
    simpl. rewrite HB.
    destruct (enter_function_spec (mkFunctionAST (mkPrototypeAST Name Args) Body) g)
      as (r & g1' & Hent' & Hspec).
    rewrite Hent in Hent'. injection Hent' as <- <-.
    destruct Hspec as (_ & HBld & _).
    destruct (Codegen_lowered Body g1) as (r & g2' & HB' & Hlow).
    rewrite HB in HB'. injection HB' as <- <-.
    destruct (finish_function_success F 0%nat V g2) as (g' & -> & _).
    { rewrite (lowered_Builder _ _ Hlow). exact HBld. }
    exists g'. reflexivity.
Qed.

Lemma unbound_lowered (x : string) (g g' : Globals) :
  lowered g g' -> unbound x g -> unbound x g'.
Proof.
  intros Hl Hu V H. apply (Hu V). apply (lowered_bound _ _ Hl). exact H.
Qed.

Lemma Codegen_Variable_unbound (x : string) (g : Globals) :
  unbound x g ->
  exists g', Codegen (VariableExprAST x) g = Some (None, g') /\
             stderr g' = stderr g ++ [Print ("Error: Unkown variable name" +:+ nl)].
Proof.
  intros Hu. simpl. unfold bind.
  destruct (NamedValues_subscript_lowered x g) as (V & g1 & -> & _ & He & HV).
  assert (V = None) as ->.
  { subst V. destruct (NamedValues g !! x) as [[V|]|] eqn:E; try reflexivity.
    exfalso. exact (Hu V E). }
  eexists. split; [reflexivity|]. simpl. rewrite He. reflexivity.
Qed.

Lemma Codegen_Variable_bound (x : string) (V : Value) (g : Globals) :
  NamedValues g !! x = Some (Some V) ->
  Codegen (VariableExprAST x) g = Some (Some V, g).
Proof.
  intros H. simpl. unfold bind. unfold NamedValues_subscript. unfold bind, get.
  rewrite H. reflexivity.
Qed.

(** An expression with a variable that is not in scope does not lower. *)
Lemma Codegen_unbound (x : string) (e : ExprAST) :
  forall g, mentions x e -> unbound x g -> exists g', Codegen e g = Some (None, g').
Proof.
  induction e as [Val|Name|Op LHS RHS IHL IHR|Callee Args IH] using ExprAST_induction;
    intros g Hm Hu.
  - contradiction.
  - simpl in Hm. subst Name.
    destruct (Codegen_Variable_unbound x g Hu) as (g' & H & _). eauto.
  - rewrite Codegen_Binary. unfold bind.
    destruct (Codegen_lowered LHS g) as (L & g1 & HL & Hl1).
    destruct (Codegen_lowered RHS g1) as (R & g2 & HR & Hl2).
    rewrite HL, HR. destruct Hm as [Hm|Hm].
    + destruct (IHL g Hm Hu) as (g' & H). rewrite HL in H. injection H as -> _.
      eauto.
    + destruct (IHR g1 Hm (unbound_lowered _ _ _ Hl1 Hu)) as (g' & H).
      rewrite HR in H. injection H as -> _. destruct L; eauto.
  - rewrite Codegen_Call. unfold bind, get.
    destruct (getFunction (TheModule g) Callee) as [[CalleeF Fn]|]; [|eexists; reflexivity].
    destruct (negb (arg_size Fn =? length Args)%nat); [eexists; reflexivity|].
    assert (Hargs : forall ArgsV g, unbound x g ->
               exists g', Codegen_args Args ArgsV g = Some (None, g')).
    { clear g Hu. simpl in Hm.
      induction IH as [|Arg Args HArg _ IHArgs]; intros ArgsV g Hu; [contradiction|].
      simpl. unfold bind.
      destruct (Codegen_lowered Arg g) as (V & g1 & HV & Hl1). rewrite HV.
      destruct V as [V|]; [|eauto].
      destruct Hm as [Hm|Hm].
      - destruct (HArg g Hm Hu) as (g' & H). rewrite HV in H. discriminate.
      - apply (IHArgs Hm). exact (unbound_lowered _ _ _ Hl1 Hu). }
    destruct (Hargs [] g Hu) as (g' & ->). eauto.
Qed.

(** C7. [FunctionAST::Codegen] empties [NamedValues] before anything else:
    when the prototype has lowered and the entry block is made, the body is
    lowered with the parameters of the function bound in [NamedValues] and
    nothing else, and the result of the function is that of its body; so
    after [FunctionAST::Codegen], whatever [NamedValues] held before, the
    names bound to a value are parameters of that function.  Lowering an
    expression keeps the names that are bound to a value.  A variable that
    is bound to no value is the error "Unkown variable name"; a function
    whose body has a variable that is no parameter does not lower, and when
    the body is that variable the error is what it prints. *)
Theorem NamedValues_function_scope :
  (forall Fn g F g1,
     PrototypeAST_Codegen (Proto Fn) (set_NamedValues ∅ g) = Some (Some F, g1) ->
     exists gB RetVal g2 g',
       (do BB <- BasicBlock_Create F; SetInsertPoint BB) g1 = Some (tt, gB) /\
       NamedValues gB = bind_arguments F 0 (Proto_Args (Proto Fn)) ∅ /\
       (forall x V, NamedValues gB !! x = Some (Some V) -> x ∈ Proto_Args (Proto Fn)) /\
       Codegen (Body Fn) gB = Some (RetVal, g2) /\
       FunctionAST_Codegen Fn g = Some (option_map (fun _ => F) RetVal, g') /\
       NamedValues g' = NamedValues g2 /\ stderr g' = stderr g2) /\
  (forall Fn g,
     exists r g',
       FunctionAST_Codegen Fn g = Some (r, g') /\
       forall x V, NamedValues g' !! x = Some (Some V) -> x ∈ Proto_Args (Proto Fn)) /\
  (forall e g r g',
     Codegen e g = Some (r, g') ->
     forall x V, NamedValues g' !! x = Some (Some V) <->
                 NamedValues g !! x = Some (Some V)) /\
  (forall x g,
     unbound x g ->
     exists g', Codegen (VariableExprAST x) g = Some (None, g') /\
                stderr g' = stderr g ++ [Print ("Error: Unkown variable name" +:+ nl)]) /\
  (forall Fn g x,
     x ∉ Proto_Args (Proto Fn) -> mentions x (Body Fn) ->
     exists g', FunctionAST_Codegen Fn g = Some (None, g')) /\
  (forall Name Params x g F g1,
     x ∉ Params ->
     PrototypeAST_Codegen (mkPrototypeAST Name Params) (set_NamedValues ∅ g)
       = Some (Some F, g1) ->
     exists g',
       FunctionAST_Codegen
         (mkFunctionAST (mkPrototypeAST Name Params) (VariableExprAST x)) g
         = Some (None, g') /\
       stderr g' = stderr g ++ [Print ("Error: Unkown variable name" +:+ nl)]).
Proof.
  assert (Hscope : forall (Args : list string) F (tbl : gmap string (option Value)),
            tbl = bind_arguments F 0 Args ∅ ->
            forall x V, tbl !! x = Some (Some V) -> x ∈ Args).
  { intros Args F tbl -> x V Hx.
    destruct (decide (x ∈ Args)) as [Hin|Hnin]; [exact Hin|].
    rewrite bind_arguments_other in Hx by exact Hnin.
    rewrite lookup_empty in Hx. discriminate. }
  split; [|split; [|split; [|split; [|split]]]].
  - intros Fn g F g1 HP.
    destruct (FunctionAST_Codegen_body Fn g F g1 HP)
      as (gB & RetVal & g2 & g' & HB & HN & _ & _ & _ & HC & _ & HF & HN' & HE' & _).
    exists gB, RetVal, g2, g'. split; [exact HB|]. split; [exact HN|].
    split; [exact (Hscope _ F _ HN)|]. split; [exact HC|]. split; [exact HF|].
    split; assumption.
  - intros Fn g.
    destruct (PrototypeAST_Codegen_spec (Proto Fn) (set_NamedValues ∅ g))
      as ([F|] & g1 & HP & _ & _ & Hr).
    + destruct (FunctionAST_Codegen_body Fn g F g1 HP)
        as (gB & RetVal & g2 & g' & _ & HN & _ & _ & _ & _ & Hl & HF & HN' & _).
      eexists _, g'. split; [exact HF|]. intros x V Hx. rewrite HN' in Hx.
      apply (lowered_bound _ _ Hl) in Hx. exact (Hscope _ F _ HN x V Hx).
    + exists None, g1. split; [exact (FunctionAST_Codegen_no_prototype Fn g g1 HP)|].
      intros x V Hx. destruct Hr as [HN _]. rewrite HN in Hx. simpl in Hx.
      rewrite lookup_empty in Hx. discriminate.
  - intros e g r g' H.
    destruct (Codegen_lowered e g) as (r' & g'' & H' & Hl).
    rewrite H in H'. injection H' as <- <-. apply (lowered_bound _ _ Hl).
  - exact Codegen_Variable_unbound.
  - intros Fn g x Hx Hm.
    destruct (PrototypeAST_Codegen_spec (Proto Fn) (set_NamedValues ∅ g))
      as ([F|] & g1 & HP & _).
    + destruct (FunctionAST_Codegen_body Fn g F g1 HP)
        as (gB & RetVal & g2 & g' & _ & HN & _ & _ & _ & HC & _ & HF & _).
      destruct (Codegen_unbound x (Body Fn) gB Hm) as (g2' & HC').
      { intros V HV. apply Hx. exact (Hscope _ F _ HN x V HV). }
      rewrite HC in HC'. injection HC' as -> _. exists g'. exact HF.
    + exists g1. exact (FunctionAST_Codegen_no_prototype Fn g g1 HP).
  - intros Name Params x g F g1 Hx HP.
    destruct (FunctionAST_Codegen_body
                (mkFunctionAST (mkPrototypeAST Name Params) (VariableExprAST x)) g F g1 HP)
      as (gB & RetVal & g2 & g' & _ & HN & _ & HE & _ & HC & _ & HF & _ & HE' & _).
    cbn [Proto Body Proto_Args] in *.
    destruct (Codegen_Variable_unbound x gB) as (g2' & HC' & HE2).
    { intros V HV. apply Hx. exact (Hscope _ F _ HN x V HV). }
    rewrite HC in HC'. injection HC' as -> ->. exists g'. split; [exact HF|].
    rewrite HE', HE2, HE. reflexivity.
Qed.

Lemma PrototypeAST_Codegen_redefinition_witness :
  (exists g', PrototypeAST_Codegen (mkPrototypeAST "f" ["x"]) (session 20 "def f(x) x")
              = Some (None, g')) /\
  (exists g', PrototypeAST_Codegen (mkPrototypeAST "sin" ["x"; "y"])
                (session 20 "extern sin(x)") = Some (None, g')) /\
  (exists g', PrototypeAST_Codegen (mkPrototypeAST "sin" ["x"])
                (session 20 "extern sin(x)") = Some (Some 0%nat, g') /\
              functions (TheModule g') = functions (TheModule (session 20 "extern sin(x)"))) /\
  (exists g', FunctionAST_Codegen
                (mkFunctionAST (mkPrototypeAST "sin" ["x"]) (VariableExprAST "x"))
                (session 20 "extern sin(x)") = Some (Some 0%nat, g')).
Proof.
  destruct PrototypeAST_Codegen_redefinition as (H1 & H2 & H3 & H4).
  split; [|split; [|split]].
  - eexists. eapply H1; [vm_compute; reflexivity | reflexivity].
  - eexists. eapply H2; [vm_compute; reflexivity | reflexivity | simpl; discriminate].
  - edestruct (H3 "sin" ["x"] (session 20 "extern sin(x)")) as (g' & Hg & _ & _ & Hsame);
      [vm_compute; reflexivity | reflexivity | reflexivity |].
    exists g'. split; [exact Hg | apply Hsame; reflexivity].
  - edestruct (H4 "sin" ["x"] (VariableExprAST "x") (session 20 "extern sin(x)"))
      as (g1 & Hent & Hbody); [vm_compute; reflexivity | reflexivity | reflexivity |].
    destruct (Codegen_lowered (VariableExprAST "x") g1) as (r & g2 & HC & _).
    destruct r as [V|].
    + exact (Hbody V g2 HC).
    + exfalso. vm_compute in Hent. injection Hent as <-. vm_compute in HC. discriminate.
Defined.

Lemma NamedValues_function_scope_witness :
  NamedValues (session 20 "def f(x) x") !! "x" = Some (Some (Argument 0 0)) /\
  exists g', FunctionAST_Codegen
               (mkFunctionAST (mkPrototypeAST "g" ["y"]) (VariableExprAST "x"))
               (session 20 "def f(x) x") = Some (None, g') /\
             stderr g' = stderr (session 20 "def f(x) x") ++
                         [Print ("Error: Unkown variable name" +:+ nl)].
Proof.
  split; [vm_compute; reflexivity|].
  destruct NamedValues_function_scope as (_ & _ & _ & _ & _ & H).
  match eval vm_compute in
    (PrototypeAST_Codegen (mkPrototypeAST "g" ["y"])
       (set_NamedValues ∅ (session 20 "def f(x) x"))) with
  | Some (_, ?g1) =>
      apply (H "g" ["y"] "x" (session 20 "def f(x) x") 1%nat g1);
        [|vm_compute; reflexivity]
  end.
  simpl. intros Hin. apply list_elem_of_singleton in Hin. discriminate.
Defined.

(** ** Termination of the parser and of the driver *)

Lemma isspace_EOF (c : Z) : isspace c = true -> (c =? EOF) = false.
Proof. unfold isspace, EOF. lia. Qed.

Lemma ch_not_EOF (c : ascii) : (ch c =? EOF) = false.
Proof. pose proof (ch_range c). unfold EOF. lia. Qed.

Lemma while_isspace_size (c0 : Z) (s : string) :
  ((if Z.eqb (fst (while_isspace c0 s)) EOF then O
    else S (String.length (snd (while_isspace c0 s))))
   <= (if Z.eqb c0 EOF then O else S (String.length s)))%nat.
Proof.
  revert c0. induction s as [|k r IH]; intros c0; simpl.
  - destruct (isspace c0) eqn:E; simpl; [|lia].
    rewrite (isspace_EOF _ E). lia.
  - destruct (isspace c0) eqn:E; simpl; [|lia].
    rewrite (isspace_EOF _ E). specialize (IH (ch k)). rewrite ch_not_EOF in IH. lia.
Qed.

Lemma while_append_size (p : Z -> bool) (s : string) :
  forall Str,
    ((if Z.eqb (fst (snd (while_append p Str s))) EOF then O
      else S (String.length (snd (snd (while_append p Str s)))))
     <= String.length s)%nat.
Proof.
  induction s as [|k r IH]; intros Str; simpl; [lia|].
  destruct (p (ch k)); simpl.
  - specialize (IH (Str +:+ String k "")). lia.
  - rewrite ch_not_EOF. lia.
Qed.

Lemma skip_comment_size (s : string) :
  ((if Z.eqb (fst (skip_comment s)) EOF then O
    else S (String.length (snd (skip_comment s))))
   <= String.length s)%nat.
Proof.
  induction s as [|k r IH]; simpl; [lia|].
  destruct (negb (ch k =? EOF) && negb (ch k =? 10) && negb (ch k =? 13)); simpl.
  - lia.
  - rewrite ch_not_EOF. lia.
Qed.

Lemma getchar_size (s : string) :
  ((if Z.eqb (fst (getchar s)) EOF then O else S (String.length (snd (getchar s))))
   <= String.length s)%nat.
Proof. destruct s as [|k r]; simpl; [lia|]. rewrite ch_not_EOF. lia. Qed.

Lemma isalpha_EOF (c : Z) : isalpha c = true -> (c =? EOF) = false.
Proof. unfold isalpha, isupper, islower, EOF. lia. Qed.

Lemma isnumeric_EOF (c : Z) : isnumeric c = true -> (c =? EOF) = false.
Proof. unfold isnumeric, isdigit, EOF. change (ch ".") with 46. lia. Qed.

(** A token other than [tok_eof] uses up input; [tok_eof] means that there
    is none left. *)
Lemma gettok_rec_progress (fuel : nat) :
  forall lx tok lx',
    gettok_rec fuel lx = Some (tok, lx') ->
    (tok = tok_eof -> lexer_size lx' = O) /\
    (tok <> tok_eof -> (lexer_size lx' < lexer_size lx)%nat).
Proof.
  induction fuel as [|fuel IH]; intros lx tok lx' H; [discriminate|].
  simpl in H. unfold lexer_size at 3.
  pose proof (while_isspace_size (LastChar lx) (stdin lx)) as Hsp.
  destruct (while_isspace (LastChar lx) (stdin lx)) as [c input]. simpl in Hsp.
  destruct (isalpha c) eqn:Ea.
  { rewrite (isalpha_EOF _ Ea) in Hsp.
    pose proof (while_append_size isalnum input (String (chr c) "")) as Hw.
    destruct (while_append isalnum _ input) as [Id [c' input']]. simpl in Hw.
    assert (Hsize : forall t, Some (t, mkLexer c' input' Id (NumVal lx)) = Some (tok, lx') ->
              t <> tok_eof ->
              (tok = tok_eof -> lexer_size lx' = O) /\
              (tok <> tok_eof -> (lexer_size lx' < 
                 (if Z.eqb (LastChar lx) EOF then 0 else S (String.length (stdin lx))))%nat)).
    { intros t Ht Hne. injection Ht as <- <-. split; [contradiction|].
      intros _. unfold lexer_size. simpl. lia. }
    destruct (String.eqb Id "def"); [apply (Hsize _ H); discriminate|].
    destruct (String.eqb Id "extern"); apply (Hsize _ H); discriminate. }
  destruct (isnumeric c) eqn:En.
  { rewrite (isnumeric_EOF _ En) in Hsp.
    pose proof (while_append_size isnumeric input (String (chr c) "")) as Hw.
    destruct (while_append isnumeric _ input) as [NumStr [c' input']]. simpl in Hw.
    injection H as <- <-. split; [discriminate|].
    intros _. unfold lexer_size. simpl. lia. }
  destruct (c =? ch "#") eqn:Eh.
  { assert (Hc : (c =? EOF) = false).
    { apply Z.eqb_eq in Eh. subst c. reflexivity. }
    rewrite Hc in Hsp.
    pose proof (skip_comment_size input) as Hk.
    destruct (skip_comment input) as [c' input']. simpl in Hk.
    destruct (c' =? EOF) eqn:Ee; simpl in H.
    - injection H as <- <-. split; [|intros Hne; contradiction Hne; reflexivity].
      intros _. unfold lexer_size. simpl. rewrite Ee. reflexivity.
    - destruct (IH _ _ _ H) as [H1 H2]. split; [exact H1|].
      intros Hne. specialize (H2 Hne). unfold lexer_size at 2 in H2. simpl in H2.
      rewrite Ee in H2. lia. }
  destruct (c =? EOF) eqn:Ee.
  { injection H as <- <-. split; [|intros Hne; contradiction Hne; reflexivity].
    intros _. unfold lexer_size. simpl. rewrite Ee. reflexivity. }
  pose proof (getchar_size input) as Hg.
  destruct (getchar input) as [c' input']. simpl in Hg.
  injection H as <- <-. split.
  - intros Hc. apply Z.eqb_neq in Ee. contradiction.
  - intros _. unfold lexer_size. simpl. lia.
Qed.

Lemma parsed_refl (g : Globals) : parsed g g.
Proof. split; reflexivity. Qed.

Lemma parsed_trans (g1 g2 g3 : Globals) : parsed g1 g2 -> parsed g2 g3 -> parsed g1 g3.
Proof. intros [M1 B1 N1 R1] [M2 B2 N2 R2]. split; try congruence. lia. Qed.

Lemma getNextToken_parsed (g : Globals) :
  exists tok g',
    getNextToken g = Some (tok, g') /\ CurTok g' = tok /\ parsed g g' /\
    (CurTok g <> tok_eof -> (remaining g' < remaining g)%nat) /\
    ((remaining g' < remaining g)%nat \/ CurTok g' = tok_eof).
Proof.
  destruct (getNextToken_total g) as (tok & lx' & Hg & Hn).
  exists tok, (set_CurTok tok (set_lexer lx' g)). split; [exact Hn|].
  split; [reflexivity|].
  destruct (gettok_rec_progress _ _ _ _ Hg) as [Heof Hlt].
  assert (Hrem : (remaining (set_CurTok tok (set_lexer lx' g)) <= remaining g)%nat /\
                 (CurTok g <> tok_eof ->
                  (remaining (set_CurTok tok (set_lexer lx' g)) < remaining g)%nat) /\
                 ((remaining (set_CurTok tok (set_lexer lx' g)) < remaining g)%nat \/
                  tok = tok_eof)).
  { unfold remaining. simpl.
    destruct (Z.eqb_spec tok tok_eof) as [He|Hne].
    - specialize (Heof He). rewrite Heof. split; [lia|]. split; [|right; exact He].
      intros Hc. apply Z.eqb_neq in Hc. rewrite Hc. lia.
    - specialize (Hlt Hne). destruct (CurTok g =? tok_eof); lia. }
  destruct Hrem as (H1 & H2 & H3).
  split; [split; try reflexivity; exact H1|]. split; [exact H2 | exact H3].
Qed.

Lemma Error_parsed {A} (Str : string) (g : Globals) :
  exists g', @Error A Str g = Some (None, g') /\ parsed g g' /\ CurTok g' = CurTok g.
Proof.
  eexists. split; [reflexivity|]. split; [split; reflexivity | reflexivity].
Qed.

Lemma GetTokPrecedence_parsed (g : Globals) :
  exists p g', GetTokPrecedence g = Some (p, g') /\ parsed g g' /\
               CurTok g' = CurTok g /\ remaining g' = remaining g /\
               (CurTok g = tok_eof -> p = -1).
Proof.
  unfold GetTokPrecedence, bind, get, modify, ret.
  destruct (isascii (CurTok g)) eqn:Ea; simpl.
  - destruct (subscript (BinopPrecedence g) (CurTok g)) as [TokPrec tbl'].
    destruct (TokPrec <=? 0);
      (eexists _, _; split; [reflexivity|]; split; [split; reflexivity|];
       split; [reflexivity|]; split; [reflexivity|];
       intros He; rewrite He in Ea; discriminate).
  - eexists _, _. split; [reflexivity|]. split; [split; reflexivity|].
    split; [reflexivity|]. split; [reflexivity|]. reflexivity.
Qed.

Lemma ParseIdentifierExpr_S (fuel : nat) :
  ParseIdentifierExpr (S fuel) =
    (do IdName <- get (fun g => IdentifierStr (lexer g));
     getNextToken ;;
     do tok <- get CurTok;
     if negb (tok =? ch "(") then ret (Some (VariableExprAST IdName))
     else
       getNextToken ;;
       do tok <- get CurTok;
       do Args <- (if negb (tok =? ch ")") then ParseArgs fuel []
                   else ret (Some []));
       match Args with
       | None => ret None
       | Some Args => getNextToken ;; ret (Some (CallExprAST IdName Args))
       end).
Proof. reflexivity. Qed.

Lemma ParseArgs_S (fuel : nat) (Args : list ExprAST) :
  ParseArgs (S fuel) Args =
    (do Arg <- ParseExpression fuel;
     match Arg with
     | None => ret None
     | Some Arg =>
         let Args := (Args ++ [Arg])%list in
         do tok <- get CurTok;
         if tok =? ch ")" then ret (Some Args)
         else if negb (tok =? ch ",")
         then Error "Expected ')' or ',' in argument list"
         else getNextToken ;; ParseArgs fuel Args
     end).
Proof. reflexivity. Qed.

(** At the end of the input nothing parses. *)
Lemma ParsePrimary_eof (g : Globals) (fuel : nat) :
  CurTok g = tok_eof -> (1 <= fuel)%nat ->
  exists g', ParsePrimary fuel g = Some (None, g') /\ parsed g g'.
Proof.
  intros He Hf. destruct fuel as [|fuel]; [lia|].
  rewrite ParsePrimary_S. unfold bind, get. rewrite He. simpl.
  eexists. split; [reflexivity|]. split; reflexivity.
Qed.

Lemma ParseExpression_eof (g : Globals) (fuel : nat) :
  CurTok g = tok_eof -> (2 <= fuel)%nat ->
  exists g', ParseExpression fuel g = Some (None, g') /\ parsed g g'.
Proof.
  intros He Hf. destruct fuel as [|fuel]; [lia|].
  rewrite ParseExpression_S. unfold bind.
  destruct (ParsePrimary_eof g fuel He) as (g' & -> & Hp); [lia|].
  exists g'. split; [reflexivity | exact Hp].
Qed.

Lemma ParseArgs_eof (g : Globals) (fuel : nat) (Args : list ExprAST) :
  CurTok g = tok_eof -> (3 <= fuel)%nat ->
  exists g', ParseArgs fuel Args g = Some (None, g') /\ parsed g g'.
Proof.
  intros He Hf. destruct fuel as [|fuel]; [lia|].
  rewrite ParseArgs_S. unfold bind.
  destruct (ParseExpression_eof g fuel He) as (g' & -> & Hp); [lia|].
  exists g'. split; [reflexivity | exact Hp].
Qed.

Lemma parser_total_all (n : nat) : parser_total n.
Proof.
  induction n as [n IH] using lt_wf_ind.
  (* calls made after a token has been read *)
  assert (HExpr : forall g1 fuel,
            (remaining g1 < n)%nat \/ CurTok g1 = tok_eof -> (4 * n + 2 <= fuel)%nat ->
            exists r g', ParseExpression fuel g1 = Some (r, g') /\ parsed g1 g').
  { intros g1 fuel [Hlt|He] Hf.
    - destruct (total_Expression _ (IH _ Hlt) g1 fuel) as (r & g' & H & Hp & _);
        [lia | lia | eauto].
    - destruct (ParseExpression_eof g1 fuel He) as (g' & H & Hp); [lia | eauto]. }
  assert (HArgs : forall g1 Args fuel,
            (remaining g1 < n)%nat \/ CurTok g1 = tok_eof -> (4 * n + 3 <= fuel)%nat ->
            exists r g', ParseArgs fuel Args g1 = Some (r, g') /\ parsed g1 g').
  { intros g1 Args fuel [Hlt|He] Hf.
    - destruct (total_Args _ (IH _ Hlt) g1 Args fuel) as (r & g' & H & Hp);
        [lia | lia | eauto].
    - destruct (ParseArgs_eof g1 fuel Args He) as (g' & H & Hp); [lia | eauto]. }
  assert (HBin : forall g ExprPrec LHS fuel,
            (remaining g <= n)%nat -> (4 * n + 4 <= fuel)%nat ->
            exists r g', ParseBinOpRHS fuel ExprPrec LHS g = Some (r, g') /\ parsed g g').
  { intros g ExprPrec LHS fuel Hr Hf. destruct fuel as [|fuel]; [lia|].
    rewrite ParseBinOpRHS_S. unfold bind at 1.
    destruct (GetTokPrecedence_parsed g) as (p & g0 & -> & Hp0 & _ & Hr0 & _).
    destruct (p <? ExprPrec); [eexists _, _; split; [reflexivity | exact Hp0]|].
    unfold bind at 1. unfold get at 1. unfold bind at 1.
    destruct (getNextToken_parsed g0) as (tok & g1 & -> & _ & Hp1 & _ & Hdisj).
    pose proof (parsed_trans _ _ _ Hp0 Hp1) as Hp01.
    unfold bind at 1. destruct Hdisj as [Hlt|He].
    2:{ destruct (ParsePrimary_eof g1 fuel He) as (g2 & -> & Hp2); [lia|].
        eexists _, _. split; [reflexivity | exact (parsed_trans _ _ _ Hp01 Hp2)]. }
    assert (Hlt1 : (remaining g1 < n)%nat) by lia.
    destruct (total_Primary _ (IH _ Hlt1) g1 fuel) as (r & g2 & -> & Hp2 & _);
      [lia | lia |].
    pose proof (parsed_trans _ _ _ Hp01 Hp2) as Hp02.
    destruct r as [RHS|]; [|eexists _, _; split; [reflexivity | exact Hp02]].
    unfold bind at 1.
    destruct (GetTokPrecedence_parsed g2) as (np & g3 & -> & Hp3 & _ & Hr3 & _).
    pose proof (parsed_trans _ _ _ Hp02 Hp3) as Hp03.
    assert (Hlt3 : (remaining g3 < n)%nat).
    { pose proof (parsed_remaining _ _ Hp2). lia. }
    unfold bind at 1. destruct (p <? np).
    - destruct (total_BinOpRHS _ (IH _ Hlt3) g3 (p + 1) RHS fuel)
        as (r' & g4 & -> & Hp4); [lia | lia |].
      pose proof (parsed_trans _ _ _ Hp03 Hp4) as Hp04.
      destruct r' as [RHS'|]; [|eexists _, _; split; [reflexivity | exact Hp04]].
      assert (Hlt4 : (remaining g4 < n)%nat).
      { pose proof (parsed_remaining _ _ Hp4). lia. }
      destruct (total_BinOpRHS _ (IH _ Hlt4) g4 ExprPrec
                  (BinaryExprAST (CurTok g0) LHS RHS') fuel)
        as (r'' & g5 & -> & Hp5); [lia | lia |].
      eexists _, _. split; [reflexivity | exact (parsed_trans _ _ _ Hp04 Hp5)].
    - unfold ret at 1.
      destruct (total_BinOpRHS _ (IH _ Hlt3) g3 ExprPrec
                  (BinaryExprAST (CurTok g0) LHS RHS) fuel)
        as (r'' & g5 & -> & Hp5); [lia | lia |].
      eexists _, _. split; [reflexivity | exact (parsed_trans _ _ _ Hp03 Hp5)]. }
  assert (HParen : forall g fuel,
            (remaining g <= n)%nat -> (4 * n + 4 <= fuel)%nat ->
            exists r g', ParseParenExpr fuel g = Some (r, g') /\ parsed g g' /\
                         (CurTok g <> tok_eof -> (remaining g' < remaining g)%nat)).
  { intros g fuel Hr Hf. destruct fuel as [|fuel]; [lia|].
    rewrite ParseParenExpr_S. unfold bind at 1.
    destruct (getNextToken_parsed g) as (tok & g1 & -> & _ & Hp1 & Hstrict & Hdisj).
    unfold bind at 1.
    destruct (HExpr g1 fuel) as (r & g2 & -> & Hp2); [destruct Hdisj; [left; lia | right; assumption] | lia |].
    pose proof (parsed_trans _ _ _ Hp1 Hp2) as Hp12.
    pose proof (parsed_remaining _ _ Hp2) as Hr2.
    destruct r as [V|].
    2:{ eexists _, _. split; [reflexivity|]. split; [exact Hp12|].
        intros Hc. specialize (Hstrict Hc). lia. }
    unfold bind at 1. unfold get at 1.
    destruct (negb (CurTok g2 =? ch ")")).
    - destruct (@Error_parsed ExprAST "expected ')'" g2) as (g3 & -> & Hp3 & _).
      eexists _, _. split; [reflexivity|].
      split; [exact (parsed_trans _ _ _ Hp12 Hp3)|].
      intros Hc. specialize (Hstrict Hc). pose proof (parsed_remaining _ _ Hp3). lia.
    - unfold bind at 1.
      destruct (getNextToken_parsed g2) as (tok3 & g3 & -> & _ & Hp3 & _ & _).
      eexists _, _. split; [reflexivity|].
      split; [exact (parsed_trans _ _ _ Hp12 Hp3)|].
      intros Hc. specialize (Hstrict Hc). pose proof (parsed_remaining _ _ Hp3). lia. }
  assert (HIdent : forall g fuel,
            (remaining g <= n)%nat -> (4 * n + 4 <= fuel)%nat ->
            exists r g', ParseIdentifierExpr fuel g = Some (r, g') /\ parsed g g' /\
                         (CurTok g <> tok_eof -> (remaining g' < remaining g)%nat)).
  { intros g fuel Hr Hf. destruct fuel as [|fuel]; [lia|].
    rewrite ParseIdentifierExpr_S. unfold bind at 1. unfold get at 1.
    unfold bind at 1.
    destruct (getNextToken_parsed g) as (tok & g1 & -> & _ & Hp1 & Hstrict & _).
    pose proof (parsed_remaining _ _ Hp1) as Hr1.
    unfold bind at 1. unfold get at 1.
    destruct (CurTok g1 =? ch "(") eqn:Eparen; cbn [negb]; cbv beta iota.
    2:{ eexists _, _. split; [reflexivity|]. split; [exact Hp1 | exact Hstrict]. }
    assert (Hc1 : CurTok g1 <> tok_eof).
    { apply Z.eqb_eq in Eparen. rewrite Eparen. discriminate. }
    unfold bind at 1.
    destruct (getNextToken_parsed g1) as (tok2 & g2 & -> & _ & Hp2 & Hstrict2 & _).
    specialize (Hstrict2 Hc1).
    pose proof (parsed_trans _ _ _ Hp1 Hp2) as Hp12.
    unfold bind at 1. unfold get at 1. unfold bind at 1.
    assert (HA : exists r g3,
               (if negb (CurTok g2 =? ch ")") then ParseArgs fuel [] else ret (Some [])) g2
                 = Some (r, g3) /\ parsed g2 g3).
    { destruct (negb (CurTok g2 =? ch ")")).
      - apply HArgs; [left; lia | lia].
      - eexists _, _. split; [reflexivity | apply parsed_refl]. }
    destruct HA as (r & g3 & -> & Hp3).
    pose proof (parsed_trans _ _ _ Hp12 Hp3) as Hp13.
    pose proof (parsed_remaining _ _ Hp3) as Hr3.
    destruct r as [Args|].
    2:{ eexists _, _. split; [reflexivity|]. split; [exact Hp13|]. intros _. lia. }
    unfold bind at 1.
    destruct (getNextToken_parsed g3) as (tok4 & g4 & -> & _ & Hp4 & _ & _).
    eexists _, _. split; [reflexivity|].
    split; [exact (parsed_trans _ _ _ Hp13 Hp4)|].
    intros _. pose proof (parsed_remaining _ _ Hp4). lia. }
  assert (HPrim : forall g fuel,
            (remaining g <= n)%nat -> (4 * n + 5 <= fuel)%nat ->
            exists r g', ParsePrimary fuel g = Some (r, g') /\ parsed g g' /\
                         (is_Some r -> (remaining g' < remaining g)%nat)).
  { intros g fuel Hr Hf. destruct fuel as [|fuel]; [lia|].
    rewrite ParsePrimary_S. unfold bind at 1. unfold get at 1.
    destruct (CurTok g =? tok_identifier) eqn:E1.
    { destruct (HIdent g fuel Hr) as (r & g' & -> & Hp & Hs); [lia|].
      eexists _, _. split; [reflexivity|]. split; [exact Hp|].
      intros _. apply Hs. apply Z.eqb_eq in E1. rewrite E1. discriminate. }
    destruct (CurTok g =? tok_number) eqn:E2.
    { unfold ParseNumberExpr, bind, get.
      destruct (getNextToken_parsed g) as (tok & g1 & -> & _ & Hp1 & Hstrict & _).
      eexists _, _. split; [reflexivity|]. split; [exact Hp1|].
      intros _. apply Hstrict. apply Z.eqb_eq in E2. rewrite E2. discriminate. }
    destruct (CurTok g =? ch "(") eqn:E3.
    { destruct (HParen g fuel Hr) as (r & g' & -> & Hp & Hs); [lia|].
      eexists _, _. split; [reflexivity|]. split; [exact Hp|].
      intros _. apply Hs. apply Z.eqb_eq in E3. rewrite E3. discriminate. }
    destruct (@Error_parsed ExprAST "unknown token when expecting an expression" g)
      as (g' & -> & Hp & _).
    eexists _, _. split; [reflexivity|]. split; [exact Hp|].
    intros [x Hx]. discriminate. }
  assert (HExprN : forall g fuel,
            (remaining g <= n)%nat -> (4 * n + 6 <= fuel)%nat ->
            exists r g', ParseExpression fuel g = Some (r, g') /\ parsed g g' /\
                         (is_Some r -> (remaining g' < remaining g)%nat)).
  { intros g fuel Hr Hf. destruct fuel as [|fuel]; [lia|].
    rewrite ParseExpression_S. unfold bind.
    destruct (HPrim g fuel Hr) as (r & g1 & -> & Hp1 & Hs1); [lia|].
    destruct r as [LHS|].
    2:{ eexists _, _. split; [reflexivity|]. split; [exact Hp1|].
        intros [x Hx]. discriminate. }
    pose proof (parsed_remaining _ _ Hp1) as Hr1.
    destruct (HBin g1 0 LHS fuel) as (r & g2 & -> & Hp2); [lia | lia |].
    eexists _, _. split; [reflexivity|].
    split; [exact (parsed_trans _ _ _ Hp1 Hp2)|].
    intros _. pose proof (parsed_remaining _ _ Hp2).
    assert ((remaining g1 < remaining g)%nat) by (apply Hs1; eauto). lia. }
  split; try assumption.
  intros g Args fuel Hr Hf. destruct fuel as [|fuel]; [lia|].
  rewrite ParseArgs_S. unfold bind at 1.
  destruct (HExprN g fuel Hr) as (r & g1 & -> & Hp1 & Hs1); [lia|].
  destruct r as [Arg|]; [|eexists _, _; split; [reflexivity | exact Hp1]].
  assert (Hlt1 : (remaining g1 < remaining g)%nat) by (apply Hs1; eauto).
  cbv zeta. unfold bind at 1. unfold get at 1.
  destruct (CurTok g1 =? ch ")").
  { eexists _, _. split; [reflexivity | exact Hp1]. }
  destruct (negb (CurTok g1 =? ch ",")).
  { destruct (@Error_parsed (list ExprAST) "Expected ')' or ',' in argument list" g1)
      as (g2 & -> & Hp2 & _).
    eexists _, _. split; [reflexivity | exact (parsed_trans _ _ _ Hp1 Hp2)]. }
  unfold bind at 1.
  destruct (getNextToken_parsed g1) as (tok & g2 & -> & _ & Hp2 & _ & _).
  pose proof (parsed_remaining _ _ Hp2) as Hr2.
  destruct (HArgs g2 (Args ++ [Arg])%list fuel) as (r & g3 & -> & Hp3);
    [left; lia | lia |].
  eexists _, _. split; [reflexivity|].
  exact (parsed_trans _ _ _ Hp1 (parsed_trans _ _ _ Hp2 Hp3)).
Qed.

Lemma ParsePrototype_args_total (fuel : nat) :
  forall g ArgNames,
    (remaining g < fuel)%nat ->
    exists r g', ParsePrototype_args fuel ArgNames g = Some (r, g') /\ parsed g g'.
Proof.
  induction fuel as [|fuel IH]; intros g ArgNames Hf; [lia|].
  simpl. unfold bind at 1.
  destruct (getNextToken_parsed g) as (tok & g1 & -> & Hc1 & Hp1 & _ & Hdisj).
  destruct (tok =? tok_identifier) eqn:E.
  - unfold bind, get.
    destruct (IH g1 (ArgNames ++ [IdentifierStr (lexer g1)])%list) as (r & g2 & -> & Hp2).
    + destruct Hdisj as [Hlt|He]; [lia|].
      apply Z.eqb_eq in E. rewrite Hc1, E in He. discriminate.
    + eexists _, _. split; [reflexivity | exact (parsed_trans _ _ _ Hp1 Hp2)].
  - eexists _, _. split; [reflexivity | exact Hp1].
Qed.

Lemma ParsePrototype_total (fuel : nat) (g : Globals) :
  (remaining g < fuel)%nat ->
  exists r g', ParsePrototype fuel g = Some (r, g') /\ parsed g g'.
Proof.
  intros Hf. unfold ParsePrototype. unfold bind at 1. unfold get at 1.
  destruct (negb (CurTok g =? tok_identifier)).
  { destruct (@Error_parsed PrototypeAST "Expected function name in prototype" g)
      as (g' & -> & Hp & _). eauto. }
  unfold bind at 1. unfold get at 1. unfold bind at 1.
  destruct (getNextToken_parsed g) as (tok & g1 & -> & _ & Hp1 & _ & _).
  pose proof (parsed_remaining _ _ Hp1) as Hr1.
  unfold bind at 1. unfold get at 1.
  destruct (negb (CurTok g1 =? ch "(")).
  { destruct (@Error_parsed PrototypeAST "Expected '(' in prototype" g1)
      as (g' & -> & Hp & _).
    eexists _, _. split; [reflexivity | exact (parsed_trans _ _ _ Hp1 Hp)]. }
  unfold bind at 1.
  destruct (ParsePrototype_args_total fuel g1 []) as (ArgNames & g2 & -> & Hp2); [lia|].
  pose proof (parsed_trans _ _ _ Hp1 Hp2) as Hp12.
  unfold bind at 1. unfold get at 1.
  destruct (negb (CurTok g2 =? ch ")")).
  { destruct (@Error_parsed PrototypeAST "Expected ')' in prototype" g2)
      as (g' & -> & Hp & _).
    eexists _, _. split; [reflexivity | exact (parsed_trans _ _ _ Hp12 Hp)]. }
  unfold bind at 1.
  destruct (getNextToken_parsed g2) as (tok3 & g3 & -> & _ & Hp3 & _ & _).
  eexists _, _. split; [reflexivity | exact (parsed_trans _ _ _ Hp12 Hp3)].
Qed.

(** A handler that starts at a token other than [tok_eof] leaves less
    input than it found. *)
Lemma remaining_at_eof (g g1 : Globals) :
  CurTok g <> tok_eof -> CurTok g1 = tok_eof ->
  (remaining g1 <= remaining g)%nat -> (remaining g1 < remaining g)%nat.
Proof.
  unfold remaining. intros Hc He. apply Z.eqb_neq in Hc. rewrite Hc, He. simpl. lia.
Qed.

Lemma skip_token (g g1 : Globals) :
  CurTok g <> tok_eof -> parsed g g1 ->
  exists g2, (getNextToken ;; ret tt) g1 = Some (tt, g2) /\ parsed g g2 /\
             (remaining g2 < remaining g)%nat.
Proof.
  intros Hc Hp1. unfold bind.
  destruct (getNextToken_parsed g1) as (tok & g2 & -> & _ & Hp2 & Hstrict & _).
  exists g2. split; [reflexivity|]. split; [exact (parsed_trans _ _ _ Hp1 Hp2)|].
  pose proof (parsed_remaining _ _ Hp1) as Hr1.
  pose proof (parsed_remaining _ _ Hp2) as Hr2.
  destruct (Z.eq_dec (CurTok g1) tok_eof) as [He|Hne].
  - pose proof (remaining_at_eof g g1 Hc He Hr1). lia.
  - specialize (Hstrict Hne). lia.
Qed.

Lemma ParseDefinition_total (fuel : nat) (g : Globals) :
  (4 * remaining g + 6 <= fuel)%nat -> CurTok g <> tok_eof ->
  exists r g', ParseDefinition fuel g = Some (r, g') /\ parsed g g' /\
               (remaining g' < remaining g)%nat.
Proof.
  intros Hf Hc. unfold ParseDefinition. unfold bind at 1.
  destruct (getNextToken_parsed g) as (tok & g1 & -> & _ & Hp1 & Hstrict & _).
  specialize (Hstrict Hc). unfold bind at 1.
  destruct (ParsePrototype_total fuel g1) as (P & g2 & -> & Hp2); [lia|].
  pose proof (parsed_trans _ _ _ Hp1 Hp2) as Hp12.
  pose proof (parsed_remaining _ _ Hp2) as Hr2.
  destruct P as [P|].
  2:{ eexists _, _. split; [reflexivity|]. split; [exact Hp12 | lia]. }
  unfold bind.
  destruct (total_Expression _ (parser_total_all (remaining g2)) g2 fuel)
    as (E & g3 & -> & Hp3 & _); [lia | lia |].
  pose proof (parsed_remaining _ _ Hp3) as Hr3.
  destruct E as [E|]; (eexists _, _; split; [reflexivity|];
    split; [exact (parsed_trans _ _ _ Hp12 Hp3) | lia]).
Qed.

Lemma ParseExtern_total (fuel : nat) (g : Globals) :
  (remaining g < fuel)%nat -> CurTok g <> tok_eof ->
  exists r g', ParseExtern fuel g = Some (r, g') /\ parsed g g' /\
               (remaining g' < remaining g)%nat.
Proof.
  intros Hf Hc. unfold ParseExtern. unfold bind at 1.
  destruct (getNextToken_parsed g) as (tok & g1 & -> & _ & Hp1 & Hstrict & _).
  specialize (Hstrict Hc).
  destruct (ParsePrototype_total fuel g1) as (P & g2 & -> & Hp2); [lia|].
  pose proof (parsed_remaining _ _ Hp2) as Hr2.
  eexists _, _. split; [reflexivity|].
  split; [exact (parsed_trans _ _ _ Hp1 Hp2) | lia].
Qed.

Lemma ParseTopLevelExpr_total (fuel : nat) (g : Globals) :
  (4 * remaining g + 6 <= fuel)%nat ->
  exists r g', ParseTopLevelExpr fuel g = Some (r, g') /\ parsed g g' /\
               (is_Some r -> (remaining g' < remaining g)%nat).
Proof.
  intros Hf. unfold ParseTopLevelExpr, bind.
  destruct (total_Expression _ (parser_total_all (remaining g)) g fuel)
    as (E & g1 & -> & Hp1 & Hs1); [lia | lia |].
  destruct E as [E|]; (eexists _, _; split; [reflexivity|]; split; [exact Hp1|]).
  - intros _. apply Hs1. eauto.
  - intros [x Hx]. discriminate.
Qed.

(** Lowering returns and does not read input. *)
Lemma PrototypeAST_Codegen_total (P : PrototypeAST) (g : Globals) :
  exists r g', PrototypeAST_Codegen P g = Some (r, g') /\ remaining g' = remaining g.
Proof.
  destruct (PrototypeAST_Codegen_spec P g) as (r & g' & H & Hl & Hc & _).
  exists r, g'. split; [exact H|]. unfold remaining. rewrite Hl, Hc. reflexivity.
Qed.

Lemma FunctionAST_Codegen_total (Fn : FunctionAST) (g : Globals) :
  exists r g', FunctionAST_Codegen Fn g = Some (r, g') /\ remaining g' = remaining g.
Proof.
  unfold FunctionAST_Codegen. unfold bind at 1. unfold modify at 1. unfold bind at 1.
  destruct (PrototypeAST_Codegen_spec (Proto Fn) (set_NamedValues ∅ g))
    as (r & g1 & -> & Hl1 & Hc1 & _).
  assert (Hr1 : remaining g1 = remaining g).
  { unfold remaining. rewrite Hl1, Hc1. reflexivity. }
  destruct r as [F|]; [|eexists _, _; split; [reflexivity | exact Hr1]].
  unfold BasicBlock_Create, SetInsertPoint, update_function, set_functions, bind,
    get, modify, ret.
  match goal with |- context [Codegen (Body Fn) ?g2] =>
    destruct (Codegen_lowered (Body Fn) g2) as (RetVal & g3 & -> & Hl3) end.
  assert (Hr3 : remaining g3 = remaining g).
  { rewrite <- Hr1. unfold remaining.
    rewrite (lowered_lexer _ _ Hl3), (lowered_CurTok _ _ Hl3). reflexivity. }
  destruct RetVal as [V|].
  - unfold CreateRet, verifyFunction, update_function, set_functions, bind, get, modify.
    destruct (Insert_lowered (Ret V) g3) as (g4 & -> & Hl4 & _).
    eexists _, _. split; [reflexivity|]. rewrite <- Hr3. unfold remaining. simpl.
    rewrite (lowered_lexer _ _ Hl4), (lowered_CurTok _ _ Hl4). reflexivity.
  - unfold eraseFromParent, set_functions, bind, get, modify.
    destruct (used F (TheModule g3));
      (eexists _, _; split; [reflexivity|]; exact Hr3).
Qed.

Lemma HandleDefinition_total (fuel : nat) (g : Globals) :
  (4 * remaining g + 6 <= fuel)%nat -> CurTok g <> tok_eof ->
  exists g', HandleDefinition fuel g = Some (tt, g') /\
             (remaining g' < remaining g)%nat.
Proof.
  intros Hf Hc. unfold HandleDefinition. unfold bind at 1.
  destruct (ParseDefinition_total fuel g Hf Hc) as (r & g1 & -> & Hp1 & Hr1).
  destruct r as [Fn|].
  - unfold bind at 1.
    destruct (FunctionAST_Codegen_total Fn g1) as (r & g2 & -> & Hr2).
    destruct r as [F|]; eexists; (split; [reflexivity|]).
    + unfold remaining in *. simpl. exact (eq_ind_r (fun x => (x < _)%nat) Hr1 Hr2).
    + rewrite Hr2. exact Hr1.
  - destruct (skip_token g g1 Hc Hp1) as (g2 & -> & _ & Hr2).
    exists g2. split; [reflexivity | exact Hr2].
Qed.

Lemma HandleExtern_total (fuel : nat) (g : Globals) :
  (remaining g < fuel)%nat -> CurTok g <> tok_eof ->
  exists g', HandleExtern fuel g = Some (tt, g') /\
             (remaining g' < remaining g)%nat.
Proof.
  intros Hf Hc. unfold HandleExtern. unfold bind at 1.
  destruct (ParseExtern_total fuel g Hf Hc) as (r & g1 & -> & Hp1 & Hr1).
  destruct r as [P|].
  - unfold bind at 1.
    destruct (PrototypeAST_Codegen_total P g1) as (r & g2 & -> & Hr2).
    destruct r as [F|]; eexists; (split; [reflexivity|]).
    + unfold remaining in *. simpl. exact (eq_ind_r (fun x => (x < _)%nat) Hr1 Hr2).
    + rewrite Hr2. exact Hr1.
  - destruct (skip_token g g1 Hc Hp1) as (g2 & -> & _ & Hr2).
    exists g2. split; [reflexivity | exact Hr2].
Qed.

Lemma HandleTopLevelExpression_total (fuel : nat) (g : Globals) :
  (4 * remaining g + 6 <= fuel)%nat -> CurTok g <> tok_eof ->
  exists g', HandleTopLevelExpression fuel g = Some (tt, g') /\
             (remaining g' < remaining g)%nat.
Proof.
  intros Hf Hc. unfold HandleTopLevelExpression. unfold bind at 1.
  destruct (ParseTopLevelExpr_total fuel g Hf) as (r & g1 & -> & Hp1 & Hs1).
  destruct r as [Fn|].
  - assert (Hr1 : (remaining g1 < remaining g)%nat) by (apply Hs1; eauto).
    unfold bind at 1.
    destruct (FunctionAST_Codegen_total Fn g1) as (r & g2 & -> & Hr2).
    destruct r as [F|]; eexists; (split; [reflexivity|]).
    + unfold remaining in *. simpl. exact (eq_ind_r (fun x => (x < _)%nat) Hr1 Hr2).
    + rewrite Hr2. exact Hr1.
  - destruct (skip_token g g1 Hc Hp1) as (g2 & -> & _ & Hr2).
    exists g2. split; [reflexivity | exact Hr2].
Qed.

(** [MainLoop] reaches the end of the input. *)
Lemma MainLoop_total (n : nat) :
  forall fuel g,
    (remaining g <= n)%nat -> (4 * n + 8 <= fuel)%nat ->
    exists g', MainLoop fuel g = Some (tt, g') /\ CurTok g' = tok_eof.
Proof.
  induction n as [n IH] using lt_wf_ind. intros fuel g Hr Hf.
  destruct fuel as [|fuel]; [lia|].
  simpl. unfold bind at 1. unfold fprintf_stderr at 1. unfold modify at 1.
  unfold bind at 1. unfold get at 1.
  set (g0 := set_stderr (stderr g ++ [Print "ready>"]) g).
  assert (Hr0 : remaining g0 = remaining g) by reflexivity.
  change (CurTok g0) with (CurTok g).
  destruct (Z.eqb_spec (CurTok g) tok_eof) as [He|Hc].
  { exists g0. split; [reflexivity | exact He]. }
  assert (Hnext : forall g1, (remaining g1 < remaining g0)%nat ->
            exists g', MainLoop fuel g1 = Some (tt, g') /\ CurTok g' = tok_eof).
  { intros g1 Hlt. apply (IH (remaining g1)); lia. }
  destruct (CurTok g =? ch ";").
  { destruct (skip_token g0 g0 Hc (parsed_refl g0)) as (g1 & Hs & _ & Hr1).
    unfold bind in Hs |- *.
    destruct (getNextToken g0) as [[tok g1']|]; [|discriminate].
    injection Hs as <-. apply Hnext. exact Hr1. }
  destruct (CurTok g =? tok_def).
  { unfold bind.
    destruct (HandleDefinition_total fuel g0) as (g1 & -> & Hr1); [lia | exact Hc |].
    apply Hnext. exact Hr1. }
  destruct (CurTok g =? tok_extern).
  { unfold bind.
    destruct (HandleExtern_total fuel g0) as (g1 & -> & Hr1); [lia | exact Hc |].
    apply Hnext. exact Hr1. }
  unfold bind.
  destruct (HandleTopLevelExpression_total fuel g0) as (g1 & -> & Hr1);
    [lia | exact Hc |].
  apply Hnext. exact Hr1.
Qed.

(** On every input [main] returns, given fuel linear in its length. *)
Lemma main_total (input : string) (fuel : nat) :
  (8 * String.length input + 20 <= fuel)%nat ->
  exists g, main fuel (startup input) = Some (tt, g) /\ CurTok g = tok_eof.
Proof.
  intros Hf. unfold main, install_precedences, fprintf_stderr, set_functions.
  unfold bind at 1 2 3 4 5 6 7. unfold modify. 
  match goal with |- context [getNextToken ?g0] =>
    destruct (getNextToken_parsed g0) as (tok & g1 & -> & _ & Hp1 & _ & _);
    pose proof (parsed_remaining _ _ Hp1) as Hr1;
    assert (Hr0 : remaining g0 = (2 * S (String.length input) + 1)%nat) by reflexivity
  end.
  unfold bind.
  match goal with |- context [MainLoop fuel ?g2] =>
    destruct (MainLoop_total (remaining g1) fuel g2) as (g3 & -> & He);
      [apply Nat.le_refl | lia |]
  end.
  eexists. split; [reflexivity | exact He].
Qed.

(** ** The driver and the table of names *)

(** C10. Lowering a prototype binds its parameters in [NamedValues] and
    leaves every other binding as it was: nothing is cleared.  That is all
    that [HandleExtern] does to [NamedValues], so after an [extern] a
    variable of that name still resolves; parsing and reading tokens do not
    touch the table.  The bindings go when the next function is lowered:
    [FunctionAST::Codegen] leaves no name bound to a value that is no
    parameter of its function, and its body does not lower when it has a
    variable that is no parameter, whatever was bound before. *)
Theorem PrototypeAST_Codegen_leaves_bindings :
  (forall P g F g',
     PrototypeAST_Codegen P g = Some (Some F, g') ->
     (forall a, a ∈ Proto_Args P ->
        exists i, NamedValues g' !! a = Some (Some (Argument F i))) /\
     (forall x, x ∉ Proto_Args P -> NamedValues g' !! x = NamedValues g !! x)) /\
  (forall fuel g P g1 F g2,
     ParseExtern fuel g = Some (Some P, g1) ->
     PrototypeAST_Codegen P g1 = Some (Some F, g2) ->
     exists g3, HandleExtern fuel g = Some (tt, g3) /\
                NamedValues g3 = NamedValues g2) /\
  (forall a V g,
     NamedValues g !! a = Some (Some V) ->
     Codegen (VariableExprAST a) g = Some (Some V, g)) /\
  (forall fuel g,
     (4 * remaining g + 6 <= fuel)%nat -> CurTok g <> tok_eof ->
     (exists r g', ParseDefinition fuel g = Some (r, g') /\
                   NamedValues g' = NamedValues g) /\
     (exists r g', ParseExtern fuel g = Some (r, g') /\
                   NamedValues g' = NamedValues g) /\
     (exists r g', ParseTopLevelExpr fuel g = Some (r, g') /\
                   NamedValues g' = NamedValues g) /\
     (exists tok g', getNextToken g = Some (tok, g') /\
                     NamedValues g' = NamedValues g)) /\
  (forall Fn g,
     exists r g',
       FunctionAST_Codegen Fn g = Some (r, g') /\
       (forall x, x ∉ Proto_Args (Proto Fn) -> unbound x g') /\
       (forall x, x ∉ Proto_Args (Proto Fn) -> mentions x (Body Fn) -> r = None)).
Proof.
  split; [|split; [|split; [|split]]].
  - intros P g F g' H.
    destruct (PrototypeAST_Codegen_spec P g) as (r & g'' & H' & _ & _ & Hspec).
    rewrite H in H'. injection H' as <- <-. destruct Hspec as (HN & _).
    rewrite HN. split.
    + intros a Ha. apply bind_arguments_bound. exact Ha.
    + intros x Hx. apply bind_arguments_other. exact Hx.
  - intros fuel g P g1 F g2 HP HC. unfold HandleExtern, bind. rewrite HP, HC.
    eexists. split; reflexivity.
  - exact Codegen_Variable_bound.
  - intros fuel g Hf Hc. split; [|split; [|split]].
    + destruct (ParseDefinition_total fuel g Hf Hc) as (r & g' & H & Hp & _).
      exists r, g'. split; [exact H | exact (parsed_NamedValues _ _ Hp)].
    + destruct (ParseExtern_total fuel g) as (r & g' & H & Hp & _); [lia | exact Hc |].
      exists r, g'. split; [exact H | exact (parsed_NamedValues _ _ Hp)].
    + destruct (ParseTopLevelExpr_total fuel g Hf) as (r & g' & H & Hp & _).
      exists r, g'. split; [exact H | exact (parsed_NamedValues _ _ Hp)].
    + destruct (getNextToken_parsed g) as (tok & g' & H & _ & Hp & _).
      exists tok, g'. split; [exact H | exact (parsed_NamedValues _ _ Hp)].
  - intros Fn g.
    destruct (PrototypeAST_Codegen_spec (Proto Fn) (set_NamedValues ∅ g))
      as ([F|] & g1 & HP & _ & _ & Hr).
    + destruct (FunctionAST_Codegen_body Fn g F g1 HP)
        as (gB & RetVal & g2 & g' & _ & HN & _ & _ & _ & HC & Hl & HF & HN' & _).
      assert (Hgone : forall x, x ∉ Proto_Args (Proto Fn) -> unbound x gB).
      { intros x Hx V HV. rewrite HN, bind_arguments_other in HV by exact Hx.
        rewrite lookup_empty in HV. discriminate. }
      eexists _, g'. split; [exact HF|]. split.
      * intros x Hx V HV. rewrite HN' in HV.
        apply (lowered_bound _ _ Hl) in HV. exact (Hgone x Hx V HV).
      * intros x Hx Hm.
        destruct (Codegen_unbound x (Body Fn) gB Hm (Hgone x Hx)) as (g2' & HC').
        rewrite HC in HC'. injection HC' as -> _. reflexivity.
    + exists None, g1. split; [exact (FunctionAST_Codegen_no_prototype Fn g g1 HP)|].
      split; [|reflexivity].
      intros x _ V HV. destruct Hr as [HN _]. rewrite HN in HV. simpl in HV.
      rewrite lookup_empty in HV. discriminate.
Qed.

Lemma PrototypeAST_Codegen_leaves_bindings_witness :
  exists g' i,
    PrototypeAST_Codegen (mkPrototypeAST "sin" ["x"]) (session 20 "def f(a) a")
      = Some (Some 1%nat, g') /\
    NamedValues g' !! "x" = Some (Some (Argument 1 i)) /\
    NamedValues g' !! "a" = Some (Some (Argument 0 0)).
Proof.
  match eval vm_compute in
    (PrototypeAST_Codegen (mkPrototypeAST "sin" ["x"]) (session 20 "def f(a) a")) with
  | Some (_, ?g1) =>
      assert (H : PrototypeAST_Codegen (mkPrototypeAST "sin" ["x"])
                    (session 20 "def f(a) a") = Some (Some 1%nat, g1))
        by (vm_compute; reflexivity);
      exists g1
  end.
  destruct PrototypeAST_Codegen_leaves_bindings as (Hbind & _).
  destruct (Hbind _ _ _ _ H) as [Hin Hout].
  destruct (Hin "x") as [i Hi]; [simpl; apply list_elem_of_singleton; reflexivity|].
  exists i. split; [exact H|]. split; [exact Hi|].
  rewrite (Hout "a").
  - vm_compute. reflexivity.
  - simpl. intros Ha. apply list_elem_of_singleton in Ha. discriminate.
Defined.

(** C4, as the code has it.  A top-level construct that does not parse
    costs exactly one more token, read by the handler before it returns; one
    that parses and does not lower costs none.  Either way the handler
    returns and [MainLoop] goes on with the token that is then current, so
    that [main] gets to the end of every input; after the malformed
    [def foo(a] the expression [4+5] is still lowered. *)
Theorem MainLoop_error_recovery :
  (forall fuel g g1,
     (ParseDefinition fuel g = Some (None, g1) ->
      HandleDefinition fuel g = (getNextToken ;; ret tt) g1) /\
     (ParseExtern fuel g = Some (None, g1) ->
      HandleExtern fuel g = (getNextToken ;; ret tt) g1) /\
     (ParseTopLevelExpr fuel g = Some (None, g1) ->
      HandleTopLevelExpression fuel g = (getNextToken ;; ret tt) g1)) /\
  (forall fuel g g1 g2,
     (forall Fn, ParseDefinition fuel g = Some (Some Fn, g1) ->
        FunctionAST_Codegen Fn g1 = Some (None, g2) ->
        HandleDefinition fuel g = Some (tt, g2)) /\
     (forall P, ParseExtern fuel g = Some (Some P, g1) ->
        PrototypeAST_Codegen P g1 = Some (None, g2) ->
        HandleExtern fuel g = Some (tt, g2)) /\
     (forall Fn, ParseTopLevelExpr fuel g = Some (Some Fn, g1) ->
        FunctionAST_Codegen Fn g1 = Some (None, g2) ->
        HandleTopLevelExpression fuel g = Some (tt, g2))) /\
  (forall fuel g,
     (CurTok g = tok_def ->
      MainLoop (S fuel) g =
        (fprintf_stderr "ready>" ;; HandleDefinition fuel ;; MainLoop fuel) g) /\
     (CurTok g = tok_extern ->
      MainLoop (S fuel) g =
        (fprintf_stderr "ready>" ;; HandleExtern fuel ;; MainLoop fuel) g) /\
     (CurTok g <> tok_eof -> CurTok g <> ch ";" ->
      CurTok g <> tok_def -> CurTok g <> tok_extern ->
      MainLoop (S fuel) g =
        (fprintf_stderr "ready>" ;; HandleTopLevelExpression fuel ;; MainLoop fuel) g)) /\
  (forall input fuel,
     (8 * String.length input + 20 <= fuel)%nat ->
     exists g, main fuel (startup input) = Some (tt, g) /\ CurTok g = tok_eof) /\
  (exists g,
     main 30 (startup "def foo(a ; 4+5") = Some (tt, g) /\
     functions (TheModule g) !! 0%nat =
       Some (mkFunction "" []
               [[Inst (FAdd (ConstantFP (strtod "4")) (ConstantFP (strtod "5")));
                 Ret (FAdd (ConstantFP (strtod "4")) (ConstantFP (strtod "5")))]]
               true 0)).
Proof.
  split; [|split; [|split; [|split]]].
  - intros fuel g g1. repeat split; intros H.
    + unfold HandleDefinition, bind. rewrite H. reflexivity.
    + unfold HandleExtern, bind. rewrite H. reflexivity.
    + unfold HandleTopLevelExpression, bind. rewrite H. reflexivity.
  - intros fuel g g1 g2. repeat split; intros X H HC.
    + unfold HandleDefinition, bind. rewrite H, HC. reflexivity.
    + unfold HandleExtern, bind. rewrite H, HC. reflexivity.
    + unfold HandleTopLevelExpression, bind. rewrite H, HC. reflexivity.
  - intros fuel g. repeat split.
    + intros H. simpl. unfold bind, get, fprintf_stderr, modify. simpl.
      rewrite H. reflexivity.
    + intros H. simpl. unfold bind, get, fprintf_stderr, modify. simpl.
      rewrite H. reflexivity.
    + intros H1 H2 H3 H4. simpl. unfold bind, get, fprintf_stderr, modify. simpl.
      apply Z.eqb_neq in H1, H2, H3, H4. rewrite H1, H2, H3, H4. reflexivity.
  - exact main_total.
  - eexists. split; vm_compute; reflexivity.
Qed.

(** The expression [y] parses and does not lower; the token after it, the
    number 5, is still the current token when the handler returns. *)
Lemma HandleTopLevelExpression_keeps_token :
  exists Fn g1 g2,
    ParseTopLevelExpr 10 (ready "y 5") = Some (Some Fn, g1) /\
    FunctionAST_Codegen Fn g1 = Some (None, g2) /\
    HandleTopLevelExpression 10 (ready "y 5") = Some (tt, g2) /\
    lexer g2 = lexer g1 /\
    CurTok g2 = tok_number /\ NumVal (lexer g2) = strtod "5".
Proof.
  eexists _, _, _. split; [vm_compute; reflexivity|].
  split; [vm_compute; reflexivity|]. split; [vm_compute; reflexivity|].
  repeat split.
Qed.

Lemma MainLoop_error_recovery_witness :
  (exists g', HandleDefinition 10 (ready "def foo(a ; 4") = Some (tt, g') /\
              CurTok g' = tok_number /\ NumVal (lexer g') = strtod "4") /\
  (exists g', HandleTopLevelExpression 10 (ready "y 5") = Some (tt, g') /\
              CurTok g' = tok_number /\ NumVal (lexer g') = strtod "5").
Proof.
  destruct MainLoop_error_recovery as (Hparse & Hlower & _).
  split.
  - match eval vm_compute in (ParseDefinition 10 (ready "def foo(a ; 4")) with
    | Some (_, ?g1) =>
        destruct (Hparse 10%nat (ready "def foo(a ; 4") g1) as (H & _);
        rewrite H by (vm_compute; reflexivity)
    end.
    eexists. split; [vm_compute; reflexivity|]. split; reflexivity.
  - match eval vm_compute in (ParseTopLevelExpr 10 (ready "y 5")) with
    | Some (Some ?Fn, ?g1) =>
        match eval vm_compute in (FunctionAST_Codegen Fn g1) with
        | Some (_, ?g2) =>
            destruct (Hlower 10%nat (ready "y 5") g1 g2) as (_ & _ & H);
            exists g2; split;
              [apply (H Fn); vm_compute; reflexivity | split; reflexivity]
        end
    end.
Defined.

(** * Further properties of the code *)

(** ** Words, comments and blanks *)

Lemma at_chars_lexer_at (s : string) (lx : Lexer) :
  at_chars s lx -> lx = lexer_at s (IdentifierStr lx) (NumVal lx).
Proof.
  destruct lx as [c input Id Val].
  destruct s as [|k s]; unfold at_chars; simpl; intros [-> ->]; reflexivity.
Qed.

Lemma isalpha_not_space (c : Z) : isalpha c = true -> isspace c = false.
Proof. unfold isalpha, isupper, islower, isspace. lia. Qed.

Lemma while_isspace_run (ws : string) :
  forall s c input,
    all_chars isspace ws ->
    at_chars (ws +:+ s) (mkLexer c input "" (strtod "")) ->
    while_isspace c input = while_isspace (fst (getchar s)) (snd (getchar s)).
Proof.
  induction ws as [|w ws IH]; intros s c input Hall Hat.
  - rewrite append_nil_l in Hat.
    destruct s as [|k s]; unfold at_chars in Hat; simpl in Hat; destruct Hat as [-> ->];
      reflexivity.
  - destruct Hall as [Hw Hall]. rewrite append_cons in Hat. destruct Hat as [Hc Hin].
    simpl in Hc, Hin. subst c input.
    destruct (ws +:+ s) as [|k r] eqn:E.
    + destruct ws; [|discriminate]. rewrite append_nil_l in E. subst s.
      simpl. rewrite Hw. reflexivity.
    + simpl. rewrite Hw. apply IH; [exact Hall|]. rewrite E. split; reflexivity.
Qed.

(** [gettok] on two lexers that agree once the blanks are skipped. *)
Lemma gettok_rec_same_start (fuel : nat) (lx1 lx2 : Lexer) :
  while_isspace (LastChar lx1) (stdin lx1) = while_isspace (LastChar lx2) (stdin lx2) ->
  IdentifierStr lx1 = IdentifierStr lx2 -> NumVal lx1 = NumVal lx2 ->
  gettok_rec fuel lx1 = gettok_rec fuel lx2.
Proof.
  intros Hw Hi Hv. destruct fuel as [|fuel]; [reflexivity|].
  simpl. rewrite Hw, Hi, Hv. reflexivity.
Qed.

Lemma gettok_same_start (lx1 lx2 : Lexer) :
  while_isspace (LastChar lx1) (stdin lx1) = while_isspace (LastChar lx2) (stdin lx2) ->
  IdentifierStr lx1 = IdentifierStr lx2 -> NumVal lx1 = NumVal lx2 ->
  gettok lx1 = gettok lx2.
Proof.
  intros Hw Hi Hv.
  destruct (gettok_total lx1) as (t1 & l1 & H1).
  destruct (gettok_total lx2) as (t2 & l2 & H2).
  set (n := S (String.length (stdin lx1) + String.length (stdin lx2))).
  assert (E1 : gettok_rec n lx1 = Some (t1, l1)).
  { apply (gettok_rec_mono _ _ _ H1). unfold n. lia. }
  assert (E2 : gettok_rec n lx2 = Some (t2, l2)).
  { apply (gettok_rec_mono _ _ _ H2). unfold n. lia. }
  rewrite (gettok_rec_same_start n lx1 lx2 Hw Hi Hv) in E1.
  rewrite H1, H2. congruence.
Qed.

(** Blanks in front of a token are skipped. *)
Lemma gettok_skips_blanks_run (ws s : string) (lx : Lexer) :
  all_chars isspace ws -> at_chars (ws +:+ s) lx ->
  gettok lx = gettok (lexer_at s (IdentifierStr lx) (NumVal lx)).
Proof.
  intros Hall Hat. apply gettok_same_start; [|reflexivity..].
  destruct lx as [c input Id Val]. simpl.
  apply (while_isspace_run ws s c input Hall).
  destruct (ws +:+ s); exact Hat.
Qed.

(** X1. White space in front of a token does not matter: with a run of
    white-space characters as the next input, gettok returns the token and the
    lexer state that it returns with the run taken away. *)
Theorem gettok_skips_blanks (ws s : string) (lx : Lexer) :
  all_chars isspace ws -> at_chars (ws +:+ s) lx ->
  gettok lx = gettok (lexer_at s (IdentifierStr lx) (NumVal lx)).
Proof. exact (gettok_skips_blanks_run ws s lx). Qed.

Lemma gettok_skips_blanks_witness :
  gettok (mkLexer (ch " ") (String (ascii_of_nat 9) (nl +:+ "x+1")) "" (strtod "0")) =
  gettok (mkLexer (ch "x") "+1" "" (strtod "0")).
Proof.
  apply (gettok_skips_blanks (String " " (String (ascii_of_nat 9) nl)) "x+1"
           (mkLexer (ch " ") (String (ascii_of_nat 9) (nl +:+ "x+1")) "" (strtod "0"))).
  - repeat split.
  - split; reflexivity.
Defined.

(** A word is read up to the first character that is no letter and no digit. *)
Lemma gettok_word_run (c : ascii) (cs s : string) (lx : Lexer) :
  isalpha (ch c) = true -> all_chars isalnum cs -> stops isalnum s ->
  at_chars (String c cs +:+ s) lx ->
  gettok lx = Some (word_token (String c cs),
                    lexer_at s (String c cs) (NumVal lx)).
Proof.
  intros Hc Hall Hstop [HL Hin]. unfold gettok. simpl. rewrite HL, Hin.
  rewrite (while_isspace_id _ _ (isalpha_not_space _ Hc)). rewrite Hc.
  rewrite (while_append_run isalnum cs _ s Hall Hstop).
  rewrite chr_ch. unfold word_token, lexer_at.
  change (String c "" +:+ cs) with (String c cs).
  destruct (getchar s) as [c' input']. cbn [fst snd].
  destruct (String.eqb (String c cs) "def"); [reflexivity|].
  destruct (String.eqb (String c cs) "extern"); reflexivity.
Qed.

(** X2. A letter followed by letters and digits, up to the first character
    that is neither or the end of the input, is read as one word: the token is
    tok_def for def, tok_extern for extern and tok_identifier otherwise,
    IdentifierStr holds the word (for the keywords too), NumVal is unchanged
    and the lookahead is the character after the word. *)
Theorem gettok_word (c : ascii) (cs s : string) (lx : Lexer) :
  isalpha (ch c) = true -> all_chars isalnum cs -> stops isalnum s ->
  at_chars (String c cs +:+ s) lx ->
  gettok lx = Some (word_token (String c cs),
                    lexer_at s (String c cs) (NumVal lx)).
Proof. exact (gettok_word_run c cs s lx). Qed.

Lemma gettok_word_witness :
  gettok (mkLexer (ch "d") "ef1(x)" "" (strtod "0")) =
    Some (tok_identifier, mkLexer (ch "(") "x)" "def1" (strtod "0")).
Proof.
  apply (gettok_word "d" "ef1" "(x)" (mkLexer (ch "d") "ef1(x)" "" (strtod "0")));
    [reflexivity | repeat split | reflexivity | split; reflexivity].
Defined.

(** A numeral is read up to the first character that is no digit and no point. *)
Lemma gettok_numeral_run (c : ascii) (cs s : string) (lx : Lexer) :
  isnumeric (ch c) = true -> all_chars isnumeric cs -> stops isnumeric s ->
  at_chars (String c cs +:+ s) lx ->
  gettok lx = Some (tok_number,
                    lexer_at s (IdentifierStr lx) (strtod (String c cs))).
Proof.
  intros Hc Hall Hstop [HL Hin]. unfold gettok. simpl. rewrite HL, Hin.
  rewrite (while_isspace_id _ _ (isnumeric_not_space _ Hc)).
  rewrite (isnumeric_not_alpha _ Hc), Hc.
  rewrite (while_append_run isnumeric cs _ s Hall Hstop).
  rewrite chr_ch. unfold lexer_at. destruct (getchar s) as [c' input']. reflexivity.
Qed.

(** X3. A run of digits and points, up to the first character that is neither,
    is read as one tok_number, however many points it has: NumVal is strtod of
    the whole run, IdentifierStr is unchanged and the lookahead is the
    character after the run. *)
Theorem gettok_numeral (c : ascii) (cs s : string) (lx : Lexer) :
  isnumeric (ch c) = true -> all_chars isnumeric cs -> stops isnumeric s ->
  at_chars (String c cs +:+ s) lx ->
  gettok lx = Some (tok_number,
                    lexer_at s (IdentifierStr lx) (strtod (String c cs))).
Proof. exact (gettok_numeral_run c cs s lx). Qed.

Lemma gettok_numeral_witness :
  gettok (mkLexer (ch "1") ".2.3+x" "" (strtod "0")) =
    Some (tok_number, mkLexer (ch "+") "x" "" (strtod "1.2.3")).
Proof.
  apply (gettok_numeral "1" ".2.3" "+x" (mkLexer (ch "1") ".2.3+x" "" (strtod "0")));
    [reflexivity | repeat split | reflexivity | split; reflexivity].
Defined.

Lemma skip_comment_run (body : string) :
  forall s, all_chars in_comment body -> stops in_comment s ->
            skip_comment (body +:+ s) = getchar s.
Proof.
  induction body as [|b body IH]; intros s Hall Hstop.
  - rewrite append_nil_l. destruct s as [|k s]; [reflexivity|].
    simpl in *. unfold in_comment in Hstop. rewrite ch_not_EOF. simpl.
    rewrite Hstop. reflexivity.
  - destruct Hall as [Hb Hall]. rewrite append_cons. simpl.
    unfold in_comment in Hb. rewrite ch_not_EOF. simpl. rewrite Hb.
    apply IH; assumption.
Qed.

(** X4. A comment is no token: from a # up to the end of the line (a line feed
    or carriage return) or of the input, gettok skips the text and returns
    what it returns on what follows the comment; a comment that ends the input
    gives tok_eof. *)
Theorem gettok_skips_comment (body s : string) (lx : Lexer) :
  all_chars in_comment body -> stops in_comment s ->
  at_chars (String "#" body +:+ s) lx ->
  gettok lx = gettok (lexer_at s (IdentifierStr lx) (NumVal lx)).
Proof.
  intros Hall Hstop [HL Hin].
  destruct (gettok_total (lexer_at s (IdentifierStr lx) (NumVal lx))) as (t & l & Hg).
  rewrite Hg. unfold gettok. simpl. rewrite HL, Hin.
  rewrite (while_isspace_id (ch "#") _ eq_refl).
  change (isalpha (ch "#")) with false. change (isnumeric (ch "#")) with false.
  change (ch "#" =? ch "#") with true. cbv iota.
  rewrite (skip_comment_run body s Hall Hstop).
  destruct s as [|k s].
  - simpl. unfold gettok in Hg. simpl in Hg. exact Hg.
  - simpl. rewrite ch_not_EOF. simpl.
    apply (gettok_rec_mono _ _ _ Hg). rewrite length_append. simpl. lia.
Qed.

Lemma gettok_skips_comment_witness :
  gettok (mkLexer (ch "#") (" 1+2" +:+ nl +:+ "x") "" (strtod "0")) =
  gettok (mkLexer 10 "x" "" (strtod "0")).
Proof.
  apply (gettok_skips_comment " 1+2" (nl +:+ "x")
           (mkLexer (ch "#") (" 1+2" +:+ nl +:+ "x") "" (strtod "0")));
    [repeat split | reflexivity | split; reflexivity].
Defined.

Lemma gettok_rec_eof (fuel : nat) :
  forall lx lx', gettok_rec fuel lx = Some (tok_eof, lx') -> LastChar lx' = EOF.
Proof.
  induction fuel as [|fuel IH]; intros lx lx' H; [discriminate|].
  simpl in H. destruct (while_isspace (LastChar lx) (stdin lx)) as [c input].
  destruct (isalpha c).
  { destruct (while_append isalnum _ input) as [Id [c' input']].
    destruct (String.eqb Id "def"); [discriminate|].
    destruct (String.eqb Id "extern"); discriminate. }
  destruct (isnumeric c).
  { destruct (while_append isnumeric _ input) as [NumStr [c' input']]. discriminate. }
  destruct (c =? ch "#").
  { destruct (skip_comment input) as [c' input'].
    destruct (c' =? EOF) eqn:Ee; simpl in H.
    - injection H as <-. apply Z.eqb_eq in Ee. exact Ee.
    - exact (IH _ _ H). }
  destruct (c =? EOF) eqn:Ee.
  { injection H as <-. apply Z.eqb_eq in Ee. exact Ee. }
  destruct (getchar input) as [c' input']. injection H as Hc _.
  apply Z.eqb_neq in Ee. contradiction.
Qed.

(** X5. Once gettok has returned tok_eof, every later call returns tok_eof
    again and leaves the lexer state as it is. *)
Theorem gettok_eof_is_final (lx lx' : Lexer) :
  gettok lx = Some (tok_eof, lx') -> gettok lx' = Some (tok_eof, lx').
Proof.
  intros H. apply gettok_rec_eof in H.
  destruct lx' as [c input Id Val]. simpl in H. subst c.
  unfold gettok. simpl. destruct input; reflexivity.
Qed.

Lemma gettok_eof_is_final_witness :
  gettok (mkLexer EOF "" "x" (strtod "1")) = Some (tok_eof, mkLexer EOF "" "x" (strtod "1")).
Proof.
  apply (gettok_eof_is_final (mkLexer (ch " ") "# end" "x" (strtod "1"))).
  vm_compute. reflexivity.
Defined.

(** ** The lexer reads forward *)

Lemma while_isspace_suffix (s : string) :
  forall c, exists read, s = read +:+ snd (while_isspace c s).
Proof.
  induction s as [|k s IH]; intros c; simpl.
  - destruct (isspace c); exists ""; reflexivity.
  - destruct (isspace c).
    + destruct (IH (ch k)) as [read Hr]. exists (String k read).
      rewrite append_cons, <- Hr. reflexivity.
    + exists "". reflexivity.
Qed.

Lemma while_append_suffix (p : Z -> bool) (s : string) :
  forall Str, exists read, s = read +:+ snd (snd (while_append p Str s)).
Proof.
  induction s as [|k s IH]; intros Str; simpl.
  - exists "". reflexivity.
  - destruct (p (ch k)).
    + destruct (IH (Str +:+ String k "")) as [read Hr]. exists (String k read).
      rewrite append_cons, <- Hr. reflexivity.
    + exists (String k ""). reflexivity.
Qed.

Lemma skip_comment_suffix (s : string) :
  exists read, s = read +:+ snd (skip_comment s).
Proof.
  induction s as [|k s IH]; simpl.
  - exists "". reflexivity.
  - destruct (negb (ch k =? EOF) && negb (ch k =? 10) && negb (ch k =? 13)).
    + destruct IH as [read Hr]. exists (String k read).
      rewrite append_cons, <- Hr. reflexivity.
    + exists (String k ""). reflexivity.
Qed.

Lemma getchar_suffix (s : string) : exists read, s = read +:+ snd (getchar s).
Proof. destruct s as [|k s]; [exists ""|exists (String k "")]; reflexivity. Qed.

Lemma gettok_rec_suffix (fuel : nat) :
  forall lx tok lx',
    gettok_rec fuel lx = Some (tok, lx') -> exists read, stdin lx = read +:+ stdin lx'.
Proof.
  induction fuel as [|fuel IH]; intros lx tok lx' H; [discriminate|].
  simpl in H.
  destruct (while_isspace_suffix (stdin lx) (LastChar lx)) as [r1 H1].
  destruct (while_isspace (LastChar lx) (stdin lx)) as [c input]. simpl in H1.
  assert (Hstep : forall s', (exists read, input = read +:+ s') ->
                             exists read, stdin lx = read +:+ s').
  { intros s' [r2 H2]. exists (r1 +:+ r2). rewrite append_assoc, <- H2. exact H1. }
  destruct (isalpha c).
  { pose proof (while_append_suffix isalnum input (String (chr c) "")) as Hw.
    destruct (while_append isalnum _ input) as [Id [c' input']]. simpl in Hw.
    destruct (String.eqb Id "def"); [injection H as _ <-; exact (Hstep _ Hw)|].
    destruct (String.eqb Id "extern"); injection H as _ <-; exact (Hstep _ Hw). }
  destruct (isnumeric c).
  { pose proof (while_append_suffix isnumeric input (String (chr c) "")) as Hw.
    destruct (while_append isnumeric _ input) as [NumStr [c' input']]. simpl in Hw.
    injection H as _ <-. exact (Hstep _ Hw). }
  destruct (c =? ch "#").
  { pose proof (skip_comment_suffix input) as Hk.
    destruct (skip_comment input) as [c' input']. simpl in Hk.
    destruct (negb (c' =? EOF)).
    - destruct (IH _ _ _ H) as [r3 H3]. simpl in H3. apply Hstep.
      destruct Hk as [r2 H2]. exists (r2 +:+ r3). rewrite append_assoc, <- H3. exact H2.
    - injection H as _ <-. exact (Hstep _ Hk). }
  destruct (c =? EOF).
  { injection H as _ <-. apply Hstep. exists "". reflexivity. }
  pose proof (getchar_suffix input) as Hg.
  destruct (getchar input) as [c' input']. simpl in Hg.
  injection H as _ <-. exact (Hstep _ Hg).
Qed.

(** X6. gettok only consumes input: what is left of stdin after a call is a
    suffix of what was left before; a token other than tok_eof uses up at
    least one character, the lookahead counted, and tok_eof leaves the
    lookahead at the end of the input. *)
Theorem gettok_reads_forward (lx : Lexer) (tok : Z) (lx' : Lexer) :
  gettok lx = Some (tok, lx') ->
  (exists read, stdin lx = read +:+ stdin lx') /\
  (tok <> tok_eof -> (lexer_size lx' < lexer_size lx)%nat) /\
  (tok = tok_eof -> lexer_size lx' = O).
Proof.
  intros H. split; [exact (gettok_rec_suffix _ _ _ _ H)|].
  destruct (gettok_rec_progress _ _ _ _ H) as [H1 H2]. split; assumption.
Qed.

Lemma gettok_reads_forward_witness :
  (exists read, " foo bar" = read +:+ "bar") /\
  (lexer_size (mkLexer (ch " ") "bar" "foo" (strtod "0")) <
   lexer_size (mkLexer (ch " ") " foo bar" "" (strtod "0")))%nat.
Proof.
  destruct (gettok_reads_forward (mkLexer (ch " ") " foo bar" "" (strtod "0"))
              tok_identifier (mkLexer (ch " ") "bar" "foo" (strtod "0")))
    as (H1 & H2 & _); [vm_compute; reflexivity|].
  split; [exact H1 | apply H2; discriminate].
Defined.

(** ** Printing tokens and reading them back *)

Lemma ch_chr (c : Z) : 0 <= c < 256 -> ch (chr c) = c.
Proof.
  intros Hc. unfold ch, chr. rewrite N_ascii_embedding; lia.
Qed.

Lemma print_tokens_stops (p : Z -> bool) (ts : list token) :
  p (ch " ") = false -> stops p (print_tokens ts).
Proof. intros Hp. destruct ts; simpl; [exact I | exact Hp]. Qed.

Lemma at_chars_lexer_at_intro (s Id : string) (Val : double) :
  at_chars s (lexer_at s Id Val).
Proof. apply at_chars_getchar. Qed.

(** X7. Round trip of the lexer: tokens written out with a blank in front of
    each (def, extern, identifiers that are words and no keywords, non-empty
    numerals, characters that are tokens by themselves) are read back by
    successive calls of gettok as the same tokens in the same order, followed
    by tok_eof for as long as one asks. *)
Theorem gettok_print_tokens (ts : list token) (n : nat) :
  forall lx, Forall printable ts -> at_chars (print_tokens ts) lx ->
             lexes (ts ++ repeat T_eof n) lx.
Proof.
  induction ts as [|t ts IH]; intros lx Hok Hat.
  - simpl. apply lexes_eof. exact Hat.
  - inversion Hok as [|? ? Ht Hts]; subst.
    simpl in Hat.
    pose proof (gettok_skips_blanks_run (String " " "") (token_text t +:+ print_tokens ts) lx
                  (conj eq_refl I) Hat) as Hsp.
    set (lx0 := lexer_at (token_text t +:+ print_tokens ts) (IdentifierStr lx) (NumVal lx)) in *.
    assert (Hat0 : at_chars (token_text t +:+ print_tokens ts) lx0)
      by apply at_chars_lexer_at_intro.
    change ((t :: ts) ++ repeat T_eof n)%list with (t :: (ts ++ repeat T_eof n))%list.
    cbn [lexes].
    destruct t as [| | |Id|[NumStr]|c]; simpl in Ht.
    + contradiction.
    + exists tok_def, (lexer_at (print_tokens ts) "def" (NumVal lx0)).
      split; [|split; [reflexivity | apply IH; [exact Hts | apply at_chars_lexer_at_intro]]].
      rewrite Hsp.
      apply (gettok_word_run "d" "ef" (print_tokens ts) lx0);
        [reflexivity | repeat split | apply print_tokens_stops; reflexivity | exact Hat0].
    + exists tok_extern, (lexer_at (print_tokens ts) "extern" (NumVal lx0)).
      split; [|split; [reflexivity | apply IH; [exact Hts | apply at_chars_lexer_at_intro]]].
      rewrite Hsp.
      apply (gettok_word_run "e" "xtern" (print_tokens ts) lx0);
        [reflexivity | repeat split | apply print_tokens_stops; reflexivity | exact Hat0].
    + destruct Ht as [Hw Hid]. destruct Id as [|c cs]; [contradiction|].
      destruct Hid as [Hc Hall].
      exists tok_identifier, (lexer_at (print_tokens ts) (String c cs) (NumVal lx0)).
      split; [|split; [split; reflexivity
                      | apply IH; [exact Hts | apply at_chars_lexer_at_intro]]].
      rewrite Hsp, <- Hw.
      apply (gettok_word_run c cs (print_tokens ts) lx0 Hc Hall);
        [apply print_tokens_stops; reflexivity | exact Hat0].
    + destruct Ht as [Hne Hall]. destruct NumStr as [|c cs]; [congruence|].
      destruct Hall as [Hc Hall].
      exists tok_number,
        (lexer_at (print_tokens ts) (IdentifierStr lx0) (strtod (String c cs))).
      split; [|split; [split; reflexivity
                      | apply IH; [exact Hts | apply at_chars_lexer_at_intro]]].
      rewrite Hsp.
      apply (gettok_numeral_run c cs (print_tokens ts) lx0 Hc Hall);
        [apply print_tokens_stops; reflexivity | exact Hat0].
    + destruct Ht as (Hr & Hs & Ha & Hn & Hh).
      destruct (gettok_char (chr c) (print_tokens ts) lx0) as (lx1 & Hg & Hat1);
        [rewrite (ch_chr c Hr); assumption.. | exact Hat0 |].
      rewrite (ch_chr c Hr) in Hg.
      exists c, lx1. split; [rewrite Hsp; exact Hg|].
      split; [split; [reflexivity | lia] | apply IH; assumption].
Qed.

Lemma gettok_print_tokens_witness :
  lexes [T_def; T_identifier "f"; T_char (ch "("); T_identifier "x"; T_char (ch ")");
         T_number (strtod "1.5"); T_eof]
        (mkLexer (ch " ") "def f ( x ) 1.5" "" (strtod "0")).
Proof.
  apply (gettok_print_tokens
           [T_def; T_identifier "f"; T_char (ch "("); T_identifier "x"; T_char (ch ")");
            T_number (strtod "1.5")] 1).
  - repeat constructor; try (vm_compute; congruence).
  - split; reflexivity.
Defined.

(** ** The whole expression grammar *)

Lemma wyield_args_one (e : wexp) : wyield_args (WCons e WNil) = wyield e.
Proof. reflexivity. Qed.

Lemma wyield_args_more (e e' : wexp) (rest : wargs) :
  wyield_args (WCons e (WCons e' rest)) =
    wyield e ++ T_char (ch ",") :: wyield_args (WCons e' rest).
Proof. reflexivity. Qed.

Lemma wyield_leftmost (e : wexp) : wyield e = wyield (wleftmost e) ++ wafter_leftmost e.
Proof.
  induction e as [Val|Name|Callee Args|e IH|l IHl o r IHr] using wexp_ind;
    cbn [wleftmost wafter_leftmost]; try (rewrite app_nil_r; reflexivity).
  cbn [wyield]. rewrite IHl at 1. rewrite <- app_assoc. reflexivity.
Qed.

Lemma wlevel_bounds (e : wexp) : 10 <= wlevel e <= 41.
Proof. destruct e as [| | | |l o r]; simpl; try lia. destruct o; simpl; lia. Qed.

Lemma wafter_leftmost_head (e : wexp) :
  wconventional e ->
  (wafter_leftmost e = [] /\ wleftmost e = e) \/
  (exists o ts, wafter_leftmost e = T_char (op_char o) :: ts /\ wlevel e <= op_prec o).
Proof.
  induction e as [Val|Name|Callee Args|e IH|l IHl o r IHr] using wexp_ind;
    intros Hc; try (left; split; reflexivity).
  right. destruct Hc as (Hl & _ & Hcl & _).
  change (wlevel (WBin l o r)) with (op_prec o).
  cbn [wafter_leftmost].
  destruct (IHl Hcl) as [[-> _]|(o' & ts & -> & Hle)].
  - exists o, (wyield r). split; [reflexivity | lia].
  - exists o', (ts ++ T_char (op_char o) :: wyield r). split; [reflexivity | lia].
Qed.

(** An expression starts with a literal, a name or an opening parenthesis. *)
Lemma wyield_head (e : wexp) :
  exists t ts, wyield e = t :: ts /\ t <> T_char (ch ")").
Proof.
  induction e as [Val|Name|Callee Args|e IH|l IHl o r IHr] using wexp_ind;
    cbn [wyield]; try (eexists _, _; split; [reflexivity | discriminate]).
  destruct IHl as (t & ts & -> & Ht). eexists _, _. split; [reflexivity | exact Ht].
Qed.

Lemma wyield_args_head (e : wexp) (rest : wargs) :
  exists t ts, wyield_args (WCons e rest) = t :: ts /\ t <> T_char (ch ")").
Proof.
  destruct (wyield_head e) as (t & ts & Hy & Ht).
  destruct rest as [|e' rest].
  - rewrite wyield_args_one. eauto.
  - rewrite wyield_args_more, Hy. eexists _, _. split; [reflexivity | exact Ht].
Qed.

Lemma token_read_not_lparen (t : token) (tok : Z) (lx : Lexer) :
  follows t -> token_read t tok lx -> (tok =? ch "(") = false.
Proof.
  intros Hf Hr. apply Z.eqb_neq. intros ->.
  destruct t as [| | |Id|Val|c]; simpl in Hr;
    try discriminate; try (destruct Hr as [Hr _]; discriminate).
  destruct Hr as [<- _]. apply Hf. reflexivity.
Qed.

Lemma op_char_follows (o : binop) : follows (T_char (op_char o)).
Proof. destruct o; discriminate. Qed.

Lemma wprimary_spec_WNum (Val : double) : wprimary_spec (WNum Val).
Proof.
  intros t rest g Hp Hi _. cbn [wyield app] in Hp.
  destruct (getNextToken_presents _ _ _ _ Hp) as (tok & lx' & Hn & Hp').
  destruct Hp as [[Hc Hv] _].
  exists (set_CurTok tok (set_lexer lx' g)). split; [|split; [|split]].
  - exists 1%nat. intros fuel Hf. destruct fuel as [|fuel]; [lia|].
    rewrite ParsePrimary_S. unfold bind, get. rewrite Hc. simpl.
    unfold ParseNumberExpr, bind, get. rewrite Hn, Hv. reflexivity.
  - exact Hp'.
  - exact Hi.
  - reflexivity.
Qed.

Lemma wprimary_spec_WVar (Name : string) : wprimary_spec (WVar Name).
Proof.
  intros t rest g Hp Hi Hfol. cbn [wyield app] in Hp.
  destruct (getNextToken_presents _ _ _ _ Hp) as (tok & lx' & Hn & Hp').
  destruct Hp as [[Hc Hid] _].
  pose proof Hp' as [Hr' _].
  pose proof (token_read_not_lparen _ _ _ Hfol Hr') as Hlp. simpl in Hlp.
  exists (set_CurTok tok (set_lexer lx' g)). split; [|split; [|split]].
  - exists 2%nat. intros fuel Hf. destruct fuel as [|fuel]; [lia|].
    rewrite ParsePrimary_S. unfold bind, get. rewrite Hc. simpl.
    destruct fuel as [|fuel]; [lia|]. rewrite ParseIdentifierExpr_S.
    unfold bind, get. rewrite Hn. simpl. rewrite Hlp, Hid. reflexivity.
  - exact Hp'.
  - exact Hi.
  - reflexivity.
Qed.

Lemma wbinoprhs_spec_atom (e : wexp) :
  wafter_leftmost e = [] -> wleftmost e = e -> wbinoprhs_spec e.
Proof.
  intros Ha Hl t rest g Hp Hi _ _. rewrite Ha in Hp. simpl in Hp.
  exists g. split; [exact Hp|]. split; [exact Hi|]. split; [reflexivity|].
  intros q r _ H. rewrite Hl. exact H.
Qed.

(** [ParseExpression], from what [ParsePrimary] and [ParseBinOpRHS] do. *)
Lemma wParseExpression_specs (e : wexp) :
  wprimary_spec e -> wbinoprhs_spec e ->
  forall t rest g,
    presents (wyield e ++ t :: rest) g -> closes t -> precedences_installed g ->
    exists g',
      returns ParseExpression g (Some (wast e), g') /\
      presents (t :: rest) g' /\ stderr g' = stderr g /\ precedences_installed g'.
Proof.
  intros Hprim Hrhs t rest g Hp [Ht Hfol] Hi.
  destruct (Hprim _ _ _ Hp Hi Hfol) as (g1 & [n1 Hr1] & Hp1 & Hi1 & He1).
  destruct (Hrhs _ _ _ Hp1 Hi1 Hfol) as (g2 & Hp2 & Hi2 & He2 & Hclimb).
  { pose proof (wlevel_bounds e). lia. }
  destruct (ParseBinOpRHS_stop _ _ _ 0 Hp2 Hi2) as (g3 & Hstop & Hp3 & Hi3 & He3); [lia|].
  destruct (Hclimb 0 (Some (wast e), g3)) as [n2 Hr2].
  { pose proof (wlevel_bounds e). lia. }
  { exists 1%nat. intros fuel Hf. destruct fuel as [|fuel]; [lia|]. apply Hstop. }
  exists g3. split; [|split; [exact Hp3|split; [congruence | exact Hi3]]].
  exists (S (n1 + n2)). intros fuel Hf. destruct fuel as [|fuel]; [lia|].
  rewrite ParseExpression_S. unfold bind. rewrite (Hr1 fuel) by lia.
  apply Hr2. lia.
Qed.

Lemma closes_rparen : closes (T_char (ch ")")).
Proof. split; [reflexivity | discriminate]. Qed.

Lemma closes_comma : closes (T_char (ch ",")).
Proof. split; [reflexivity | discriminate]. Qed.

Lemma wprimary_spec_WParen (e : wexp) :
  wprimary_spec e -> wbinoprhs_spec e -> wprimary_spec (WParen e).
Proof.
  intros IHp IHb t rest g Hp Hi Hfol. cbn [wyield] in Hp.
  rewrite <- app_comm_cons, <- app_assoc in Hp. simpl in Hp.
  destruct (getNextToken_presents_any _ _ _ Hp) as (tok_a & lx_a & Hn_a & Hp_a).
  destruct Hp as [[Hc _] _].
  destruct (wParseExpression_specs e IHp IHb _ _ _ Hp_a closes_rparen Hi)
    as (g_d & [n1 Hr1] & Hp_d & He_d & Hi_d).
  destruct (getNextToken_presents _ _ _ _ Hp_d) as (tok_e & lx_e & Hn_e & Hp_e).
  destruct Hp_d as [[Hc_d _] _].
  exists (set_CurTok tok_e (set_lexer lx_e g_d)). split; [|split; [|split]].
  - exists (S (S n1)). intros fuel Hf.
    destruct fuel as [|fuel]; [lia|]. rewrite ParsePrimary_S.
    unfold bind at 1. unfold get at 1. rewrite Hc. simpl.
    destruct fuel as [|fuel]; [lia|]. rewrite ParseParenExpr_S.
    unfold bind at 1. rewrite Hn_a.
    unfold bind. rewrite (Hr1 fuel) by lia.
    unfold get. rewrite Hc_d. simpl. rewrite Hn_e. reflexivity.
  - exact Hp_e.
  - exact Hi_d.
  - simpl. exact He_d.
Qed.

Lemma wprimary_spec_WBin (l : wexp) (o : binop) (r : wexp) :
  wprimary_spec l -> wprimary_spec (WBin l o r).
Proof.
  intros IHp t rest g Hp Hi Hfol. cbn [wyield] in Hp.
  rewrite <- app_assoc in Hp. simpl in Hp.
  destruct (IHp _ _ _ Hp Hi (op_char_follows o)) as (g1 & Hr1 & Hp1 & Hi1 & He1).
  exists g1. split; [exact Hr1|]. split; [|split; assumption].
  cbn [wafter_leftmost]. rewrite <- app_assoc. exact Hp1.
Qed.

Lemma wbinoprhs_spec_WBin (l : wexp) (o : binop) (r : wexp) :
  wconventional (WBin l o r) ->
  wbinoprhs_spec l -> wprimary_spec r -> wbinoprhs_spec r ->
  wbinoprhs_spec (WBin l o r).
Proof.
  intros (Hll & Hlr & Hcl & Hcr) IHbl IHpr IHbr t rest g Hp Hi Hfol Ht.
  cbn [wafter_leftmost] in Hp. change (wlevel (WBin l o r)) with (op_prec o) in *.
  rewrite <- app_assoc in Hp. simpl in Hp.
  destruct (IHbl _ _ _ Hp Hi (op_char_follows o)) as (g1 & Hp1 & Hi1 & He1 & Hclimb_l).
  { rewrite op_char_precedence. exact Hll. }
  destruct (GetTokPrecedence_spec _ _ _ Hp1 Hi1) as (tbl2 & Hg2 & Hi2).
  rewrite op_char_precedence in Hg2.
  set (g2 := set_BinopPrecedence tbl2 g1) in *.
  assert (Hp2 : presents (T_char (op_char o) :: wyield r ++ t :: rest) g2) by exact Hp1.
  destruct (getNextToken_presents_any _ _ _ Hp2) as (tok3 & lx3 & Hn3 & Hp3).
  assert (Hc2 : CurTok g2 = op_char o) by (destruct Hp1 as [[Hc _] _]; exact Hc).
  set (g3 := set_CurTok tok3 (set_lexer lx3 g2)) in *.
  destruct (IHpr _ _ _ Hp3 Hi2 Hfol) as (g4 & [n1 Hr1] & Hp4 & Hi4 & He4).
  destruct (wafter_leftmost_head r Hcr) as [[Hnil Hleft]|(o' & ts' & Hhead & Hlev)].
  - rewrite Hnil in Hp4. simpl in Hp4. rewrite Hleft in Hr1.
    destruct (GetTokPrecedence_spec _ _ _ Hp4 Hi4) as (tbl5 & Hg5 & Hi5).
    exists (set_BinopPrecedence tbl5 g4).
    split; [exact Hp4|]. split; [exact Hi5|].
    split; [simpl; rewrite He4; exact He1|].
    intros q res Hq [n0 Hr0]. apply Hclimb_l; [lia|].
    exists (S (n0 + n1)). intros fuel Hf. destruct fuel as [|fuel]; [lia|].
    rewrite ParseBinOpRHS_S. unfold bind at 1. rewrite Hg2.
    destruct (Z.ltb_spec (op_prec o) q) as [Hlt|_]; [lia|].
    unfold bind, get. fold g2. rewrite Hn3. fold g3. rewrite (Hr1 fuel) by lia.
    rewrite Hg5.
    destruct (Z.ltb_spec (op_prec o) (token_precedence t)) as [Hlt|_]; [lia|].
    unfold ret. rewrite Hc2. apply Hr0. lia.
  - pose proof Hp4 as Hp4'. rewrite Hhead in Hp4'. simpl in Hp4'.
    destruct (GetTokPrecedence_spec _ _ _ Hp4' Hi4) as (tbl5 & Hg5 & Hi5).
    rewrite op_char_precedence in Hg5.
    set (g5 := set_BinopPrecedence tbl5 g4) in *.
    assert (Hp5 : presents (wafter_leftmost r ++ t :: rest) g5) by exact Hp4.
    destruct (IHbr _ _ _ Hp5 Hi5 Hfol) as (g6 & Hp6 & Hi6 & He6 & Hclimb_r); [lia|].
    destruct (ParseBinOpRHS_stop _ _ _ (op_prec o + 1) Hp6 Hi6)
      as (g7 & Hstop & Hp7 & Hi7 & He7); [lia|].
    destruct (Hclimb_r (op_prec o + 1) (Some (wast r), g7)) as [n2 Hr2]; [lia| |].
    { exists 1%nat. intros fuel Hf. destruct fuel as [|fuel]; [lia|]. apply Hstop. }
    exists g7. split; [exact Hp7|]. split; [exact Hi7|].
    split; [rewrite He7, He6; simpl; rewrite He4; exact He1|].
    intros q res Hq [n0 Hr0]. apply Hclimb_l; [lia|].
    exists (S (n0 + n1 + n2)). intros fuel Hf. destruct fuel as [|fuel]; [lia|].
    rewrite ParseBinOpRHS_S. unfold bind at 1. rewrite Hg2.
    destruct (Z.ltb_spec (op_prec o) q) as [Hlt|_]; [lia|].
    unfold bind, get. fold g2. rewrite Hn3. fold g3. rewrite (Hr1 fuel) by lia.
    rewrite Hg5. fold g5.
    destruct (Z.ltb_spec (op_prec o) (op_prec o')) as [_|Hge]; [|lia].
    rewrite (Hr2 fuel) by lia.
    rewrite Hc2. apply Hr0. lia.
Qed.

(** The argument loop, given what [ParseExpression] does on each argument. *)
Lemma wargs_spec_WCons (e : wexp) (Args : wargs) :
  wprimary_spec e -> wbinoprhs_spec e -> (Args <> WNil -> wargs_spec Args) ->
  wargs_spec (WCons e Args).
Proof.
  intros IHp IHb IHargs acc rest g _ Hp Hi.
  destruct Args as [|e' Args].
  - rewrite wyield_args_one in Hp.
    destruct (wParseExpression_specs e IHp IHb _ _ _ Hp closes_rparen Hi)
      as (g1 & [n1 Hr1] & Hp1 & He1 & Hi1).
    exists g1. split; [|split; [exact Hp1 | split; assumption]].
    exists (S n1). intros fuel Hf. destruct fuel as [|fuel]; [lia|].
    rewrite ParseArgs_S. unfold bind. rewrite (Hr1 fuel) by lia.
    destruct Hp1 as [[Hc _] _]. unfold get. rewrite Hc. simpl. reflexivity.
  - rewrite wyield_args_more in Hp. rewrite <- app_assoc in Hp. simpl in Hp.
    destruct (wParseExpression_specs e IHp IHb _ _ _ Hp closes_comma Hi)
      as (g1 & [n1 Hr1] & Hp1 & He1 & Hi1).
    destruct (getNextToken_presents_any _ _ _ Hp1) as (tok2 & lx2 & Hn2 & Hp2).
    destruct (IHargs ltac:(discriminate) (acc ++ [wast e])%list rest _ ltac:(discriminate)
                Hp2 Hi1) as (g3 & [n3 Hr3] & Hp3 & Hi3 & He3).
    exists g3. split; [|split; [exact Hp3 | split; [exact Hi3|]]].
    + exists (S (n1 + n3)). intros fuel Hf. destruct fuel as [|fuel]; [lia|].
      rewrite ParseArgs_S. unfold bind. rewrite (Hr1 fuel) by lia.
      destruct Hp1 as [[Hc _] _]. unfold get. rewrite Hc. simpl.
      rewrite Hn2. rewrite (Hr3 fuel) by lia.
      cbn [wast_args]. rewrite <- app_assoc. reflexivity.
    + rewrite He3. simpl. exact He1.
Qed.

Lemma wprimary_spec_WCall (Callee : string) (Args : wargs) :
  (Args <> WNil -> wargs_spec Args) -> wprimary_spec (WCall Callee Args).
Proof.
  intros IHargs t rest g Hp Hi Hfol. cbn [wyield] in Hp.
  rewrite <- !app_comm_cons, <- app_assoc in Hp. simpl in Hp.
  destruct (getNextToken_presents _ _ _ _ Hp) as (tok_a & lx_a & Hn_a & Hp_a).
  destruct Hp as [[Hc Hid] _].
  set (g_a := set_CurTok tok_a (set_lexer lx_a g)) in *.
  destruct (getNextToken_presents_any _ _ _ Hp_a) as (tok_b & lx_b & Hn_b & Hp_b).
  assert (Hc_a : CurTok g_a = ch "(") by (destruct Hp_a as [[H _] _]; exact H).
  set (g_b := set_CurTok tok_b (set_lexer lx_b g_a)) in *.
  destruct Args as [|e Args].
  - simpl in Hp_b.
    destruct (getNextToken_presents _ _ _ _ Hp_b) as (tok_c & lx_c & Hn_c & Hp_c).
    assert (Hc_b : CurTok g_b = ch ")") by (destruct Hp_b as [[H _] _]; exact H).
    exists (set_CurTok tok_c (set_lexer lx_c g_b)). split; [|split; [|split]].
    + exists 2%nat. intros fuel Hf. destruct fuel as [|fuel]; [lia|].
      rewrite ParsePrimary_S. unfold bind at 1. unfold get at 1. rewrite Hc. simpl.
      destruct fuel as [|fuel]; [lia|]. rewrite ParseIdentifierExpr_S.
      unfold bind, get. rewrite Hn_a. fold g_a. rewrite Hc_a. simpl.
      rewrite Hn_b. fold g_b. rewrite Hc_b. simpl. unfold ret.
      rewrite Hn_c, Hid. reflexivity.
    + exact Hp_c.
    + exact Hi.
    + reflexivity.
  - destruct (wyield_args_head e Args) as (t0 & ts0 & Hy & Ht0).
    assert (Hc_b : (CurTok g_b =? ch ")") = false).
    { pose proof Hp_b as Hp_b'. rewrite Hy in Hp_b'. simpl in Hp_b'.
      destruct Hp_b' as [Hr _]. exact (token_read_not_rparen _ _ _ Ht0 Hr). }
    destruct (IHargs ltac:(discriminate) [] (t :: rest) g_b ltac:(discriminate) Hp_b Hi)
      as (g_c & [n1 Hr1] & Hp_c & Hi_c & He_c).
    destruct (getNextToken_presents _ _ _ _ Hp_c) as (tok_d & lx_d & Hn_d & Hp_d).
    exists (set_CurTok tok_d (set_lexer lx_d g_c)). split; [|split; [|split]].
    + exists (S (S n1)). intros fuel Hf. destruct fuel as [|fuel]; [lia|].
      rewrite ParsePrimary_S. unfold bind at 1. unfold get at 1. rewrite Hc. simpl.
      destruct fuel as [|fuel]; [lia|]. rewrite ParseIdentifierExpr_S.
      unfold bind, get. rewrite Hn_a. fold g_a. rewrite Hc_a. simpl.
      rewrite Hn_b. fold g_b. rewrite Hc_b. simpl.
      rewrite (Hr1 fuel) by lia. rewrite Hn_d, Hid. reflexivity.
    + exact Hp_d.
    + exact Hi_c.
    + simpl. exact He_c.
Qed.

(** Precedence climbing for the whole grammar, by induction on the
    expression and on its argument lists. *)
Lemma wclimb (e : wexp) : wconventional e -> wprimary_spec e /\ wbinoprhs_spec e.
Proof.
  revert e.
  apply (wexp_wargs_ind
           (fun e => wconventional e -> wprimary_spec e /\ wbinoprhs_spec e)
           (fun Args => wconventional_args Args -> Args <> WNil -> wargs_spec Args)).
  - intros Val _. split; [apply wprimary_spec_WNum | apply wbinoprhs_spec_atom; reflexivity].
  - intros Name _. split; [apply wprimary_spec_WVar | apply wbinoprhs_spec_atom; reflexivity].
  - intros Callee Args IH Hc.
    split; [apply wprimary_spec_WCall; exact (IH Hc)
           | apply wbinoprhs_spec_atom; reflexivity].
  - intros e IH Hc. destruct (IH Hc) as [IHp IHb].
    split; [apply wprimary_spec_WParen; assumption
           | apply wbinoprhs_spec_atom; reflexivity].
  - intros l IHl o r IHr Hc. pose proof Hc as (_ & _ & Hcl & Hcr).
    destruct (IHl Hcl) as [IHpl IHbl]. destruct (IHr Hcr) as [IHpr IHbr].
    split; [apply wprimary_spec_WBin; assumption
           | apply wbinoprhs_spec_WBin; assumption].
  - intros _ H. contradiction.
  - intros e IHe Args IHargs [Hce Hcargs] _. destruct (IHe Hce) as [IHp IHb].
    apply wargs_spec_WCons; [assumption..|]. exact (IHargs Hcargs).
Qed.

(** ** Rules for assertions *)

Lemma hoare_ret {A} (P : Globals -> Prop) (a : A) (Q : A -> Globals -> Prop) :
  (forall g, P g -> Q a g) -> hoare P (ret a) Q.
Proof. intros H g r g' Hp E. injection E as <- <-. apply H, Hp. Qed.

Lemma hoare_bind {A B} (P : Globals -> Prop) (m : M A) (Q : A -> Globals -> Prop)
    (k : A -> M B) (R : B -> Globals -> Prop) :
  hoare P m Q -> (forall a, hoare (Q a) (k a) R) -> hoare P (bind m k) R.
Proof.
  intros Hm Hk g r g' Hp E. unfold bind in E.
  destruct (m g) as [[a g1]|] eqn:Em; [|discriminate].
  exact (Hk a g1 r g' (Hm _ _ _ Hp Em) E).
Qed.

Lemma hoare_get {A} (P : Globals -> Prop) (f : Globals -> A) (Q : A -> Globals -> Prop) :
  (forall g, P g -> Q (f g) g) -> hoare P (get f) Q.
Proof. intros H g r g' Hp E. injection E as <- <-. apply H, Hp. Qed.

Lemma hoare_modify (P : Globals -> Prop) (f : Globals -> Globals)
    (Q : unit -> Globals -> Prop) :
  (forall g, P g -> Q tt (f g)) -> hoare P (modify f) Q.
Proof. intros H g r g' Hp E. injection E as <- <-. apply H, Hp. Qed.

Lemma hoare_out_of_fuel {A} (P : Globals -> Prop) (Q : A -> Globals -> Prop) :
  hoare P out_of_fuel Q.
Proof. intros g r g' _ E. discriminate. Qed.

Lemma hoare_consequence {A} (P P' : Globals -> Prop) (m : M A)
    (Q Q' : A -> Globals -> Prop) :
  hoare P' m Q' -> (forall g, P g -> P' g) -> (forall a g, Q' a g -> Q a g) ->
  hoare P m Q.
Proof. intros H HP HQ g r g' Hp E. apply HQ. exact (H _ _ _ (HP _ Hp) E). Qed.

(** A fact that the precondition implies can be used before the program is run. *)
Lemma hoare_assume {A} (P : Globals -> Prop) (fact : Prop) (m : M A)
    (Q : A -> Globals -> Prop) :
  (forall g, P g -> fact) -> (fact -> hoare P m Q) -> hoare P m Q.
Proof. intros Hf H g r g' Hp E. exact (H (Hf _ Hp) _ _ _ Hp E). Qed.

Lemma hoare_Error {A} (P : Globals -> Prop) (Str : string)
    (Q : option A -> Globals -> Prop) :
  (forall g, P g -> Q None (set_stderr (stderr g ++ [Print ("Error: " +:+ Str +:+ nl)]) g)) ->
  hoare P (Error Str) Q.
Proof. intros H g r g' Hp E. injection E as <- <-. apply H, Hp. Qed.

Lemma hoare_getNextToken (P : Globals -> Prop) (Q : Z -> Globals -> Prop) :
  (forall g tok lx, P g -> gettok (lexer g) = Some (tok, lx) ->
                    Q tok (set_CurTok tok (set_lexer lx g))) ->
  hoare P getNextToken Q.
Proof.
  intros H g r g' Hp E. unfold getNextToken in E.
  destruct (gettok (lexer g)) as [[tok lx]|] eqn:Eg; [|discriminate].
  injection E as <- <-. exact (H _ _ _ Hp Eg).
Qed.

(** Reading a global leaves the state as it is. *)
Lemma hoare_read {A B} (P : Globals -> Prop) (f : Globals -> A) (k : A -> M B)
    (R : B -> Globals -> Prop) :
  (forall a, hoare (fun g => P g /\ a = f g) (k a) R) -> hoare P (bind (get f) k) R.
Proof.
  intros H. eapply hoare_bind with (Q := fun a g => P g /\ a = f g); [|exact H].
  apply hoare_get. intros g Hp. split; [exact Hp | reflexivity].
Qed.

Lemma hoare_read_keep {A B} (P : Globals -> Prop) (f : Globals -> A) (k : A -> M B)
    (R : B -> Globals -> Prop) :
  (forall a, hoare P (k a) R) -> hoare P (bind (get f) k) R.
Proof.
  intros H. apply hoare_read. intros a.
  eapply hoare_consequence; [exact (H a) | intros g [Hp _]; exact Hp | trivial].
Qed.

(** ** The precedence table *)

Lemma subscript_reads (tbl : gmap Z Z) (k : Z) :
  fst (subscript tbl k) = default 0 (tbl !! k) /\
  (forall c, default 0 (snd (subscript tbl k) !! c) = default 0 (tbl !! c)) /\
  tbl ⊆ snd (subscript tbl k) /\
  subscript (snd (subscript tbl k)) k = (default 0 (tbl !! k), snd (subscript tbl k)).
Proof.
  unfold subscript. destruct (tbl !! k) as [v|] eqn:E; simpl.
  - rewrite E. repeat split; reflexivity.
  - split; [reflexivity|]. split; [|split].
    + intros c. destruct (decide (k = c)) as [<-|Hne].
      * rewrite lookup_insert_eq, E. reflexivity.
      * rewrite lookup_insert_ne by exact Hne. reflexivity.
    + apply insert_subseteq. exact E.
    + rewrite lookup_insert_eq. reflexivity.
Qed.

Lemma GetTokPrecedence_reads (g : Globals) :
  exists tbl,
    GetTokPrecedence g =
      Some (precedence_of (BinopPrecedence g) (CurTok g), set_BinopPrecedence tbl g) /\
    (forall c, default 0 (tbl !! c) = default 0 (BinopPrecedence g !! c)) /\
    BinopPrecedence g ⊆ tbl /\
    GetTokPrecedence (set_BinopPrecedence tbl g) =
      Some (precedence_of (BinopPrecedence g) (CurTok g), set_BinopPrecedence tbl g).
Proof.
  unfold GetTokPrecedence, precedence_of, bind, get, modify, ret.
  destruct (isascii (CurTok g)) eqn:Ea; simpl; rewrite ?Ea; simpl.
  - destruct (subscript_reads (BinopPrecedence g) (CurTok g)) as (H1 & H2 & H3 & H4).
    exists (snd (subscript (BinopPrecedence g) (CurTok g))).
    rewrite H4.
    destruct (subscript (BinopPrecedence g) (CurTok g)) as [v tbl']. simpl in *. subst v.
    split; [|split; [exact H2 | split; [exact H3|]]].
    + destruct (default 0 (BinopPrecedence g !! CurTok g) <=? 0); reflexivity.
    + destruct (default 0 (BinopPrecedence g !! CurTok g) <=? 0); reflexivity.
  - exists (BinopPrecedence g). destruct g. repeat split; reflexivity.
Qed.

(** X8. GetTokPrecedence returns -1 for a token that is no ASCII character and
    for a character whose entry in BinopPrecedence is missing or not positive,
    and the entry otherwise; so the result is -1 or at least 1. The call
    changes nothing but the table, which only gains entries (operator[] on a
    missing key) none of which changes a lookup with default 0, and calling it
    again returns the same and changes nothing. *)
Theorem GetTokPrecedence_lookup (g : Globals) :
  exists p tbl,
    GetTokPrecedence g = Some (p, set_BinopPrecedence tbl g) /\
    p = precedence_of (BinopPrecedence g) (CurTok g) /\
    (p = -1 \/ 1 <= p) /\
    BinopPrecedence g ⊆ tbl /\
    (forall c, default 0 (tbl !! c) = default 0 (BinopPrecedence g !! c)) /\
    GetTokPrecedence (set_BinopPrecedence tbl g) = Some (p, set_BinopPrecedence tbl g).
Proof.
  destruct (GetTokPrecedence_reads g) as (tbl & H1 & H2 & H3 & H4).
  exists (precedence_of (BinopPrecedence g) (CurTok g)), tbl.
  split; [exact H1|]. split; [reflexivity|]. split; [|split; [exact H3|split; assumption]].
  unfold precedence_of. destruct (isascii (CurTok g)); [|left; reflexivity].
  destruct (Z.leb_spec (default 0 (BinopPrecedence g !! CurTok g)) 0); [left|right]; lia.
Qed.

Lemma precedences_installed_reads (g : Globals) (tbl : gmap Z Z) :
  precedences_installed g ->
  (forall c, default 0 (tbl !! c) = default 0 (BinopPrecedence g !! c)) ->
  precedences_installed (set_BinopPrecedence tbl g).
Proof. intros Hi H c. simpl. rewrite H. apply Hi. Qed.

Lemma hoare_GetTokPrecedence (P : Globals -> Prop) (Q : Z -> Globals -> Prop) :
  (forall g tbl, P g ->
     (forall c, default 0 (tbl !! c) = default 0 (BinopPrecedence g !! c)) ->
     Q (precedence_of (BinopPrecedence g) (CurTok g)) (set_BinopPrecedence tbl g)) ->
  hoare P GetTokPrecedence Q.
Proof.
  intros H g r g' Hp E.
  destruct (GetTokPrecedence_reads g) as (tbl & H1 & H2 & _).
  rewrite H1 in E. injection E as <- <-. exact (H _ _ Hp H2).
Qed.

(** ** The operators of a parsed expression *)

Lemma operators_installed_Call (Callee : string) (Args : list ExprAST) :
  all_operators_installed Args -> operators_installed (CallExprAST Callee Args).
Proof.
  intros H. simpl. induction H as [|Arg Args Ha _ IH]; [exact I | split; assumption].
Qed.

Lemma precedence_of_installed (g : Globals) (tbl : gmap Z Z) (q : Z) :
  precedences_installed g -> 0 <= q ->
  (precedence_of (BinopPrecedence g) (CurTok g) <? q) = false ->
  0 < default_precedence (CurTok g).
Proof.
  intros Hi Hq Hlt. apply Z.ltb_ge in Hlt. unfold precedence_of in Hlt.
  rewrite (Hi (CurTok g)) in Hlt.
  destruct (isascii (CurTok g)); [|lia].
  destruct (Z.leb_spec (default_precedence (CurTok g)) 0); lia.
Qed.

Lemma parser_operators (fuel : nat) :
  hoare precedences_installed (ParseExpression fuel) parsed_operators /\
  hoare precedences_installed (ParsePrimary fuel) parsed_operators /\
  hoare precedences_installed (ParseParenExpr fuel) parsed_operators /\
  hoare precedences_installed (ParseIdentifierExpr fuel) parsed_operators /\
  (forall Args, all_operators_installed Args ->
     hoare precedences_installed (ParseArgs fuel Args) parsed_arguments) /\
  (forall ExprPrec LHS, 0 <= ExprPrec -> operators_installed LHS ->
     hoare precedences_installed (ParseBinOpRHS fuel ExprPrec LHS) parsed_operators).
Proof.
  induction fuel as [|fuel (IHE & IHP & IHPar & IHId & IHArgs & IHBin)].
  { split; [|split; [|split; [|split; [|split]]]];
      try apply hoare_out_of_fuel; intros; apply hoare_out_of_fuel. }
  assert (Hnext : forall (P : Prop),
            hoare (fun g => precedences_installed g /\ P) getNextToken
                  (fun _ g => precedences_installed g /\ P)).
  { intros P.
    apply (hoare_getNextToken (fun g => precedences_installed g /\ P)
                              (fun _ g => precedences_installed g /\ P)).
    intros g tok lx Hi _. exact Hi. }
  assert (Hnext' : hoare precedences_installed getNextToken
                     (fun _ g => precedences_installed g)).
  { apply (hoare_getNextToken precedences_installed
                                (fun _ g => precedences_installed g)).
    intros g tok lx Hi _. exact Hi. }
  assert (Hfail : forall g, precedences_installed g -> parsed_operators None g).
  { intros g Hi. split; [exact Hi | exact I]. }
  split; [|split; [|split; [|split; [|split]]]].
  - rewrite ParseExpression_S. eapply hoare_bind; [exact IHP|].
    intros [LHS|].
    + intros g r g' [Hi Hok] E. exact (IHBin 0 LHS ltac:(lia) Hok g r g' Hi E).
    + apply hoare_ret. intros g [Hi _]. exact (Hfail g Hi).
  - rewrite ParsePrimary_S. apply hoare_read_keep. intros tok.
    destruct (tok =? tok_identifier); [exact IHId|].
    destruct (tok =? tok_number).
    { unfold ParseNumberExpr. apply hoare_read_keep. intros Val.
      eapply hoare_bind; [exact Hnext'|]. intros ?.
      apply hoare_ret. intros g Hi. split; [exact Hi | exact I]. }
    destruct (tok =? ch "("); [exact IHPar|].
    apply hoare_Error. intros g Hi. exact (Hfail _ Hi).
  - rewrite ParseParenExpr_S.
    eapply hoare_bind; [exact Hnext'|]. intros ?.
    eapply hoare_bind; [exact IHE|].
    intros [V|].
    + apply hoare_read_keep. intros tok.
      destruct (negb (tok =? ch ")")).
      * apply hoare_Error. intros g [Hi _]. exact (Hfail _ Hi).
      * eapply hoare_bind; [exact (Hnext (operators_installed V))|].
        intros ?. apply hoare_ret. intros g H. exact H.
    + apply hoare_ret. intros g [Hi _]. exact (Hfail g Hi).
  - rewrite ParseIdentifierExpr_S. apply hoare_read_keep. intros IdName.
    eapply hoare_bind; [exact Hnext'|]. intros ?.
    apply hoare_read_keep. intros tok.
    destruct (negb (tok =? ch "(")).
    { apply hoare_ret. intros g Hi. split; [exact Hi | exact I]. }
    eapply hoare_bind; [exact Hnext'|]. intros ?.
    apply hoare_read_keep. intros tok'.
    eapply hoare_bind with (Q := parsed_arguments).
    { destruct (negb (tok' =? ch ")")).
      - apply IHArgs. constructor.
      - apply hoare_ret. intros g Hi. split; [exact Hi | constructor]. }
    intros [Args|].
    + eapply hoare_bind; [exact (Hnext (all_operators_installed Args))|].
      intros ?. apply hoare_ret. intros g [Hi Hok].
      split; [exact Hi | apply operators_installed_Call; exact Hok].
    + apply hoare_ret. intros g [Hi _]. exact (Hfail g Hi).
  - intros Args HArgs. rewrite ParseArgs_S.
    eapply hoare_bind; [exact IHE|].
    intros [Arg|].
    + cbv zeta. apply hoare_read_keep. intros tok.
      assert (Hall : forall g, parsed_operators (Some Arg) g ->
                all_operators_installed (Args ++ [Arg])).
      { intros g [_ Hok]. apply Forall_app. split; [exact HArgs|].
        constructor; [exact Hok | constructor]. }
      destruct (tok =? ch ")").
      { apply hoare_ret. intros g H. split; [exact (proj1 H) | exact (Hall g H)]. }
      destruct (negb (tok =? ch ",")).
      { apply hoare_Error. intros g [Hi _]. split; [exact Hi | exact I]. }
      eapply hoare_assume; [exact Hall|]. intros Hall'.
      eapply hoare_bind; [exact (Hnext (operators_installed Arg))|].
      intros ?. eapply hoare_consequence; [exact (IHArgs _ Hall') | |trivial].
      intros g [Hi _]. exact Hi.
    + apply hoare_ret. intros g [Hi _]. split; [exact Hi | exact I].
  - intros ExprPrec LHS Hq HLHS. rewrite ParseBinOpRHS_S.
    eapply hoare_bind with
      (Q := fun p g => precedences_installed g /\
                       ((p <? ExprPrec) = false -> 0 < default_precedence (CurTok g))).
    { apply hoare_GetTokPrecedence. intros g tbl Hi Htbl.
      split; [exact (precedences_installed_reads g tbl Hi Htbl)|].
      intros Hlt. exact (precedence_of_installed g tbl ExprPrec Hi Hq Hlt). }
    intros TokPrec.
    destruct (TokPrec <? ExprPrec) eqn:Eprec.
    { apply hoare_ret. intros g [Hi _]. split; [exact Hi | exact HLHS]. }
    apply hoare_read. intros BinOp.
    eapply hoare_assume with (fact := 0 < default_precedence BinOp).
    { intros g [[_ Hop] ->]. apply Hop. reflexivity. }
    intros Hop.
    eapply hoare_bind with (Q := fun _ g => precedences_installed g).
    { apply hoare_getNextToken. intros g t lx [[Hi _] _] _. exact Hi. }
    intros ?.
    eapply hoare_bind; [exact IHP|].
    intros [RHS|]; [|apply hoare_ret; intros g [Hi _]; exact (Hfail g Hi)].
    eapply hoare_assume; [intros g [_ Hok]; exact Hok|]. intros HRHS.
    eapply hoare_bind with (Q := fun _ g => precedences_installed g).
    { apply hoare_GetTokPrecedence. intros g tbl [Hi _] Htbl.
      exact (precedences_installed_reads g tbl Hi Htbl). }
    intros NextPrec.
    eapply hoare_bind with (Q := parsed_operators).
    { destruct (TokPrec <? NextPrec).
      - apply IHBin; [|exact HRHS]. apply Z.ltb_ge in Eprec. lia.
      - apply hoare_ret. intros g Hi. split; [exact Hi | exact HRHS]. }
    intros [RHS'|]; [|apply hoare_ret; intros g [Hi _]; exact (Hfail g Hi)].
    eapply hoare_assume; [intros g [_ Hok]; exact Hok|]. intros HRHS'.
    eapply hoare_consequence;
      [apply (IHBin ExprPrec (BinaryExprAST BinOp LHS RHS') Hq) | |].
    + simpl. split; [exact Hop | split; assumption].
    + intros g [Hi _]. exact Hi.
    + intros r g H. exact H.
Qed.

(** ** Expressions, calls and top-level constructs *)

Lemma precedences_installed_ready (input : string) : precedences_installed (ready input).
Proof.
  destruct (gettok_total (mkLexer (ch " ") input "" (strtod "0"))) as (tok & lx & H).
  rewrite (ready_spec _ _ _ H). exact (precedences_installed_main input).
Qed.

Lemma token_read_not_char (t : token) (tok : Z) (lx : Lexer) (c : Z) :
  t <> T_char c -> token_read t tok lx -> 0 <= c -> (tok =? c) = false.
Proof.
  intros Hn Hr Hc. apply Z.eqb_neq. intros ->.
  destruct t as [| | |Id|Val|c']; simpl in Hr;
    unfold tok_eof, tok_def, tok_extern, tok_identifier, tok_number in Hr; try lia.
  destruct Hr as [<- _]. apply Hn. reflexivity.
Qed.

(** X9. The whole expression grammar: for an expression written with number
    literals, variables, calls with comma-separated arguments, parentheses and
    the four operators, grouped by precedence and to the left, and followed by
    a token that is no operator and no opening parenthesis, ParseExpression
    returns the tree of the expression (parentheses leave no node), stops at
    that token and prints nothing. *)
Theorem ParseExpression_grammar (e : wexp) (t : token) (rest : list token) (g : Globals) :
  wconventional e -> presents (wyield e ++ t :: rest) g -> closes t ->
  precedences_installed g ->
  exists g',
    returns ParseExpression g (Some (wast e), g') /\
    presents (t :: rest) g' /\ stderr g' = stderr g.
Proof.
  intros Hc Hp Ht Hi. destruct (wclimb e Hc) as [Hprim Hrhs].
  destruct (wParseExpression_specs e Hprim Hrhs t rest g Hp Ht Hi) as (g' & H1 & H2 & H3 & _).
  exists g'. split; [exact H1 | split; assumption].
Qed.

Lemma ParseExpression_grammar_witness :
  exists g',
    returns ParseExpression (ready "f(x, 1+y)*(a-2)")
      (Some (BinaryExprAST (ch "*")
               (CallExprAST "f" [VariableExprAST "x";
                                 BinaryExprAST (ch "+") (num "1") (VariableExprAST "y")])
               (BinaryExprAST (ch "-") (VariableExprAST "a") (num "2"))), g').
Proof.
  destruct (ParseExpression_grammar
              (WBin (WCall "f" (WCons (WVar "x")
                                  (WCons (WBin (WNum (strtod "1")) op_add (WVar "y")) WNil)))
                    op_mul
                    (WParen (WBin (WVar "a") op_sub (WNum (strtod "2")))))
              T_eof [T_eof] (ready "f(x, 1+y)*(a-2)"))
    as (g' & H & _).
  - simpl. lia.
  - simpl. presents_now.
  - split; [reflexivity | discriminate].
  - apply precedences_installed_ready.
  - exists g'. exact H.
Defined.

(** X10. An opening parenthesis and an expression followed by a token that is
    not the closing parenthesis: ParsePrimary returns null, prints the one
    line Error: expected ')' and leaves the offending token as the current
    token. *)
Theorem ParseParenExpr_unclosed (e : wexp) (t : token) (rest : list token) (g : Globals) :
  wconventional e ->
  presents (T_char (ch "(") :: wyield e ++ t :: rest) g ->
  closes t -> t <> T_char (ch ")") -> precedences_installed g ->
  exists g',
    returns ParsePrimary g (None, g') /\
    presents (t :: rest) g' /\
    stderr g' = stderr g ++ [Print ("Error: expected ')'" +:+ nl)].
Proof.
  intros Hc Hp Ht Hne Hi. destruct (wclimb e Hc) as [Hprim Hrhs].
  destruct (getNextToken_presents_any _ _ _ Hp) as (tok_a & lx_a & Hn_a & Hp_a).
  destruct Hp as [[Hcur _] _].
  destruct (wParseExpression_specs e Hprim Hrhs t rest _ Hp_a Ht Hi)
    as (g1 & [n1 Hr1] & Hp1 & He1 & _).
  pose proof Hp1 as [Hread _].
  pose proof (token_read_not_rparen _ _ _ Hne Hread) as Hrp.
  exists (set_stderr (stderr g1 ++ [Print ("Error: expected ')'" +:+ nl)]) g1).
  split; [|split].
  - exists (S (S n1)). intros fuel Hf.
    destruct fuel as [|fuel]; [lia|]. rewrite ParsePrimary_S.
    unfold bind at 1. unfold get at 1. rewrite Hcur. simpl.
    destruct fuel as [|fuel]; [lia|]. rewrite ParseParenExpr_S.
    unfold bind at 1. rewrite Hn_a.
    unfold bind. rewrite (Hr1 fuel) by lia.
    unfold get. rewrite Hrp. reflexivity.
  - apply (presents_ext _ g1); [reflexivity | reflexivity | exact Hp1].
  - simpl. rewrite He1. reflexivity.
Qed.

Lemma ParseParenExpr_unclosed_witness :
  exists g',
    returns ParsePrimary (ready "(1+x;") (None, g') /\
    stderr g' = [Print ("Error: expected ')'" +:+ nl)].
Proof.
  destruct (ParseParenExpr_unclosed (WBin (WNum (strtod "1")) op_add (WVar "x"))
              (T_char (ch ";")) [T_eof] (ready "(1+x;"))
    as (g' & H & _ & He).
  - simpl. lia.
  - simpl. presents_now.
  - split; [reflexivity | discriminate].
  - discriminate.
  - apply precedences_installed_ready.
  - exists g'. split; [exact H | exact He].
Defined.

(** The argument loop at a token that neither separates nor closes. *)
Lemma wargs_bad_separator (Args : wargs) :
  forall e acc t rest g,
    wconventional_args (WCons e Args) ->
    presents (wyield_args (WCons e Args) ++ t :: rest) g ->
    closes t -> t <> T_char (ch ")") -> t <> T_char (ch ",") ->
    precedences_installed g ->
    exists g1,
      returns (fun fuel => ParseArgs fuel acc) g (None, g1) /\
      presents (t :: rest) g1 /\
      stderr g1 = stderr g ++
        [Print ("Error: Expected ')' or ',' in argument list" +:+ nl)].
Proof.
  induction Args as [|e' Args IH]; intros e acc t rest g [Hc Hcs] Hp Ht Hrp Hcm Hi;
    destruct (wclimb e Hc) as [Hprim Hrhs].
  - rewrite wyield_args_one in Hp.
    destruct (wParseExpression_specs e Hprim Hrhs _ _ _ Hp Ht Hi)
      as (g1 & [n1 Hr1] & Hp1 & He1 & _).
    pose proof Hp1 as [Hread _].
    exists (set_stderr (stderr g1 ++
              [Print ("Error: Expected ')' or ',' in argument list" +:+ nl)]) g1).
    split; [|split].
    + exists (S n1). intros fuel Hf. destruct fuel as [|fuel]; [lia|].
      rewrite ParseArgs_S. unfold bind. rewrite (Hr1 fuel) by lia.
      unfold get. rewrite (token_read_not_rparen _ _ _ Hrp Hread).
      rewrite (token_read_not_char _ _ _ (ch ",") Hcm Hread) by discriminate.
      reflexivity.
    + apply (presents_ext _ g1); [reflexivity | reflexivity | exact Hp1].
    + simpl. rewrite He1. reflexivity.
  - rewrite wyield_args_more in Hp. rewrite <- app_assoc in Hp. simpl in Hp.
    destruct (wParseExpression_specs e Hprim Hrhs _ _ _ Hp closes_comma Hi)
      as (g1 & [n1 Hr1] & Hp1 & He1 & Hi1).
    destruct (getNextToken_presents_any _ _ _ Hp1) as (tok2 & lx2 & Hn2 & Hp2).
    destruct (IH e' (acc ++ [wast e])%list t rest _ Hcs Hp2 Ht Hrp Hcm Hi1)
      as (g3 & [n3 Hr3] & Hp3 & He3).
    exists g3. split; [|split; [exact Hp3|]].
    + exists (S (n1 + n3)). intros fuel Hf. destruct fuel as [|fuel]; [lia|].
      rewrite ParseArgs_S. unfold bind. rewrite (Hr1 fuel) by lia.
      destruct Hp1 as [[Hcur _] _]. unfold get. rewrite Hcur. simpl.
      rewrite Hn2. apply Hr3. lia.
    + rewrite He3. simpl. rewrite He1. reflexivity.
Qed.

(** X11. In a call, arguments followed by a token that is neither a closing
    parenthesis nor a comma: ParsePrimary returns null, prints the one line
    Error: Expected ')' or ',' in argument list and leaves the offending token
    as the current token. *)
Theorem ParseIdentifierExpr_separator (Callee : string) (e : wexp) (Args : wargs)
    (t : token) (rest : list token) (g : Globals) :
  wconventional_args (WCons e Args) ->
  presents (T_identifier Callee :: T_char (ch "(") ::
            wyield_args (WCons e Args) ++ t :: rest) g ->
  closes t -> t <> T_char (ch ")") -> t <> T_char (ch ",") ->
  precedences_installed g ->
  exists g',
    returns ParsePrimary g (None, g') /\
    presents (t :: rest) g' /\
    stderr g' = stderr g ++
      [Print ("Error: Expected ')' or ',' in argument list" +:+ nl)].
Proof.
  intros Hc Hp Ht Hrp Hcm Hi.
  destruct (getNextToken_presents _ _ _ _ Hp) as (tok_a & lx_a & Hn_a & Hp_a).
  destruct Hp as [[Hcur Hid] _].
  set (g_a := set_CurTok tok_a (set_lexer lx_a g)) in *.
  destruct (getNextToken_presents_any _ _ _ Hp_a) as (tok_b & lx_b & Hn_b & Hp_b).
  assert (Hc_a : CurTok g_a = ch "(") by (destruct Hp_a as [[H _] _]; exact H).
  set (g_b := set_CurTok tok_b (set_lexer lx_b g_a)) in *.
  destruct (wyield_args_head e Args) as (t0 & ts0 & Hy & Ht0).
  assert (Hc_b : (CurTok g_b =? ch ")") = false).
  { pose proof Hp_b as Hp_b'. rewrite Hy in Hp_b'. simpl in Hp_b'.
    destruct Hp_b' as [Hr _]. exact (token_read_not_rparen _ _ _ Ht0 Hr). }
  destruct (wargs_bad_separator Args e [] t rest g_b Hc Hp_b Ht Hrp Hcm Hi)
    as (g1 & [n1 Hr1] & Hp1 & He1).
  exists g1. split; [|split; [exact Hp1 | exact He1]].
  exists (S (S n1)). intros fuel Hf. destruct fuel as [|fuel]; [lia|].
  rewrite ParsePrimary_S. unfold bind at 1. unfold get at 1. rewrite Hcur. simpl.
  destruct fuel as [|fuel]; [lia|]. rewrite ParseIdentifierExpr_S.
  unfold bind, get. rewrite Hn_a. fold g_a. rewrite Hc_a. simpl.
  rewrite Hn_b. fold g_b. rewrite Hc_b. simpl.
  rewrite (Hr1 fuel) by lia. reflexivity.
Qed.

Lemma ParseIdentifierExpr_separator_witness :
  exists g',
    returns ParsePrimary (ready "f(x y)") (None, g') /\
    stderr g' = [Print ("Error: Expected ')' or ',' in argument list" +:+ nl)].
Proof.
  destruct (ParseIdentifierExpr_separator "f" (WVar "x") WNil (T_identifier "y")
              [T_char (ch ")"); T_eof] (ready "f(x y)"))
    as (g' & H & _ & He).
  - simpl. tauto.
  - simpl. presents_now.
  - split; [reflexivity | discriminate].
  - discriminate.
  - discriminate.
  - apply precedences_installed_ready.
  - exists g'. split; [exact H | exact He].
Defined.

(** X12. With the precedence table as main installs it, every binary node of a
    tree that ParseExpression returns, in the arguments of calls too, has one
    of the four installed operators, and the table is still as installed after
    the call: the parser never hands the code generator an operator of
    precedence 0 or less. *)
Theorem ParseExpression_operators (fuel : nat) (g : Globals) (e : ExprAST) (g' : Globals) :
  precedences_installed g ->
  ParseExpression fuel g = Some (Some e, g') ->
  operators_installed e /\ precedences_installed g'.
Proof.
  intros Hi H. destruct (parser_operators fuel) as (HE & _).
  destruct (HE g (Some e) g' Hi H) as [Hi' Hok]. split; assumption.
Qed.

Lemma ParseExpression_operators_witness :
  operators_installed
    (BinaryExprAST (ch "<") (VariableExprAST "a")
       (BinaryExprAST (ch "*") (VariableExprAST "b") (VariableExprAST "c"))).
Proof.
  match eval vm_compute in (ParseExpression 10 (ready "a<b*c/d")) with
  | Some (_, ?g1) =>
      destruct (ParseExpression_operators 10 (ready "a<b*c/d")
                  (BinaryExprAST (ch "<") (VariableExprAST "a")
                     (BinaryExprAST (ch "*") (VariableExprAST "b") (VariableExprAST "c")))
                  g1) as [H _];
        [apply precedences_installed_ready | vm_compute; reflexivity | exact H]
  end.
Defined.

Lemma ParsePrototype_args_returns (Args : list string) :
  forall (ArgNames : list string) (t : token) (rest : list token) (g : Globals),
    lexes (map T_identifier Args ++ t :: rest) (lexer g) ->
    is_identifier t = false ->
    exists tok lx',
      (forall fuel, (length Args < fuel)%nat ->
         ParsePrototype_args fuel ArgNames g =
           Some (ArgNames ++ Args, set_CurTok tok (set_lexer lx' g))) /\
      presents (t :: rest) (set_CurTok tok (set_lexer lx' g)).
Proof.
  induction Args as [|Arg Args IH]; intros ArgNames t rest g Hl Ht;
    destruct Hl as (tok & lx' & Hg & Hr & Hl).
  - exists tok, lx'. split; [|split; assumption].
    intros fuel Hf. destruct fuel as [|fuel]; [simpl in Hf; lia|].
    simpl. unfold bind, getNextToken. rewrite Hg.
    rewrite (token_read_not_identifier _ _ _ Ht Hr). rewrite app_nil_r. reflexivity.
  - destruct Hr as [-> HId].
    destruct (IH (ArgNames ++ [Arg]) t rest (set_CurTok tok_identifier (set_lexer lx' g)) Hl Ht)
      as (tok' & lx'' & Hp & Hpres).
    exists tok', lx''. split; [|exact Hpres].
    intros fuel Hf. destruct fuel as [|fuel]; [simpl in Hf; lia|].
    simpl. unfold bind, getNextToken. rewrite Hg. simpl. unfold get. simpl. rewrite HId.
    rewrite (Hp fuel) by (simpl in Hf; lia). rewrite <- app_assoc. reflexivity.
Qed.

(** A prototype, as [ParsePrototype] reads it. *)
Lemma ParsePrototype_parses (FnName : string) (Params : list string)
    (rest : list token) (g : Globals) :
  presents (T_identifier FnName :: T_char (ch "(") ::
            map T_identifier Params ++ T_char (ch ")") :: rest) g ->
  exists g',
    (forall fuel, (length Params < fuel)%nat ->
       ParsePrototype fuel g = Some (Some (mkPrototypeAST FnName Params), g')) /\
    stderr g' = stderr g /\ BinopPrecedence g' = BinopPrecedence g /\
    presents rest g'.
Proof.
  intros Hp.
  pose proof Hp as [[Hc HId] _].
  destruct (getNextToken_presents _ _ _ _ Hp) as (tok1 & lx1 & Hn1 & Hp1).
  pose proof Hp1 as [[Hc1 _] Hl1]. simpl in Hc1. subst tok1.
  destruct (ParsePrototype_args_returns Params [] (T_char (ch ")")) rest _ Hl1 eq_refl)
    as (tok2 & lx2 & Ha & Hp2).
  pose proof Hp2 as [[Hc2 _] _]. simpl in Hc2. subst tok2.
  destruct (getNextToken_presents_any _ _ _ Hp2) as (tok3 & lx3 & Hn3 & Hp3).
  eexists. split; [|split; [|split; [|exact Hp3]]].
  - intros fuel Hf. unfold ParsePrototype, bind, get. rewrite Hc. simpl.
    rewrite Hn1. simpl. rewrite (Ha fuel Hf). simpl. rewrite Hn3. rewrite HId. reflexivity.
  - reflexivity.
  - reflexivity.
Qed.

(** X13. For def, a name, parameter names between parentheses and an
    expression as in the expression grammar, ParseDefinition returns the
    FunctionAST of the prototype (name and parameters in order) and the tree
    of the expression, stops at the token that follows the expression and
    prints nothing. *)
Theorem ParseDefinition_grammar (FnName : string) (Params : list string) (e : wexp)
    (t : token) (rest : list token) (g : Globals) :
  wconventional e -> closes t -> precedences_installed g ->
  presents (T_def :: T_identifier FnName :: T_char (ch "(") ::
            map T_identifier Params ++ T_char (ch ")") :: wyield e ++ t :: rest) g ->
  exists g',
    returns ParseDefinition g
      (Some (mkFunctionAST (mkPrototypeAST FnName Params) (wast e)), g') /\
    presents (t :: rest) g' /\ stderr g' = stderr g.
Proof.
  intros Hc Ht Hi Hp.
  destruct (getNextToken_presents _ _ _ _ Hp) as (tok1 & lx1 & Hn1 & Hp1).
  set (g1 := set_CurTok tok1 (set_lexer lx1 g)) in *.
  destruct (ParsePrototype_parses FnName Params _ g1 Hp1)
    as (g2 & Hproto & He2 & Hb2 & Hp2).
  assert (Hi2 : precedences_installed g2).
  { intros c. rewrite Hb2. exact (Hi c). }
  destruct (wclimb e Hc) as [Hprim Hrhs].
  destruct (wParseExpression_specs e Hprim Hrhs t rest g2 Hp2 Ht Hi2)
    as (g3 & [n3 Hr3] & Hp3 & He3 & _).
  exists g3. split; [|split; [exact Hp3 | rewrite He3, He2; reflexivity]].
  exists (S (length Params) + n3)%nat. intros fuel Hf.
  unfold ParseDefinition, bind. rewrite Hn1. fold g1.
  rewrite (Hproto fuel) by lia. rewrite (Hr3 fuel) by lia. reflexivity.
Qed.

Lemma ParseDefinition_grammar_witness :
  exists g',
    returns ParseDefinition (ready "def f(x y) g(x)+y;")
      (Some (mkFunctionAST (mkPrototypeAST "f" ["x"; "y"])
               (BinaryExprAST (ch "+") (CallExprAST "g" [VariableExprAST "x"])
                              (VariableExprAST "y"))), g').
Proof.
  destruct (ParseDefinition_grammar "f" ["x"; "y"]
              (WBin (WCall "g" (WCons (WVar "x") WNil)) op_add (WVar "y"))
              (T_char (ch ";")) [T_eof] (ready "def f(x y) g(x)+y;"))
    as (g' & Hr & _).
  - simpl. lia.
  - split; [reflexivity | discriminate].
  - apply precedences_installed_ready.
  - simpl. presents_now.
  - exists g'. exact Hr.
Defined.

(** ** What lowering adds *)

Lemma append_block_nil (BB : nat) (Fn : Function) : append_block [] BB Fn = Fn.
Proof.
  destruct Fn as [n a b v]. unfold append_block. simpl. f_equal.
  apply list_alter_id. intros block. apply app_nil_r.
Qed.

Lemma append_block_app (new1 new2 : list Instruction) (BB : nat) (Fn : Function) :
  append_block new2 BB (append_block new1 BB Fn) = append_block (new1 ++ new2) BB Fn.
Proof.
  unfold append_block. simpl. f_equal.
  rewrite list_alter_alter_eq. apply list_alter_ext; [|reflexivity].
  intros block _. simpl. rewrite app_assoc. reflexivity.
Qed.

Lemma emit_nil (B : option (nat * nat)) (fs : gmap nat Function) : emit B [] fs = fs.
Proof.
  destruct B as [[F BB]|]; [|reflexivity]. simpl.
  apply alter_id. intros Fn _. apply append_block_nil.
Qed.

Lemma emit_app (B : option (nat * nat)) (new1 new2 : list Instruction)
    (fs : gmap nat Function) :
  emit B new2 (emit B new1 fs) = emit B (new1 ++ new2) fs.
Proof.
  destruct B as [[F BB]|]; [|reflexivity]. simpl.
  rewrite alter_alter_eq. apply alter_ext. intros Fn _.
  apply append_block_app.
Qed.

Lemma emitted_refl (g : Globals) : emitted g g [] [].
Proof.
  split; try reflexivity.
  - rewrite emit_nil. reflexivity.
  - rewrite app_nil_r. reflexivity.
Qed.

Lemma emitted_trans (g1 g2 g3 : Globals) (new1 new2 : list Instruction)
    (errs1 errs2 : list Output) :
  emitted g1 g2 new1 errs1 -> emitted g2 g3 new2 errs2 ->
  emitted g1 g3 (new1 ++ new2) (errs1 ++ errs2).
Proof.
  intros [L1 C1 P1 B1 M1 E1 N1 U1] [L2 C2 P2 B2 M2 E2 N2 U2]. split; try congruence.
  - rewrite M2, B1, M1. apply emit_app.
  - rewrite E2, E1, app_assoc. reflexivity.
  - intros x V. rewrite N2. apply N1.
Qed.

Lemma Error_emitted {A} (Str : string) (g : Globals) :
  exists g', @Error A Str g = Some (None, g') /\ emitted g g' [] [error_line Str].
Proof.
  eexists. split; [reflexivity|]. split; try reflexivity.
  simpl. rewrite emit_nil. reflexivity.
Qed.

Lemma Create_emitted (V : Value) (g : Globals) :
  exists g', Create V g = Some (Some V, g') /\ emitted g g' [Inst V] [].
Proof.
  unfold Create, Insert, bind, get. destruct (Builder g) as [[F BB]|] eqn:EB.
  - eexists. split; [reflexivity|]. split; try reflexivity.
    + simpl. rewrite EB. reflexivity.
    + simpl. rewrite app_nil_r. reflexivity.
  - exists g. split; [reflexivity|]. split; try reflexivity.
    + rewrite EB. reflexivity.
    + rewrite app_nil_r. reflexivity.
Qed.

Lemma NamedValues_subscript_emitted (Name : string) (g : Globals) :
  exists g', NamedValues_subscript Name g = Some (default None (NamedValues g !! Name), g') /\
             emitted g g' [] [].
Proof.
  unfold NamedValues_subscript, bind, get.
  destruct (NamedValues g !! Name) as [V|] eqn:E.
  - exists g. split; [reflexivity | apply emitted_refl].
  - eexists. split; [reflexivity|]. split; try reflexivity.
    + simpl. rewrite emit_nil. reflexivity.
    + simpl. rewrite app_nil_r. reflexivity.
    + intros x V. simpl. destruct (decide (Name = x)) as [<-|Hne].
      * rewrite lookup_insert_eq, E. split; intros H; discriminate.
      * rewrite lookup_insert_ne by exact Hne. reflexivity.
Qed.

Lemma operators_installed_args (Callee : string) (Args : list ExprAST) :
  operators_installed (CallExprAST Callee Args) <-> Forall operators_installed Args.
Proof.
  simpl. induction Args as [|Arg Args IH].
  - split; [constructor | trivial].
  - split.
    + intros [Ha Hr]. constructor; [exact Ha | apply IH; exact Hr].
    + intros H. inversion H; subst. split; [assumption | apply IH; assumption].
Qed.

Lemma reported_by_weaken (e e' : ExprAST) (errs : list Output) :
  (operators_installed e' -> operators_installed e) ->
  Forall (reported_by e) errs -> Forall (reported_by e') errs.
Proof.
  intros Hsub H. induction H as [|o errs Ho _ IH]; constructor; [|exact IH].
  destruct Ho as [H|[H|[H|[H Hn]]]]; [left|right; left|right; right; left|]; try exact H.
  right; right; right. split; [exact H|]. intros He. apply Hn, Hsub, He.
Qed.

Lemma Codegen_emitted (e : ExprAST) :
  forall g, exists r g' new errs, Codegen_result e g r g' new errs.
Proof.
  unfold Codegen_result.
  induction e as [Val|Name|Op LHS RHS IHL IHR|Callee Args IH] using ExprAST_induction;
    intros g.
  - exists (Some (ConstantFP Val)), g, [], [].
    split; [reflexivity|]. split; [apply emitted_refl|].
    split; [constructor|]. split; [constructor|]. split; [reflexivity | eauto].
  - simpl. unfold bind.
    destruct (NamedValues_subscript_emitted Name g) as (g1 & -> & Hl1).
    destruct (NamedValues g !! Name) as [[V|]|]; simpl.
    + exists (Some V), g1, [], []. split; [reflexivity|]. split; [exact Hl1|].
      split; [constructor|]. split; [constructor|]. split; [reflexivity | eauto].
    + destruct (@Error_emitted Value "Unkown variable name" g1) as (g2 & -> & Hl2).
      exists None, g2, ([] ++ []), ([] ++ [error_line "Unkown variable name"]).
      split; [reflexivity|]. split; [exact (emitted_trans _ _ _ _ _ _ _ Hl1 Hl2)|].
      split; [constructor|]. split; [repeat constructor|].
      split; [intros [x Hx]; discriminate | discriminate].
    + destruct (@Error_emitted Value "Unkown variable name" g1) as (g2 & -> & Hl2).
      exists None, g2, ([] ++ []), ([] ++ [error_line "Unkown variable name"]).
      split; [reflexivity|]. split; [exact (emitted_trans _ _ _ _ _ _ _ Hl1 Hl2)|].
      split; [constructor|]. split; [repeat constructor|].
      split; [intros [x Hx]; discriminate | discriminate].
  - rewrite Codegen_Binary. unfold bind.
    destruct (IHL g) as (L & g1 & n1 & e1 & -> & Hl1 & Hn1 & He1 & Hr1).
    destruct (IHR g1) as (R & g2 & n2 & e2 & -> & Hl2 & Hn2 & He2 & Hr2).
    pose proof (emitted_trans _ _ _ _ _ _ _ Hl1 Hl2) as Hl.
    assert (Hrep : Forall (reported_by (BinaryExprAST Op LHS RHS)) (e1 ++ e2)).
    { apply Forall_app. split.
      - apply (reported_by_weaken LHS); [simpl; tauto | exact He1].
      - apply (reported_by_weaken RHS); [simpl; tauto | exact He2]. }
    assert (Hnew : Forall is_Inst (n1 ++ n2)) by (apply Forall_app; split; assumption).
    destruct L as [L|], R as [R|].
    2,3,4: (exists None, g2, (n1 ++ n2), (e1 ++ e2);
            split; [reflexivity|]; split; [exact Hl|]; split; [exact Hnew|];
            split; [exact Hrep|]; split; [intros [x Hx]; discriminate|];
            intros Happ; apply app_eq_nil in Happ; destruct Happ as [-> ->];
            first [ destruct (proj2 Hr1 eq_refl) as [x Hx]; discriminate
                  | destruct (proj2 Hr2 eq_refl) as [x Hx]; discriminate ]).
    assert (E1 : e1 = []) by (apply Hr1; eauto).
    assert (E2 : e2 = []) by (apply Hr2; eauto). subst e1 e2.
    assert (Hok : forall V g3 new3,
              emitted g2 g3 new3 [] -> Forall is_Inst new3 ->
              exists (r : option Value) g' new errs,
                Some (Some V, g3) = Some (r, g') /\ emitted g g' new errs /\
                Forall is_Inst new /\ Forall (reported_by (BinaryExprAST Op LHS RHS)) errs /\
                (is_Some r <-> errs = [])).
    { intros V g3 new3 Hl3 Hn3. exists (Some V), g3, ((n1 ++ n2) ++ new3), (([] ++ []) ++ []).
      split; [reflexivity|]. split; [exact (emitted_trans _ _ _ _ _ _ _ Hl Hl3)|].
      split; [apply Forall_app; split; assumption|].
      split; [constructor|]. split; [reflexivity | eauto]. }
    destruct (Op =? ch "+") eqn:Eadd.
    { destruct (Create_emitted (FAdd L R) g2) as (g3 & -> & Hl3).
      apply (Hok _ _ _ Hl3). repeat constructor. }
    destruct (Op =? ch "-") eqn:Esub.
    { destruct (Create_emitted (FSub L R) g2) as (g3 & -> & Hl3).
      apply (Hok _ _ _ Hl3). repeat constructor. }
    destruct (Op =? ch "*") eqn:Emul.
    { destruct (Create_emitted (FMul L R) g2) as (g3 & -> & Hl3).
      apply (Hok _ _ _ Hl3). repeat constructor. }
    destruct (Op =? ch "<") eqn:Elt.
    { destruct (Create_emitted (FCmpULT L R) g2) as (g3 & -> & Hl3).
      destruct (Create_emitted (UIToFP (FCmpULT L R)) g3) as (g4 & -> & Hl4).
      apply (Hok _ _ _ (emitted_trans _ _ _ _ _ _ _ Hl3 Hl4)). repeat constructor. }
    destruct (@Error_emitted Value "invalid binary operator" g2) as (g3 & -> & Hl3).
    exists None, g3, ((n1 ++ n2) ++ []), (([] ++ []) ++ [error_line "invalid binary operator"]).
    split; [reflexivity|]. split; [exact (emitted_trans _ _ _ _ _ _ _ Hl Hl3)|].
    split; [rewrite app_nil_r; exact Hnew|].
    split; [|split; [intros [x Hx]; discriminate | discriminate]].
    constructor; [|constructor]. right; right; right. split; [reflexivity|].
    intros [Hop _]. unfold default_precedence in Hop.
    rewrite Elt, Eadd, Esub, Emul in Hop. lia.
  - rewrite Codegen_Call. unfold bind, get.
    destruct (getFunction (TheModule g) Callee) as [[CalleeF Fn]|].
    2:{ destruct (@Error_emitted Value "unkown function referenced" g) as (g1 & -> & Hl1).
        exists None, g1, [], [error_line "unkown function referenced"].
        split; [reflexivity|]. split; [exact Hl1|]. split; [constructor|].
        split; [|split; [intros [x Hx]; discriminate | discriminate]].
        constructor; [|constructor]. right; left. reflexivity. }
    destruct (negb (arg_size Fn =? length Args)%nat).
    { destruct (@Error_emitted Value "Incorrect # argmuments passed" g) as (g1 & -> & Hl1).
      exists None, g1, [], [error_line "Incorrect # argmuments passed"].
      split; [reflexivity|]. split; [exact Hl1|]. split; [constructor|].
      split; [|split; [intros [x Hx]; discriminate | discriminate]].
      constructor; [|constructor]. right; right; left. reflexivity. }
    assert (Hargs : forall ArgsV g, exists r g' new errs,
               Codegen_args Args ArgsV g = Some (r, g') /\ emitted g g' new errs /\
               Forall is_Inst new /\
               Forall (fun o => forall Callee', reported_by (CallExprAST Callee' Args) o) errs /\
               (is_Some r <-> errs = [])).
    { clear g. induction IH as [|Arg Args HArg _ IHArgs]; intros ArgsV g.
      - exists (Some ArgsV), g, [], []. split; [reflexivity|]. split; [apply emitted_refl|].
        split; [constructor|]. split; [constructor|]. split; [reflexivity | eauto].
      - simpl. unfold bind.
        destruct (HArg g) as (V & g1 & n1 & e1 & -> & Hl1 & Hn1 & He1 & Hr1).
        assert (He1' : Forall (fun o => forall Callee',
                          reported_by (CallExprAST Callee' (Arg :: Args)) o) e1).
        { apply Forall_forall. intros o Ho Callee'.
          rewrite Forall_forall in He1.
          destruct (He1 o Ho) as [H|[H|[H|[H Hn]]]];
            [left|right; left|right; right; left|]; try exact H.
          right; right; right. split; [exact H|]. intros Hop. apply Hn.
          apply operators_installed_args in Hop. inversion Hop; assumption. }
        destruct V as [V|].
        + destruct (IHArgs (ArgsV ++ [V])%list g1) as (r & g2 & n2 & e2 & -> & Hl2 & Hn2 & He2 & Hr2).
          exists r, g2, (n1 ++ n2), (e1 ++ e2). split; [reflexivity|].
          split; [exact (emitted_trans _ _ _ _ _ _ _ Hl1 Hl2)|].
          split; [apply Forall_app; split; assumption|].
          split; [apply Forall_app; split; [exact He1'|]|].
          * apply Forall_forall. intros o Ho Callee'.
            rewrite Forall_forall in He2.
            destruct (He2 o Ho Callee') as [H|[H|[H|[H Hn]]]];
              [left|right; left|right; right; left|]; try exact H.
            right; right; right. split; [exact H|]. intros Hop. apply Hn.
            apply operators_installed_args. apply operators_installed_args in Hop.
            inversion Hop; assumption.
          * assert (E1 : e1 = []) by (apply Hr1; eauto). subst e1. simpl. exact Hr2.
        + exists None, g1, n1, e1. split; [reflexivity|]. split; [exact Hl1|].
          split; [exact Hn1|]. split; [exact He1'|].
          split; [intros [x Hx]; discriminate|].
          intros E. apply Hr1 in E. destruct E as [x Hx]. discriminate. }
    destruct (Hargs [] g) as (r & g1 & n1 & e1 & -> & Hl1 & Hn1 & He1 & Hr1).
    assert (He1' : Forall (reported_by (CallExprAST Callee Args)) e1).
    { apply Forall_forall. intros o Ho. rewrite Forall_forall in He1. apply He1, Ho. }
    destruct r as [ArgsV|].
    + destruct (Create_emitted (CallInst CalleeF ArgsV) g1) as (g2 & -> & Hl2).
      assert (E1 : e1 = []) by (apply Hr1; eauto). subst e1.
      exists (Some (CallInst CalleeF ArgsV)), g2, (n1 ++ [Inst (CallInst CalleeF ArgsV)]), ([] ++ []).
      split; [reflexivity|]. split; [exact (emitted_trans _ _ _ _ _ _ _ Hl1 Hl2)|].
      split; [apply Forall_app; split; [exact Hn1 | repeat constructor]|].
      split; [constructor|]. split; [reflexivity | eauto].
    + exists None, g1, n1, e1. split; [reflexivity|]. split; [exact Hl1|].
      split; [exact Hn1|]. split; [exact He1'|].
      split; [intros [x Hx]; discriminate|].
      intros E. apply Hr1 in E. destruct E as [x Hx]. discriminate.
Qed.

(** ** The functions of the module and their names *)

Lemma getFunction_None (Mod : IRModule) (Name : string) :
  getFunction Mod Name = None ->
  Name = "" \/ forall F Fn, functions Mod !! F = Some Fn -> F_name Fn <> Name.
Proof.
  unfold getFunction. destruct (String.eqb_spec Name "") as [->|Hne]; [left; reflexivity|].
  intros H. right. intros F Fn HF Hname.
  pose proof (find_none _ _ H (F, Fn)) as Hn. simpl in Hn.
  rewrite Hname, String.eqb_refl in Hn.
  assert (false = true -> False) by discriminate. apply H0. symmetry. apply Hn.
  apply list_elem_of_In. apply elem_of_map_to_list. exact HF.
Qed.

Lemma getFunction_Some (Mod : IRModule) (F : nat) (Fn : Function) :
  names_unique Mod -> functions Mod !! F = Some Fn -> F_name Fn <> "" ->
  getFunction Mod (F_name Fn) = Some (F, Fn).
Proof.
  intros Hu HF Hne.
  destruct (getFunction Mod (F_name Fn)) as [[F' Fn']|] eqn:E.
  - destruct (getFunction_lookup _ _ _ _ E) as (HF' & Hname & _).
    assert (F' = F) by (apply (Hu F' F Fn' Fn HF' HF Hname); congruence).
    subst F'. congruence.
  - destruct (getFunction_None _ _ E) as [H|H]; [contradiction|].
    exfalso. exact (H F Fn HF eq_refl).
Qed.

Lemma declared_iff (Mod : IRModule) (Callee : string) (n : nat) :
  names_unique Mod ->
  declared Mod Callee n <->
  Callee <> "" /\ exists F Fn, functions Mod !! F = Some Fn /\
                               F_name Fn = Callee /\ arg_size Fn = n.
Proof.
  intros Hu. split.
  - intros (F & Fn & Hg & Hn). destruct (getFunction_lookup _ _ _ _ Hg) as (HF & Hname & Hne).
    split; [exact Hne|]. exists F, Fn. auto.
  - intros (Hne & F & Fn & HF & Hname & Hn). exists F, Fn. split; [|exact Hn].
    subst Callee. apply getFunction_Some; assumption.
Qed.

Lemma same_signatures_refl (fs : gmap nat Function) : same_signatures fs fs.
Proof. intros F. destruct (fs !! F); [split; reflexivity | exact I]. Qed.

Lemma same_signatures_sym (fs fs' : gmap nat Function) :
  same_signatures fs fs' -> same_signatures fs' fs.
Proof.
  intros H F. specialize (H F). destruct (fs !! F), (fs' !! F); try exact H.
  destruct H as [-> ->]. split; reflexivity.
Qed.

Lemma same_signatures_lookup (fs fs' : gmap nat Function) (F : nat) (Fn : Function) :
  same_signatures fs fs' -> fs !! F = Some Fn ->
  exists Fn', fs' !! F = Some Fn' /\ F_name Fn' = F_name Fn /\ F_args Fn' = F_args Fn.
Proof.
  intros H HF. specialize (H F). rewrite HF in H.
  destruct (fs' !! F) as [Fn'|]; [|contradiction]. exists Fn'. tauto.
Qed.

Lemma same_signatures_alter (fs : gmap nat Function) (F : nat) (f : Function -> Function) :
  (forall Fn, F_name (f Fn) = F_name Fn /\ F_args (f Fn) = F_args Fn) ->
  same_signatures fs (alter f F fs).
Proof.
  intros Hf F'. destruct (decide (F = F')) as [<-|Hne].
  - rewrite lookup_alter_eq. destruct (fs !! F); simpl; [apply Hf | exact I].
  - rewrite lookup_alter_ne by exact Hne.
    destruct (fs !! F'); [split; reflexivity | exact I].
Qed.

Lemma same_signatures_emit (B : option (nat * nat)) (new : list Instruction)
    (fs : gmap nat Function) :
  same_signatures fs (emit B new fs).
Proof.
  destruct B as [[F BB]|]; [|apply same_signatures_refl].
  apply same_signatures_alter. intros Fn. split; reflexivity.
Qed.

Lemma names_unique_same (Mod Mod' : IRModule) :
  same_signatures (functions Mod) (functions Mod') ->
  names_unique Mod -> names_unique Mod'.
Proof.
  intros Hs Hu F1 F2 Fn1 Fn2 H1 H2 Hname Hne.
  apply same_signatures_sym in Hs.
  destruct (same_signatures_lookup _ _ _ _ Hs H1) as (Fn1' & H1' & N1 & _).
  destruct (same_signatures_lookup _ _ _ _ Hs H2) as (Fn2' & H2' & N2 & _).
  apply (Hu F1 F2 Fn1' Fn2' H1' H2'); congruence.
Qed.

Lemma declared_same (Mod Mod' : IRModule) (Callee : string) (n : nat) :
  same_signatures (functions Mod) (functions Mod') -> names_unique Mod ->
  declared Mod Callee n -> declared Mod' Callee n.
Proof.
  intros Hs Hu Hd. pose proof (names_unique_same _ _ Hs Hu) as Hu'.
  apply (declared_iff _ _ _ Hu) in Hd. destruct Hd as (Hne & F & Fn & HF & Hname & Hn).
  apply (declared_iff _ _ _ Hu'). split; [exact Hne|].
  destruct (same_signatures_lookup _ _ _ _ Hs HF) as (Fn' & HF' & N & A).
  exists F, Fn'. split; [exact HF'|]. split; [congruence|].
  unfold arg_size in *. rewrite A. exact Hn.
Qed.

Lemma emitted_same_signatures (g g' : Globals) (new : list Instruction)
    (errs : list Output) :
  emitted g g' new errs ->
  same_signatures (functions (TheModule g)) (functions (TheModule g')).
Proof. intros H. rewrite (emitted_functions _ _ _ _ H). apply same_signatures_emit. Qed.

(** What lowering needs of the state is not changed by lowering. *)
Lemma lowers_emitted (e : ExprAST) :
  forall g g' new errs,
    names_unique (TheModule g) -> emitted g g' new errs ->
    (lowers g e <-> lowers g' e).
Proof.
  induction e as [Val|Name|Op LHS RHS IHL IHR|Callee Args IH] using ExprAST_induction;
    intros g g' new errs Hu He.
  - reflexivity.
  - simpl. split; intros [V HV]; exists V; apply (emitted_bound _ _ _ _ He); exact HV.
  - simpl. rewrite (IHL g g' new errs Hu He), (IHR g g' new errs Hu He). reflexivity.
  - cbn [lowers].
    pose proof (emitted_same_signatures _ _ _ _ He) as Hs.
    pose proof (names_unique_same _ _ Hs Hu) as Hu'.
    assert (Hd : declared (TheModule g) Callee (length Args) <->
                 declared (TheModule g') Callee (length Args)).
    { split; [apply (declared_same _ _ _ _ Hs Hu)|].
      apply (declared_same _ _ _ _ (same_signatures_sym _ _ Hs) Hu'). }
    rewrite Hd. apply and_iff_compat_l. clear Hd.
    induction IH as [|Arg Args' HArg _ IHArgs]; [reflexivity|].
    rewrite (HArg g g' new errs Hu He), IHArgs. reflexivity.
Qed.

Lemma emitted_names_unique (g g' : Globals) (new : list Instruction) (errs : list Output) :
  emitted g g' new errs -> names_unique (TheModule g) -> names_unique (TheModule g').
Proof. intros He. apply names_unique_same. exact (emitted_same_signatures _ _ _ _ He). Qed.

Lemma lowers_args (g : Globals) (Callee : string) (Args : list ExprAST) :
  lowers g (CallExprAST Callee Args) <->
  declared (TheModule g) Callee (length Args) /\ Forall (lowers g) Args.
Proof.
  cbn [lowers]. apply and_iff_compat_l. induction Args as [|Arg Args IH].
  - split; [constructor | trivial].
  - split.
    + intros [Ha Hr]. constructor; [exact Ha | apply IH; exact Hr].
    + intros H. inversion H; subst. split; [assumption | apply IH; assumption].
Qed.

Lemma Codegen_args_lowers (Args : list ExprAST) :
  Forall (fun e => forall g r g', names_unique (TheModule g) ->
                     Codegen e g = Some (r, g') -> (is_Some r <-> lowers g e)) Args ->
  forall ArgsV g r g',
    names_unique (TheModule g) ->
    Codegen_args Args ArgsV g = Some (r, g') ->
    (is_Some r <-> Forall (lowers g) Args).
Proof.
  induction 1 as [|Arg Args HArg _ IH]; intros ArgsV g r g' Hu E.
  - simpl in E. injection E as <- <-. split; [constructor | eauto].
  - simpl in E. unfold bind in E.
    destruct (Codegen_emitted Arg g) as (V & g1 & n1 & e1 & Hc & He & _).
    rewrite Hc in E. pose proof (HArg g V g1 Hu Hc) as HV.
    destruct V as [V|].
    + pose proof (emitted_names_unique _ _ _ _ He Hu) as Hu1.
      rewrite (IH _ _ _ _ Hu1 E). split.
      * intros H. constructor; [apply HV; eauto|].
        eapply Forall_impl; [exact H|]. intros e' He'.
        apply (lowers_emitted e' g g1 n1 e1 Hu He). exact He'.
      * intros H. inversion H; subst.
        eapply Forall_impl; [eassumption|]. intros e' He'.
        apply (lowers_emitted e' g g1 n1 e1 Hu He). exact He'.
    + injection E as <- <-. split; [intros [x Hx]; discriminate|].
      intros H. inversion H as [|? ? Ha Hr]; subst.
      apply HV in Ha. destruct Ha as [x Hx]. discriminate.
Qed.

Lemma Codegen_lowers (e : ExprAST) :
  forall g r g',
    names_unique (TheModule g) -> Codegen e g = Some (r, g') ->
    (is_Some r <-> lowers g e).
Proof.
  induction e as [Val|Name|Op LHS RHS IHL IHR|Callee Args IH] using ExprAST_induction;
    intros g r g' Hu E.
  - injection E as <- <-. split; [intros _; exact I | intros _; eauto].
  - simpl in E. unfold bind in E.
    destruct (NamedValues_subscript_emitted Name g) as (g1 & H1 & _). rewrite H1 in E.
    cbn [lowers]. destruct (NamedValues g !! Name) as [[V|]|]; simpl in E.
    + injection E as <- <-. split; eauto.
    + injection E as <- <-. split; [intros [x Hx]; discriminate|].
      intros [V HV]. discriminate.
    + injection E as <- <-. split; [intros [x Hx]; discriminate|].
      intros [V HV]. discriminate.
  - rewrite Codegen_Binary in E. unfold bind in E.
    destruct (Codegen_emitted LHS g) as (L & g1 & n1 & e1 & HcL & HeL & _).
    rewrite HcL in E.
    destruct (Codegen_emitted RHS g1) as (R & g2 & n2 & e2 & HcR & HeR & _).
    rewrite HcR in E.
    pose proof (IHL _ _ _ Hu HcL) as HL.
    pose proof (IHR _ _ _ (emitted_names_unique _ _ _ _ HeL Hu) HcR) as HR.
    rewrite <- (lowers_emitted RHS g g1 n1 e1 Hu HeL) in HR.
    cbn [lowers].
    destruct L as [L|]; [|injection E as <- <-; split; [intros [x Hx]; discriminate|];
                           intros (H & _); apply HL in H; destruct H; discriminate].
    destruct R as [R|]; [|injection E as <- <-; split; [intros [x Hx]; discriminate|];
                           intros (_ & H & _); apply HR in H; destruct H; discriminate].
    assert (HLo : lowers g LHS) by (apply HL; eauto).
    assert (HRo : lowers g RHS) by (apply HR; eauto).
    unfold default_precedence.
    destruct (Op =? ch "<") eqn:Elt.
    { destruct (Op =? ch "+"), (Op =? ch "-"), (Op =? ch "*");
        try (destruct (Create_emitted (FAdd L R) g2) as (g3 & H3 & _); rewrite H3 in E);
        try (destruct (Create_emitted (FSub L R) g2) as (g3 & H3 & _); rewrite H3 in E);
        try (destruct (Create_emitted (FMul L R) g2) as (g3 & H3 & _); rewrite H3 in E);
        try (unfold bind in E;
             destruct (Create_emitted (FCmpULT L R) g2) as (g3 & H3 & _); rewrite H3 in E;
             destruct (Create_emitted (UIToFP (FCmpULT L R)) g3) as (g4 & H4 & _);
             rewrite H4 in E);
        injection E as <- <-; (split; [intros _; repeat split; try assumption; lia | eauto]). }
    destruct (Op =? ch "+") eqn:Eadd.
    { destruct (Create_emitted (FAdd L R) g2) as (g3 & H3 & _). rewrite H3 in E.
      injection E as <- <-. split; [intros _; repeat split; try assumption; lia | eauto]. }
    destruct (Op =? ch "-") eqn:Esub.
    { destruct (Create_emitted (FSub L R) g2) as (g3 & H3 & _). rewrite H3 in E.
      injection E as <- <-. split; [intros _; repeat split; try assumption; lia | eauto]. }
    destruct (Op =? ch "*") eqn:Emul.
    { destruct (Create_emitted (FMul L R) g2) as (g3 & H3 & _). rewrite H3 in E.
      injection E as <- <-. split; [intros _; repeat split; try assumption; lia | eauto]. }
    injection E as <- <-. split; [intros [x Hx]; discriminate|].
    intros (_ & _ & H). lia.
  - rewrite lowers_args. rewrite Codegen_Call in E. unfold bind, get in E.
    destruct (getFunction (TheModule g) Callee) as [[CalleeF Fn]|] eqn:Eg.
    2:{ injection E as <- <-. split; [intros [x Hx]; discriminate|].
        intros [(F & Fn & H & _) _]. rewrite Eg in H. discriminate. }
    destruct (Nat.eqb_spec (arg_size Fn) (length Args)) as [Hn|Hn]; simpl in E.
    2:{ injection E as <- <-. split; [intros [x Hx]; discriminate|].
        intros [(F & Fn' & H & Hn') _]. rewrite Eg in H. injection H as <- <-.
        contradiction. }
    assert (Hd : declared (TheModule g) Callee (length Args)) by (exists CalleeF, Fn; auto).
    destruct (Codegen_args Args [] g) as [[ArgsV g1]|] eqn:Ea; [|discriminate].
    pose proof (Codegen_args_lowers Args IH [] g ArgsV g1 Hu Ea) as Hargs.
    destruct ArgsV as [ArgsV|].
    + destruct (Create_emitted (CallInst CalleeF ArgsV) g1) as (g2 & H2 & _).
      rewrite H2 in E. injection E as <- <-.
      split; [intros _; split; [exact Hd | apply Hargs; eauto] | eauto].
    + injection E as <- <-. split; [intros [x Hx]; discriminate|].
      intros [_ H]. apply Hargs in H. destruct H. discriminate.
Qed.

(** ** Prototypes, functions and the invariant of the module *)

Lemma taken_spec (Name : string) (table : list string) :
  taken Name table = true <-> Name ∈ table.
Proof.
  unfold taken. rewrite existsb_exists. split.
  - intros (x & Hin & E). apply String.eqb_eq in E. subst x.
    apply list_elem_of_In. exact Hin.
  - intros Hin. exists Name. split; [apply list_elem_of_In; exact Hin|].
    apply String.eqb_refl.
Qed.

(** Different names on arguments that have no name yet: every argument
    gets the name it is given, and the counter of the symbol table stays. *)
Lemma with_arguments_fresh (Args : list string) :
  forall pre Fn,
    F_args Fn = pre ++ replicate (length Args) "" -> NoDup (pre ++ Args) ->
    with_arguments (length pre) Args Fn =
      mkFunction (F_name Fn) (pre ++ Args) (F_blocks Fn) (F_verified Fn) (F_LastUnique Fn).
Proof.
  induction Args as [|Arg Args IH]; intros pre Fn H Hnd.
  - simpl in *. rewrite app_nil_r in *. destruct Fn. simpl in *. subst. reflexivity.
  - cbn [with_arguments].
    assert (Hset : setName (length pre) Arg Fn =
              mkFunction (F_name Fn) (pre ++ Arg :: replicate (length Args) "")
                         (F_blocks Fn) (F_verified Fn) (F_LastUnique Fn)).
    { unfold setName. simpl in H. rewrite H.
      rewrite lookup_app_r by lia. rewrite Nat.sub_diag. cbn [lookup list_lookup].
      destruct (String.eqb_spec "" Arg) as [<-|Hne].
      - destruct Fn. simpl in *. subst. reflexivity.
      - rewrite (list_insert_id (pre ++ "" :: replicate (length Args) "") (length pre) "").
        2:{ rewrite lookup_app_r by lia. rewrite Nat.sub_diag. reflexivity. }
        assert (Hfree : taken Arg (pre ++ "" :: replicate (length Args) "") = false).
        { apply not_true_is_false. intros Ht. apply taken_spec in Ht.
          apply elem_of_app in Ht as [Ht|Ht].
          - apply NoDup_app in Hnd as (_ & Hd & _). apply (Hd Arg Ht). left.
          - apply (elem_of_replicate (S (length Args)) "" Arg) in Ht as [Ht _]. congruence. }
        rewrite Hfree. destruct (String.eqb Arg ""); simpl;
          (rewrite insert_app_r_alt by lia; rewrite Nat.sub_diag; reflexivity). }
    rewrite Hset.
    specialize (IH (pre ++ [Arg])
                  (mkFunction (F_name Fn) (pre ++ Arg :: replicate (length Args) "")
                              (F_blocks Fn) (F_verified Fn) (F_LastUnique Fn))).
    rewrite length_app in IH. simpl in IH. rewrite Nat.add_1_r in IH.
    rewrite <- !app_assoc in IH. simpl in IH. apply IH; [reflexivity | exact Hnd].
Qed.

Lemma names_unique_alter (Mod Mod' : IRModule) (F : nat) (f : Function -> Function) :
  (forall Fn, F_name (f Fn) = F_name Fn) ->
  functions Mod' = alter f F (functions Mod) ->
  names_unique Mod -> names_unique Mod'.
Proof.
  intros Hf HM Hu F1 F2 Fn1 Fn2 H1 H2 Hname Hne. rewrite HM in H1, H2.
  assert (Hlook : forall F' Fn', alter f F (functions Mod) !! F' = Some Fn' ->
            exists Fn0, functions Mod !! F' = Some Fn0 /\ F_name Fn0 = F_name Fn').
  { intros F' Fn' H. destruct (decide (F = F')) as [<-|Hd].
    - rewrite lookup_alter_eq in H. destruct (functions Mod !! F) as [Fn0|]; [|discriminate].
      injection H as <-. exists Fn0. split; [reflexivity | symmetry; apply Hf].
    - rewrite lookup_alter_ne in H by exact Hd. exists Fn'. auto. }
  destruct (Hlook _ _ H1) as (Fn1' & H1' & N1).
  destruct (Hlook _ _ H2) as (Fn2' & H2' & N2).
  apply (Hu F1 F2 Fn1' Fn2' H1' H2'); congruence.
Qed.

Lemma names_unique_delete (Mod Mod' : IRModule) (F : nat) :
  functions Mod' = delete F (functions Mod) -> names_unique Mod -> names_unique Mod'.
Proof.
  intros HM Hu F1 F2 Fn1 Fn2 H1 H2 Hname Hne. rewrite HM in H1, H2.
  apply lookup_delete_Some in H1 as [_ H1]. apply lookup_delete_Some in H2 as [_ H2].
  exact (Hu F1 F2 Fn1 Fn2 H1 H2 Hname Hne).
Qed.

Lemma names_unique_insert (Mod Mod' : IRModule) (F : nat) (Fn : Function) :
  functions Mod' = <[F := Fn]> (functions Mod) ->
  (F_name Fn = "" \/
   forall F' Fn', functions Mod !! F' = Some Fn' -> F_name Fn' <> F_name Fn) ->
  names_unique Mod -> names_unique Mod'.
Proof.
  intros HM Hfree Hu F1 F2 Fn1 Fn2 H1 H2 Hname Hne. rewrite HM in H1, H2.
  destruct (decide (F = F1)) as [<-|D1], (decide (F = F2)) as [E2|D2].
  - exact E2.
  - rewrite lookup_insert_eq in H1. injection H1 as <-.
    rewrite lookup_insert_ne in H2 by exact D2.
    destruct Hfree as [H|H]; [contradiction|]. exfalso. apply (H F2 Fn2 H2). congruence.
  - subst F2. rewrite lookup_insert_eq in H2. injection H2 as <-.
    rewrite lookup_insert_ne in H1 by exact D1.
    destruct Hfree as [H|H]; [congruence|]. exfalso. apply (H F1 Fn1 H1). congruence.
  - rewrite lookup_insert_ne in H1 by exact D1. rewrite lookup_insert_ne in H2 by exact D2.
    exact (Hu F1 F2 Fn1 Fn2 H1 H2 Hname Hne).
Qed.

Lemma PrototypeAST_Codegen_module (P : PrototypeAST) (g : Globals) :
  names_unique (TheModule g) ->
  exists r g',
    PrototypeAST_Codegen P g = Some (r, g') /\
    names_unique (TheModule g') /\ Builder g' = Builder g /\
    match r with
    | Some F =>
        F = prototype_target P g /\
        NamedValues g' = bind_arguments F 0 (Proto_Args P) (NamedValues g) /\
        stderr g' = stderr g /\
        (forall F', F' <> F -> functions (TheModule g') !! F' = functions (TheModule g) !! F') /\
        (forall Fn0, functions (TheModule g) !! F = Some Fn0 -> F_blocks Fn0 = []) /\
        exists Fn, functions (TheModule g') !! F = Some Fn /\
                   F_name Fn = Proto_Name P /\ arg_size Fn = length (Proto_Args P) /\
                   F_blocks Fn = [] /\
                   F_verified Fn = from_option F_verified false (functions (TheModule g) !! F) /\
                   (getFunction (TheModule g) (Proto_Name P) = None ->
                    NoDup (Proto_Args P) -> F_args Fn = Proto_Args P)
    | None => TheModule g' = TheModule g /\ NamedValues g' = NamedValues g
    end.
Proof.
  intros Hu. destruct P as [Name Args]. unfold prototype_target. simpl.
  destruct (getFunction (TheModule g) Name) as [[F Fn]|] eqn:H.
  - rewrite (PrototypeAST_Codegen_taken _ _ _ _ _ H).
    pose proof (getFunction_lookup _ _ _ _ H) as (Hl & Hn & _).
    destruct (negb (Function_empty Fn)) eqn:He.
    { eexists None, _. split; [reflexivity|]. repeat split. exact Hu. }
    destruct (Nat.eqb_spec (arg_size Fn) (length Args)) as [Hlen|Hlen]; simpl.
    2:{ eexists None, _. split; [reflexivity|]. repeat split. exact Hu. }
    unfold bind.
    destruct (name_arguments_spec Args F 0%nat g)
      as (g' & -> & HN & HF & HE & HL & HC & HB & _).
    destruct (with_arguments_fields Args 0%nat Fn) as (W1 & W2 & W3 & W4).
    assert (Hb : F_blocks Fn = []).
    { unfold Function_empty in He. destruct (F_blocks Fn); [reflexivity | discriminate]. }
    exists (Some F), g'. split; [reflexivity|].
    split.
    { apply (names_unique_alter (TheModule g) (TheModule g') F (with_arguments 0 Args));
        [|exact HF | exact Hu].
      intros Fn0. apply (with_arguments_fields Args 0%nat Fn0). }
    split; [exact HB|]. split; [reflexivity|]. split; [exact HN|]. split; [exact HE|].
    split; [intros F' Hne; rewrite HF; apply lookup_alter_ne; congruence|].
    split; [intros Fn0 H0; rewrite Hl in H0; injection H0 as <-; exact Hb|].
    exists (with_arguments 0 Args Fn). rewrite HF, lookup_alter_eq, Hl.
    split; [reflexivity|]. split; [rewrite W1; exact Hn|].
    split; [rewrite W4; exact Hlen|].
    split; [rewrite W2; exact Hb|]. split; [rewrite W3; reflexivity|].
    intros Hfree. discriminate.
  - rewrite (PrototypeAST_Codegen_free _ _ _ H). unfold bind.
    set (F := new_Function (TheModule g)).
    set (Fn := mkFunction Name (replicate (length Args) "") [] false 0).
    match goal with |- context [name_arguments F 0 Args ?g1] =>
      destruct (name_arguments_spec Args F 0%nat g1)
        as (g' & -> & HN & HF & HE & HL & HC & HB & _) end.
    simpl in HF, HN, HE, HB.
    pose proof (new_Function_fresh (TheModule g)) as Hfresh. fold F in Hfresh.
    destruct (with_arguments_fields Args 0%nat Fn) as (W1 & W2 & W3 & W4).
    exists (Some F), g'. split; [reflexivity|]. split; [|split; [exact HB|]].
    { apply (names_unique_alter (mkModule (<[F := Fn]> (functions (TheModule g)))) _ F
               (with_arguments 0 Args)); [|exact HF|].
      { intros Fn0. apply (with_arguments_fields Args 0%nat Fn0). }
      apply (names_unique_insert (TheModule g)
               (mkModule (<[F := Fn]> (functions (TheModule g)))) F Fn eq_refl); [|exact Hu].
      destruct (getFunction_None _ _ H) as [->|Hno]; [left; reflexivity | right; exact Hno]. }
    split; [reflexivity|]. split; [exact HN|]. split; [exact HE|].
    split; [intros F' Hne; rewrite HF, lookup_alter_ne, lookup_insert_ne by congruence;
            reflexivity|].
    split; [intros Fn0 H0; rewrite Hfresh in H0; discriminate|].
    exists (with_arguments 0 Args Fn). rewrite HF, lookup_alter_eq, lookup_insert_eq.
    split; [reflexivity|]. split; [rewrite W1; reflexivity|].
    split; [rewrite W4; unfold arg_size, Fn; simpl; apply length_replicate|].
    split; [rewrite W2; reflexivity|].
    split; [rewrite W3, Hfresh; reflexivity|].
    intros _ Hnd. pose proof (with_arguments_fresh Args [] Fn eq_refl Hnd) as Hw.
    simpl in Hw. rewrite Hw. reflexivity.
Qed.

Lemma prototype_target_NamedValues (P : PrototypeAST) (g : Globals)
    (tbl : gmap string (option Value)) :
  prototype_target P (set_NamedValues tbl g) = prototype_target P g.
Proof. reflexivity. Qed.

(** [FunctionAST::Codegen], as far as the module is concerned. *)
Lemma FunctionAST_Codegen_module (Fn : FunctionAST) (g : Globals) :
  names_unique (TheModule g) ->
  exists r g',
    FunctionAST_Codegen Fn g = Some (r, g') /\
    names_unique (TheModule g') /\
    ((r = None /\ TheModule g' = TheModule g /\
      PrototypeAST_Codegen (Proto Fn) (set_NamedValues ∅ g) = Some (None, g')) \/
     (forall F', F' <> prototype_target (Proto Fn) g ->
        functions (TheModule g') !! F' = functions (TheModule g) !! F') /\
     (forall Fn0, functions (TheModule g) !! prototype_target (Proto Fn) g = Some Fn0 ->
        F_blocks Fn0 = []) /\
     ((r = None /\ functions (TheModule g') !! prototype_target (Proto Fn) g = None) \/
      (r = Some (prototype_target (Proto Fn) g) /\
       exists body V Fn',
         functions (TheModule g') !! prototype_target (Proto Fn) g = Some Fn' /\
         F_name Fn' = Proto_Name (Proto Fn) /\
         arg_size Fn' = length (Proto_Args (Proto Fn)) /\
         F_blocks Fn' = [body ++ [Ret V]] /\ F_verified Fn' = true /\
         Forall is_Inst body /\
         (getFunction (TheModule g) (Proto_Name (Proto Fn)) = None ->
          NoDup (Proto_Args (Proto Fn)) -> F_args Fn' = Proto_Args (Proto Fn))))).
Proof.
  intros Hu. rewrite FunctionAST_Codegen_phases.
  unfold enter_function, bind, modify.
  destruct (PrototypeAST_Codegen_module (Proto Fn) (set_NamedValues ∅ g) Hu)
    as (r & g1 & HP & Hu1 & HB1 & Hr).
  rewrite HP.
  destruct r as [F|].
  2:{ destruct Hr as [HM _]. exists None, g1. split; [reflexivity|].
      split; [exact Hu1|]. left. split; [reflexivity|]. split; [exact HM | reflexivity]. }
  destruct Hr as (HF & _ & _ & Hothers & Hempty & Fn1 & HF1 & Hname & Hargs & Hblocks & _
                  & Hnames).
  rewrite prototype_target_NamedValues in HF. rewrite <- HF. clear HF.
  simpl in Hothers, Hempty, Hnames.
  unfold BasicBlock_Create, bind, get, update_function, set_functions, modify,
    SetInsertPoint, ret. simpl. rewrite HF1. simpl. rewrite Hblocks. simpl.
  set (fB := fun Fn0 : Function =>
               mkFunction (F_name Fn0) (F_args Fn0) (F_blocks Fn0 ++ [[]]) (F_verified Fn0)
                          (F_LastUnique Fn0)).
  set (gB := set_Builder (Some (F, 0%nat))
               (set_TheModule (mkModule (alter fB F (functions (TheModule g1)))) g1)).
  destruct (Codegen_emitted (Body Fn) gB) as (rv & g2 & new & errs & Hc & He & Hnew & _).
  rewrite Hc.
  pose proof (emitted_functions _ _ _ _ He) as HM2. simpl in HM2.
  pose proof (emitted_Builder _ _ _ _ He) as HB2. simpl in HB2.
  assert (HuB : names_unique (TheModule gB)).
  { apply (names_unique_alter (TheModule g1) (TheModule gB) F fB);
      [intros; reflexivity | reflexivity | exact Hu1]. }
  pose proof (emitted_names_unique _ _ _ _ He HuB) as Hu2.
  assert (Hothers2 : forall F', F' <> F ->
            functions (TheModule g2) !! F' = functions (TheModule g) !! F').
  { intros F' Hne. rewrite HM2, !lookup_alter_ne by congruence. apply Hothers, Hne. }
  assert (HF2 : functions (TheModule g2) !! F =
                Some (mkFunction (F_name Fn1) (F_args Fn1) [new] (F_verified Fn1)
                                 (F_LastUnique Fn1))).
  { rewrite HM2, !lookup_alter_eq, HF1. simpl. unfold append_block. simpl.
    rewrite Hblocks. reflexivity. }
  destruct rv as [V|].
  - destruct (finish_function_success F 0 V g2 HB2) as (g3 & -> & HM3 & _).
    exists (Some F), g3. split; [reflexivity|]. split.
    { eapply (names_unique_alter (TheModule g2) _ F); [|exact HM3 | exact Hu2].
      intros; reflexivity. }
    right. split; [|split; [exact Hempty|]].
    + intros F' Hne. rewrite HM3, lookup_alter_ne by congruence. apply Hothers2, Hne.
    + right. split; [reflexivity|].
      exists new, V, (mkFunction (F_name Fn1) (F_args Fn1) [new ++ [Ret V]] true
                                 (F_LastUnique Fn1)).
      split; [rewrite HM3, lookup_alter_eq, HF2; reflexivity|].
      split; [exact Hname|]. split; [exact Hargs|]. split; [reflexivity|].
      split; [reflexivity|]. split; [exact Hnew | exact Hnames].
  - destruct (finish_function_failure F g2) as (g3 & -> & HM3 & _).
    exists None, g3. split; [reflexivity|]. split.
    { apply (names_unique_delete (TheModule g2) _ F); [exact HM3 | exact Hu2]. }
    right. split; [|split; [exact Hempty|]].
    + intros F' Hne. rewrite HM3, lookup_delete_ne by congruence. apply Hothers2, Hne.
    + left. split; [reflexivity|]. rewrite HM3. apply lookup_delete_eq.
Qed.

Lemma complete_declaration (Fn : Function) :
  complete Fn -> F_blocks Fn = [] -> F_verified Fn = false.
Proof.
  intros [[_ H]|(body & V & Hb & _)] He; [exact H|]. rewrite He in Hb. discriminate.
Qed.

Lemma PrototypeAST_Codegen_ok (P : PrototypeAST) (g : Globals) (r : option nat)
    (g' : Globals) :
  module_ok (TheModule g) -> PrototypeAST_Codegen P g = Some (r, g') ->
  module_ok (TheModule g').
Proof.
  intros [Hu Hc] E.
  destruct (PrototypeAST_Codegen_module P g Hu) as (r0 & g0 & E0 & Hu' & _ & Hr).
  rewrite E in E0. injection E0 as <- <-. split; [exact Hu'|].
  destruct r as [F|].
  - destruct Hr as (_ & _ & _ & Hothers & Hempty & Fn & HF & _ & _ & Hb & Hv & _).
    intros F' Fn' H'. destruct (decide (F' = F)) as [->|Hne].
    + rewrite HF in H'. injection H' as <-. left. split; [exact Hb|].
      rewrite Hv. destruct (functions (TheModule g) !! F) as [Fn0|] eqn:E0; [|reflexivity].
      simpl. exact (complete_declaration Fn0 (Hc F Fn0 E0) (Hempty Fn0 eq_refl)).
    + rewrite (Hothers F' Hne) in H'. exact (Hc F' Fn' H').
  - destruct Hr as [-> _]. exact Hc.
Qed.

Lemma FunctionAST_Codegen_ok (Fn : FunctionAST) (g : Globals) (r : option nat)
    (g' : Globals) :
  module_ok (TheModule g) -> FunctionAST_Codegen Fn g = Some (r, g') ->
  module_ok (TheModule g').
Proof.
  intros [Hu Hc] E.
  destruct (FunctionAST_Codegen_module Fn g Hu) as (r0 & g0 & E0 & Hu' & Hr).
  rewrite E in E0. injection E0 as <- <-. split; [exact Hu'|].
  destruct Hr as [(_ & -> & _)|(Hothers & _ & Hr)]; [exact Hc|].
  intros F' Fn' H'.
  destruct (decide (F' = prototype_target (Proto Fn) g)) as [->|Hne].
  - destruct Hr as [[_ HN]|(_ & body & V & Fn0 & HF & _ & _ & Hblocks & Hv & Hbody & _)];
      [congruence|].
    rewrite HF in H'. injection H' as <-. right. exists body, V. auto.
  - rewrite (Hothers F' Hne) in H'. exact (Hc F' Fn' H').
Qed.

(** C8. When the prototype of a function has lowered, [FunctionAST::Codegen]
    makes the entry block, the only block of the function, and lowers the
    body into it.  When the body does not lower, the function is erased from
    the module and the result is null; the behaviour of the erasure is
    undefined when another function still calls the function.  When the body
    lowers, the function is the result: its one block holds the instructions
    that the body has inserted and then the [ret] of the value, and it is
    verified; the other functions are as the body left them.  When the prototype does not
    lower, the result is null and no function is made. *)
Theorem FunctionAST_Codegen_erases_on_failure :
  (forall Fn g F g1,
     PrototypeAST_Codegen (Proto Fn) (set_NamedValues ∅ g) = Some (Some F, g1) ->
     exists gB RetVal g2,
       (do BB <- BasicBlock_Create F; SetInsertPoint BB) g1 = Some (tt, gB) /\
       (exists FnB, functions (TheModule gB) !! F = Some FnB /\ F_blocks FnB = [[]]) /\
       Codegen (Body Fn) gB = Some (RetVal, g2) /\
       match RetVal with
       | None =>
           exists g',
             FunctionAST_Codegen Fn g = Some (None, g') /\
             functions (TheModule g') = delete F (functions (TheModule g2)) /\
             functions (TheModule g') !! F = None /\
             undefined g' = undefined g2 || used F (TheModule g2)
       | Some V =>
           exists g' body Fn2,
             FunctionAST_Codegen Fn g = Some (Some F, g') /\
             Forall is_Inst body /\
             functions (TheModule g2) !! F = Some Fn2 /\
             F_name Fn2 = Proto_Name (Proto Fn) /\ F_blocks Fn2 = [body] /\
             functions (TheModule g') =
               <[F := mkFunction (F_name Fn2) (F_args Fn2) [body ++ [Ret V]] true
                                 (F_LastUnique Fn2)]> (functions (TheModule g2)) /\
             undefined g' = undefined g2
       end) /\
  (forall Fn g g1,
     PrototypeAST_Codegen (Proto Fn) (set_NamedValues ∅ g) = Some (None, g1) ->
     FunctionAST_Codegen Fn g = Some (None, g1) /\ TheModule g1 = TheModule g).
Proof.
  split.
  - intros Fn g F g1 HP.
    destruct (FunctionAST_Codegen_body Fn g F g1 HP)
      as (gB & RetVal & g2 & g' & HB & _ & HBld & _ & (FnB & HFnB & Hname & Hblocks) &
          HC & _ & HF & _ & _ & Hr).
    exists gB, RetVal, g2. split; [exact HB|]. split; [eauto|]. split; [exact HC|].
    destruct RetVal as [V|].
    + destruct Hr as [HM HU].
      destruct (Codegen_emitted (Body Fn) gB) as (r0 & g3 & new & errs & Hc & He & Hnew & _).
      rewrite HC in Hc. injection Hc as <- <-.
      pose proof (emitted_functions _ _ _ _ He) as HM2. rewrite HBld in HM2. simpl in HM2.
      assert (HF2 : functions (TheModule g2) !! F = Some (append_block new 0 FnB)).
      { rewrite HM2, lookup_alter_eq, HFnB. reflexivity. }
      exists g', new, (append_block new 0 FnB).
      split; [exact HF|]. split; [exact Hnew|]. split; [exact HF2|].
      split; [exact Hname|]. split; [simpl; rewrite Hblocks; reflexivity|].
      split; [|exact HU].
      rewrite HM. apply map_eq. intros F'. destruct (decide (F = F')) as [<-|Hne].
      * rewrite lookup_alter_eq, lookup_insert_eq, HF2. simpl. rewrite Hblocks.
        reflexivity.
      * rewrite lookup_alter_ne, lookup_insert_ne by exact Hne. reflexivity.
    + destruct Hr as [HM HU]. exists g'. split; [exact HF|]. split; [exact HM|].
      split; [rewrite HM; apply lookup_delete_eq | exact HU].
  - intros Fn g g1 HP. split; [exact (FunctionAST_Codegen_no_prototype Fn g g1 HP)|].
    destruct (PrototypeAST_Codegen_spec (Proto Fn) (set_NamedValues ∅ g))
      as (r & g0 & E & _ & _ & Hr).
    rewrite HP in E. injection E as <- <-. apply Hr.
Qed.

Lemma FunctionAST_Codegen_erases_on_failure_witness :
  exists g',
    FunctionAST_Codegen (mkFunctionAST (mkPrototypeAST "f" ["x"]) (VariableExprAST "y"))
                        (startup "") = Some (None, g') /\
    functions (TheModule g') !! 0%nat = None.
Proof.
  destruct FunctionAST_Codegen_erases_on_failure as [H _].
  match eval vm_compute in
    (PrototypeAST_Codegen (mkPrototypeAST "f" ["x"]) (set_NamedValues ∅ (startup ""))) with
  | Some (_, ?g1) =>
      destruct (H (mkFunctionAST (mkPrototypeAST "f" ["x"]) (VariableExprAST "y"))
                  (startup "") 0%nat g1) as (gB & RetVal & g2 & HB & _ & HC & Hcase);
        [vm_compute; reflexivity|]
  end.
  vm_compute in HB. injection HB as <-.
  vm_compute in HC. injection HC as <- <-.
  destruct Hcase as (g' & Hres & _ & Hgone & _). exists g'. split; assumption.
Defined.

(** ** Calls and the functions they call *)

Lemma is_Some_alter (f : Function -> Function) (F G : nat) (fs : gmap nat Function) :
  is_Some (alter f F fs !! G) <-> is_Some (fs !! G).
Proof.
  destruct (decide (F = G)) as [<-|Hne].
  - rewrite lookup_alter_eq. destruct (fs !! F); simpl; split; intros [x H];
      eauto; discriminate.
  - rewrite lookup_alter_ne by exact Hne. reflexivity.
Qed.

Lemma callees_blocks (Fn Fn' : Function) :
  F_blocks Fn' = F_blocks Fn -> callees Fn' = callees Fn.
Proof. unfold callees. intros ->. reflexivity. Qed.


Lemma calls_resolve_alter (Mod Mod' : IRModule) (F : nat) (f : Function -> Function) :
  (forall Fn G, functions Mod !! F = Some Fn -> In G (callees (f Fn)) ->
                In G (callees Fn) \/ is_Some (functions Mod !! G)) ->
  functions Mod' = alter f F (functions Mod) ->
  calls_resolve Mod -> calls_resolve Mod'.
Proof.
  intros Hf HM Hc F' Fn' G HF' HG. rewrite HM in HF' |- *. apply is_Some_alter.
  destruct (decide (F = F')) as [<-|Hne].
  - rewrite lookup_alter_eq in HF'.
    destruct (functions Mod !! F) as [Fn|] eqn:E; [|discriminate].
    injection HF' as <-.
    destruct (Hf Fn G eq_refl HG) as [H|H]; [exact (Hc F Fn G E H) | exact H].
  - rewrite lookup_alter_ne in HF' by exact Hne. exact (Hc F' Fn' G HF' HG).
Qed.

Lemma calls_resolve_insert (Mod Mod' : IRModule) (F : nat) (Fn : Function) :
  callees Fn = [] ->
  functions Mod' = <[F := Fn]> (functions Mod) ->
  calls_resolve Mod -> calls_resolve Mod'.
Proof.
  intros Hn HM Hc F' Fn' G HF' HG. rewrite HM in HF' |- *.
  destruct (decide (F = F')) as [<-|Hne].
  - rewrite lookup_insert_eq in HF'. injection HF' as <-. rewrite Hn in HG.
    destruct HG.
  - rewrite lookup_insert_ne in HF' by exact Hne.
    destruct (decide (F = G)) as [<-|HneG].
    + rewrite lookup_insert_eq. eauto.
    + rewrite lookup_insert_ne by exact HneG. exact (Hc F' Fn' G HF' HG).
Qed.


(** Whether [F] is used depends on the other functions only. *)
Lemma used_others (F : nat) (Mod Mod' : IRModule) :
  (forall F', F' <> F -> functions Mod' !! F' = functions Mod !! F') ->
  used F Mod' = used F Mod.
Proof.
  intros H. apply eq_true_iff_eq. rewrite !used_spec.
  split; intros (F' & Fn & Hl & Hne & Hc); exists F', Fn;
    (split; [|split; assumption]); [rewrite <- (H F' Hne) | rewrite (H F' Hne)];
    exact Hl.
Qed.











(** [PrototypeAST::Codegen] leaves [undefined] as it is and the calls
    resolved. *)
Lemma PrototypeAST_Codegen_calls (P : PrototypeAST) (g : Globals) (r : option nat)
    (g' : Globals) :
  PrototypeAST_Codegen P g = Some (r, g') ->
  undefined g' = undefined g /\
  (calls_resolve (TheModule g) -> calls_resolve (TheModule g')).
Proof.
  destruct P as [Name Args]. intros E.
  destruct (getFunction (TheModule g) Name) as [[F Fn]|] eqn:H.
  - rewrite (PrototypeAST_Codegen_taken _ _ _ _ _ H) in E.
    destruct (negb (Function_empty Fn)).
    { injection E as _ <-. split; [reflexivity | trivial]. }
    destruct (negb (arg_size Fn =? length Args)%nat).
    { injection E as _ <-. split; [reflexivity | trivial]. }
    unfold bind in E.
    destruct (name_arguments_spec Args F 0%nat g)
      as (g1 & H1 & _ & HF & _ & _ & _ & _ & _ & HU).
    rewrite H1 in E. injection E as _ <-. split; [exact HU|].
    apply (calls_resolve_alter (TheModule g) (TheModule g1) F (with_arguments 0 Args));
      [|exact HF].
    intros Fn0 G _ HG. left.
    rewrite (callees_blocks Fn0 (with_arguments 0 Args Fn0)) in HG; [exact HG|].
    apply (with_arguments_fields Args 0%nat Fn0).
  - rewrite (PrototypeAST_Codegen_free _ _ _ H) in E. unfold bind in E.
    match type of E with context [name_arguments ?F 0 Args ?gI] =>
      destruct (name_arguments_spec Args F 0%nat gI)
        as (g1 & H1 & _ & HF & _ & _ & _ & _ & _ & HU);
      rewrite H1 in E; injection E as _ <-; split; [exact HU|];
      intros Hc;
      apply (calls_resolve_alter (TheModule gI) (TheModule g1) F (with_arguments 0 Args));
        [|exact HF|]
    end.
    + intros Fn0 G _ HG. left.
      rewrite (callees_blocks Fn0 (with_arguments 0 Args Fn0)) in HG; [exact HG|].
      apply (with_arguments_fields Args 0%nat Fn0).
    + eapply calls_resolve_insert; [|reflexivity | exact Hc]. reflexivity.
Qed.



(** ** What the parser leaves alone *)

Section ParserFrame.

Variable P : Globals -> Prop.
Hypothesis HP : parser_stable P.

Lemma keeps_ret {A} (a : A) : keeps P (ret a).
Proof. apply hoare_ret. trivial. Qed.

Lemma keeps_bind {A B} (m : M A) (k : A -> M B) :
  keeps P m -> (forall a, keeps P (k a)) -> keeps P (bind m k).
Proof. intros Hm Hk. exact (hoare_bind P m (fun _ => P) k (fun _ => P) Hm Hk). Qed.

Lemma keeps_get {A} (f : Globals -> A) : keeps P (get f).
Proof. apply hoare_get. trivial. Qed.

Lemma keeps_getNextToken : keeps P getNextToken.
Proof. apply hoare_getNextToken. intros g tok lx Hg _. apply HP, Hg. Qed.

Lemma keeps_GetTokPrecedence : keeps P GetTokPrecedence.
Proof. apply hoare_GetTokPrecedence. intros g tbl Hg _. apply HP, Hg. Qed.

Lemma keeps_Error {A} (Str : string) : keeps P (@Error A Str).
Proof. apply hoare_Error. intros g Hg. apply HP, Hg. Qed.

Lemma keeps_fprintf (s : string) : keeps P (fprintf_stderr s).
Proof. apply hoare_modify. intros g Hg. apply HP, Hg. Qed.

Lemma keeps_out_of_fuel {A} : keeps P (@out_of_fuel A).
Proof. apply hoare_out_of_fuel. Qed.

Lemma parser_frame (fuel : nat) :
  keeps P (ParseExpression fuel) /\ keeps P (ParsePrimary fuel) /\
  keeps P (ParseParenExpr fuel) /\ keeps P (ParseIdentifierExpr fuel) /\
  (forall Args, keeps P (ParseArgs fuel Args)) /\
  (forall ExprPrec LHS, keeps P (ParseBinOpRHS fuel ExprPrec LHS)).
Proof.
  induction fuel as [|fuel (IHE & IHP & IHPar & IHId & IHArgs & IHBin)].
  { repeat split; intros; apply keeps_out_of_fuel. }
  split; [|split; [|split; [|split; [|split]]]].
  - rewrite ParseExpression_S. apply keeps_bind; [exact IHP|].
    intros [LHS|]; [apply IHBin | apply keeps_ret].
  - rewrite ParsePrimary_S. apply keeps_bind; [apply keeps_get|]. intros tok.
    destruct (tok =? tok_identifier); [exact IHId|].
    destruct (tok =? tok_number).
    { unfold ParseNumberExpr. apply keeps_bind; [apply keeps_get|]. intros Val.
      apply keeps_bind; [apply keeps_getNextToken|]. intros ?. apply keeps_ret. }
    destruct (tok =? ch "("); [exact IHPar | apply keeps_Error].
  - rewrite ParseParenExpr_S. apply keeps_bind; [apply keeps_getNextToken|]. intros ?.
    apply keeps_bind; [exact IHE|]. intros [V|]; [|apply keeps_ret].
    apply keeps_bind; [apply keeps_get|]. intros tok.
    destruct (negb (tok =? ch ")")); [apply keeps_Error|].
    apply keeps_bind; [apply keeps_getNextToken|]. intros ?. apply keeps_ret.
  - rewrite ParseIdentifierExpr_S. apply keeps_bind; [apply keeps_get|]. intros IdName.
    apply keeps_bind; [apply keeps_getNextToken|]. intros ?.
    apply keeps_bind; [apply keeps_get|]. intros tok.
    destruct (negb (tok =? ch "(")); [apply keeps_ret|].
    apply keeps_bind; [apply keeps_getNextToken|]. intros ?.
    apply keeps_bind; [apply keeps_get|]. intros tok'.
    apply keeps_bind.
    { destruct (negb (tok' =? ch ")")); [apply IHArgs | apply keeps_ret]. }
    intros [Args|]; [|apply keeps_ret].
    apply keeps_bind; [apply keeps_getNextToken|]. intros ?. apply keeps_ret.
  - intros Args. rewrite ParseArgs_S. apply keeps_bind; [exact IHE|].
    intros [Arg|]; [|apply keeps_ret]. cbv zeta.
    apply keeps_bind; [apply keeps_get|]. intros tok.
    destruct (tok =? ch ")"); [apply keeps_ret|].
    destruct (negb (tok =? ch ",")); [apply keeps_Error|].
    apply keeps_bind; [apply keeps_getNextToken|]. intros ?. apply IHArgs.
  - intros ExprPrec LHS. rewrite ParseBinOpRHS_S.
    apply keeps_bind; [apply keeps_GetTokPrecedence|]. intros TokPrec.
    destruct (TokPrec <? ExprPrec); [apply keeps_ret|].
    apply keeps_bind; [apply keeps_get|]. intros BinOp.
    apply keeps_bind; [apply keeps_getNextToken|]. intros ?.
    apply keeps_bind; [exact IHP|]. intros [RHS|]; [|apply keeps_ret].
    apply keeps_bind; [apply keeps_GetTokPrecedence|]. intros NextPrec.
    apply keeps_bind.
    { destruct (TokPrec <? NextPrec); [apply IHBin | apply keeps_ret]. }
    intros [RHS'|]; [apply IHBin | apply keeps_ret].
Qed.

Lemma keeps_ParsePrototype_args (fuel : nat) :
  forall ArgNames, keeps P (ParsePrototype_args fuel ArgNames).
Proof.
  induction fuel as [|fuel IH]; intros ArgNames; [apply keeps_out_of_fuel|].
  simpl. apply keeps_bind; [apply keeps_getNextToken|]. intros tok.
  destruct (tok =? tok_identifier); [|apply keeps_ret].
  apply keeps_bind; [apply keeps_get|]. intros Id. apply IH.
Qed.

Lemma keeps_ParsePrototype (fuel : nat) : keeps P (ParsePrototype fuel).
Proof.
  unfold ParsePrototype. apply keeps_bind; [apply keeps_get|]. intros tok.
  destruct (negb (tok =? tok_identifier)); [apply keeps_Error|].
  apply keeps_bind; [apply keeps_get|]. intros FnName.
  apply keeps_bind; [apply keeps_getNextToken|]. intros ?.
  apply keeps_bind; [apply keeps_get|]. intros tok'.
  destruct (negb (tok' =? ch "(")); [apply keeps_Error|].
  apply keeps_bind; [apply keeps_ParsePrototype_args|]. intros ArgNames.
  apply keeps_bind; [apply keeps_get|]. intros tok''.
  destruct (negb (tok'' =? ch ")")); [apply keeps_Error|].
  apply keeps_bind; [apply keeps_getNextToken|]. intros ?. apply keeps_ret.
Qed.

Lemma keeps_ParseDefinition (fuel : nat) : keeps P (ParseDefinition fuel).
Proof.
  unfold ParseDefinition. apply keeps_bind; [apply keeps_getNextToken|]. intros ?.
  apply keeps_bind; [apply keeps_ParsePrototype|]. intros [Pr|]; [|apply keeps_ret].
  apply keeps_bind; [apply parser_frame|]. intros [E|]; apply keeps_ret.
Qed.

Lemma keeps_ParseExtern (fuel : nat) : keeps P (ParseExtern fuel).
Proof.
  unfold ParseExtern. apply keeps_bind; [apply keeps_getNextToken|]. intros ?.
  apply keeps_ParsePrototype.
Qed.

Lemma keeps_ParseTopLevelExpr (fuel : nat) : keeps P (ParseTopLevelExpr fuel).
Proof.
  unfold ParseTopLevelExpr. apply keeps_bind; [apply parser_frame|].
  intros [E|]; apply keeps_ret.
Qed.

(** The driver, given that lowering keeps [P] too. *)
Hypothesis HFunction : forall Fn, keeps P (FunctionAST_Codegen Fn).
Hypothesis HPrototype : forall Pr, keeps P (PrototypeAST_Codegen Pr).

Lemma keeps_dump (F : nat) : keeps P (dump F).
Proof. apply hoare_modify. intros g Hg. apply HP, Hg. Qed.

Lemma keeps_HandleDefinition (fuel : nat) : keeps P (HandleDefinition fuel).
Proof.
  unfold HandleDefinition. apply keeps_bind; [apply keeps_ParseDefinition|].
  intros [FnAST|].
  - apply keeps_bind; [apply HFunction|]. intros [FnIR|]; [|apply keeps_ret].
    apply keeps_bind; [apply keeps_fprintf|]. intros ?. apply keeps_dump.
  - apply keeps_bind; [apply keeps_getNextToken|]. intros ?. apply keeps_ret.
Qed.

Lemma keeps_HandleExtern (fuel : nat) : keeps P (HandleExtern fuel).
Proof.
  unfold HandleExtern. apply keeps_bind; [apply keeps_ParseExtern|].
  intros [ProtoAST|].
  - apply keeps_bind; [apply HPrototype|]. intros [FnIR|]; [|apply keeps_ret].
    apply keeps_bind; [apply keeps_fprintf|]. intros ?. apply keeps_dump.
  - apply keeps_bind; [apply keeps_getNextToken|]. intros ?. apply keeps_ret.
Qed.

Lemma keeps_HandleTopLevelExpression (fuel : nat) :
  keeps P (HandleTopLevelExpression fuel).
Proof.
  unfold HandleTopLevelExpression. apply keeps_bind; [apply keeps_ParseTopLevelExpr|].
  intros [FnAST|].
  - apply keeps_bind; [apply HFunction|]. intros [FnIR|]; [|apply keeps_ret].
    apply keeps_bind; [apply keeps_fprintf|]. intros ?. apply keeps_dump.
  - apply keeps_bind; [apply keeps_getNextToken|]. intros ?. apply keeps_ret.
Qed.

Lemma keeps_MainLoop (fuel : nat) : keeps P (MainLoop fuel).
Proof.
  induction fuel as [|fuel IH]; [apply keeps_out_of_fuel|].
  simpl. apply keeps_bind; [apply keeps_fprintf|]. intros ?.
  apply keeps_bind; [apply keeps_get|]. intros tok.
  destruct (tok =? tok_eof); [apply keeps_ret|].
  destruct (tok =? ch ";").
  { apply keeps_bind; [apply keeps_getNextToken|]. intros ?. exact IH. }
  destruct (tok =? tok_def).
  { apply keeps_bind; [apply keeps_HandleDefinition|]. intros ?. exact IH. }
  destruct (tok =? tok_extern).
  { apply keeps_bind; [apply keeps_HandleExtern|]. intros ?. exact IH. }
  apply keeps_bind; [apply keeps_HandleTopLevelExpression|]. intros ?. exact IH.
Qed.

End ParserFrame.

(** ** The module that a session leaves *)

Lemma module_ok_stable : parser_stable (fun g => module_ok (TheModule g)).
Proof.
  split; [|split].
  - intros g tok lx Hg. exact Hg.
  - intros g tbl Hg. exact Hg.
  - intros g o Hg. exact Hg.
Qed.

Lemma module_ok_empty : module_ok (mkModule ∅).
Proof.
  split.
  - intros F1 F2 Fn1 Fn2 H. simpl in H. rewrite lookup_empty in H. discriminate.
  - intros F Fn H. simpl in H. rewrite lookup_empty in H. discriminate.
Qed.

Lemma main_keeps_module_ok (fuel : nat) :
  hoare (fun _ => True) (main fuel) (fun _ g => module_ok (TheModule g)).
Proof.
  unfold main.
  eapply hoare_bind with (Q := fun _ _ => True); [intros g r g' _ _; exact I|]. intros ?.
  eapply hoare_bind with (Q := fun _ _ => True); [intros g r g' _ _; exact I|]. intros ?.
  eapply hoare_bind with (Q := fun _ _ => True); [intros g r g' _ _; exact I|]. intros ?.
  eapply hoare_bind with (Q := fun _ g => module_ok (TheModule g)).
  { apply hoare_modify. intros g _. exact module_ok_empty. }
  intros ?.
  eapply hoare_bind with (Q := fun _ g => module_ok (TheModule g)).
  { apply (keeps_MainLoop _ module_ok_stable).
    - intros Fn g r g' Hg E. exact (FunctionAST_Codegen_ok Fn g r g' Hg E).
    - intros Pr g r g' Hg E. exact (PrototypeAST_Codegen_ok Pr g r g' Hg E). }
  intros ?. apply hoare_modify. intros g Hg. exact Hg.
Qed.



(** [undefined], once set, stays set. *)
Lemma keeps_undefined {A} (m : M A) :
  (forall g r g', m g = Some (r, g') -> undefined g' = undefined g) ->
  keeps (fun g => undefined g = true) m.
Proof. intros H g r g' Hg E. rewrite (H g r g' E). exact Hg. Qed.

Lemma keeps_undefined_update_function (F : nat) (f : Function -> Function) :
  keeps (fun g => undefined g = true) (update_function F f).
Proof.
  apply keeps_undefined. intros g r g' E.
  unfold update_function, bind, get, set_functions, modify in E.
  injection E as _ <-. reflexivity.
Qed.

Lemma keeps_undefined_FunctionAST_Codegen (Fn : FunctionAST) :
  keeps (fun g => undefined g = true) (FunctionAST_Codegen Fn).
Proof.
  unfold keeps, FunctionAST_Codegen.
  eapply hoare_bind with (Q := fun _ g => undefined g = true).
  { apply hoare_modify. intros g H. exact H. }
  intros [].
  eapply hoare_bind with (Q := fun _ g => undefined g = true).
  { apply keeps_undefined. intros g r g' E.
    apply (PrototypeAST_Codegen_calls _ _ _ _ E). }
  intros [F|]; [|apply hoare_ret; trivial].
  eapply hoare_bind with (Q := fun _ g => undefined g = true).
  { unfold BasicBlock_Create. apply hoare_read_keep. intros Mod.
    eapply hoare_bind with (Q := fun _ g => undefined g = true).
    - apply keeps_undefined_update_function.
    - intros []. apply hoare_ret. trivial. }
  intros BB.
  eapply hoare_bind with (Q := fun _ g => undefined g = true).
  { apply hoare_modify. intros g H. exact H. }
  intros [].
  eapply hoare_bind with (Q := fun _ g => undefined g = true).
  { apply keeps_undefined. intros g r g' E.
    destruct (Codegen_emitted (Body Fn) g) as (r0 & g0 & new & errs & Hc & He & _).
    rewrite E in Hc. injection Hc as <- <-. exact (emitted_undefined _ _ _ _ He). }
  intros [V|].
  - eapply hoare_bind with (Q := fun _ g => undefined g = true).
    { unfold CreateRet, Insert. apply hoare_read_keep. intros [[F' BB']|].
      - apply keeps_undefined_update_function.
      - apply hoare_ret. trivial. }
    intros [].
    eapply hoare_bind with (Q := fun _ g => undefined g = true).
    { apply keeps_undefined_update_function. }
    intros []. apply hoare_ret. trivial.
  - eapply hoare_bind with (Q := fun _ g => undefined g = true).
    { intros g r g' Hg E.
      unfold eraseFromParent, bind, get, set_functions, modify, ret in E.
      destruct (used F (TheModule g)); injection E as _ <-; [reflexivity | exact Hg]. }
    intros []. apply hoare_ret. trivial.
Qed.

Lemma MainLoop_keeps_undefined (fuel : nat) :
  keeps (fun g => undefined g = true) (MainLoop fuel).
Proof.
  apply keeps_MainLoop.
  - split; [|split]; intros; assumption.
  - intros Fn g r g' Hg E. exact (keeps_undefined_FunctionAST_Codegen Fn g r g' Hg E).
  - intros Pr g r g' Hg E. rewrite <- Hg.
    apply (PrototypeAST_Codegen_calls _ _ _ _ E).
Qed.

Lemma session_module_ok (fuel : nat) (input : string) :
  module_ok (TheModule (session fuel input)).
Proof.
  unfold session. destruct (main fuel (startup input)) as [[[] g]|] eqn:E.
  - exact (main_keeps_module_ok fuel (startup input) tt g I E).
  - exact module_ok_empty.
Qed.

(** X14. Lowering an expression, whether it succeeds or fails, only appends
    instructions, none of them a ret, to the end of the block the builder
    points at; the other blocks and functions, the builder, the lexer, the
    current token and the precedence table stay as they are. Instructions
    inserted before a failure stay in the block. *)
Theorem Codegen_appends (e : ExprAST) (g : Globals) :
  exists r g' new,
    Codegen e g = Some (r, g') /\
    Forall is_Inst new /\
    functions (TheModule g') = emit (Builder g) new (functions (TheModule g)) /\
    Builder g' = Builder g /\ lexer g' = lexer g /\ CurTok g' = CurTok g /\
    BinopPrecedence g' = BinopPrecedence g.
Proof.
  destruct (Codegen_emitted e g) as (r & g' & new & errs & Hc & He & Hnew & _).
  exists r, g', new. split; [exact Hc|]. split; [exact Hnew|].
  destruct He as [L C P B M _ _]. auto.
Qed.

(** X15. Lowering an expression returns null exactly when it has printed an
    error; what it prints on stderr is only lines of the four messages Unkown
    variable name, unkown function referenced, Incorrect # argmuments passed
    and invalid binary operator, and the last of these never for a tree whose
    operators are the installed ones. *)
Theorem Codegen_reports (e : ExprAST) (g : Globals) :
  exists r g' errs,
    Codegen e g = Some (r, g') /\
    stderr g' = stderr g ++ errs /\
    (r = None <-> errs <> []) /\
    Forall (reported_by e) errs /\
    (operators_installed e -> error_line "invalid binary operator" ∉ errs).
Proof.
  destruct (Codegen_emitted e g) as (r & g' & new & errs & Hc & He & _ & Hrep & Hr).
  exists r, g', errs. split; [exact Hc|]. split; [exact (emitted_stderr _ _ _ _ He)|].
  split; [|split; [exact Hrep|]].
  - split.
    + intros -> E. apply Hr in E. destruct E as [x Hx]. discriminate.
    + intros Hne. destruct r as [V|]; [|reflexivity].
      exfalso. apply Hne, Hr. eauto.
  - intros Hop Hin. rewrite Forall_forall in Hrep.
    destruct (Hrep _ Hin) as [H|[H|[H|[_ H]]]]; try discriminate.
    exact (H Hop).
Qed.

(** X16. In a module whose functions have different names, lowering an
    expression returns a value if and only if every variable of it is bound to
    a value in NamedValues, every callee is a function of the module with as
    many parameters as the call has arguments, and every operator is one of
    the four installed ones. *)
Theorem Codegen_succeeds_iff (e : ExprAST) (g : Globals) :
  names_unique (TheModule g) ->
  exists r g', Codegen e g = Some (r, g') /\ (is_Some r <-> lowers g e).
Proof.
  intros Hu. destruct (Codegen_emitted e g) as (r & g' & new & errs & Hc & _).
  exists r, g'. split; [exact Hc|]. exact (Codegen_lowers e g r g' Hu Hc).
Qed.

Lemma Codegen_succeeds_iff_witness :
  exists r g',
    Codegen (CallExprAST "sin" [NumberExprAST (strtod "1")]) (session 20 "extern sin(x)")
      = Some (r, g') /\
    (is_Some r <->
     lowers (session 20 "extern sin(x)") (CallExprAST "sin" [NumberExprAST (strtod "1")])).
Proof.
  apply (Codegen_succeeds_iff (CallExprAST "sin" [NumberExprAST (strtod "1")])
           (session 20 "extern sin(x)")).
  apply session_module_ok.
Defined.



(** X18. In a module whose functions have different names: after
    PrototypeAST::Codegen succeeds for a non-empty name, getFunction finds
    under that name the function returned, with as many parameters as the
    prototype and no body; after FunctionAST::Codegen succeeds, it finds the
    function returned, with a body, verified.  The parameters have the names
    of the prototype when the name was free and the names of the prototype
    are different from each other.  The empty name, which anonymous top-level
    expressions have, is never found, nor is a name that no function has. *)
Theorem getFunction_after_Codegen :
  (forall P g F g',
     names_unique (TheModule g) -> Proto_Name P <> "" ->
     PrototypeAST_Codegen P g = Some (Some F, g') ->
     exists Fn, getFunction (TheModule g') (Proto_Name P) = Some (F, Fn) /\
                arg_size Fn = length (Proto_Args P) /\ Function_empty Fn = true /\
                (getFunction (TheModule g) (Proto_Name P) = None ->
                 NoDup (Proto_Args P) -> F_args Fn = Proto_Args P)) /\
  (forall Fn g F g',
     names_unique (TheModule g) -> Proto_Name (Proto Fn) <> "" ->
     FunctionAST_Codegen Fn g = Some (Some F, g') ->
     exists Fn', getFunction (TheModule g') (Proto_Name (Proto Fn)) = Some (F, Fn') /\
                 arg_size Fn' = length (Proto_Args (Proto Fn)) /\
                 Function_empty Fn' = false /\ F_verified Fn' = true /\
                 (getFunction (TheModule g) (Proto_Name (Proto Fn)) = None ->
                  NoDup (Proto_Args (Proto Fn)) -> F_args Fn' = Proto_Args (Proto Fn))) /\
  (forall Name g, getFunction (TheModule g) "" = None /\
                  (Name <> "" -> (forall F Fn, functions (TheModule g) !! F = Some Fn ->
                                               F_name Fn <> Name) ->
                   getFunction (TheModule g) Name = None)).
Proof.
  split; [|split].
  - intros P g F g' Hu Hne E.
    destruct (PrototypeAST_Codegen_module P g Hu) as (r0 & g0 & E0 & Hu' & _ & Hr).
    rewrite E in E0. injection E0 as <- <-.
    destruct Hr as (_ & _ & _ & _ & _ & Fn & HF & Hname & Hargs & Hb & _ & Hnames).
    exists Fn. split; [|split; [exact Hargs|split; [|exact Hnames]]].
    + rewrite <- Hname. apply getFunction_Some; [exact Hu' | exact HF | congruence].
    + unfold Function_empty. rewrite Hb. reflexivity.
  - intros Fn g F g' Hu Hne E.
    destruct (FunctionAST_Codegen_module Fn g Hu) as (r0 & g0 & E0 & Hu' & Hr).
    rewrite E in E0. injection E0 as <- <-.
    destruct Hr as [(H & _)|(_ & _ & [(H & _)|(HF & body & V & Fn' & Hl & Hname & Hargs & Hb
                                               & Hv & _ & Hnames)])];
      try discriminate.
    injection HF as HF. rewrite <- HF in Hl.
    exists Fn'. split; [|split; [exact Hargs|split; [|split; [exact Hv | exact Hnames]]]].
    + rewrite <- Hname. apply (getFunction_Some (TheModule g') F _ Hu' Hl). congruence.
    + unfold Function_empty. rewrite Hb. reflexivity.
  - intros Name g. split; [reflexivity|]. intros Hne Hno.
    destruct (getFunction (TheModule g) Name) as [[F Fn]|] eqn:E; [|reflexivity].
    destruct (getFunction_lookup _ _ _ _ E) as (HF & Hname & _).
    exfalso. exact (Hno F Fn HF Hname).
Qed.

Lemma getFunction_after_Codegen_witness :
  exists g' Fn,
    PrototypeAST_Codegen (mkPrototypeAST "atan2" ["y"; "x"]) (session 20 "extern sin(a)")
      = Some (Some 1%nat, g') /\
    getFunction (TheModule g') "atan2" = Some (1%nat, Fn) /\
    F_args Fn = ["y"; "x"] /\ Function_empty Fn = true.
Proof.
  destruct getFunction_after_Codegen as (H & _).
  match eval vm_compute in
    (PrototypeAST_Codegen (mkPrototypeAST "atan2" ["y"; "x"])
       (session 20 "extern sin(a)")) with
  | Some (_, ?g1) =>
      assert (E : PrototypeAST_Codegen (mkPrototypeAST "atan2" ["y"; "x"])
                    (session 20 "extern sin(a)") = Some (Some 1%nat, g1))
        by (vm_compute; reflexivity);
      destruct (H (mkPrototypeAST "atan2" ["y"; "x"]) (session 20 "extern sin(a)")
                  1%nat g1)
        as (Fn & Hg & _ & He & Ha);
        [apply session_module_ok | discriminate | exact E |];
      exists g1, Fn
  end.
  split; [exact E|]. split; [exact Hg|]. split; [|exact He].
  apply Ha; [vm_compute; reflexivity|].
  repeat constructor; simpl; intros Hin;
    repeat (apply elem_of_cons in Hin as [Hin|Hin]; [discriminate|]);
    apply elem_of_nil in Hin; exact Hin.
Defined.

(** X19. A definition that fails in its body takes an earlier extern
    declaration of the same name with it: after the failure the module has no
    function of that name, and every call of the name is the error unkown
    function referenced. *)
Theorem FunctionAST_Codegen_erases_declaration (Name : string) (Args : list string)
    (Body : ExprAST) (g : Globals) (F : nat) (Fn0 : Function) (g' : Globals) :
  names_unique (TheModule g) ->
  getFunction (TheModule g) Name = Some (F, Fn0) ->
  Function_empty Fn0 = true -> arg_size Fn0 = length Args ->
  FunctionAST_Codegen (mkFunctionAST (mkPrototypeAST Name Args) Body) g = Some (None, g') ->
  functions (TheModule g') !! F = None /\
  getFunction (TheModule g') Name = None /\
  forall Args', exists g'',
    Codegen (CallExprAST Name Args') g' = Some (None, g'') /\
    stderr g'' = stderr g' ++ [error_line "unkown function referenced"].
Proof.
  intros Hu Hg He Hn E.
  destruct (FunctionAST_Codegen_module (mkFunctionAST (mkPrototypeAST Name Args) Body) g Hu)
    as (r0 & g0 & E0 & Hu' & Hr).
  rewrite E in E0. injection E0 as <- <-.
  assert (Htarget : prototype_target (mkPrototypeAST Name Args) g = F).
  { unfold prototype_target. simpl. rewrite Hg. reflexivity. }
  simpl in Hr. rewrite Htarget in Hr.
  destruct Hr as [(_ & _ & HP)|(Hothers & _ & [(_ & HN)|(H & _)])]; [| |discriminate].
  { exfalso.
    rewrite (PrototypeAST_Codegen_taken Name Args (set_NamedValues ∅ g) F Fn0 Hg) in HP.
    rewrite He, Hn, Nat.eqb_refl in HP. simpl in HP. unfold bind in HP.
    destruct (name_arguments_spec Args F 0%nat (set_NamedValues ∅ g)) as (g1 & H1 & _).
    rewrite H1 in HP. discriminate. }
  assert (Hnone : getFunction (TheModule g') Name = None).
  { destruct (getFunction (TheModule g') Name) as [[F' Fn']|] eqn:E'; [|reflexivity].
    exfalso. destruct (getFunction_lookup _ _ _ _ E') as (HF' & Hname' & Hne).
    destruct (getFunction_lookup _ _ _ _ Hg) as (HF & Hname & _).
    assert (Hd : F' <> F) by (intros ->; congruence).
    rewrite (Hothers F' Hd) in HF'.
    apply Hd. apply (Hu F' F Fn' Fn0 HF' HF); congruence. }
  split; [exact HN|]. split; [exact Hnone|].
  intros Args'. rewrite Codegen_Call. unfold bind, get. rewrite Hnone.
  eexists. split; reflexivity.
Qed.

Lemma FunctionAST_Codegen_erases_declaration_witness :
  getFunction (TheModule (session 30 "extern foo(a); def foo(a) b;")) "foo" = None.
Proof.
  match eval vm_compute in
    (FunctionAST_Codegen (mkFunctionAST (mkPrototypeAST "foo" ["a"]) (VariableExprAST "b"))
       (session 30 "extern foo(a);")) with
  | Some (_, ?g1) =>
      destruct (FunctionAST_Codegen_erases_declaration "foo" ["a"] (VariableExprAST "b")
                  (session 30 "extern foo(a);") 0%nat
                  (mkFunction "foo" ["a"] [] false 0) g1) as (_ & H & _);
        [apply session_module_ok | vm_compute; reflexivity | reflexivity | reflexivity
        | vm_compute; reflexivity |]
  end.
  rewrite <- H. vm_compute. reflexivity.
Defined.




(** ** When a definition is accepted *)

Lemma PrototypeAST_Codegen_acceptable (Name : string) (Args : list string) (g : Globals) :
  names_unique (TheModule g) ->
  exists r g',
    PrototypeAST_Codegen (mkPrototypeAST Name Args) g = Some (r, g') /\
    (is_Some r <-> acceptable (TheModule g) Name (length Args)) /\
    (forall Fn0, is_Some r ->
       functions (TheModule g) !! prototype_target (mkPrototypeAST Name Args) g = Some Fn0 ->
       F_name Fn0 = Name /\ arg_size Fn0 = length Args).
Proof.
  intros Hu. unfold acceptable, prototype_target. simpl.
  destruct (getFunction (TheModule g) Name) as [[F Fn]|] eqn:H.
  - rewrite (PrototypeAST_Codegen_taken _ _ _ _ _ H).
    destruct (getFunction_lookup _ _ _ _ H) as (HF & Hname & _).
    destruct (Function_empty Fn) eqn:He; simpl.
    2:{ eexists None, _. split; [reflexivity|].
        split; [split; [intros [x Hx]; discriminate | intros [Hd _]; discriminate]|].
        intros Fn0 [x Hx]. discriminate. }
    destruct (Nat.eqb_spec (arg_size Fn) (length Args)) as [Hlen|Hlen]; simpl.
    2:{ eexists None, _. split; [reflexivity|].
        split; [split; [intros [x Hx]; discriminate | intros [_ Hd]; contradiction]|].
        intros Fn0 [x Hx]. discriminate. }
    unfold bind. destruct (name_arguments_spec Args F 0%nat g) as (g' & -> & _).
    exists (Some F), g'. split; [reflexivity|].
    split; [split; [intros _; split; [reflexivity | exact Hlen] | eauto]|].
    intros Fn0 _ H0. rewrite HF in H0. injection H0 as <-. auto.
  - rewrite (PrototypeAST_Codegen_free _ _ _ H). unfold bind.
    match goal with |- context [name_arguments ?F 0 Args ?g1] =>
      destruct (name_arguments_spec Args F 0%nat g1) as (g' & -> & _) end.
    eexists (Some _), g'. split; [reflexivity|].
    split; [split; [trivial | eauto]|].
    intros Fn0 _ H0. rewrite new_Function_fresh in H0. discriminate.
Qed.

Lemma scoped_args (Mod : IRModule) (Name : string) (Params : list string)
    (Callee : string) (Args : list ExprAST) :
  scoped Mod Name Params (CallExprAST Callee Args) <->
  ((Callee = Name /\ Callee <> "" /\ length Args = length Params) \/
   declared Mod Callee (length Args)) /\
  Forall (scoped Mod Name Params) Args.
Proof.
  cbn [scoped]. apply and_iff_compat_l. induction Args as [|Arg Args IH].
  - split; [constructor | trivial].
  - split.
    + intros [Ha Hr]. constructor; [exact Ha | apply IH; exact Hr].
    + intros H. inversion H; subst. split; [assumption | apply IH; assumption].
Qed.

(** In the state in which the body is lowered, what lowers is what is in
    scope. *)
Lemma lowers_scoped (g gB : Globals) (Name : string) (Params : list string) (F : nat)
    (FnB : Function) :
  names_unique (TheModule g) -> names_unique (TheModule gB) ->
  NamedValues gB = bind_arguments F 0 Params ∅ ->
  (forall F', F' <> F -> functions (TheModule gB) !! F' = functions (TheModule g) !! F') ->
  functions (TheModule gB) !! F = Some FnB -> F_name FnB = Name ->
  arg_size FnB = length Params ->
  (forall Fn0, functions (TheModule g) !! F = Some Fn0 ->
               F_name Fn0 = Name /\ arg_size Fn0 = length Params) ->
  forall e, lowers gB e <-> scoped (TheModule g) Name Params e.
Proof.
  intros Hu HuB HN Hothers HF Hname Hargs Hold.
  assert (Hdecl : forall c n,
            declared (TheModule gB) c n <->
            (c = Name /\ c <> "" /\ n = length Params) \/ declared (TheModule g) c n).
  { intros c n. rewrite (declared_iff _ c n HuB), (declared_iff _ c n Hu). split.
    - intros (Hne & F' & Fn' & HF' & Hn' & Ha').
      destruct (decide (F' = F)) as [->|Hd].
      + left. rewrite HF in HF'. injection HF' as <-.
        split; [congruence|]. split; [exact Hne|]. congruence.
      + right. split; [exact Hne|]. exists F', Fn'. rewrite <- (Hothers F' Hd). auto.
    - intros [(-> & Hne & ->)|(Hne & F' & Fn' & HF' & Hn' & Ha')].
      + split; [exact Hne|]. exists F, FnB. split; [exact HF|]. split; [exact Hname|].
        exact Hargs.
      + split; [exact Hne|]. destruct (decide (F' = F)) as [->|Hd].
        * destruct (Hold Fn' HF') as [Hn0 Ha0].
          exists F, FnB. split; [exact HF|]. split; [congruence|].
          congruence.
        * exists F', Fn'. rewrite (Hothers F' Hd). auto. }
  induction e as [Val|x|Op LHS RHS IHL IHR|Callee Args IH] using ExprAST_induction.
  - reflexivity.
  - cbn [lowers scoped]. rewrite HN. split.
    + intros [V HV]. destruct (decide (x ∈ Params)) as [Hin|Hnin]; [exact Hin|].
      rewrite bind_arguments_other in HV by exact Hnin. rewrite lookup_empty in HV.
      discriminate.
    + intros Hin. destruct (bind_arguments_bound Params F 0%nat ∅ x Hin) as [i Hi]. eauto.
  - cbn [lowers scoped]. rewrite IHL, IHR. reflexivity.
  - rewrite lowers_args, scoped_args, Hdecl.
    assert (Hall : Forall (lowers gB) Args <-> Forall (scoped (TheModule g) Name Params) Args).
    { induction IH as [|Arg Args' HArg _ IHArgs]; [split; constructor|].
      split; intros H; inversion H; subst; constructor;
        try (apply HArg; assumption); apply IHArgs; assumption. }
    rewrite Hall. reflexivity.
Qed.

(** X21. In a module whose functions have different names,
    FunctionAST::Codegen returns a function if and only if the name is free or
    belongs to a declaration with the same number of parameters, and the body
    uses only the parameters as variables, calls only functions of the module
    or the function itself (if it has a name) with the right number of
    arguments, and uses only installed operators. *)
Theorem FunctionAST_Codegen_succeeds_iff (Name : string) (Params : list string)
    (E : ExprAST) (g : Globals) :
  names_unique (TheModule g) ->
  exists r g',
    FunctionAST_Codegen (mkFunctionAST (mkPrototypeAST Name Params) E) g = Some (r, g') /\
    (is_Some r <->
     acceptable (TheModule g) Name (length Params) /\
     scoped (TheModule g) Name Params E).
Proof.
  intros Hu. rewrite FunctionAST_Codegen_phases.
  unfold enter_function, bind, modify. cbn [Proto Body].
  destruct (PrototypeAST_Codegen_acceptable Name Params (set_NamedValues ∅ g) Hu)
    as (r & g1 & HP & Hacc & Hold).
  destruct (PrototypeAST_Codegen_module (mkPrototypeAST Name Params) (set_NamedValues ∅ g) Hu)
    as (r0 & g0 & HP0 & Hu1 & _ & Hr).
  rewrite HP in HP0. injection HP0 as <- <-. rewrite HP.
  change (TheModule (set_NamedValues ∅ g)) with (TheModule g) in Hacc.
  destruct r as [F|].
  2:{ exists None, g1. split; [reflexivity|].
      split; [intros [x Hx]; discriminate|].
      intros [Ha _]. apply Hacc in Ha. destruct Ha as [x Hx]. discriminate. }
  destruct Hr as (HF & HN & _ & Hothers & _ & Fn1 & HF1 & Hname & Hargs & Hblocks & _).
  simpl in HN, Hothers, Hname, Hargs.
  specialize (fun Fn0 => Hold Fn0 ltac:(eauto)). rewrite <- HF in Hold. simpl in Hold.
  unfold BasicBlock_Create, bind, get, update_function, set_functions, modify,
    SetInsertPoint, ret. simpl. rewrite HF1. simpl. rewrite Hblocks. simpl.
  set (fB := fun Fn0 : Function =>
               mkFunction (F_name Fn0) (F_args Fn0) (F_blocks Fn0 ++ [[]]) (F_verified Fn0)
                          (F_LastUnique Fn0)).
  set (gB := set_Builder (Some (F, 0%nat))
               (set_TheModule (mkModule (alter fB F (functions (TheModule g1)))) g1)).
  assert (HuB : names_unique (TheModule gB)).
  { apply (names_unique_alter (TheModule g1) (TheModule gB) F fB);
      [intros; reflexivity | reflexivity | exact Hu1]. }
  destruct (Codegen_emitted E gB) as (rv & g2 & new & errs & Hc & He & _).
  rewrite Hc.
  pose proof (Codegen_lowers E gB rv g2 HuB Hc) as Hlow.
  assert (Hscope : lowers gB E <-> scoped (TheModule g) Name Params E).
  { apply (lowers_scoped g gB Name Params F (fB Fn1) Hu HuB).
    - exact HN.
    - intros F' Hne. simpl. rewrite lookup_alter_ne by congruence. apply Hothers, Hne.
    - simpl. rewrite lookup_alter_eq, HF1. reflexivity.
    - exact Hname.
    - exact Hargs.
    - exact Hold. }
  assert (Ha : acceptable (TheModule g) Name (length Params)) by (apply Hacc; eauto).
  destruct rv as [V|].
  - destruct (finish_function_success F 0 V g2 (emitted_Builder _ _ _ _ He)) as (g3 & -> & _).
    exists (Some F), g3. split; [reflexivity|].
    split; [intros _; split; [exact Ha | apply Hscope, Hlow; eauto] | eauto].
  - destruct (finish_function_failure F g2) as (g3 & -> & _).
    exists None, g3. split; [reflexivity|].
    split; [intros [x Hx]; discriminate|].
    intros [_ Hs]. apply Hscope, Hlow in Hs. destruct Hs as [x Hx]. discriminate.
Qed.

Lemma FunctionAST_Codegen_succeeds_iff_witness :
  exists r g',
    FunctionAST_Codegen
      (mkFunctionAST (mkPrototypeAST "fact" ["n"])
         (BinaryExprAST (ch "*") (VariableExprAST "n")
            (CallExprAST "fact" [BinaryExprAST (ch "-") (VariableExprAST "n") (num "1")])))
      (session 20 "extern sin(x)") = Some (r, g') /\
    (is_Some r <->
     acceptable (TheModule (session 20 "extern sin(x)")) "fact" 1 /\
     scoped (TheModule (session 20 "extern sin(x)")) "fact" ["n"]
       (BinaryExprAST (ch "*") (VariableExprAST "n")
          (CallExprAST "fact" [BinaryExprAST (ch "-") (VariableExprAST "n") (num "1")]))).
Proof.
  apply (FunctionAST_Codegen_succeeds_iff "fact" ["n"]
           (BinaryExprAST (ch "*") (VariableExprAST "n")
              (CallExprAST "fact" [BinaryExprAST (ch "-") (VariableExprAST "n") (num "1")]))
           (session 20 "extern sin(x)")).
  apply session_module_ok.
Defined.

(** ** New names, and externs from the input *)

(** The function that a prototype lowers to, and the functions it leaves
    as they are. *)
Lemma PrototypeAST_Codegen_target (P : PrototypeAST) (g : Globals) (F : nat)
    (g1 : Globals) :
  PrototypeAST_Codegen P g = Some (Some F, g1) ->
  F = prototype_target P g /\
  forall F', F' <> F -> functions (TheModule g1) !! F' = functions (TheModule g) !! F'.
Proof.
  destruct P as [Name Args]. intros E. unfold prototype_target. simpl.
  destruct (getFunction (TheModule g) Name) as [[F0 Fn]|] eqn:H.
  - rewrite (PrototypeAST_Codegen_taken _ _ _ _ _ H) in E.
    destruct (negb (Function_empty Fn)); [discriminate|].
    destruct (negb (arg_size Fn =? length Args)%nat); [discriminate|].
    unfold bind in E.
    destruct (name_arguments_spec Args F0 0%nat g) as (g0 & H1 & _ & HF & _).
    rewrite H1 in E. injection E as <- <-. split; [reflexivity|].
    intros F' Hne. rewrite HF. apply lookup_alter_ne. congruence.
  - rewrite (PrototypeAST_Codegen_free _ _ _ H) in E. unfold bind in E.
    match type of E with context [name_arguments ?F0 0 Args ?gI] =>
      destruct (name_arguments_spec Args F0 0%nat gI) as (g0 & H1 & _ & HF & _) end.
    rewrite H1 in E. injection E as <- <-. split; [reflexivity|].
    intros F' Hne. rewrite HF. simpl.
    rewrite lookup_alter_ne, lookup_insert_ne by congruence. reflexivity.
Qed.

(** Lowering a function sets [undefined] only when it erases a function
    that another function calls. *)
Lemma FunctionAST_Codegen_undefined (Fn : FunctionAST) (g : Globals) (r : option nat)
    (g' : Globals) :
  FunctionAST_Codegen Fn g = Some (r, g') ->
  used (prototype_target (Proto Fn) g) (TheModule g) = false ->
  undefined g' = undefined g.
Proof.
  intros E Hu.
  destruct (PrototypeAST_Codegen (Proto Fn) (set_NamedValues ∅ g))
    as [[[F|] g1]|] eqn:HP.
  - destruct (PrototypeAST_Codegen_calls _ _ _ _ HP) as [HU1 _].
    change (undefined (set_NamedValues ∅ g)) with (undefined g) in HU1.
    destruct (PrototypeAST_Codegen_target _ _ _ _ HP) as [HF Hothers1].
    change (prototype_target (Proto Fn) (set_NamedValues ∅ g))
      with (prototype_target (Proto Fn) g) in HF.
    destruct (FunctionAST_Codegen_body Fn g F g1 HP)
      as (gB & RetVal & g2 & g0 & HB & _ & HBld & _ & _ & HC & _ & HFc & _ & _ & Hr).
    rewrite E in HFc. injection HFc as -> <-.
    destruct (Codegen_emitted (Body Fn) gB) as (r0 & g3 & new & errs & Hc & He & _).
    rewrite HC in Hc. injection Hc as <- <-.
    assert (HUB : undefined gB = undefined g1 /\
                  forall F', F' <> F ->
                    functions (TheModule gB) !! F' = functions (TheModule g1) !! F').
    { unfold BasicBlock_Create, SetInsertPoint, update_function, set_functions,
        bind, get, modify, ret in HB. injection HB as <-. split; [reflexivity|].
      intros F' Hne. simpl. apply lookup_alter_ne. congruence. }
    destruct HUB as [HUB HothersB].
    pose proof (emitted_undefined _ _ _ _ He) as HU2.
    assert (Hothers2 : forall F', F' <> F ->
              functions (TheModule g2) !! F' = functions (TheModule g) !! F').
    { intros F' Hne. rewrite (emitted_functions _ _ _ _ He), HBld. simpl.
      rewrite lookup_alter_ne by congruence.
      rewrite (HothersB F' Hne). apply Hothers1, Hne. }
    destruct RetVal as [V|].
    + destruct Hr as [_ ->]. congruence.
    + destruct Hr as [_ ->]. rewrite (used_others F (TheModule g) (TheModule g2) Hothers2).
      rewrite <- HF in Hu. rewrite Hu, orb_false_r. congruence.
  - rewrite (FunctionAST_Codegen_no_prototype Fn g g1 HP) in E. injection E as _ <-.
    apply (PrototypeAST_Codegen_calls _ _ _ _ HP).
  - unfold FunctionAST_Codegen, bind, modify in E. rewrite HP in E. discriminate.
Qed.

(** A new function is used by no function of the module. *)
Lemma new_Function_not_used (Mod : IRModule) : used (new_Function Mod) Mod = false.
Proof.
  apply not_true_is_false. intros H.
  apply used_spec in H as (F' & Fn' & Hl & _ & Hc).
  exact (new_Function_unreferenced Mod F' Fn' Hl Hc).
Qed.

(** X22. Lowering a function whose name no function of the module has, a
    top-level expression included, changes the functions of the module by at
    most one and leaves the behaviour of the backend defined: a failure leaves
    the functions as they were, and a success adds one new function with the
    name of the prototype, as many parameters as the prototype has, and one
    verified block of instructions that ends with the only ret.  The
    parameters of the new function have the names of the prototype when these
    differ from each other. *)
Theorem FunctionAST_Codegen_new_name (Fn : FunctionAST) (g : Globals) :
  names_unique (TheModule g) ->
  getFunction (TheModule g) (Proto_Name (Proto Fn)) = None ->
  exists r g',
    FunctionAST_Codegen Fn g = Some (r, g') /\
    undefined g' = undefined g /\
    match r with
    | None => functions (TheModule g') = functions (TheModule g)
    | Some F =>
        functions (TheModule g) !! F = None /\
        exists body V Fn',
          Forall is_Inst body /\
          functions (TheModule g') = <[F := Fn']> (functions (TheModule g)) /\
          F_name Fn' = Proto_Name (Proto Fn) /\
          arg_size Fn' = length (Proto_Args (Proto Fn)) /\
          F_blocks Fn' = [body ++ [Ret V]] /\
          F_verified Fn' = true /\
          (NoDup (Proto_Args (Proto Fn)) -> F_args Fn' = Proto_Args (Proto Fn))
    end.
Proof.
  intros Hu Hfree.
  destruct (FunctionAST_Codegen_module Fn g Hu) as (r & g' & HF & _ & H).
  exists r, g'. split; [exact HF|].
  assert (Ht : functions (TheModule g) !! prototype_target (Proto Fn) g = None).
  { unfold prototype_target. rewrite Hfree. apply new_Function_fresh. }
  split.
  { apply (FunctionAST_Codegen_undefined Fn g r g' HF).
    unfold prototype_target. rewrite Hfree. apply new_Function_not_used. }
  destruct H as [(-> & HM & _)|(Hothers & _ & [(-> & Hgone)|
    (-> & body & V & Fn' & Hnew & Hname & Hargs & Hb & Hv & Hbody & Hnames)])].
  - rewrite HM. reflexivity.
  - apply map_eq. intros F'.
    destruct (decide (F' = prototype_target (Proto Fn) g)) as [->|Hne].
    + rewrite Hgone, Ht. reflexivity.
    + apply Hothers, Hne.
  - split; [exact Ht|]. exists body, V, Fn'. split; [exact Hbody|].
    split; [|split; [exact Hname|split; [exact Hargs|split; [exact Hb|
             split; [exact Hv|exact (Hnames Hfree)]]]]].
    apply map_eq. intros F'.
    destruct (decide (F' = prototype_target (Proto Fn) g)) as [->|Hne].
    + rewrite lookup_insert_eq. exact Hnew.
    + rewrite lookup_insert_ne by congruence. apply Hothers, Hne.
Qed.

Lemma FunctionAST_Codegen_new_name_witness :
  exists g',
    FunctionAST_Codegen
      (mkFunctionAST (mkPrototypeAST "" []) (CallExprAST "f" [num "1"; num "2"]))
      (session 200 "def f(x) x*x; f(3);") = Some (None, g') /\
    undefined g' = undefined (session 200 "def f(x) x*x; f(3);") /\
    functions (TheModule g') = functions (TheModule (session 200 "def f(x) x*x; f(3);")).
Proof.
  destruct (FunctionAST_Codegen_new_name
              (mkFunctionAST (mkPrototypeAST "" []) (CallExprAST "f" [num "1"; num "2"]))
              (session 200 "def f(x) x*x; f(3);")) as (r & g' & HF & HU & H).
  - apply session_module_ok.
  - reflexivity.
  - assert (Hr : r = None).
    { match type of HF with ?l = _ =>
        assert (E : fst <$> l = Some None) by (vm_compute; reflexivity) end.
      rewrite HF in E. simpl in E. congruence. }
    subst r. exists g'. split; [exact HF|]. split; [exact HU | exact H].
Defined.

(** X23. On extern, a name and parameter names between parentheses, with the
    name free or declared with as many parameters, HandleExtern returns with
    the token after the closing parenthesis as the current token; the module
    then has a function of that name with as many parameters and no block,
    every other function is as before, and stderr has gained Read extern: and
    the dump of the function.  When the name was free and the parameter names
    differ from each other, the parameters of the function have these names. *)
Theorem HandleExtern_declares (FnName : string) (Params : list string)
    (rest : list token) (g : Globals) :
  presents (T_extern :: T_identifier FnName :: T_char (ch "(") ::
            map T_identifier Params ++ T_char (ch ")") :: rest) g ->
  names_unique (TheModule g) ->
  acceptable (TheModule g) FnName (length Params) ->
  exists g' F Fn,
    returns HandleExtern g (tt, g') /\
    presents rest g' /\
    functions (TheModule g') !! F = Some Fn /\
    F_name Fn = FnName /\ arg_size Fn = length Params /\ F_blocks Fn = [] /\
    (getFunction (TheModule g) FnName = None -> NoDup Params -> F_args Fn = Params) /\
    (forall F', F' <> F -> functions (TheModule g') !! F' = functions (TheModule g) !! F') /\
    undefined g' = undefined g /\
    stderr g' = stderr g ++ [Print "Read extern: "; Dump (Some Fn)].
Proof.
  intros Hp Hu Hacc.
  destruct (getNextToken_presents _ _ _ _ Hp) as (tok1 & lx1 & Hn1 & Hp1).
  set (g1 := set_CurTok tok1 (set_lexer lx1 g)) in *.
  destruct (ParsePrototype_parses FnName Params rest g1 Hp1)
    as (g2 & Hproto & He2 & _ & Hp2).
  assert (HM2 : TheModule g2 = TheModule g /\ undefined g2 = undefined g).
  { assert (H : hoare (fun g0 => TheModule g0 = TheModule g /\ undefined g0 = undefined g)
                  (ParsePrototype (S (length Params)))
                  (fun _ g0 => TheModule g0 = TheModule g /\ undefined g0 = undefined g)).
    { apply (keeps_ParsePrototype
               (fun g0 => TheModule g0 = TheModule g /\ undefined g0 = undefined g)).
      split; [|split]; intros; assumption. }
    exact (H g1 _ g2 (conj eq_refl eq_refl) (Hproto _ (Nat.lt_succ_diag_r _))). }
  destruct HM2 as [HM2 HU2].
  assert (Hu2 : names_unique (TheModule g2)) by (rewrite HM2; exact Hu).
  destruct (PrototypeAST_Codegen_acceptable FnName Params g2 Hu2)
    as (r & g3 & HP & Hok & _).
  destruct (PrototypeAST_Codegen_module (mkPrototypeAST FnName Params) g2 Hu2)
    as (r0 & g0 & HP0 & _ & _ & Hr).
  rewrite HP in HP0. injection HP0 as <- <-.
  rewrite HM2 in Hok. apply Hok in Hacc. destruct Hacc as [F ->].
  destruct Hr as (_ & _ & He3 & Hothers & _ & Fn & HFn & Hname & Hargs & Hblocks & _ & Hnames).
  simpl in Hname, Hargs, Hnames. rewrite HM2 in Hothers, Hnames.
  destruct (PrototypeAST_Codegen_calls _ _ _ _ HP) as [HU3 _].
  exists (set_stderr (stderr g3 ++ [Print "Read extern: "] ++
                      [Dump (functions (TheModule g3) !! F)]) g3), F, Fn.
  split; [|split; [|split; [exact HFn|split; [exact Hname|split; [exact Hargs|
           split; [exact Hblocks|split; [exact Hnames|split; [exact Hothers|
           split; [simpl; congruence|]]]]]]]]].
  - exists (S (length Params)). intros fuel Hf.
    unfold HandleExtern, ParseExtern, bind. rewrite Hn1. fold g1.
    rewrite (Hproto fuel) by lia. rewrite HP.
    unfold fprintf_stderr, dump, modify. simpl. rewrite <- app_assoc. reflexivity.
  - apply (presents_ext rest g3); [reflexivity | reflexivity |].
    assert (Hframe : CurTok g3 = CurTok g2 /\ lexer g3 = lexer g2).
    { destruct (PrototypeAST_Codegen_spec (mkPrototypeAST FnName Params) g2)
        as (r' & g'' & E & H). rewrite HP in E. injection E as <- <-.
      destruct H as (Hl & Hc & _). split; assumption. }
    destruct Hframe as [Hc Hl]. apply (presents_ext rest g2); assumption.
  - simpl. rewrite He3, He2, HFn. reflexivity.
Qed.

Lemma HandleExtern_declares_witness :
  exists g' F Fn,
    returns HandleExtern (ready "extern atan2(y x);") (tt, g') /\
    functions (TheModule g') !! F = Some Fn /\
    F_name Fn = "atan2" /\ F_args Fn = ["y"; "x"].
Proof.
  destruct (HandleExtern_declares "atan2" ["y"; "x"] [T_char (ch ";"); T_eof]
              (ready "extern atan2(y x);"))
    as (g' & F & Fn & H1 & _ & H2 & H3 & _ & _ & H4 & _).
  - simpl. presents_now.
  - intros F1 F2 Fn1 Fn2 H. vm_compute in H. discriminate.
  - vm_compute. exact I.
  - exists g', F, Fn. split; [exact H1|]. split; [exact H2|]. split; [exact H3|].
    apply H4; [reflexivity|]. apply NoDup_cons. split; [|apply NoDup_singleton].
    intros H. apply list_elem_of_singleton in H. discriminate.
Defined.

(** ** Decimal numerals *)

Lemma decimal_go_S (fuel n : nat) (acc : string) :
  decimal_go (S fuel) n acc =
    if (n / 10 =? 0)%nat then String (ascii_of_nat (48 + n mod 10)) acc
    else decimal_go fuel (n / 10)%nat (String (ascii_of_nat (48 + n mod 10)) acc).
Proof. reflexivity. Qed.

Lemma decimal_go_O (n : nat) (acc : string) :
  decimal_go 0 n acc = String (ascii_of_nat (48 + n mod 10)) acc.
Proof. reflexivity. Qed.

Lemma decimal_go_decimal (n : nat) :
  forall fuel acc, (n <= fuel)%nat -> decimal_go fuel n acc = decimal n +:+ acc.
Proof.
  induction n as [n IH] using lt_wf_ind. intros fuel acc Hf.
  assert (Hsmall : (n / 10 =? 0)%nat = true ->
            decimal n = String (ascii_of_nat (48 + n mod 10)) "").
  { intros Hd. unfold decimal. destruct n as [|n]; [reflexivity|].
    rewrite decimal_go_S, Hd. reflexivity. }
  assert (Hbig : (n / 10 =? 0)%nat = false ->
            decimal n = decimal (n / 10) +:+ String (ascii_of_nat (48 + n mod 10)) "").
  { intros Hd. unfold decimal at 1. destruct n as [|n]; [discriminate|].
    rewrite decimal_go_S, Hd. apply IH.
    - apply Nat.div_lt; lia.
    - pose proof (Nat.div_lt (S n) 10). lia. }
  destruct fuel as [|fuel].
  - assert (n = 0)%nat by lia. subst n. reflexivity.
  - rewrite decimal_go_S. destruct (n / 10 =? 0)%nat eqn:Hd.
    + rewrite (Hsmall eq_refl). reflexivity.
    + rewrite (Hbig eq_refl), append_assoc. apply IH.
      * apply Nat.div_lt; [|lia]. destruct n; [discriminate | lia].
      * assert (0 < n)%nat by (destruct n; [discriminate | lia]).
        pose proof (Nat.div_lt n 10). lia.
Qed.

Lemma decimal_small (n : nat) :
  (n < 10)%nat -> decimal n = String (ascii_of_nat (48 + n)) "".
Proof.
  intros Hn. unfold decimal. destruct n as [|n]; [reflexivity|].
  rewrite decimal_go_S. rewrite (Nat.div_small (S n) 10 Hn). simpl Nat.eqb. cbv iota.
  rewrite (Nat.mod_small (S n) 10 Hn). reflexivity.
Qed.

Lemma decimal_big (n : nat) :
  (10 <= n)%nat ->
  decimal n = decimal (n / 10) +:+ String (ascii_of_nat (48 + n mod 10)) "".
Proof.
  intros Hn. unfold decimal at 1. destruct n as [|n]; [lia|].
  rewrite decimal_go_S.
  assert (Hd : (S n / 10 =? 0)%nat = false).
  { apply Nat.eqb_neq. intros H. apply Nat.div_small_iff in H; lia. }
  rewrite Hd. apply decimal_go_decimal. pose proof (Nat.div_lt (S n) 10). lia.
Qed.

Lemma read_digits_app (s t : string) :
  forall acc, read_digits (s +:+ t) acc = read_digits t (read_digits s acc).
Proof.
  induction s as [|c s IH]; intros acc; [reflexivity|].
  rewrite append_cons. simpl. apply IH.
Qed.

Lemma digit_value (k : nat) : (k < 10)%nat -> (nat_of_ascii (ascii_of_nat (48 + k)) - 48 = k)%nat.
Proof. intros Hk. rewrite nat_ascii_embedding by lia. lia. Qed.

(** Reading a numeral gives the number back. *)
Lemma read_digits_decimal (n : nat) : read_digits (decimal n) 0 = n.
Proof.
  induction n as [n IH] using lt_wf_ind.
  destruct (Nat.lt_ge_cases n 10) as [Hs|Hb].
  - rewrite (decimal_small n Hs). cbn [read_digits]. rewrite digit_value by exact Hs. lia.
  - rewrite (decimal_big n Hb), read_digits_app.
    rewrite IH by (apply Nat.div_lt; lia).
    cbn [read_digits]. rewrite digit_value by (apply Nat.mod_upper_bound; lia).
    pose proof (Nat.div_mod_eq n 10). lia.
Qed.

Lemma decimal_inj (n m : nat) : decimal n = decimal m -> n = m.
Proof.
  intros H. rewrite <- (read_digits_decimal n), <- (read_digits_decimal m), H. reflexivity.
Qed.

Lemma decimal_length (k : nat) :
  forall n, (n < 10 ^ S k)%nat <-> (String.length (decimal n) <= S k)%nat.
Proof.
  induction k as [|k IH]; intros n.
  - change (10 ^ 1)%nat with 10%nat. split.
    + intros Hn. rewrite (decimal_small n Hn). cbn [String.length]. lia.
    + intros Hl. destruct (Nat.lt_ge_cases n 10) as [Hs|Hb]; [exact Hs|].
      rewrite (decimal_big n Hb), length_append in Hl. cbn [String.length] in Hl.
      pose proof (decimal_go_nonempty (n / 10) (n / 10) "") as Hne.
      fold (decimal (n / 10)) in Hne. lia.
  - rewrite (Nat.pow_succ_r' 10 (S k)).
    pose proof (Nat.pow_nonzero 10 (S k) ltac:(lia)) as Hpos.
    specialize (IH (n / 10)%nat).
    remember (10 ^ S k)%nat as P eqn:EP. clear EP.
    destruct (Nat.lt_ge_cases n 10) as [Hs|Hb].
    + rewrite (decimal_small n Hs). cbn [String.length]. split; intros; lia.
    + rewrite (decimal_big n Hb), length_append. cbn [String.length].
      pose proof (Nat.div_mod_eq n 10) as Hdm.
      pose proof (Nat.mod_upper_bound n 10 ltac:(lia)) as Hm.
      remember (n / 10)%nat as q eqn:Eq. remember (n mod 10)%nat as r eqn:Er.
      clear Eq Er. split; intros H.
      * assert (Hq : (q < P)%nat) by lia. apply IH in Hq. lia.
      * assert (Hq : (String.length (decimal q) <= S k)%nat) by lia. apply IH in Hq. lia.
Qed.

(** ** Legal names *)

Lemma legal_digit (c : ascii) : isdigit (ch c) = true -> legal c = true.
Proof.
  destruct c as [b0 b1 b2 b3 b4 b5 b6 b7].
  destruct b0, b1, b2, b3, b4, b5, b6, b7;
    vm_compute; intros H; first [reflexivity | discriminate H].
Qed.

Lemma contains_digits (c : ascii) : contains "0123456789" c = isdigit (ch c).
Proof.
  destruct c as [b0 b1 b2 b3 b4 b5 b6 b7].
  destruct b0, b1, b2, b3, b4, b5, b6, b7; vm_compute; reflexivity.
Qed.

Lemma isdigit_digit (k : nat) : (k < 10)%nat -> isdigit (ch (ascii_of_nat (48 + k))) = true.
Proof.
  intros Hk. do 10 (destruct k as [|k]; [reflexivity|]). lia.
Qed.

Lemma all_legal_app (s t : string) : all_legal (s +:+ t) <-> all_legal s /\ all_legal t.
Proof.
  induction s as [|c s IH]; [simpl; tauto|].
  rewrite append_cons. simpl. rewrite IH. tauto.
Qed.

Lemma decimal_digits (n : nat) : all_chars isdigit (decimal n).
Proof.
  induction n as [n IH] using lt_wf_ind.
  destruct (Nat.lt_ge_cases n 10) as [Hs|Hb].
  - rewrite (decimal_small n Hs). split; [exact (isdigit_digit n Hs) | exact I].
  - rewrite (decimal_big n Hb).
    assert (Happ : forall s t, all_chars isdigit s -> all_chars isdigit t ->
                               all_chars isdigit (s +:+ t)).
    { induction s as [|c s IHs]; intros t Hs Ht; [exact Ht|].
      rewrite append_cons. destruct Hs as [Hc Hs]. split; [exact Hc | apply IHs; assumption]. }
    apply Happ; [apply IH, Nat.div_lt; lia|].
    split; [apply isdigit_digit, Nat.mod_upper_bound; lia | exact I].
Qed.

Lemma digits_legal (s : string) : all_chars isdigit s -> all_legal s.
Proof.
  induction s as [|c s IH]; [trivial|]. intros [Hc Hs].
  split; [exact (legal_digit c Hc) | exact (IH Hs)].
Qed.

Lemma decimal_legal (n : nat) : all_legal (decimal n).
Proof. apply digits_legal, decimal_digits. Qed.

Lemma decimal_head (n : nat) :
  exists d r, decimal n = String d r /\ isdigit (ch d) = true.
Proof.
  pose proof (decimal_digits n) as H. pose proof (decimal_go_nonempty n n "") as Hl.
  fold (decimal n) in Hl. destruct (decimal n) as [|d r]; [simpl in Hl; lia|].
  exists d, r. split; [reflexivity | exact (proj1 H)].
Qed.

(** A name is legal, or has a first character that is not. *)
Lemma first_not_legal (s : string) :
  all_legal s \/
  exists p c rest, s = p +:+ String c rest /\ all_legal p /\ legal c = false.
Proof.
  induction s as [|c s IH]; [left; exact I|].
  destruct (legal c) eqn:Hc.
  - destruct IH as [H|(p & c' & rest & -> & Hp & Hc')].
    + left. split; assumption.
    + right. exists (String c p), c', rest. split; [reflexivity|].
      split; [split; assumption | exact Hc'].
  - right. exists "", c, s. split; [reflexivity|]. split; [exact I | exact Hc].
Qed.

Lemma find_first_not_of_legal (s : string) :
  all_legal s -> find_first_not_of s legal_elements = None.
Proof.
  induction s as [|c s IH]; [reflexivity|]. intros [Hc Hs].
  cbn [find_first_not_of]. unfold legal in Hc. rewrite Hc, (IH Hs). reflexivity.
Qed.

Lemma find_first_not_of_at (p : string) (c : ascii) (rest : string) :
  all_legal p -> legal c = false ->
  find_first_not_of (p +:+ String c rest) legal_elements = Some (String.length p) /\
  at_ (p +:+ String c rest) (String.length p) = Some c /\
  forall str, replace (p +:+ String c rest) (String.length p) str =
              Some (p +:+ str +:+ rest).
Proof.
  intros Hp Hc. induction p as [|k p IH].
  - rewrite append_nil_l. cbn [find_first_not_of]. unfold legal in Hc. rewrite Hc.
    split; [reflexivity|]. split; [reflexivity|]. intros str. reflexivity.
  - destruct Hp as [Hk Hp]. destruct (IH Hp) as (H1 & H2 & H3).
    rewrite append_cons. cbn [find_first_not_of String.length].
    unfold legal in Hk. rewrite Hk, H1. split; [reflexivity|].
    split; [exact H2|]. intros str. cbn [replace]. rewrite H3. reflexivity.
Qed.

Lemma encode_all_app (signed_char : bool) (s t : string) :
  encode_all signed_char (s +:+ t) = encode_all signed_char s +:+ encode_all signed_char t.
Proof.
  induction s as [|c s IH]; [reflexivity|].
  rewrite append_cons. simpl. rewrite IH, append_assoc. reflexivity.
Qed.

Lemma encode_all_legal (signed_char : bool) (s : string) :
  all_legal s -> encode_all signed_char s = s.
Proof.
  induction s as [|c s IH]; [reflexivity|]. intros [Hc Hs].
  simpl. unfold encode. rewrite Hc, (IH Hs). reflexivity.
Qed.

Lemma turns_app (signed_char : bool) (s t : string) :
  turns signed_char (s +:+ t) = (turns signed_char s + turns signed_char t)%nat.
Proof.
  induction s as [|c s IH]; [reflexivity|].
  rewrite append_cons. simpl. rewrite IH.
  destruct (legal c); [reflexivity|]. destruct (char_to_int signed_char c <? 0); lia.
Qed.

Lemma turns_legal (signed_char : bool) (s : string) :
  all_legal s -> turns signed_char s = O.
Proof.
  induction s as [|c s IH]; [reflexivity|]. intros [Hc Hs]. simpl. rewrite Hc. exact (IH Hs).
Qed.

Lemma turns_bound (signed_char : bool) (s : string) :
  (turns signed_char s <= 2 * String.length s)%nat.
Proof.
  induction s as [|c s IH]; [simpl; lia|]. simpl.
  destruct (legal c); [lia|]. destruct (char_to_int signed_char c <? 0); lia.
Qed.

Lemma encode_legal (signed_char : bool) (c : ascii) : all_legal (encode signed_char c).
Proof.
  unfold encode. destruct (legal c) eqn:Hc; [split; [exact Hc | exact I]|].
  destruct (char_to_int signed_char c <? 0); [|apply decimal_legal].
  apply all_legal_app. split; [repeat split | apply decimal_legal].
Qed.

Lemma encode_all_is_legal (signed_char : bool) (s : string) :
  all_legal (encode_all signed_char s).
Proof.
  induction s as [|c s IH]; [exact I|]. simpl. apply all_legal_app.
  split; [apply encode_legal | exact IH].
Qed.

(** The loop replaces the characters that are not legal, from left to
    right, and stops. *)
Lemma legalize_encodes (signed_char : bool) (fuel : nat) :
  forall s, (turns signed_char s < fuel)%nat ->
            legalize fuel signed_char s = Returns (encode_all signed_char s).
Proof.
  induction fuel as [|fuel IH]; intros s Hf; [lia|].
  cbn [legalize].
  destruct (first_not_legal s) as [Hs|(p & c & rest & -> & Hp & Hc)].
  - rewrite (find_first_not_of_legal s Hs), (encode_all_legal _ s Hs). reflexivity.
  - destruct (find_first_not_of_at p c rest Hp Hc) as (H1 & H2 & H3).
    rewrite H1, H2, H3.
    rewrite turns_app, (turns_legal _ p Hp) in Hf. cbn [turns] in Hf. rewrite Hc in Hf.
    rewrite encode_all_app, (encode_all_legal _ p Hp). cbn [encode_all].
    unfold encode at 1. rewrite Hc. unfold sprintf_d.
    destruct (char_to_int signed_char c <? 0) eqn:Hneg.
    + rewrite IH.
      * rewrite encode_all_app, (encode_all_legal _ p Hp).
        change (String "-" (decimal (Z.to_nat (- char_to_int signed_char c))) +:+ rest)
          with (String "-" (decimal (Z.to_nat (- char_to_int signed_char c)) +:+ rest)).
        cbn [encode_all].
        assert (Hminus : encode signed_char "-" = "45").
        { unfold encode, char_to_int. destruct signed_char; vm_compute; reflexivity. }
        rewrite Hminus, encode_all_app, (encode_all_legal _ _ (decimal_legal _)).
        rewrite !append_assoc. reflexivity.
      * rewrite turns_app, (turns_legal _ p Hp).
        change (String "-" (decimal (Z.to_nat (- char_to_int signed_char c))) +:+ rest)
          with (String "-" (decimal (Z.to_nat (- char_to_int signed_char c)) +:+ rest)).
        cbn [turns].
        assert (Hl : legal "-" = false) by reflexivity.
        assert (Hi : (char_to_int signed_char "-" <? 0) = false)
          by (destruct signed_char; reflexivity).
        rewrite Hl, Hi, turns_app, (turns_legal _ _ (decimal_legal _)). lia.
    + rewrite IH.
      * rewrite encode_all_app, (encode_all_legal _ p Hp), encode_all_app,
          (encode_all_legal _ _ (decimal_legal _)). reflexivity.
      * rewrite turns_app, (turns_legal _ p Hp), turns_app,
          (turns_legal _ _ (decimal_legal _)). lia.
Qed.

Lemma guarded_find_first_of (c : ascii) (s : string) :
  match find_first_of (String c s) "0123456789" with
  | Some O => String "n" (String c s)
  | _ => String c s
  end = guarded (String c s).
Proof.
  cbn [find_first_of guarded]. rewrite contains_digits.
  destruct (isdigit (ch c)); [reflexivity|].
  destruct (find_first_of s "0123456789"); reflexivity.
Qed.

Lemma MakeLegalFunctionName_nonempty (signed_char : bool) (c : ascii) (s : string) (i : Z) :
  MakeLegalFunctionName signed_char (String c s) i =
    Returns (encode_all signed_char (guarded (String c s)), i).
Proof.
  unfold MakeLegalFunctionName. cbn [String.length Nat.eqb].
  rewrite guarded_find_first_of.
  rewrite legalize_encodes; [reflexivity|].
  pose proof (turns_bound signed_char (guarded (String c s))). lia.
Qed.

(** X24. On a non-empty name MakeLegalFunctionName returns without an
    exception, and its loop amounts to one pass over the name: an n is put in
    front of a name that starts with a digit, then every character that is not
    a letter, digit or underscore is replaced by the decimal digits of its
    code, a negative code of a signed char by 45 (the code of the minus sign)
    and the digits of its absolute value. The counter of GenerateUniqueName is
    not touched. *)
Theorem MakeLegalFunctionName_encodes (signed_char : bool) (Name : string) (i : Z) :
  Name <> "" ->
  MakeLegalFunctionName signed_char Name i =
    Returns (encode_all signed_char (guarded Name), i).
Proof.
  intros Hne. destruct Name as [|c s]; [congruence|].
  apply MakeLegalFunctionName_nonempty.
Qed.

Lemma MakeLegalFunctionName_encodes_witness :
  MakeLegalFunctionName true "1+x" 0 = Returns ("n143x", 0).
Proof.
  rewrite (MakeLegalFunctionName_encodes true "1+x" 0); [|discriminate].
  vm_compute. reflexivity.
Defined.

Lemma append_inv_head (p a b : string) : p +:+ a = p +:+ b -> a = b.
Proof.
  induction p as [|c p IH]; [trivial|]. rewrite !append_cons. intros H.
  injection H as H. exact (IH H).
Qed.

Lemma GenerateUniqueName_Returns (root : string) (i : Z) (r : string) (i' : Z) :
  GenerateUniqueName root i = Returns (r, i') ->
  r = root +:+ sprintf_d i /\ i' = i + 1 /\ i < INT_MAX /\ (String.length r < 16)%nat.
Proof.
  unfold GenerateUniqueName. destruct (Z.leb_spec INT_MAX i) as [|Hi]; [discriminate|].
  destruct (Nat.leb_spec 16 (String.length (root +:+ sprintf_d i))) as [|Hl]; [discriminate|].
  intros H. injection H as <- <-. auto.
Qed.

(** X25. Whenever MakeLegalFunctionName returns, with a counter that is not
    negative, the name it returns is not empty and is made of letters, digits
    and underscores only; the counter is incremented for the empty name and
    for no other. *)
Theorem MakeLegalFunctionName_legal (signed_char : bool) (Name : string) (i : Z)
    (r : string) (i' : Z) :
  0 <= i ->
  MakeLegalFunctionName signed_char Name i = Returns (r, i') ->
  all_legal r /\ r <> "" /\ (Name <> "" -> i' = i) /\ (Name = "" -> i' = i + 1).
Proof.
  intros Hi H. destruct Name as [|c s].
  - unfold MakeLegalFunctionName in H. cbn [String.length Nat.eqb] in H.
    apply GenerateUniqueName_Returns in H as (-> & -> & _).
    unfold sprintf_d. destruct (Z.ltb_spec i 0) as [|_]; [lia|].
    split; [|split; [discriminate | split; [congruence | reflexivity]]].
    apply all_legal_app. split; [repeat split | apply decimal_legal].
  - rewrite MakeLegalFunctionName_nonempty in H. injection H as <- <-.
    split; [apply encode_all_is_legal|]. split; [|split; [reflexivity | discriminate]].
    assert (Hne : forall k, encode signed_char k <> "").
    { intros k. unfold encode. destruct (legal k); [discriminate|].
      destruct (char_to_int signed_char k <? 0); [discriminate|].
      destruct (decimal_head (Z.to_nat (char_to_int signed_char k))) as (d & t & -> & _).
      discriminate. }
    unfold guarded. destruct (isdigit (ch c)); cbn [encode_all].
    + specialize (Hne "n"%char). destruct (encode signed_char "n"); [congruence | discriminate].
    + specialize (Hne c). destruct (encode signed_char c); [congruence | discriminate].
Qed.

Lemma MakeLegalFunctionName_legal_witness :
  all_legal "auto_func_7" /\ all_legal "f45128" /\ "f45128" <> "".
Proof.
  destruct (MakeLegalFunctionName_legal true "" 7 "auto_func_7" 8) as (H1 & _);
    [lia | vm_compute; reflexivity|].
  destruct (MakeLegalFunctionName_legal true (String "f" (String (ascii_of_nat 128) "")) 0
              "f45128" 0) as (H2 & H3 & _);
    [lia | vm_compute; reflexivity|].
  split; [exact H1 | split; [exact H2 | exact H3]].
Defined.

(** X26. A name of letters, digits and underscores that does not start with a
    digit is returned as it is. *)
Theorem MakeLegalFunctionName_keeps_legal (signed_char : bool) (c : ascii) (s : string)
    (i : Z) :
  all_legal (String c s) -> isdigit (ch c) = false ->
  MakeLegalFunctionName signed_char (String c s) i = Returns (String c s, i).
Proof.
  intros Hl Hd. rewrite MakeLegalFunctionName_nonempty.
  unfold guarded. rewrite Hd. rewrite (encode_all_legal _ _ Hl). reflexivity.
Qed.

Lemma MakeLegalFunctionName_keeps_legal_witness :
  MakeLegalFunctionName false "my_func2" 3 = Returns ("my_func2", 3).
Proof.
  apply (MakeLegalFunctionName_keeps_legal false "m" "y_func2" 3);
    [repeat split | reflexivity].
Defined.

Lemma encode_all_code (signed_char : bool) (q : string) (c : ascii) (rest : string) :
  legal c = false -> 0 <= char_to_int signed_char c ->
  encode_all signed_char (q +:+ String c rest) =
  encode_all signed_char (q +:+ decimal (Z.to_nat (char_to_int signed_char c)) +:+ rest).
Proof.
  intros Hc Hpos. rewrite !encode_all_app. f_equal. cbn [encode_all].
  rewrite (encode_all_legal signed_char _ (decimal_legal _)).
  unfold encode. rewrite Hc.
  destruct (Z.ltb_spec (char_to_int signed_char c) 0) as [|_]; [lia | reflexivity].
Qed.

(** X27. MakeLegalFunctionName is not injective: a name with a character that
    is not legal (of non-negative code, and not in front) and the name with
    the digits of the code in its place are different names with the same
    result. *)
Theorem MakeLegalFunctionName_collides (signed_char : bool) (k : ascii) (p : string)
    (c : ascii) (rest : string) (i : Z) :
  legal c = false -> 0 <= char_to_int signed_char c ->
  MakeLegalFunctionName signed_char (String k p +:+ String c rest) i =
  MakeLegalFunctionName signed_char
    (String k p +:+ decimal (Z.to_nat (char_to_int signed_char c)) +:+ rest) i /\
  String k p +:+ String c rest <>
  String k p +:+ decimal (Z.to_nat (char_to_int signed_char c)) +:+ rest.
Proof.
  intros Hc Hpos. split.
  - rewrite !append_cons, !MakeLegalFunctionName_nonempty. f_equal. f_equal.
    unfold guarded. destruct (isdigit (ch k)).
    + exact (encode_all_code signed_char (String "n" (String k p)) c rest Hc Hpos).
    + exact (encode_all_code signed_char (String k p) c rest Hc Hpos).
  - intros H. apply append_inv_head in H.
    destruct (decimal_head (Z.to_nat (char_to_int signed_char c))) as (d & t & Hd & Hdig).
    rewrite Hd, append_cons in H. injection H as -> _.
    rewrite (legal_digit d Hdig) in Hc. discriminate.
Qed.

Lemma MakeLegalFunctionName_collides_witness :
  MakeLegalFunctionName true "a+b" 0 = MakeLegalFunctionName true "a43b" 0 /\
  "a+b" <> "a43b".
Proof.
  apply (MakeLegalFunctionName_collides true "a" "" "+" "b" 0); [reflexivity|].
  vm_compute. discriminate.
Defined.

(** X28. The n that guards against a leading digit is put in before the
    characters are replaced: a name that starts with a character that is not
    legal comes out starting with a digit, and MakeLegalFunctionName applied
    to its own result then gives another name. *)
Theorem MakeLegalFunctionName_leading_digit (signed_char : bool) (c : ascii)
    (rest : string) (i : Z) :
  legal c = false ->
  exists d r,
    MakeLegalFunctionName signed_char (String c rest) i = Returns (String d r, i) /\
    isdigit (ch d) = true /\
    MakeLegalFunctionName signed_char (String d r) i <> Returns (String d r, i).
Proof.
  intros Hc.
  assert (Hnd : isdigit (ch c) = false).
  { destruct (isdigit (ch c)) eqn:E; [|reflexivity].
    rewrite (legal_digit c E) in Hc. discriminate. }
  assert (Hhead : exists d r, encode signed_char c = String d r /\ isdigit (ch d) = true).
  { unfold encode. rewrite Hc. destruct (char_to_int signed_char c <? 0).
    - exists "4"%char. eexists. split; [reflexivity | reflexivity].
    - apply decimal_head. }
  destruct Hhead as (d & r & He & Hd).
  exists d, (r +:+ encode_all signed_char rest).
  rewrite !MakeLegalFunctionName_nonempty. unfold guarded. rewrite Hnd, Hd.
  cbn [encode_all]. rewrite He, append_cons. split; [reflexivity|]. split; [reflexivity|].
  intros H. injection H as Hn _. subst d. discriminate Hd.
Qed.

Lemma MakeLegalFunctionName_leading_digit_witness :
  exists d r,
    MakeLegalFunctionName true "+1" 0 = Returns (String d r, 0) /\
    isdigit (ch d) = true /\
    MakeLegalFunctionName true (String d r) 0 <> Returns (String d r, 0).
Proof.
  apply (MakeLegalFunctionName_leading_digit true "+" "1" 0). reflexivity.
Defined.

(** X29. Two calls of GenerateUniqueName with the same root that return, at
    different non-negative values of the counter, return different names, and
    each adds one to the counter. *)
Theorem GenerateUniqueName_distinct (root : string) (i j : Z) (r1 r2 : string)
    (i' j' : Z) :
  0 <= i -> 0 <= j -> i <> j ->
  GenerateUniqueName root i = Returns (r1, i') ->
  GenerateUniqueName root j = Returns (r2, j') ->
  r1 <> r2 /\ i' = i + 1 /\ j' = j + 1.
Proof.
  intros Hi Hj Hne H1 H2.
  apply GenerateUniqueName_Returns in H1 as (-> & -> & _).
  apply GenerateUniqueName_Returns in H2 as (-> & -> & _).
  split; [|split; reflexivity]. intros H. apply append_inv_head in H.
  unfold sprintf_d in H.
  destruct (Z.ltb_spec i 0) as [|_]; [lia|]. destruct (Z.ltb_spec j 0) as [|_]; [lia|].
  apply decimal_inj in H. lia.
Qed.

Lemma GenerateUniqueName_distinct_witness :
  "auto_func_9" <> "auto_func_10".
Proof.
  destruct (GenerateUniqueName_distinct "auto_func_" 9 10 "auto_func_9" "auto_func_10" 10 11)
    as (H & _); [lia | lia | lia | vm_compute; reflexivity | vm_compute; reflexivity|].
  exact H.
Defined.

(** X30. With the root auto_func_ the buffer char s[16] holds the name for the
    counter values 0 to 99999, for which the name is auto_func_ followed by
    the decimal digits of the counter; from 100000 on sprintf writes behind
    the end of the buffer, which is undefined behaviour. *)
Theorem GenerateUniqueName_buffer (i : Z) :
  0 <= i ->
  (i < 100000 ->
   GenerateUniqueName "auto_func_" i =
     Returns ("auto_func_" +:+ decimal (Z.to_nat i), i + 1)) /\
  (100000 <= i -> GenerateUniqueName "auto_func_" i = Undefined).
Proof.
  intros Hi. unfold GenerateUniqueName, sprintf_d.
  destruct (Z.ltb_spec i 0) as [|_]; [lia|].
  rewrite length_append. change (String.length "auto_func_") with 10%nat.
  pose proof (decimal_length 4 (Z.to_nat i)) as Hlen.
  assert (Hpow : Z.of_nat (10 ^ 5) = 100000) by (rewrite Nat2Z.inj_pow; reflexivity).
  remember (10 ^ 5)%nat as P eqn:EP. clear EP.
  split; intros Hb.
  - destruct (Z.leb_spec INT_MAX i) as [Hm|_]; [unfold INT_MAX in Hm; lia|].
    destruct (Nat.leb_spec 16 (10 + String.length (decimal (Z.to_nat i)))) as [Hl|_];
      [|reflexivity].
    assert (Hlt : (Z.to_nat i < P)%nat) by lia. apply Hlen in Hlt. lia.
  - destruct (Z.leb_spec INT_MAX i) as [_|_]; [reflexivity|].
    destruct (Nat.leb_spec 16 (10 + String.length (decimal (Z.to_nat i)))) as [_|Hl];
      [reflexivity|].
    assert (Hs : (String.length (decimal (Z.to_nat i)) <= 5)%nat) by lia.
    apply Hlen in Hs. lia.
Qed.

Lemma GenerateUniqueName_buffer_witness :
  GenerateUniqueName "auto_func_" 99999 = Returns ("auto_func_99999", 100000) /\
  GenerateUniqueName "auto_func_" 100000 = Undefined.
Proof.
  destruct (GenerateUniqueName_buffer 99999) as [H1 _]; [lia|].
  destruct (GenerateUniqueName_buffer 100000) as [_ H2]; [lia|].
  split; [rewrite H1 by lia; vm_compute; reflexivity | apply H2; lia].
Defined.

(** ** The names of arguments *)

Lemma makeUniqueValueName_O (table : list string) (Name : string) (LastUnique : Z) :
  makeUniqueValueName 0 table Name LastUnique =
    (Name +:+ decimal (Z.to_nat ((LastUnique + 1) mod 4294967296)),
     (LastUnique + 1) mod 4294967296).
Proof. reflexivity. Qed.

Lemma makeUniqueValueName_S (tries : nat) (table : list string) (Name : string)
    (LastUnique : Z) :
  makeUniqueValueName (S tries) table Name LastUnique =
    if taken (Name +:+ decimal (Z.to_nat ((LastUnique + 1) mod 4294967296))) table
    then makeUniqueValueName tries table Name ((LastUnique + 1) mod 4294967296)
    else (Name +:+ decimal (Z.to_nat ((LastUnique + 1) mod 4294967296)),
          (LastUnique + 1) mod 4294967296).
Proof. reflexivity. Qed.

(** When the name that comes out of the loop is taken, so was every name
    that the loop has tried. *)
Lemma makeUniqueValueName_tried (table : list string) (Name : string) :
  forall tries LastUnique,
    taken (fst (makeUniqueValueName tries table Name LastUnique)) table = true ->
    forall k, (1 <= k <= S tries)%nat ->
      taken (Name +:+ decimal (Z.to_nat ((LastUnique + Z.of_nat k) mod 4294967296)))
            table = true.
Proof.
  induction tries as [|tries IH]; intros LastUnique H k Hk.
  - rewrite makeUniqueValueName_O in H. assert (k = 1%nat) as -> by lia. exact H.
  - rewrite makeUniqueValueName_S in H.
    destruct (taken (Name +:+ decimal (Z.to_nat ((LastUnique + 1) mod 4294967296))) table)
      eqn:Ht.
    + destruct (decide (k = 1%nat)) as [->|Hne]; [exact Ht|].
      assert (Hk' : (1 <= k - 1 <= S tries)%nat) by lia.
      pose proof (IH _ H (k - 1)%nat Hk') as H'.
      rewrite Zplus_mod_idemp_l in H'.
      replace (LastUnique + 1 + Z.of_nat (k - 1)) with (LastUnique + Z.of_nat k) in H'
        by lia.
      exact H'.
    + cbn [fst] in H. rewrite Ht in H. discriminate.
Qed.

(** The loop of [createValueName] is left with a name that is free: one
    try more than the table has names is enough, as long as the table has
    fewer names than the counter has values. *)
Lemma makeUniqueValueName_free (table : list string) (Name : string) (LastUnique : Z) :
  Z.of_nat (length table) < 4294967296 ->
  taken (fst (makeUniqueValueName (length table) table Name LastUnique)) table = false.
Proof.
  intros Hlen. apply not_true_is_false. intros H.
  pose proof (makeUniqueValueName_tried table Name _ LastUnique H) as Htried.
  set (name := fun k : nat =>
         Name +:+ decimal (Z.to_nat ((LastUnique + Z.of_nat k) mod 4294967296))) in *.
  assert (Hnd : List.NoDup (map name (seq 1 (S (length table))))).
  { apply NoDup_ListNoDup, NoDup_fmap_2_strong; [|apply NoDup_ListNoDup, List.seq_NoDup].
    intros k1 k2 H1 H2 E.
    apply list_elem_of_In, in_seq in H1. apply list_elem_of_In, in_seq in H2.
    unfold name in E. apply append_inv_head, decimal_inj in E.
    pose proof (Z.mod_pos_bound (LastUnique + Z.of_nat k1) 4294967296 eq_refl) as B1.
    pose proof (Z.mod_pos_bound (LastUnique + Z.of_nat k2) 4294967296 eq_refl) as B2.
    apply Z2Nat.inj in E; [|lia|lia].
    pose proof (Z.div_mod (LastUnique + Z.of_nat k1) 4294967296) as D1.
    pose proof (Z.div_mod (LastUnique + Z.of_nat k2) 4294967296) as D2.
    rewrite E in D1. lia. }
  assert (Hincl : incl (map name (seq 1 (S (length table)))) table).
  { intros x Hx. apply in_map_iff in Hx as (k & <- & Hk). apply in_seq in Hk.
    apply list_elem_of_In, taken_spec, Htried. lia. }
  pose proof (List.NoDup_incl_length Hnd Hincl) as Hle.
  rewrite length_map, length_seq in Hle. lia.
Qed.

(** In the table of a function every name stands for one argument. *)
Lemma setName_table (Idx : nat) (NewName : string) (Fn : Function) :
  Z.of_nat (arg_size Fn) < 4294967296 ->
  (forall i j x, F_args Fn !! i = Some x -> F_args Fn !! j = Some x -> x <> "" -> i = j) ->
  forall i j x,
    F_args (setName Idx NewName Fn) !! i = Some x ->
    F_args (setName Idx NewName Fn) !! j = Some x -> x <> "" -> i = j.
Proof.
  intros Hlen Hok. unfold setName.
  destruct (F_args Fn !! Idx) as [Old|] eqn:HIdx; [|exact Hok].
  destruct (String.eqb Old NewName); [exact Hok|].
  set (table := <[Idx := ""]> (F_args Fn)).
  set (Entry := if String.eqb NewName "" || negb (taken NewName table)
                then (NewName, F_LastUnique Fn)
                else makeUniqueValueName (length table) table NewName (F_LastUnique Fn)).
  assert (Hfree : fst Entry = "" \/ taken (fst Entry) table = false).
  { unfold Entry. destruct (String.eqb_spec NewName "") as [->|Hne]; [left; reflexivity|].
    destruct (taken NewName table) eqn:Ht; simpl; [|right; exact Ht].
    right. apply makeUniqueValueName_free. unfold table. rewrite length_insert.
    exact Hlen. }
  cbn [F_args].
  assert (Hother : forall i x, i <> Idx -> F_args Fn !! i = Some x -> x <> "" ->
            x <> fst Entry).
  { intros i x Hi Hx Hne ->. destruct Hfree as [E|Ht]; [congruence|].
    apply not_true_iff_false in Ht. apply Ht, taken_spec.
    apply list_elem_of_lookup. exists i. unfold table.
    rewrite list_lookup_insert_ne by congruence. exact Hx. }
  intros i j x Hi Hj Hx.
  destruct (decide (i = Idx)) as [->|Hni]; destruct (decide (j = Idx)) as [->|Hnj].
  - reflexivity.
  - rewrite list_lookup_insert_ne in Hj by congruence.
    apply list_lookup_insert_Some in Hi as [(_ & <- & _)|[Hc _]]; [|congruence].
    exfalso. exact (Hother j _ Hnj Hj Hx eq_refl).
  - rewrite list_lookup_insert_ne in Hi by congruence.
    apply list_lookup_insert_Some in Hj as [(_ & <- & _)|[Hc _]]; [|congruence].
    exfalso. exact (Hother i _ Hni Hi Hx eq_refl).
  - rewrite list_lookup_insert_ne in Hi, Hj by congruence. exact (Hok i j x Hi Hj Hx).
Qed.

(** A parameter name that is given twice: the second argument gets the name
    with the counter of the table behind it. *)
Example setName_taken :
  functions (TheModule (session 40 "extern f(a a)")) !! 0%nat =
    Some (mkFunction "f" ["a"; "a1"] [] false 1).
Proof. vm_compute. reflexivity. Qed.

(** A definition whose body does not lower, under the name of a declaration
    that another function calls: the erasure leaves the call behind. *)
Example eraseFromParent_used :
  undefined (session 400 "extern foo(a); def bar(x) foo(x); def foo(a) b;") = true /\
  ~ calls_resolve
      (TheModule (session 400 "extern foo(a); def bar(x) foo(x); def foo(a) b;")).
Proof.
  split; [vm_compute; reflexivity|]. intros H.
  destruct (H 1%nat
              (mkFunction "bar" ["x"] [[Inst (CallInst 0 [Argument 1 0]);
                                        Ret (CallInst 0 [Argument 1 0])]] true 0)
              0%nat) as [Fn HFn].
  - vm_compute. reflexivity.
  - left. reflexivity.
  - vm_compute in HFn. discriminate.
Qed.
